(** * TMR: higher-order reconstruction, error estimation and aggregate
      functionals (src/src/TMRGeometry.c)

    A shallow embedding of the reconstruction kernel of TMR and of the
    functionals built on it.  [TacsScalar] and [double] are idealised as
    the real numbers [R]; C arrays are lists read with [nth _ _ 0];
    collaborators that live outside the translation unit (the forest's
    Lagrange basis, FElibrary, LAPACK, the TACS vectors and elements) are
    section variables. *)

From Stdlib Require Import Reals List Lia Lra ZArith Bool.
Import ListNotations.

Open Scope R_scope.

(** ** Arrays *)

(** [a[i]] for a C array held as a list. *)
Definition rd (a : list R) (i : nat) : R := nth i a 0.

(** Sum of the entries of a list of reals. *)
Definition Rsum (l : list R) : R := fold_right Rplus 0 l.

(** Every entry of the array is zero. *)
Definition all0 (l : list R) : Prop := Forall (fun x => x = 0) l.

(** ** Enrichment basis *)

Module Enrich.

(** [getNum2dEnrich] *)
Definition getNum2dEnrich (order : nat) : nat :=
  if Nat.eqb order 2 then 5%nat
  else if Nat.eqb order 3 then 7%nat
  else 9%nat.

(** [getNum3dEnrich] *)
Definition getNum3dEnrich (order : nat) : nat :=
  if Nat.eqb order 2 then 9%nat else 15%nat.

(** The three output arrays [N], [Na], [Nb] of the 2D evaluator. *)
Record funcs2D := mk2D { N2 : list R; Na2 : list R; Nb2 : list R }.

(** The four output arrays [N], [Na], [Nb], [Nc] of a 3D evaluator. *)
Record funcs3D := mk3D { N3 : list R; Na3 : list R; Nb3 : list R; Nc3 : list R }.

(** [evalEnrichmentFuncs2D(order, pt, knots, N, Na, Nb)]: the overload that
    also emits the derivatives.  Its last branch is a plain [else]. *)
Definition evalEnrichmentFuncs2D (order : nat) (pt knots : list R) : funcs2D :=
  let p0 := rd pt 0 in
  let p1 := rd pt 1 in
  if Nat.eqb order 2 then
    let ca := (1 + p0) * (1 - p0) in
    let cb := (1 + p1) * (1 - p1) in
    let da := -2 * p0 in
    let db := -2 * p1 in
    mk2D [ca; p1 * ca; cb; p0 * cb; ca * cb]
         [da; p1 * da; 0; cb; da * cb]
         [0; ca; db; p0 * db; ca * db]
  else if Nat.eqb order 3 then
    let ca := (1 + p0) * p0 * (1 - p0) in
    let cb := (1 + p1) * p1 * (1 - p1) in
    let da := 1 - 3 * p0 * p0 in
    let db := 1 - 3 * p1 * p1 in
    mk2D [ca; p1 * ca; p1 * p1 * ca; cb; p0 * cb; p0 * p0 * cb; ca * cb]
         [da; p1 * da; p1 * p1 * da; 0; cb; 2 * p0 * cb; da * cb]
         [0; ca; 2 * p1 * ca; db; p0 * db; p0 * p0 * db; ca * db]
  else
    let k1 := rd knots 1 in
    let k2 := rd knots 2 in
    let ca := (1 + p0) * (1 - p0) * ((p0 - k1) * (p0 - k2)) in
    let da := -2 * p0 * (p0 - k1) * (p0 - k2) +
              (1 + p0) * (1 - p0) * (2 * p0 - k1 - k2) in
    let cb := (1 + p1) * (1 - p1) * ((p1 - k1) * (p1 - k2)) in
    let db := -2 * p1 * (p1 - k1) * (p1 - k2) +
              (1 + p1) * (1 - p1) * (2 * p1 - k1 - k2) in
    mk2D [ca; p1 * ca; p1 * p1 * ca; p1 * p1 * p1 * ca;
          cb; p0 * cb; p0 * p0 * cb; p0 * p0 * p0 * cb; ca * cb]
         [da; p1 * da; p1 * p1 * da; p1 * p1 * p1 * da;
          0; cb; 2 * p0 * cb; 3 * p0 * p0 * cb; da * cb]
         [0; ca; 2 * p1 * ca; 3 * p1 * p1 * ca;
          db; p0 * db; p0 * p0 * db; p0 * p0 * p0 * db; ca * db].

(** [evalEnrichmentFuncs2D(order, pt, knots, N)]: the values-only overload.
    Orders other than 2, 3, 4 leave [N] untouched; [N0] is what it held. *)
Definition evalEnrichmentFuncs2D_N (order : nat) (pt knots N0 : list R) : list R :=
  let p0 := rd pt 0 in
  let p1 := rd pt 1 in
  if Nat.eqb order 2 then
    let ca := (1 + p0) * (1 - p0) in
    let cb := (1 + p1) * (1 - p1) in
    [ca; p1 * ca; cb; p0 * cb; ca * cb]
  else if Nat.eqb order 3 then
    let ca := (1 + p0) * p0 * (1 - p0) in
    let cb := (1 + p1) * p1 * (1 - p1) in
    [ca; p1 * ca; p1 * p1 * ca; cb; p0 * cb; p0 * p0 * cb; ca * cb]
  else if Nat.eqb order 4 then
    let k1 := rd knots 1 in
    let k2 := rd knots 2 in
    let ca := (1 + p0) * (1 - p0) * ((p0 - k1) * (p0 - k2)) in
    let cb := (1 + p1) * (1 - p1) * ((p1 - k1) * (p1 - k2)) in
    [ca; p1 * ca; p1 * p1 * ca; p1 * p1 * p1 * ca;
     cb; p0 * cb; p0 * p0 * cb; p0 * p0 * p0 * cb; ca * cb]
  else N0.

(** [eval2ndEnrichmentFuncs3D(pt, N, Na, Nb, Nc)] *)
Definition eval2ndEnrichmentFuncs3D (pt : list R) : funcs3D :=
  let p0 := rd pt 0 in
  let p1 := rd pt 1 in
  let p2 := rd pt 2 in
  let ca := (1 + p0) * (1 - p0) in
  let cb := (1 + p1) * (1 - p1) in
  let cc := (1 + p2) * (1 - p2) in
  let da := -2 * p0 in
  let db := -2 * p1 in
  let dc := -2 * p2 in
  mk3D [ca; p1 * ca; p2 * ca; cb; p0 * cb; p2 * cb; cc; p0 * cc; p1 * cc]
       [da; p1 * da; p2 * da; 0; cb; 0; 0; cc; 0]
       [0; ca; 0; db; p0 * db; p2 * db; 0; 0; cc]
       [0; 0; ca; 0; 0; cb; dc; p0 * dc; p1 * dc].

(** [eval3rdEnrichmentFuncs3D(pt, N, Na, Nb, Nc)] *)
Definition eval3rdEnrichmentFuncs3D (pt : list R) : funcs3D :=
  let p0 := rd pt 0 in
  let p1 := rd pt 1 in
  let p2 := rd pt 2 in
  let ca := (1 + p0) * p0 * (1 - p0) in
  let cb := (1 + p1) * p1 * (1 - p1) in
  let cc := (1 + p2) * p2 * (1 - p2) in
  let da := 1 - 3 * p0 * p0 in
  let db := 1 - 3 * p1 * p1 in
  let dc := 1 - 3 * p2 * p2 in
  mk3D [ca; p1 * ca; p1 * p1 * ca; p2 * ca; p2 * p2 * ca;
        cb; p0 * cb; p0 * p0 * cb; p2 * cb; p2 * p2 * cb;
        cc; p0 * cc; p0 * p0 * cc; p1 * cc; p1 * p1 * cc]
       [da; p1 * da; p1 * p1 * da; p2 * da; p2 * p2 * da;
        0; cb; 2 * p0 * cb; 0; 0;
        0; cc; 2 * p0 * cc; 0; 0]
       [0; ca; 2 * p1 * ca; 0; 0;
        db; p0 * db; p0 * p0 * db; p2 * db; p2 * p2 * db;
        0; 0; 0; cc; 2 * p1 * cc]
       [0; 0; 0; ca; 2 * p2 * ca;
        0; 0; 0; cb; 2 * p2 * cb;
        dc; p0 * dc; p0 * p0 * dc; p1 * dc; p1 * p1 * dc].

(** The dispatch on the order that every 3D caller writes out:
    [if (order == 2) eval2nd... else if (order == 3) eval3rd...]; for
    another order the arrays keep what they held ([old]). *)
Definition evalEnrichmentFuncs3D (order : nat) (pt : list R) (old : funcs3D) : funcs3D :=
  if Nat.eqb order 2 then eval2ndEnrichmentFuncs3D pt
  else if Nat.eqb order 3 then eval3rdEnrichmentFuncs3D pt
  else old.

End Enrich.

(** ** Curvature descriptor *)

Module Curvature.

(** The indicator factor [1 - 16 (val - 1/2)^4]. *)
Definition factor (val : R) : R :=
1 - 16 * (val - 0.5) * (val - 0.5) * (val - 0.5) * (val - 0.5).

Section EvalCurvature.
(** [aggregate_weight] is a member of [TMRCurvatureConstraint]. *)
Variable aggregate_weight : R.

(** [g] holds 3 entries, [H] the 6 entries of the symmetric Hessian in the
    order 00, 01, 02, 11, 12, 22. *)
Variables g H : list R.

Definition gn : R := rd g 0 * rd g 0 + rd g 1 * rd g 1 + rd g 2 * rd g 2.
Definition sqrtgn : R := sqrt gn.

Definition Hf : list R :=
  [ rd H 3 * rd H 5 - rd H 4 * rd H 4;
    rd H 4 * rd H 2 - rd H 1 * rd H 5;
    rd H 1 * rd H 4 - rd H 3 * rd H 2;
    rd H 0 * rd H 5 - rd H 2 * rd H 2;
    rd H 1 * rd H 2 - rd H 0 * rd H 4;
    rd H 0 * rd H 3 - rd H 1 * rd H 1 ].

Definition Hfact : R :=
  rd g 0 * (rd Hf 0 * rd g 0 + rd Hf 1 * rd g 1 + rd Hf 2 * rd g 2) +
  rd g 1 * (rd Hf 1 * rd g 0 + rd Hf 3 * rd g 1 + rd Hf 4 * rd g 2) +
  rd g 2 * (rd Hf 2 * rd g 0 + rd Hf 4 * rd g 1 + rd Hf 5 * rd g 2).

Definition Hprod : R :=
  rd g 0 * (rd H 0 * rd g 0 + rd H 1 * rd g 1 + rd H 2 * rd g 2) +
  rd g 1 * (rd H 1 * rd g 0 + rd H 3 * rd g 1 + rd H 4 * rd g 2) +
  rd g 2 * (rd H 2 * rd g 0 + rd H 4 * rd g 1 + rd H 5 * rd g 2).

(** [KG = 0.0; if (gn != 0.0) KG = Hfact/(gn*gn);] *)
Definition KG : R :=
  if Req_dec_T gn 0 then 0 else Hfact / (gn * gn).

(** [KM = 0.0; if (gn != 0.0) KM = 0.5*(Hprod - gn*tr)/(gn*sqrtgn);] *)
Definition KM : R :=
  if Req_dec_T gn 0 then 0
  else 0.5 * (Hprod - gn * (rd H 0 + rd H 3 + rd H 5)) / (gn * sqrtgn).

Definition sqrtk : R := sqrt (KM * KM - KG).
Definition k1 : R := Rabs (KM + sqrtk).
Definition k2 : R := Rabs (KM - sqrtk).

(** The pair [(kmax, kdiff)] set by the [if (k1 > k2)] statement. *)
Definition kmax_kdiff : R * R :=
  if Rgt_dec k1 k2 then (k1, k2 - k1) else (k2, k1 - k2).

(** [TMRCurvatureConstraint::evalCurvature(val, g, H)] *)
Definition evalCurvature (val : R) : R :=
  let kmax := fst kmax_kdiff in
  let kdiff := snd kmax_kdiff in
  factor val *
  (kmax + ln (1 + exp (aggregate_weight * kdiff)) / aggregate_weight).

End EvalCurvature.

(** *** The descriptor in the words of the specification *)

(** The symmetric 3x3 matrix packed in [H]. *)
Definition sym3 (H : list R) (i j : nat) : R :=
match i, j with
| 0%nat, 0%nat => rd H 0
| 0%nat, 1%nat | 1%nat, 0%nat => rd H 1
| 0%nat, 2%nat | 2%nat, 0%nat => rd H 2
| 1%nat, 1%nat => rd H 3
| 1%nat, 2%nat | 2%nat, 1%nat => rd H 4
| 2%nat, 2%nat => rd H 5
| _, _ => 0
end.

(** Cofactor matrix of a 3x3 matrix, by the cyclic formula. *)
Definition cof3 (M : nat -> nat -> R) (i j : nat) : R :=
let i1 := ((i + 1) mod 3)%nat in let i2 := ((i + 2) mod 3)%nat in
let j1 := ((j + 1) mod 3)%nat in let j2 := ((j + 2) mod 3)%nat in
M i1 j1 * M i2 j2 - M i1 j2 * M i2 j1.

(** [g^T M g] *)
Definition quad3 (M : nat -> nat -> R) (g : list R) : R :=
Rsum (map (fun i => Rsum (map (fun j => rd g i * M i j * rd g j) (seq 0 3)))
          (seq 0 3)).

Definition trace3 (M : nat -> nat -> R) : R := M 0%nat 0%nat + M 1%nat 1%nat + M 2%nat 2%nat.

(** [||g||] *)
Definition norm3 (g : list R) : R := sqrt (gn g).

(** kappa_G and kappa_M as the specification writes them. *)
Definition kappa_G (g H : list R) : R :=
quad3 (cof3 (sym3 H)) g / norm3 g ^ 4.
Definition kappa_M (g H : list R) : R :=
(quad3 (sym3 H) g - norm3 g ^ 2 * trace3 (sym3 H)) / (2 * norm3 g ^ 3).

(** The per-element cost with kappa_max = |kappa_M| + sqrt(..) and
  kappa_min = |kappa_M| - sqrt(..), as the specification writes it. *)
Definition spec_cost (k x : R) (g H : list R) : R :=
let s := sqrt (kappa_M g H * kappa_M g H - kappa_G g H) in
let kappa_max := Rabs (kappa_M g H) + s in
let kappa_min := Rabs (kappa_M g H) - s in
(1 - 16 * (x - 1 / 2) ^ 4) *
(kappa_max + ln (1 + exp (k * (kappa_min - kappa_max))) / k).

End Curvature.
(** ** Collaborators outside the translation unit *)

(** Loop [for (i = 0; i < n; i++) acc += f(i)] on an accumulator that
    holds [init]. *)
Definition accum_from (init : R) (f : nat -> R) (n : nat) : R :=
  fold_left (fun acc i => acc + f i) (seq 0 n) init.

(** The same loop started from 0. *)
Definition accum (f : nat -> R) (n : nat) : R := accum_from 0 f n.

(** FElibrary, Tensor and LAPACK entry points, as the calls use them. *)
Record Lib := {
  (** [FElibrary::jacobian3d(Xd, J)]: the array [J] and the returned value. *)
  jacobian3d : list R -> list R * R;
  (** [Tensor::crossProduct3D(out, a, b)] *)
  crossProduct3D : list R -> list R -> list R;
  (** [Tensor::normalize3D(a)], in place *)
  normalize3D : list R -> list R;
  (** [FElibrary::getGaussPtsWts(n, &pts, &wts)]: returned count, points
      and weights. *)
  getGaussPtsWts : nat -> nat * list R * list R;
  (** [LAPACKdgelss(m, n, nrhs, A, lda = m, b, ldb = m, ...)]: [b] on exit. *)
  LAPACKdgelss : nat -> nat -> nat -> list R -> list R -> list R
}.

(** [TMRPoint] *)
Record TMRPoint := { px : R; py : R; pz : R }.

(** What the code uses of a [TMRQuadForest]. *)
Record QuadForest := {
  quad_order : nat;
  quad_knots : list R;
  (** [evalInterp(pt, N, Na, Nb)] *)
  quad_evalInterp : list R -> Enrich.funcs2D
}.

(** What the code uses of a [TMROctForest]. *)
Record OctForest := {
  oct_order : nat;
  oct_knots : list R;
  (** [evalInterp(pt, N, Na, Nb, Nc)] *)
  oct_evalInterp : list R -> Enrich.funcs3D;
  (** [getNodeConn], [getLocalNodeNumber], [getPoints] *)
  oct_conn : list Z;
  oct_getLocalNodeNumber : Z -> nat;
  oct_points : list TMRPoint
}.

(** What the code uses of a [TACSElement] (and of its constitutive object). *)
Record TACSElement := {
  numNodes : nat;
  (** [computeEnergies(time, &Te, &Pe, Xpts, vars, dvars)]: [(Te, Pe)] *)
  computeEnergies : R -> list R -> list R -> list R -> R * R;
  (** [addLocalizedError(time, err, adjoint, Xpts, vars)]: [err] on exit *)
  addLocalizedError : R -> list R -> list R -> list R -> list R -> list R;
  (** [getConstitutive()->failure(pt, e, &fval)] *)
  failure : list R -> list R -> R
}.

(** One element of a [TACSAssembler]: node numbers (negative for a
    dependent node), node locations and the element object. *)
Record ElemEntry := {
  el_nodes : list Z;
  el_Xpts : list R;
  el_obj : TACSElement
}.

(** What the code uses of the [TACSAssembler] of one process. *)
Record TACSAssembler := {
  getVarsPerNode : nat;
  elems : list ElemEntry;
  (** dependent-node table: the independent nodes and weights of a
      negative node number *)
  depNodes : Z -> list (Z * R);
  (** auxiliary elements, sorted by element number *)
  auxElems : list (nat * TACSElement)
}.

Definition null_element : TACSElement :=
  {| numNodes := 0;
     computeEnergies := fun _ _ _ _ => (0, 0);
     addLocalizedError := fun _ err _ _ _ => err;
     failure := fun _ _ => 0 |}.

(** [tacs->getElement(i, ...)] *)
Definition getElement (tacs : TACSAssembler) (i : nat) : ElemEntry :=
  nth i (elems tacs) {| el_nodes := []; el_Xpts := []; el_obj := null_element |}.

(** The element numbers a loop visits: all of them, or those of the
    optional [element_nums] array. *)
Definition elem_loop (tacs : TACSAssembler) (element_nums : option (list nat)) : list nat :=
  match element_nums with
  | Some l => l
  | None => seq 0 (length (elems tacs))
  end.

(** ** Distributed nodal vectors *)

Module BVec.

(** Modelled from the spec: [TACSBVec] is a collaborator; its contract is
    that of the "Distributed nodal vector" and "Dependent nodes" entries of
    the data model.  The storage maps a node number and a component to a
    value. *)
Definition t := Z -> nat -> R.

(** [zeroEntries] *)
Definition zeroEntries : t := fun _ _ => 0.

(** Add [v] to component [k] of the independent node [n]. *)
Definition add_at (x : t) (n : Z) (k : nat) (v : R) : t :=
  fun n' k' => if (Z.eqb n' n && Nat.eqb k' k)%bool then x n' k' + v else x n' k'.

(** Add-at-index: a value for a dependent node is routed through the
    table to its independent nodes. *)
Definition add_node (dep : Z -> list (Z * R)) (x : t) (n : Z) (k : nat) (v : R) : t :=
  if (0 <=? n)%Z then add_at x n k v
  else fold_left (fun y iw => add_at y (fst iw) k (snd iw * v)) (dep n) x.

(** [setValues(len, nodes, vals, TACS_ADD_VALUES)] on a vector of block
    size [bsize]; [len] is the length of [nodes]. *)
Definition setValues_ADD (dep : Z -> list (Z * R)) (bsize : nat)
    (nodes : list Z) (vals : list R) (x : t) : t :=
  fold_left
    (fun y j =>
       fold_left
         (fun z k => add_node dep z (nth j nodes 0%Z) k (rd vals (bsize * j + k)))
         (seq 0 bsize) y)
    (seq 0 (length nodes)) x.

(** Read-at-index: a dependent node reads the weighted sum of its
    independent nodes. *)
Definition read (dep : Z -> list (Z * R)) (x : t) (n : Z) (k : nat) : R :=
  if (0 <=? n)%Z then x n k
  else Rsum (map (fun iw => snd iw * x (fst iw) k) (dep n)).

(** [getValues(len, nodes, out)] *)
Definition getValues (dep : Z -> list (Z * R)) (bsize : nat)
    (nodes : list Z) (x : t) : list R :=
  flat_map (fun n => map (read dep x n) (seq 0 bsize)) nodes.

(** [beginSetValues/endSetValues(TACS_ADD_VALUES)] followed by
    [beginDistributeValues/endDistributeValues]: every process then sees
    the sum of what the processes added. *)
Definition finalize_distribute (locals : list t) : t :=
  fun n k => Rsum (map (fun x => x n k) locals).

End BVec.

(** [MPI_Allreduce(..., MPI_SUM, comm)] on one scalar per process. *)
Definition MPI_Allreduce_SUM (locals : list R) : R := Rsum locals.

(** [MPI_Allreduce(..., MPI_MAX, comm)] on one scalar per process; a
    communicator has at least one process. *)
Definition MPI_Allreduce_MAX (locals : list R) : R :=
  match locals with
  | [] => 0
  | x :: rest => fold_left Rmax rest x
  end.

(** ** Jacobian kernel, nodal derivatives and patch reconstruction *)

Module Recon.
Import Enrich.

(** Knot positions in loop order: [jj] outer, [ii] inner. *)
Definition knots2 (order : nat) : list (nat * nat) :=
  flat_map (fun jj => map (fun ii => (ii, jj)) (seq 0 order)) (seq 0 order).

(** Knot positions in loop order: [kk] outer, [jj], [ii] inner. *)
Definition knots3 (order : nat) : list (nat * nat * nat) :=
  flat_map (fun kk =>
    flat_map (fun jj => map (fun ii => (ii, jj, kk)) (seq 0 order)) (seq 0 order))
    (seq 0 order).

(** [computeJacobianTrans2D]: [(Xd, J, return value)] *)
Definition computeJacobianTrans2D (lib : Lib) (Xpts Na Nb : list R) (num_nodes : nat)
  : list R * list R * R :=
  let col c Nx := accum (fun i => rd Xpts (3 * i + c) * rd Nx i) num_nodes in
  let r0 := [col 0%nat Na; col 1%nat Na; col 2%nat Na] in
  let r1 := [col 0%nat Nb; col 1%nat Nb; col 2%nat Nb] in
  let Xd := r0 ++ r1 ++ normalize3D lib (crossProduct3D lib r0 r1) in
  (Xd, fst (jacobian3d lib Xd), snd (jacobian3d lib Xd)).

(** [computeJacobianTrans3D]: [(Xd, J, return value)] *)
Definition computeJacobianTrans3D (lib : Lib) (Xpts Na Nb Nc : list R) (num_nodes : nat)
  : list R * list R * R :=
  let col c Nx := accum (fun i => rd Xpts (3 * i + c) * rd Nx i) num_nodes in
  let Xd := [col 0%nat Na; col 1%nat Na; col 2%nat Na;
             col 0%nat Nb; col 1%nat Nb; col 2%nat Nb;
             col 0%nat Nc; col 1%nat Nc; col 2%nat Nc] in
  (Xd, fst (jacobian3d lib Xd), snd (jacobian3d lib Xd)).

(** The weights [wvals] of [computeElemRecon2D]. *)
Definition wvals2D (order : nat) : list R :=
  if Nat.eqb order 2 then [1; 1]
  else if Nat.eqb order 3 then [0.5; 1; 0.5]
  else [0.5; 1; 1; 0.5].

(** The weights [wvals] of [computeElemRecon3D]; another order leaves the
    array unset, which reads as 0 here. *)
Definition wvals3D (order : nat) : list R :=
  if Nat.eqb order 2 then [1; 1]
  else if Nat.eqb order 3 then [0.5; 1; 0.5]
  else [].

(** *** Nodal derivatives *)

(** [U += uelem[k + vars_per_node*i]*Nx[i]] over the [num] nodes: the
    derivative of variable [k] along one parametric direction. *)
Definition Uderiv (vpn : nat) (uelem Nx : list R) (num k : nat) : R :=
  accum (fun i => rd uelem (k + vpn * i) * rd Nx i) num.

(** The physical-space gradient from the parametric derivatives [Ua], [Ub]
    of a quad: rows 0, 1 of each line of [J]. *)
Definition grad2D (J : list R) (Ua Ub : R) : list R :=
  [ Ua * rd J 0 + Ub * rd J 1;
    Ua * rd J 3 + Ub * rd J 4;
    Ua * rd J 6 + Ub * rd J 7 ].

(** The physical-space gradient from [Ua], [Ub], [Uc] of an oct. *)
Definition grad3D (J : list R) (Ua Ub Uc : R) : list R :=
  [ Ua * rd J 0 + Ub * rd J 1 + Uc * rd J 2;
    Ua * rd J 3 + Ub * rd J 4 + Uc * rd J 5;
    Ua * rd J 6 + Ub * rd J 7 + Uc * rd J 8 ].

(** The gradient sample of variable [k] that [computeNodeDeriv2D] forms at
    the knot [(ii, jj)], before the weighting by [winv]. *)
Definition sample2D (lib : Lib) (forest : QuadForest) (vpn : nat)
    (Xpts uelem : list R) (ii jj k : nat) : list R :=
  let order := quad_order forest in
  let pt := [rd (quad_knots forest) ii; rd (quad_knots forest) jj] in
  let f := quad_evalInterp forest pt in
  let '(_, J, _) := computeJacobianTrans2D lib Xpts (Na2 f) (Nb2 f) (order * order) in
  grad2D J (Uderiv vpn uelem (Na2 f) (order * order) k)
           (Uderiv vpn uelem (Nb2 f) (order * order) k).

(** The array [delem] that the knot loops of [computeNodeDeriv2D] fill for
    one element. *)
Definition nodeDeriv2D_elem (lib : Lib) (forest : QuadForest) (vpn : nat)
    (nodes : list Z) (Xpts welem uelem : list R) : list R :=
  let order := quad_order forest in
  flat_map (fun '(ii, jj) =>
    let winv := 1 / rd welem (ii + jj * order) in
    if (0 <=? nth (ii + jj * order) nodes 0%Z)%Z then
      flat_map (fun k => map (fun d => winv * d)
                             (sample2D lib forest vpn Xpts uelem ii jj k))
               (seq 0 vpn)
    else
      flat_map (fun k => [0; 0; 0]) (seq 0 vpn))
    (knots2 order).

(** [computeNodeDeriv2D] up to the end of the element loop: what one
    process has added to [uderiv]. *)
Definition computeNodeDeriv2D_local (lib : Lib) (forest : QuadForest)
    (tacs : TACSAssembler) (uvec weights : BVec.t)
    (element_nums : option (list nat)) : BVec.t :=
  let vpn := getVarsPerNode tacs in
  fold_left
    (fun uderiv elem =>
       let e := getElement tacs elem in
       let welem := BVec.getValues (depNodes tacs) 1 (el_nodes e) weights in
       let uelem := BVec.getValues (depNodes tacs) vpn (el_nodes e) uvec in
       let delem := nodeDeriv2D_elem lib forest vpn (el_nodes e) (el_Xpts e) welem uelem in
       BVec.setValues_ADD (depNodes tacs) (3 * vpn) (el_nodes e) delem uderiv)
    (elem_loop tacs element_nums) BVec.zeroEntries.

(** [computeNodeDeriv2D]: the element loops of the processes, then the
    parallel addition and the distribution. *)
Definition computeNodeDeriv2D (lib : Lib)
    (procs : list (QuadForest * TACSAssembler * option (list nat)))
    (uvec weights : BVec.t) : BVec.t :=
  BVec.finalize_distribute
    (map (fun '(forest, tacs, element_nums) =>
            computeNodeDeriv2D_local lib forest tacs uvec weights element_nums)
         procs).

(** The gradient sample of variable [k] that [computeNodeDeriv3D] forms at
    the knot [(ii, jj, kk)], before the weighting by [winv]. *)
Definition sample3D (lib : Lib) (forest : OctForest) (vpn : nat)
    (Xpts uelem : list R) (ii jj kk k : nat) : list R :=
  let order := oct_order forest in
  let pt := [rd (oct_knots forest) ii; rd (oct_knots forest) jj;
             rd (oct_knots forest) kk] in
  let f := oct_evalInterp forest pt in
  let '(_, J, _) :=
    computeJacobianTrans3D lib Xpts (Na3 f) (Nb3 f) (Nc3 f) (order * order * order) in
  grad3D J (Uderiv vpn uelem (Na3 f) (order * order * order) k)
           (Uderiv vpn uelem (Nb3 f) (order * order * order) k)
           (Uderiv vpn uelem (Nc3 f) (order * order * order) k).

(** The array [delem] that the knot loops of [computeNodeDeriv3D] fill for
    one element. *)
Definition nodeDeriv3D_elem (lib : Lib) (forest : OctForest) (vpn : nat)
    (nodes : list Z) (Xpts welem uelem : list R) : list R :=
  let order := oct_order forest in
  flat_map (fun '(ii, jj, kk) =>
    let s := (ii + jj * order + kk * order * order)%nat in
    let winv := 1 / rd welem s in
    if (0 <=? nth s nodes 0%Z)%Z then
      flat_map (fun k => map (fun d => winv * d)
                             (sample3D lib forest vpn Xpts uelem ii jj kk k))
               (seq 0 vpn)
    else
      flat_map (fun k => [0; 0; 0]) (seq 0 vpn))
    (knots3 order).

(** [computeNodeDeriv3D] up to the end of the element loop. *)
Definition computeNodeDeriv3D_local (lib : Lib) (forest : OctForest)
    (tacs : TACSAssembler) (uvec weights : BVec.t)
    (element_nums : option (list nat)) : BVec.t :=
  let vpn := getVarsPerNode tacs in
  fold_left
    (fun uderiv elem =>
       let e := getElement tacs elem in
       let welem := BVec.getValues (depNodes tacs) 1 (el_nodes e) weights in
       let uelem := BVec.getValues (depNodes tacs) vpn (el_nodes e) uvec in
       let delem := nodeDeriv3D_elem lib forest vpn (el_nodes e) (el_Xpts e) welem uelem in
       BVec.setValues_ADD (depNodes tacs) (3 * vpn) (el_nodes e) delem uderiv)
    (elem_loop tacs element_nums) BVec.zeroEntries.

(** [computeNodeDeriv3D] *)
Definition computeNodeDeriv3D (lib : Lib)
    (procs : list (OctForest * TACSAssembler * option (list nat)))
    (uvec weights : BVec.t) : BVec.t :=
  BVec.finalize_distribute
    (map (fun '(forest, tacs, element_nums) =>
            computeNodeDeriv3D_local lib forest tacs uvec weights element_nums)
         procs).

(** [computeLocalWeights] up to the end of the element loop. *)
Definition computeLocalWeights_local (tacs : TACSAssembler)
    (element_nums : option (list nat)) : BVec.t :=
  fold_left
    (fun weights elem =>
       let e := getElement tacs elem in
       let welem := map (fun n => if (n <? 0)%Z then 0 else 1) (el_nodes e) in
       BVec.setValues_ADD (depNodes tacs) 1 (el_nodes e) welem weights)
    (elem_loop tacs element_nums) BVec.zeroEntries.

(** [computeLocalWeights] *)
Definition computeLocalWeights
    (procs : list (TACSAssembler * option (list nat))) : BVec.t :=
  BVec.finalize_distribute
    (map (fun '(tacs, element_nums) => computeLocalWeights_local tacs element_nums)
         procs).

(** *** Patch reconstruction *)

(** [ubar[vars_per_node*i + j] = b[m*j + i]] *)
Definition copy_ubar (vpn nenrich m : nat) (b : list R) : list R :=
  flat_map (fun i => map (fun j => rd b (m * j + i)) (seq 0 vpn)) (seq 0 nenrich).

(** The right-hand side [b] that [computeElemRecon2D] hands to LAPACK:
    column [k] holds two rows per knot, in knot order. *)
Definition recon2D_rhs (lib : Lib) (vpn : nat) (forest refined_forest : QuadForest)
    (Xpts uvals uderiv : list R) : list R :=
  let order := quad_order forest in
  let refined_order := quad_order refined_forest in
  let knots := quad_knots forest in
  let wvals := wvals2D order in
  flat_map (fun k =>
    flat_map (fun '(ii, jj) =>
      let pt := [rd knots ii; rd knots jj] in
      let fr := quad_evalInterp refined_forest pt in
      let '(Xd, J, _) :=
        computeJacobianTrans2D lib Xpts (Na2 fr) (Nb2 fr) (refined_order * refined_order) in
      let d1 := normalize3D lib [rd Xd 0; rd Xd 1; rd Xd 2] in
      let d2 := crossProduct3D lib [rd Xd 6; rd Xd 7; rd Xd 8] d1 in
      let ud r := rd uderiv (3 * vpn * (ii + order * jj) + 3 * k + r) in
      let f := quad_evalInterp forest pt in
      let d := grad2D J (Uderiv vpn uvals (Na2 f) (order * order) k)
                        (Uderiv vpn uvals (Nb2 f) (order * order) k) in
      let w := rd wvals ii * rd wvals jj in
      [ w * (rd d1 0 * ud 0%nat + rd d1 1 * ud 1%nat + rd d1 2 * ud 2%nat)
        - w * (rd d1 0 * rd d 0 + rd d1 1 * rd d 1 + rd d1 2 * rd d 2);
        w * (rd d2 0 * ud 0%nat + rd d2 1 * ud 1%nat + rd d2 2 * ud 2%nat)
        - w * (rd d2 0 * rd d 0 + rd d2 1 * rd d 1 + rd d2 2 * rd d 2) ])
      (knots2 order))
    (seq 0 vpn).

(** The matrix [A] of [computeElemRecon2D], column-major: column [i] holds
    the rows of enrichment function [i]. *)
Definition recon2D_mat (lib : Lib) (forest refined_forest : QuadForest)
    (Xpts : list R) : list R :=
  let order := quad_order forest in
  let refined_order := quad_order refined_forest in
  let knots := quad_knots forest in
  let wvals := wvals2D order in
  flat_map (fun i =>
    flat_map (fun '(ii, jj) =>
      let pt := [rd knots ii; rd knots jj] in
      let fr := quad_evalInterp refined_forest pt in
      let '(Xd, J, _) :=
        computeJacobianTrans2D lib Xpts (Na2 fr) (Nb2 fr) (refined_order * refined_order) in
      let d1 := normalize3D lib [rd Xd 0; rd Xd 1; rd Xd 2] in
      let d2 := crossProduct3D lib [rd Xd 6; rd Xd 7; rd Xd 8] d1 in
      let e := evalEnrichmentFuncs2D order pt (quad_knots refined_forest) in
      let d := grad2D J (rd (Na2 e) i) (rd (Nb2 e) i) in
      let w := rd wvals ii * rd wvals jj in
      [ w * (rd d1 0 * rd d 0 + rd d1 1 * rd d 1 + rd d1 2 * rd d 2);
        w * (rd d2 0 * rd d 0 + rd d2 1 * rd d 1 + rd d2 2 * rd d 2) ])
      (knots2 order))
    (seq 0 (getNum2dEnrich order)).

(** [computeElemRecon2D]: the coefficients [ubar]. *)
Definition computeElemRecon2D (lib : Lib) (vpn : nat)
    (forest refined_forest : QuadForest) (Xpts uvals uderiv : list R) : list R :=
  let order := quad_order forest in
  let nenrich := getNum2dEnrich order in
  let neq := (2 * order * order)%nat in
  let A := recon2D_mat lib forest refined_forest Xpts in
  let b := recon2D_rhs lib vpn forest refined_forest Xpts uvals uderiv in
  copy_ubar vpn nenrich neq (LAPACKdgelss lib neq nenrich vpn A b).

(** The right-hand side [b] of [computeElemRecon3D]: column [k] holds three
    rows per knot, in knot order. *)
Definition recon3D_rhs (lib : Lib) (vpn : nat) (forest refined_forest : OctForest)
    (Xpts uvals uderiv : list R) : list R :=
  let order := oct_order forest in
  let refined_order := oct_order refined_forest in
  let knots := oct_knots forest in
  let wvals := wvals3D order in
  flat_map (fun k =>
    flat_map (fun '(ii, jj, kk) =>
      let pt := [rd knots ii; rd knots jj; rd knots kk] in
      let fr := oct_evalInterp refined_forest pt in
      let '(_, J, _) :=
        computeJacobianTrans3D lib Xpts (Na3 fr) (Nb3 fr) (Nc3 fr)
          (refined_order * refined_order * refined_order) in
      let ud r := rd uderiv
        (3 * vpn * (ii + order * jj + order * order * kk) + 3 * k + r) in
      let f := oct_evalInterp forest pt in
      let d := grad3D J (Uderiv vpn uvals (Na3 f) (order * order * order) k)
                        (Uderiv vpn uvals (Nb3 f) (order * order * order) k)
                        (Uderiv vpn uvals (Nc3 f) (order * order * order) k) in
      let w := rd wvals ii * rd wvals jj * rd wvals kk in
      [ w * ud 0%nat - w * rd d 0;
        w * ud 1%nat - w * rd d 1;
        w * ud 2%nat - w * rd d 2 ])
      (knots3 order))
    (seq 0 vpn).

(** The matrix [A] of [computeElemRecon3D], column-major. *)
Definition recon3D_mat (lib : Lib) (forest refined_forest : OctForest)
    (Xpts : list R) : list R :=
  let order := oct_order forest in
  let refined_order := oct_order refined_forest in
  let knots := oct_knots forest in
  let wvals := wvals3D order in
  flat_map (fun i =>
    flat_map (fun '(ii, jj, kk) =>
      let pt := [rd knots ii; rd knots jj; rd knots kk] in
      let fr := oct_evalInterp refined_forest pt in
      let '(_, J, _) :=
        computeJacobianTrans3D lib Xpts (Na3 fr) (Nb3 fr) (Nc3 fr)
          (refined_order * refined_order * refined_order) in
      let e := evalEnrichmentFuncs3D order pt (mk3D [] [] [] []) in
      let d := grad3D J (rd (Na3 e) i) (rd (Nb3 e) i) (rd (Nc3 e) i) in
      let w := rd wvals ii * rd wvals jj * rd wvals kk in
      [ w * rd d 0; w * rd d 1; w * rd d 2 ])
      (knots3 order))
    (seq 0 (getNum3dEnrich order)).

(** [computeElemRecon3D]: the coefficients [ubar]. *)
Definition computeElemRecon3D (lib : Lib) (vpn : nat)
    (forest refined_forest : OctForest) (Xpts uvals uderiv : list R) : list R :=
  let order := oct_order forest in
  let nenrich := getNum3dEnrich order in
  let neq := (3 * order * order * order)%nat in
  let A := recon3D_mat lib forest refined_forest Xpts in
  let b := recon3D_rhs lib vpn forest refined_forest Xpts uvals uderiv in
  copy_ubar vpn nenrich neq (LAPACKdgelss lib neq nenrich vpn A b).

End Recon.

(** ** Heap buffers with checked writes *)

Module Mem.

(** A buffer obtained from [new TacsScalar[n]] is a list of [n] cells;
    a write outside it yields [None]. *)
Definition alloc (n : nat) : list R := repeat 0 n.

Definition bind {A B : Type} (a : option A) (f : A -> option B) : option B :=
  match a with
  | Some x => f x
  | None => None
  end.

(** [buf[i] = v] *)
Definition store (buf : list R) (i : nat) (v : R) : option (list R) :=
  if Nat.ltb i (length buf)
  then Some (firstn i buf ++ v :: skipn (S i) buf)
  else None.

(** [buf[i] += v] *)
Definition add_to (buf : list R) (i : nat) (v : R) : option (list R) :=
  store buf i (rd buf i + v).

(** A [for] loop over the values of [l] on a state that a failed write
    invalidates. *)
Definition for_ {A S : Type} (l : list A) (body : A -> S -> option S) (s : S)
  : option S :=
  fold_left (fun acc a => bind acc (body a)) l (Some s).

(** [memset(buf, 0, n*sizeof(TacsScalar))] *)
Definition memset0 (buf : list R) (n : nat) : option (list R) :=
  for_ (seq 0 n) (fun i b => store b i 0) buf.

End Mem.

(** ** Refined-field builder *)

Module Refine.
Import Enrich.

(** The statements of [addRefinedSolution3D] on the scratch buffer [uref]
    for one element: the [memset], the knot loops and the zeroing of the
    dependent slots. *)
Definition fill_uref3D (forest refined_forest : OctForest) (vpn : nat)
    (compute_difference : bool) (uelem ubar : list R) (refined_nodes : list Z)
    (uref : list R) : option (list R) :=
  let order := oct_order forest in
  let refined_order := oct_order refined_forest in
  let refined_knots := oct_knots refined_forest in
  let num_refined_nodes := (refined_order * refined_order * refined_order)%nat in
  let nenrich := getNum3dEnrich order in
  Mem.bind (Mem.memset0 uref (vpn * num_refined_nodes)) (fun uref =>
  Mem.bind
    (Mem.for_ (seq 0 refined_order) (fun p =>
     Mem.for_ (seq 0 refined_order) (fun m =>
     Mem.for_ (seq 0 refined_order) (fun n uref =>
       let pt := [rd refined_knots n; rd refined_knots m; rd refined_knots p] in
       let offset := (n + refined_order * m + refined_order * refined_order * p)%nat in
       let Nr := N3 (evalEnrichmentFuncs3D order pt (mk3D [] [] [] [])) in
       let add_enrich :=
         Mem.for_ (seq 0 vpn) (fun i =>
         Mem.for_ (seq 0 nenrich) (fun k u =>
           Mem.add_to u (vpn * offset + i) (rd Nr k * rd ubar (i + vpn * k)))) in
       if compute_difference then add_enrich uref
       else
         let N := N3 (oct_evalInterp forest pt) in
         Mem.bind
           (Mem.for_ (seq 0 vpn) (fun i =>
            Mem.for_ (seq 0 (order * order * order)) (fun k u =>
              Mem.add_to u (vpn * offset + i) (rd N k * rd uelem (i + vpn * k))))
              uref)
           add_enrich))) uref)
    (fun uref =>
     Mem.for_ (seq 0 num_refined_nodes) (fun i uref =>
       if (nth i refined_nodes 0 <? 0)%Z then
         Mem.for_ (seq 0 vpn) (fun j u => Mem.store u (vpn * i + j) 0) uref
       else Some uref) uref)).

(** [addRefinedSolution3D] on one process: the scratch buffer and the
    refined vector after the element loop, or [None] after a write outside
    [uref]. *)
Definition addRefinedSolution3D (lib : Lib)
    (forest : OctForest) (tacs : TACSAssembler)
    (refined_forest : OctForest) (refined_tacs : TACSAssembler)
    (vec vecDeriv vec_refined : BVec.t) (compute_difference : bool)
    (element_nums : option (list nat)) : option (list R * BVec.t) :=
  let vpn := getVarsPerNode tacs in
  let order := oct_order forest in
  let uref := Mem.alloc (vpn * order * order * order) in
  Mem.for_ (elem_loop tacs element_nums) (fun elem '(uref, vec_refined) =>
    let nodes := el_nodes (getElement tacs elem) in
    let uelem := BVec.getValues (depNodes tacs) vpn nodes vec in
    let delem := BVec.getValues (depNodes tacs) (3 * vpn) nodes vecDeriv in
    let Xpts := el_Xpts (getElement refined_tacs elem) in
    let ubar := Recon.computeElemRecon3D lib vpn forest refined_forest Xpts uelem delem in
    let refined_nodes := el_nodes (getElement refined_tacs elem) in
    Mem.bind (fill_uref3D forest refined_forest vpn compute_difference
                uelem ubar refined_nodes uref)
      (fun uref =>
         Some (uref, BVec.setValues_ADD (depNodes refined_tacs) vpn
                       refined_nodes uref vec_refined)))
    (uref, vec_refined).

End Refine.

(** ** Error estimators *)

Module ErrorEst.
Import Enrich.

(** Modelled from the spec: [tacs->getElement(i, NULL, vars)] hands out the
    element's slice of the assembler's variables, which are the vector
    [uvec] that [tacs->getVariables(uvec)] fills. *)
Definition getElementVars (tacs : TACSAssembler) (uvec : BVec.t) (i : nat) : list R :=
  BVec.getValues (depNodes tacs) (getVarsPerNode tacs)
    (el_nodes (getElement tacs i)) uvec.

(** The knot loops of the quad [TMR_StrainEnergyErrorEst] on [vars_interp],
    after its [memset]. *)
Definition interp_enrichment2D (forest refined_forest : QuadForest) (vpn : nat)
    (ubar vars_interp : list R) : option (list R) :=
  let order := quad_order forest in
  let refined_order := quad_order refined_forest in
  let refined_knots := quad_knots refined_forest in
  let nenrich := getNum2dEnrich order in
  Mem.bind (Mem.memset0 vars_interp (vpn * (refined_order * refined_order)))
    (Mem.for_ (seq 0 refined_order) (fun m =>
     Mem.for_ (seq 0 refined_order) (fun n =>
       let pt := [rd refined_knots n; rd refined_knots m] in
       let Nr := evalEnrichmentFuncs2D_N order pt refined_knots [] in
       Mem.for_ (seq 0 nenrich) (fun k =>
       Mem.for_ (seq 0 vpn) (fun kk v =>
         Mem.add_to v (vpn * (n + m * refined_order) + kk)
                    (rd ubar (vpn * k + kk) * rd Nr k)))))).

(** The element loop of the quad [TMR_StrainEnergyErrorEst] on one process:
    the array [error] and [SE_total_error] before the reduction. *)
Definition StrainEnergy2D_local (lib : Lib)
    (forest : QuadForest) (tacs : TACSAssembler)
    (forest_refined : QuadForest) (tacs_refined : TACSAssembler)
    (uvec uderiv : BVec.t) : option (list R * R) :=
  let vpn := getVarsPerNode tacs in
  let refined_order := quad_order forest_refined in
  let num_refined_nodes := (refined_order * refined_order)%nat in
  Mem.bind (Mem.memset0 (Mem.alloc (vpn * num_refined_nodes)) (vpn * num_refined_nodes))
  (fun dvars =>
  Mem.bind
    (Mem.for_ (seq 0 (length (elems tacs)))
      (fun i '(vars_interp, error, SE_total_error) =>
        let time := 0 in
        let vars_elem := getElementVars tacs uvec i in
        let nodes := el_nodes (getElement tacs i) in
        let delem := BVec.getValues (depNodes tacs) (3 * vpn) nodes uderiv in
        let Xpts := el_Xpts (getElement tacs_refined i) in
        let elem := el_obj (getElement tacs_refined i) in
        let ubar := Recon.computeElemRecon2D lib vpn forest forest_refined
                      Xpts vars_elem delem in
        Mem.bind (interp_enrichment2D forest forest_refined vpn ubar vars_interp)
          (fun vars_interp =>
             let Pe := snd (computeEnergies elem time Xpts vars_interp dvars) in
             let err := Rabs Pe in
             Some (vars_interp, error ++ [err], SE_total_error + err)))
      (Mem.alloc (vpn * num_refined_nodes), [], 0))
    (fun '(_, error, SE_total_error) => Some (error, SE_total_error))).

(** The quad [TMR_StrainEnergyErrorEst]: the [error] array of every process
    and the returned value. *)
Definition TMR_StrainEnergyErrorEst2D (lib : Lib)
    (procs : list (QuadForest * TACSAssembler * QuadForest * TACSAssembler))
    (uvec : BVec.t) : option (list (list R) * R) :=
  let weights :=
    Recon.computeLocalWeights (map (fun '(_, tacs, _, _) => (tacs, None)) procs) in
  let uderiv :=
    Recon.computeNodeDeriv2D lib
      (map (fun '(forest, tacs, _, _) => (forest, tacs, None)) procs) uvec weights in
  Mem.bind
    (Mem.for_ procs (fun '(forest, tacs, forest_refined, tacs_refined) acc =>
       Mem.bind (StrainEnergy2D_local lib forest tacs forest_refined tacs_refined
                   uvec uderiv)
         (fun r => Some (acc ++ [r])))
      [])
    (fun locals =>
       Some (map fst locals, MPI_Allreduce_SUM (map snd locals))).

(** The loop [while (aux_count < num_aux_elems && aux[aux_count].num == elem)]:
    the array [err] and the auxiliary elements not yet consumed. *)
Fixpoint aux_errors (aux : list (nat * TACSElement)) (elem : nat)
    (time : R) (err adj Xpts vars : list R)
  : list R * list (nat * TACSElement) :=
  match aux with
  | (num, a) :: rest =>
      if Nat.eqb num elem
      then aux_errors rest elem time (addLocalizedError a time err adj Xpts vars)
             adj Xpts vars
      else (err, aux)
  | [] => (err, [])
  end.

(** First element loop of [TMR_AdjointErrorEst] (both overloads): the array
    [err], the unconsumed auxiliary elements, [total_adjoint_corr] and what
    the process has added to [nodal_error]. *)
Definition adjoint_deposit (tacs_refined : TACSAssembler)
    (num_refined_nodes nelems : nat) (solution_refined adjoint_refined : BVec.t)
  : option (list R * list (nat * TACSElement) * R * BVec.t) :=
  let vpn := getVarsPerNode tacs_refined in
  Mem.for_ (seq 0 nelems)
    (fun elem '(err, aux, total_adjoint_corr, nodal_error) =>
       let time := 0 in
       let refine_nodes := el_nodes (getElement tacs_refined elem) in
       let Xpts := el_Xpts (getElement tacs_refined elem) in
       let element := el_obj (getElement tacs_refined elem) in
       let vars_interp :=
         BVec.getValues (depNodes tacs_refined) vpn refine_nodes solution_refined in
       let adj_interp :=
         BVec.getValues (depNodes tacs_refined) vpn refine_nodes adjoint_refined in
       Mem.bind (Mem.memset0 err (numNodes element)) (fun err =>
         let err := addLocalizedError element time err adj_interp Xpts vars_interp in
         let '(err, aux) := aux_errors aux elem time err adj_interp Xpts vars_interp in
         let corr := accum_from total_adjoint_corr (rd err) (numNodes element) in
         Some (err, aux, corr,
               BVec.setValues_ADD (depNodes tacs_refined) 1 refine_nodes err
                 nodal_error)))
    (Mem.alloc num_refined_nodes, auxElems tacs_refined, 0, BVec.zeroEntries).

(** A loop [for (j = 0; j < bound; j += step)] with at most [fuel]
    iterations; [None] when the fuel runs out. *)
Fixpoint stride_loop {S : Type} (fuel j step bound : nat)
    (body : nat -> S -> S) (s : S) : option S :=
  match fuel with
  | O => None
  | Datatypes.S fuel' =>
      if Nat.ltb j bound
      then stride_loop fuel' (j + step) step bound body (body j s)
      else Some s
  end.

(** The element indicator of the quad overload: the two strided loops over
    the array [err], then [0.25*fabs(.)]. *)
Definition quad_indicator (fuel refined_order : nat) (err : list R) : option R :=
  Mem.bind
    (stride_loop fuel 0 (refined_order - 1) refined_order
       (fun j acc =>
          Mem.bind acc (fun e =>
            stride_loop fuel 0 (refined_order - 1) refined_order
              (fun i e => e + rd err (i + j * refined_order)) e))
       (Some 0))
    (fun r => Mem.bind r (fun e => Some (0.25 * Rabs e))).

(** The element indicator of the oct overload. *)
Definition oct_indicator (refined_order : nat) (err : list R) : R :=
  let estimate :=
    fold_left (fun est k =>
      fold_left (fun est j =>
        fold_left (fun est i =>
          est + rd err ((refined_order - 1) * i +
                        (refined_order - 1) * j * refined_order +
                        (refined_order - 1) * k * refined_order * refined_order))
          (seq 0 2) est)
        (seq 0 2) est)
      (seq 0 2) 0 in
  0.125 * Rabs estimate.

(** Second element loop of the quad [TMR_AdjointErrorEst] on one process:
    the array [error] and [total_error_remain]. *)
Definition quad_indicators (fuel : nat) (tacs_refined : TACSAssembler)
    (refined_order nelems : nat) (nodal_error : BVec.t) : option (list R * R) :=
  Mem.for_ (seq 0 nelems) (fun elem '(error, total_error_remain) =>
    let refine_nodes := el_nodes (getElement tacs_refined elem) in
    let err := BVec.getValues (depNodes tacs_refined) 1 refine_nodes nodal_error in
    Mem.bind (quad_indicator fuel refined_order err) (fun e =>
      Some (error ++ [e], total_error_remain + e)))
    ([], 0).

(** Second element loop of the oct [TMR_AdjointErrorEst] on one process. *)
Definition oct_indicators (tacs_refined : TACSAssembler)
    (refined_order nelems : nat) (nodal_error : BVec.t) : list R * R :=
  fold_left (fun '(error, total_error_remain) elem =>
    let nodes := el_nodes (getElement tacs_refined elem) in
    let err := BVec.getValues (depNodes tacs_refined) 1 nodes nodal_error in
    let e := oct_indicator refined_order err in
    (error ++ [e], total_error_remain + e))
    (seq 0 nelems) ([], 0).

(** What [TMR_AdjointErrorEst] hands back: the [error] array of every
    process, the returned value and [*adj_corr]. *)
Record adjoint_result := {
  adj_error : list (list R);
  adj_total_error : R;
  adj_corr : R
}.

(** The quad [TMR_AdjointErrorEst].  A process is its refined forest, its
    [tacs] (for the element count) and its [tacs_refined]. *)
Definition TMR_AdjointErrorEst2D (fuel : nat)
    (procs : list (QuadForest * TACSAssembler * TACSAssembler))
    (solution_refined adjoint_refined : BVec.t) : option adjoint_result :=
  Mem.bind
    (Mem.for_ procs (fun '(forest_refined, tacs, tacs_refined) acc =>
       let refined_order := quad_order forest_refined in
       Mem.bind (adjoint_deposit tacs_refined (refined_order * refined_order)
                   (length (elems tacs)) solution_refined adjoint_refined)
         (fun r => Some (acc ++ [r])))
      [])
    (fun deposits =>
       let nodal_error :=
         BVec.finalize_distribute (map (fun '(_, _, _, x) => x) deposits) in
       Mem.bind
         (Mem.for_ procs (fun '(forest_refined, tacs, tacs_refined) acc =>
            Mem.bind (quad_indicators fuel tacs_refined (quad_order forest_refined)
                        (length (elems tacs)) nodal_error)
              (fun r => Some (acc ++ [r])))
           [])
         (fun inds =>
            Some {| adj_error := map fst inds;
                    adj_total_error := MPI_Allreduce_SUM (map snd inds);
                    adj_corr :=
                      MPI_Allreduce_SUM (map (fun '(_, _, c, _) => c) deposits) |})).

(** The oct [TMR_AdjointErrorEst]. *)
Definition TMR_AdjointErrorEst3D
    (procs : list (OctForest * TACSAssembler * TACSAssembler))
    (solution_refined adjoint_refined : BVec.t) : option adjoint_result :=
  Mem.bind
    (Mem.for_ procs (fun '(forest_refined, tacs, tacs_refined) acc =>
       let refined_order := oct_order forest_refined in
       Mem.bind (adjoint_deposit tacs_refined
                   (refined_order * refined_order * refined_order)
                   (length (elems tacs)) solution_refined adjoint_refined)
         (fun r => Some (acc ++ [r])))
      [])
    (fun deposits =>
       let nodal_error :=
         BVec.finalize_distribute (map (fun '(_, _, _, x) => x) deposits) in
       let inds :=
         map (fun '(forest_refined, tacs, tacs_refined) =>
                oct_indicators tacs_refined (oct_order forest_refined)
                  (length (elems tacs)) nodal_error) procs in
       Some {| adj_error := map fst inds;
               adj_total_error := MPI_Allreduce_SUM (map snd inds);
               adj_corr :=
                 MPI_Allreduce_SUM (map (fun '(_, _, c, _) => c) deposits) |}).

End ErrorEst.

(** ** KS stress constraint *)

Module KS.
Import Enrich.

(** A process of [TMRStressConstraint]: [forest], [interp_forest], [tacs]. *)
Definition proc : Type := OctForest * OctForest * TACSAssembler.

(** [TMRStressConstraint::evalStrain]: [(J, e, return value)].  The
    function is written for three variables per node. *)
Definition evalStrain (lib : Lib) (forest interp_forest : OctForest)
    (pt Xpts vars ubar : list R) : list R * list R * R :=
  let order := oct_order forest in
  let f := oct_evalInterp forest pt in
  let ulen := (order * order * order)%nat in
  let g := oct_evalInterp interp_forest pt in
  let xlen := ((order + 1) * (order + 1) * (order + 1))%nat in
  let Xd :=
    [ accum (fun i => rd (Na3 g) i * rd Xpts (3 * i)) xlen;
      accum (fun i => rd (Nb3 g) i * rd Xpts (3 * i)) xlen;
      accum (fun i => rd (Nc3 g) i * rd Xpts (3 * i)) xlen;
      accum (fun i => rd (Na3 g) i * rd Xpts (3 * i + 1)) xlen;
      accum (fun i => rd (Nb3 g) i * rd Xpts (3 * i + 1)) xlen;
      accum (fun i => rd (Nc3 g) i * rd Xpts (3 * i + 1)) xlen;
      accum (fun i => rd (Na3 g) i * rd Xpts (3 * i + 2)) xlen;
      accum (fun i => rd (Nb3 g) i * rd Xpts (3 * i + 2)) xlen;
      accum (fun i => rd (Nc3 g) i * rd Xpts (3 * i + 2)) xlen ] in
  let J := fst (jacobian3d lib Xd) in
  let detJ := snd (jacobian3d lib Xd) in
  let en := evalEnrichmentFuncs3D order pt (mk3D [] [] [] []) in
  let nenrich := getNum3dEnrich order in
  (** [Ud[3*v + d]]: the coarse loop, then the enrichment loop *)
  let Ud v Nx Nxr :=
    accum_from (accum (fun i => rd Nx i * rd vars (3 * i + v)) ulen)
               (fun i => rd ubar (3 * i + v) * rd Nxr i) nenrich in
  let Ud0 := Ud 0%nat (Na3 f) (Na3 en) in
  let Ud1 := Ud 0%nat (Nb3 f) (Nb3 en) in
  let Ud2 := Ud 0%nat (Nc3 f) (Nc3 en) in
  let Ud3 := Ud 1%nat (Na3 f) (Na3 en) in
  let Ud4 := Ud 1%nat (Nb3 f) (Nb3 en) in
  let Ud5 := Ud 1%nat (Nc3 f) (Nc3 en) in
  let Ud6 := Ud 2%nat (Na3 f) (Na3 en) in
  let Ud7 := Ud 2%nat (Nb3 f) (Nb3 en) in
  let Ud8 := Ud 2%nat (Nc3 f) (Nc3 en) in
  let Ux0 := Ud0 * rd J 0 + Ud1 * rd J 3 + Ud2 * rd J 6 in
  let Ux3 := Ud3 * rd J 0 + Ud4 * rd J 3 + Ud5 * rd J 6 in
  let Ux6 := Ud6 * rd J 0 + Ud7 * rd J 3 + Ud8 * rd J 6 in
  let Ux1 := Ud0 * rd J 1 + Ud1 * rd J 4 + Ud2 * rd J 7 in
  let Ux4 := Ud3 * rd J 1 + Ud4 * rd J 4 + Ud5 * rd J 7 in
  let Ux7 := Ud6 * rd J 1 + Ud7 * rd J 4 + Ud8 * rd J 7 in
  let Ux2 := Ud0 * rd J 2 + Ud1 * rd J 5 + Ud2 * rd J 8 in
  let Ux5 := Ud3 * rd J 2 + Ud4 * rd J 5 + Ud5 * rd J 8 in
  let Ux8 := Ud6 * rd J 2 + Ud7 * rd J 5 + Ud8 * rd J 8 in
  (J, [Ux0; Ux4; Ux8; Ux5 + Ux7; Ux2 + Ux6; Ux1 + Ux3], detJ).

(** The node locations of element [i] on the higher-order mesh, gathered
    through [conn], [getLocalNodeNumber] and the point array. *)
Definition interp_Xpts (interp_forest : OctForest) (order i : nat) : list R :=
  let interp_elem_size := ((order + 1) * (order + 1) * (order + 1))%nat in
  flat_map (fun j =>
    let c := nth (interp_elem_size * i + j) (oct_conn interp_forest) 0%Z in
    let node := oct_getLocalNodeNumber interp_forest c in
    let X := nth node (oct_points interp_forest) {| px := 0; py := 0; pz := 0 |} in
    [px X; py X; pz X])
    (seq 0 interp_elem_size).

(** What both sweeps prepare for element [i]: [Xpts], [vars], [ubar]. *)
Definition elem_data (lib : Lib) (p : proc) (uvec uderiv : BVec.t) (i : nat)
  : list R * list R * list R :=
  let '(forest, interp_forest, tacs) := p in
  let vpn := getVarsPerNode tacs in
  let nodes := el_nodes (getElement tacs i) in
  let vars := BVec.getValues (depNodes tacs) vpn nodes uvec in
  let varderiv := BVec.getValues (depNodes tacs) (3 * vpn) nodes uderiv in
  let Xpts := interp_Xpts interp_forest (oct_order forest) i in
  let ubar := Recon.computeElemRecon3D lib vpn forest interp_forest Xpts vars varderiv in
  (Xpts, vars, ubar).

(** First sweep on one process: [ks_max_fail] before the reduction. *)
Definition max_sweep (lib : Lib) (p : proc) (uvec uderiv : BVec.t) : R :=
  let '(forest, interp_forest, tacs) := p in
  let '(num_quad_pts, gaussPts, gaussWts) := getGaussPtsWts lib (oct_order forest + 1) in
  fold_left (fun ks_max_fail i =>
    let con := el_obj (getElement tacs i) in
    let '(Xpts, vars, ubar) := elem_data lib p uvec uderiv i in
    fold_left (fun ks_max_fail kk =>
      fold_left (fun ks_max_fail jj =>
        fold_left (fun ks_max_fail ii =>
          let pt := [rd gaussPts ii; rd gaussPts jj; rd gaussPts kk] in
          let Je := evalStrain lib forest interp_forest pt Xpts vars ubar in
          let fval := failure con pt (snd (fst Je)) in
          if Rgt_dec fval ks_max_fail then fval else ks_max_fail)
          (seq 0 num_quad_pts) ks_max_fail)
        (seq 0 num_quad_pts) ks_max_fail)
      (seq 0 num_quad_pts) ks_max_fail)
    (seq 0 (length (elems tacs))) (-1e20).

(** Second sweep on one process: [ks_fail_sum] before the reduction. *)
Definition sum_sweep (lib : Lib) (ks_weight ks_max_fail : R) (p : proc)
    (uvec uderiv : BVec.t) : R :=
  let '(forest, interp_forest, tacs) := p in
  let '(num_quad_pts, gaussPts, gaussWts) := getGaussPtsWts lib (oct_order forest + 1) in
  fold_left (fun ks_fail_sum i =>
    let con := el_obj (getElement tacs i) in
    let '(Xpts, vars, ubar) := elem_data lib p uvec uderiv i in
    fold_left (fun ks_fail_sum kk =>
      fold_left (fun ks_fail_sum jj =>
        fold_left (fun ks_fail_sum ii =>
          let pt := [rd gaussPts ii; rd gaussPts jj; rd gaussPts kk] in
          let Je := evalStrain lib forest interp_forest pt Xpts vars ubar in
          let detJ := snd Je * (rd gaussWts ii * rd gaussWts jj * rd gaussWts kk) in
          let fval := failure con pt (snd (fst Je)) in
          ks_fail_sum + detJ * exp (ks_weight * (fval - ks_max_fail)))
          (seq 0 num_quad_pts) ks_fail_sum)
        (seq 0 num_quad_pts) ks_fail_sum)
      (seq 0 num_quad_pts) ks_fail_sum)
    (seq 0 (length (elems tacs))) 0.

(** What the function writes with [printf]. *)
Inductive printed :=
| KS_stress_value (v : R)
| Max_stress_value (v : R)
| Total_time.

(** The members [ks_max_fail], [ks_fail_sum], the returned value and the
    lines printed by the process of rank 0. *)
Record result := {
  ks_max_fail : R;
  ks_fail_sum : R;
  ks_func_val : R;
  stdout : list printed
}.

(** [TMRStressConstraint::evalConstraint].  The member [weights] comes from
    the constructor's call of [computeLocalWeights]. *)
Definition evalConstraint (lib : Lib) (ks_weight : R) (procs : list proc)
    (uvec : BVec.t) : result :=
  let weights :=
    Recon.computeLocalWeights (map (fun '(_, _, tacs) => (tacs, None)) procs) in
  let uderiv :=
    Recon.computeNodeDeriv3D lib
      (map (fun '(forest, _, tacs) => (forest, tacs, None)) procs) uvec weights in
  let ks_max :=
    MPI_Allreduce_MAX (map (fun p => max_sweep lib p uvec uderiv) procs) in
  let ks_sum :=
    MPI_Allreduce_SUM
      (map (fun p => sum_sweep lib ks_weight ks_max p uvec uderiv) procs) in
  let val := ks_max + ln ks_sum / ks_weight in
  {| ks_max_fail := ks_max;
     ks_fail_sum := ks_sum;
     ks_func_val := val;
     stdout := [KS_stress_value val; Max_stress_value ks_max; Total_time] |}.

(** *** The sweep as a list of samples *)

(** One Gauss point of one element: [detJ], the product of the three
    Gauss weights and the failure value. *)
Record sample := { s_detJ : R; s_weight : R; s_fval : R }.

(** The vector [uderiv] that [evalConstraint] computes first. *)
Definition ks_uderiv (lib : Lib) (procs : list proc) (uvec : BVec.t) : BVec.t :=
  Recon.computeNodeDeriv3D lib
    (map (fun '(forest, _, tacs) => (forest, tacs, None)) procs) uvec
    (Recon.computeLocalWeights (map (fun '(_, _, tacs) => (tacs, None)) procs)).

(** The Gauss points that a sweep visits on one process, in its order:
    elements, then [kk], [jj], [ii]. *)
Definition proc_samples (lib : Lib) (uvec uderiv : BVec.t) (p : proc) : list sample :=
  let '(forest, interp_forest, tacs) := p in
  let '(num_quad_pts, gaussPts, gaussWts) := getGaussPtsWts lib (oct_order forest + 1) in
  flat_map (fun i =>
    let con := el_obj (getElement tacs i) in
    let '(Xpts, vars, ubar) := elem_data lib p uvec uderiv i in
    flat_map (fun kk =>
      flat_map (fun jj =>
        map (fun ii =>
          let pt := [rd gaussPts ii; rd gaussPts jj; rd gaussPts kk] in
          let Je := evalStrain lib forest interp_forest pt Xpts vars ubar in
          {| s_detJ := snd Je;
             s_weight := rd gaussWts ii * rd gaussWts jj * rd gaussWts kk;
             s_fval := failure con pt (snd (fst Je)) |})
          (seq 0 num_quad_pts))
        (seq 0 num_quad_pts))
      (seq 0 num_quad_pts))
    (seq 0 (length (elems tacs))).

(** The Gauss points of all the processes. *)
Definition samples (lib : Lib) (procs : list proc) (uvec : BVec.t) : list sample :=
  flat_map (proc_samples lib uvec (ks_uderiv lib procs uvec)) procs.

(** The term that a sample adds to [ks_fail_sum]. *)
Definition ks_term (ks_weight ks_max : R) (s : sample) : R :=
  s_detJ s * s_weight s * exp (ks_weight * (s_fval s - ks_max)).


(** The sum that would result if the sweep skipped the Gauss points with
    [detJ <= 0]. *)
Definition skipping_sum (ks_weight ks_max : R) (l : list sample) : R :=
  Rsum (map (fun s => if Rle_dec (s_detJ s) 0 then 0 else ks_term ks_weight ks_max s) l).

End KS.

(** ** The least-squares contract of LAPACK's dgelss *)

Module LSQ.

(** Row [r] of [A x] for a column-major [m] x [n] matrix. *)
Definition Ax (m n : nat) (A x : list R) (r : nat) : R :=
  Rsum (map (fun i => rd A (m * i + r) * rd x i) (seq 0 n)).

(** [|| A x - b ||^2] *)
Definition residual (m n : nat) (A : list R) (b : nat -> R) (x : list R) : R :=
  Rsum (map (fun r => (Ax m n A x r - b r) * (Ax m n A x r - b r)) (seq 0 m)).

(** [|| x ||^2] *)
Definition norm2 (n : nat) (x : list R) : R :=
  Rsum (map (fun i => rd x i * rd x i) (seq 0 n)).

(** [x] minimises the residual and has the least norm among the
    minimisers. *)
Definition min_norm_lsq (m n : nat) (A : list R) (b : nat -> R) (x : list R) : Prop :=
  (forall y, residual m n A b x <= residual m n A b y) /\
  (forall y, (forall z, residual m n A b y <= residual m n A b z) ->
             norm2 n x <= norm2 n y).

(** Modelled from the spec: "Solve with a rank-revealing least-squares
    decomposition ... so that a singular system degrades gracefully to a
    minimum-norm solution."  On exit the first [n] rows of column [j] of
    [b] hold the minimum-norm least-squares solution for column [j] of the
    right-hand side. *)
Definition dgelss_contract (m n nrhs : nat) (A b bout : list R) : Prop :=
  forall j, (j < nrhs)%nat ->
    min_norm_lsq m n A (fun r => rd b (m * j + r))
      (map (fun i => rd bout (m * j + i)) (seq 0 n)).

(** The solver meets its contract on the systems with a zero right-hand
    side. *)
Definition solves_homogeneous (lib : Lib) : Prop :=
  forall m n nrhs A b,
    Forall (fun x => x = 0) b ->
    dgelss_contract m n nrhs A b (LAPACKdgelss lib m n nrhs A b).

End LSQ.

(** ** Auxiliary notions used in the statements *)

Module Aux.

(** What [BVec.add_node dep _ n k v] adds to component [k'] of node [n']. *)
Definition contrib (dep : Z -> list (Z * R)) (n : Z) (k : nat) (v : R)
    (n' : Z) (k' : nat) : R :=
  if (0 <=? n)%Z then
    (if (Z.eqb n' n && Nat.eqb k' k)%bool then v else 0)
  else
    Rsum (map (fun iw => if (Z.eqb n' (fst iw) && Nat.eqb k' k)%bool
                         then snd iw * v else 0) (dep n)).







(** The enrichment part of the reconstruction of a quad, evaluated at the
    knots of the refined element: node by node ([n] fastest), variable by
    variable. *)
Definition pointwise_enrichment2D (forest refined_forest : QuadForest)
    (vpn : nat) (ubar : list R) : list R :=
  let order := quad_order forest in
  let refined_order := quad_order refined_forest in
  let refined_knots := quad_knots refined_forest in
  flat_map (fun m =>
    flat_map (fun n =>
      let pt := [rd refined_knots n; rd refined_knots m] in
      let Nr := Enrich.evalEnrichmentFuncs2D_N order pt refined_knots [] in
      map (fun kk =>
             Rsum (map (fun k => rd ubar (vpn * k + kk) * rd Nr k)
                       (seq 0 (Enrich.getNum2dEnrich order))))
          (seq 0 vpn))
      (seq 0 refined_order))
    (seq 0 refined_order).

(** The vector [uderiv] of the quad strain-energy estimator: the nodal
    derivatives with the weights of [computeLocalWeights]. *)
Definition energy_uderiv2D (lib : Lib)
    (procs : list (QuadForest * TACSAssembler * QuadForest * TACSAssembler))
    (uvec : BVec.t) : BVec.t :=
  Recon.computeNodeDeriv2D lib
    (map (fun '(forest, tacs, _, _) => (forest, tacs, None)) procs) uvec
    (Recon.computeLocalWeights (map (fun '(_, tacs, _, _) => (tacs, None)) procs)).

(** The absolute potential energy that the element collaborator returns
    for element [i] on the enrichment part of the reconstruction at the
    refined knots, with zero [dvars]. *)
Definition energy_indicator2D (lib : Lib)
    (p : QuadForest * TACSAssembler * QuadForest * TACSAssembler)
    (uvec uderiv : BVec.t) (i : nat) : R :=
  let '(forest, tacs, forest_refined, tacs_refined) := p in
  let vpn := getVarsPerNode tacs in
  let ro := quad_order forest_refined in
  let nodes := el_nodes (getElement tacs i) in
  let Xpts := el_Xpts (getElement tacs_refined i) in
  let ubar :=
    Recon.computeElemRecon2D lib vpn forest forest_refined Xpts
      (BVec.getValues (depNodes tacs) vpn nodes uvec)
      (BVec.getValues (depNodes tacs) (3 * vpn) nodes uderiv) in
  Rabs (snd (computeEnergies (el_obj (getElement tacs_refined i)) 0 Xpts
               (pointwise_enrichment2D forest forest_refined vpn ubar)
               (repeat 0 (vpn * (ro * ro))))).

(** What the first element loop of [TMR_AdjointErrorEst] hands to
    [setValues], element by element: the array [err] after the [memset] of
    its first [numNodes] cells, the element's [addLocalizedError] and those
    of its auxiliary elements. *)
Fixpoint deposit_trace (tacs_refined : TACSAssembler)
    (solution_refined adjoint_refined : BVec.t) (elts : list nat)
    (err : list R) (aux : list (nat * TACSElement)) : list (nat * list R) :=
  match elts with
  | [] => []
  | elem :: rest =>
      let vpn := getVarsPerNode tacs_refined in
      let e := getElement tacs_refined elem in
      let vars :=
        BVec.getValues (depNodes tacs_refined) vpn (el_nodes e) solution_refined in
      let adj :=
        BVec.getValues (depNodes tacs_refined) vpn (el_nodes e) adjoint_refined in
      let err0 := repeat 0 (numNodes (el_obj e)) ++ skipn (numNodes (el_obj e)) err in
      let err1 := addLocalizedError (el_obj e) 0 err0 adj (el_Xpts e) vars in
      let r := ErrorEst.aux_errors aux elem 0 err1 adj (el_Xpts e) vars in
      (elem, fst r) ::
      deposit_trace tacs_refined solution_refined adjoint_refined rest (fst r) (snd r)
  end.

(** The deposits of one process, from a fresh [err] array. *)
Definition deposits (tacs tacs_refined : TACSAssembler) (num_refined_nodes : nat)
    (solution_refined adjoint_refined : BVec.t) : list (nat * list R) :=
  deposit_trace tacs_refined solution_refined adjoint_refined
    (seq 0 (length (elems tacs))) (Mem.alloc num_refined_nodes)
    (auxElems tacs_refined).

(** The sum of the deposited values: the first [numNodes] cells of each
    deposited array. *)
Definition deposited_sum (tacs_refined : TACSAssembler)
    (trace : list (nat * list R)) : R :=
  Rsum (map (fun d =>
          Rsum (map (rd (snd d))
                    (seq 0 (numNodes (el_obj (getElement tacs_refined (fst d)))))))
        trace).

(** What the deposits add to the nodal error vector of the process. *)
Definition deposited_vector (tacs_refined : TACSAssembler)
    (trace : list (nat * list R)) (x : BVec.t) : BVec.t :=
  fold_left (fun x d =>
    BVec.setValues_ADD (depNodes tacs_refined) 1
      (el_nodes (getElement tacs_refined (fst d))) (snd d) x)
    trace x.

(** The nodal error values at the four corner nodes of a quad, summed. *)
Definition corner_sum2D (refined_order : nat) (err : list R) : R :=
  Rsum (map (fun c => rd err (fst c + snd c * refined_order))
            [ (0, 0); (refined_order - 1, 0);
              (0, refined_order - 1); (refined_order - 1, refined_order - 1) ]%nat).

(** The nodal error values at the eight corner nodes of an oct, summed. *)
Definition corner_sum3D (refined_order : nat) (err : list R) : R :=
  let r := (refined_order - 1)%nat in
  Rsum (map (fun c : nat * nat * nat =>
               let '(i, j, k) := c in
               rd err (i + j * refined_order + k * refined_order * refined_order))
            [ (0, 0, 0); (r, 0, 0); (0, r, 0); (r, r, 0);
              (0, 0, r); (r, 0, r); (0, r, r); (r, r, r) ]%nat).

(** [addLocalizedError] of the element leaves the length of [err] as it
    is. *)
Definition preserves_length (a : TACSElement) : Prop :=
  forall t err adj X v, length (addLocalizedError a t err adj X v) = length err.

(** The elements and auxiliary elements of the refined assembler fit the
    [err] array of [num_refined_nodes] cells. *)
Definition fits_err (tacs tacs_refined : TACSAssembler) (num_refined_nodes : nat) : Prop :=
  (forall elem, (elem < length (elems tacs))%nat ->
     (numNodes (el_obj (getElement tacs_refined elem)) <= num_refined_nodes)%nat /\
     preserves_length (el_obj (getElement tacs_refined elem))) /\
  (forall na, In na (auxElems tacs_refined) -> preserves_length (snd na)).

(** The nodal error vector after the parallel addition and distribution. *)
Definition nodal_error2D
    (procs : list (QuadForest * TACSAssembler * TACSAssembler))
    (solution_refined adjoint_refined : BVec.t) : BVec.t :=
  BVec.finalize_distribute
    (map (fun p : QuadForest * TACSAssembler * TACSAssembler =>
            let '(forest_refined, tacs, tacs_refined) := p in
            let ro := quad_order forest_refined in
            deposited_vector tacs_refined
              (deposits tacs tacs_refined (ro * ro) solution_refined adjoint_refined)
              BVec.zeroEntries) procs).

Definition nodal_error3D
    (procs : list (OctForest * TACSAssembler * TACSAssembler))
    (solution_refined adjoint_refined : BVec.t) : BVec.t :=
  BVec.finalize_distribute
    (map (fun p : OctForest * TACSAssembler * TACSAssembler =>
            let '(forest_refined, tacs, tacs_refined) := p in
            let ro := oct_order forest_refined in
            deposited_vector tacs_refined
              (deposits tacs tacs_refined (ro * ro * ro) solution_refined adjoint_refined)
              BVec.zeroEntries) procs).

(** The indicators of the elements of one process. *)
Definition indicators2D (nodal_error : BVec.t)
    (p : QuadForest * TACSAssembler * TACSAssembler) : list R :=
  let '(forest_refined, tacs, tacs_refined) := p in
  map (fun elem =>
         0.25 * Rabs (corner_sum2D (quad_order forest_refined)
           (BVec.getValues (depNodes tacs_refined) 1
              (el_nodes (getElement tacs_refined elem)) nodal_error)))
      (seq 0 (length (elems tacs))).

Definition indicators3D (nodal_error : BVec.t)
    (p : OctForest * TACSAssembler * TACSAssembler) : list R :=
  let '(forest_refined, tacs, tacs_refined) := p in
  map (fun elem =>
         0.125 * Rabs (corner_sum3D (oct_order forest_refined)
           (BVec.getValues (depNodes tacs_refined) 1
              (el_nodes (getElement tacs_refined elem)) nodal_error)))
      (seq 0 (length (elems tacs))).

(** The derivatives of the Lagrange basis of an oct forest sum to zero at
    every point. *)
Definition derivs_sum_zero3D (forest : OctForest) : Prop :=
  forall pt,
    let f := oct_evalInterp forest pt in
    let num := (oct_order forest * oct_order forest * oct_order forest)%nat in
    Rsum (map (rd (Enrich.Na3 f)) (seq 0 num)) = 0 /\
    Rsum (map (rd (Enrich.Nb3 f)) (seq 0 num)) = 0 /\
    Rsum (map (rd (Enrich.Nc3 f)) (seq 0 num)) = 0.

(** The same for a quad forest. *)
Definition derivs_sum_zero2D (forest : QuadForest) : Prop :=
  forall pt,
    let f := quad_evalInterp forest pt in
    let num := (quad_order forest * quad_order forest)%nat in
    Rsum (map (rd (Enrich.Na2 f)) (seq 0 num)) = 0 /\
    Rsum (map (rd (Enrich.Nb2 f)) (seq 0 num)) = 0.

(** The field [uvec] reads [c k] in component [k] at every node of every
    element that the process visits. *)
Definition constant_field (tacs : TACSAssembler)
    (element_nums : option (list nat)) (uvec : BVec.t) (c : nat -> R) : Prop :=
  forall elem i k,
    In elem (elem_loop tacs element_nums) ->
    (i < length (el_nodes (getElement tacs elem)))%nat ->
    (k < getVarsPerNode tacs)%nat ->
    BVec.read (depNodes tacs) uvec (nth i (el_nodes (getElement tacs elem)) 0%Z) k = c k.

(** Every visited element of an oct mesh carries [order^3] node numbers. *)
Definition well_formed3D
    (procs : list (OctForest * TACSAssembler * option (list nat))) : Prop :=
  forall forest tacs element_nums elem,
    In (forest, tacs, element_nums) procs ->
    In elem (elem_loop tacs element_nums) ->
    length (el_nodes (getElement tacs elem)) =
    (oct_order forest * oct_order forest * oct_order forest)%nat.

(** Every visited element of a quad mesh carries [order^2] node numbers. *)
Definition well_formed2D
    (procs : list (QuadForest * TACSAssembler * option (list nat))) : Prop :=
  forall forest tacs element_nums elem,
    In (forest, tacs, element_nums) procs ->
    In elem (elem_loop tacs element_nums) ->
    length (el_nodes (getElement tacs elem)) =
    (quad_order forest * quad_order forest)%nat.

End Aux.

(** ** A concrete mesh: one hexahedron and one quadrilateral *)

Module Example.
Import Enrich.

(** Lagrange bases on the knots [-1, 1] and [-1, 0, 1], with derivatives. *)
Definition lag2 (t : R) : list R := [(1 - t) / 2; (1 + t) / 2].
Definition dlag2 (t : R) : list R := [- (1 / 2); 1 / 2].
Definition lag3 (t : R) : list R := [t * (t - 1) / 2; (1 - t) * (1 + t); t * (t + 1) / 2].
Definition dlag3 (t : R) : list R := [t - 1 / 2; - (2 * t); t + 1 / 2].

(** Tensor products, first index fastest. *)
Definition tensor2 (a b : list R) : list R :=
  flat_map (fun y => map (fun x => x * y) a) b.
Definition tensor3 (a b c : list R) : list R :=
  flat_map (fun z => flat_map (fun y => map (fun x => x * y * z) a) b) c.

Definition interp3 (la dla : R -> list R) (pt : list R) : funcs3D :=
  let x := rd pt 0 in let y := rd pt 1 in let z := rd pt 2 in
  mk3D (tensor3 (la x) (la y) (la z))
       (tensor3 (dla x) (la y) (la z))
       (tensor3 (la x) (dla y) (la z))
       (tensor3 (la x) (la y) (dla z)).

Definition interp2 (la dla : R -> list R) (pt : list R) : funcs2D :=
  let x := rd pt 0 in let y := rd pt 1 in
  mk2D (tensor2 (la x) (la y)) (tensor2 (dla x) (la y)) (tensor2 (la x) (dla y)).

(** The nodes of the higher-order hexahedron: the cube [-1,1]^3 with the
    third axis reversed, so that the element is inside out. *)
Definition mirrored_points : list TMRPoint :=
  flat_map (fun z => flat_map (fun y => map (fun x =>
    {| px := x; py := y; pz := - z |}) [-1; 0; 1]) [-1; 0; 1]) [-1; 0; 1].

(** The forest of order 2 and its duplicate of order 3. *)
Definition oct2 : OctForest :=
  {| oct_order := 2; oct_knots := [-1; 1];
     oct_evalInterp := interp3 lag2 dlag2;
     oct_conn := map Z.of_nat (seq 0 8);
     oct_getLocalNodeNumber := Z.to_nat;
     oct_points := [] |}.

Definition oct3 : OctForest :=
  {| oct_order := 3; oct_knots := [-1; 0; 1];
     oct_evalInterp := interp3 lag3 dlag3;
     oct_conn := map Z.of_nat (seq 0 27);
     oct_getLocalNodeNumber := Z.to_nat;
     oct_points := mirrored_points |}.

Definition quad2 : QuadForest :=
  {| quad_order := 2; quad_knots := [-1; 1];
     quad_evalInterp := interp2 lag2 dlag2 |}.

Definition quad3 : QuadForest :=
  {| quad_order := 3; quad_knots := [-1; 0; 1];
     quad_evalInterp := interp2 lag3 dlag3 |}.

(** An element whose failure value is 1 everywhere and that deposits the
    error 1 at each of its nodes. *)
Definition element (n : nat) : TACSElement :=
  {| numNodes := n;
     computeEnergies := fun _ _ _ _ => (0, 0);
     addLocalizedError := fun _ err _ _ _ => map (fun e => e + 1) err;
     failure := fun _ _ => 1 |}.

(** One element on the nodes [0 .. n-1], three variables per node, no
    dependent node, no auxiliary element. *)
Definition assembler (n : nat) : TACSAssembler :=
  {| getVarsPerNode := 3;
     elems := [ {| el_nodes := map Z.of_nat (seq 0 n);
                   el_Xpts := [];
                   el_obj := element n |} ];
     depNodes := fun _ => [];
     auxElems := [] |}.

(** Modelled from the spec: "J = Xd^-1; detJ = |Xd|".  The determinant by
    the rule of Sarrus and the inverse as the adjugate over it. *)
Definition det3 (a : list R) : R :=
  rd a 0 * (rd a 4 * rd a 8 - rd a 5 * rd a 7)
  - rd a 1 * (rd a 3 * rd a 8 - rd a 5 * rd a 6)
  + rd a 2 * (rd a 3 * rd a 7 - rd a 4 * rd a 6).

Definition inv3 (a : list R) : list R :=
  let d := det3 a in
  [ (rd a 4 * rd a 8 - rd a 5 * rd a 7) / d;
    (rd a 2 * rd a 7 - rd a 1 * rd a 8) / d;
    (rd a 1 * rd a 5 - rd a 2 * rd a 4) / d;
    (rd a 5 * rd a 6 - rd a 3 * rd a 8) / d;
    (rd a 0 * rd a 8 - rd a 2 * rd a 6) / d;
    (rd a 2 * rd a 3 - rd a 0 * rd a 5) / d;
    (rd a 3 * rd a 7 - rd a 4 * rd a 6) / d;
    (rd a 1 * rd a 6 - rd a 0 * rd a 7) / d;
    (rd a 0 * rd a 4 - rd a 1 * rd a 3) / d ].

(** The library: the three-point Gauss rule, and a least-squares solver
    that answers zero, which is the minimum-norm solution of the systems
    with a zero right-hand side. *)
Definition lib : Lib :=
  {| jacobian3d := fun Xd => (inv3 Xd, det3 Xd);
     crossProduct3D := fun a b =>
       [ rd a 1 * rd b 2 - rd a 2 * rd b 1;
         rd a 2 * rd b 0 - rd a 0 * rd b 2;
         rd a 0 * rd b 1 - rd a 1 * rd b 0 ];
     normalize3D := fun a =>
       let nrm := sqrt (rd a 0 * rd a 0 + rd a 1 * rd a 1 + rd a 2 * rd a 2) in
       [rd a 0 / nrm; rd a 1 / nrm; rd a 2 / nrm];
     getGaussPtsWts := fun _ =>
       (3%nat, [- sqrt (3 / 5); 0; sqrt (3 / 5)], [5 / 9; 8 / 9; 5 / 9]);
     LAPACKdgelss := fun m n nrhs A b => repeat 0 (m * nrhs) |}.

(** The field that is 1 in every component at every node. *)
Definition ones : BVec.t := fun _ _ => 1.

End Example.

From Stdlib Require Import Sorted.

(** ** Sensitivities of the curvature descriptor *)

Module CurvDeriv.

(** What [evalCurvDeriv] returns and writes: the value, [*dval], [dg[3]]
    and [dH[6]]. *)
Record curv_deriv := {
  cd_result : R;
  cd_dval : R;
  cd_dg : list R;
  cd_dH : list R
}.

Section EvalCurvDeriv.
Variables aggregate_weight val : R.
Variables g H : list R.

(** The statements of [evalCurvDeriv] up to [factor] are those of
    [evalCurvature]; the local variables keep their names. *)
Definition expdiff : R := exp (aggregate_weight * snd (Curvature.kmax_kdiff g H)).
Definition ksres : R :=
  fst (Curvature.kmax_kdiff g H) + ln (1 + expdiff) / aggregate_weight.
Definition dfactor : R := ksres.
Definition dkmax : R := Curvature.factor val.
Definition dkdiff : R := Curvature.factor val * expdiff / (1 + expdiff).

(** [(dk1, dk2)] after the [if (k1 > k2)] statement. *)
Definition dk12 : R * R :=
  if Rgt_dec (Curvature.k1 g H) (Curvature.k2 g H)
  then (dkmax - dkdiff, dkdiff) else (dkdiff, dkmax - dkdiff).

(** [(dKM, dsqrtk)] after the statement on the sign of [KM + sqrtk]. *)
Definition seed1 : R * R :=
  if Rgt_dec (Curvature.KM g H + Curvature.sqrtk g H) 0
  then (fst dk12, fst dk12) else (- fst dk12, - fst dk12).

(** [(dKM, dsqrtk)] after the statement on the sign of [KM - sqrtk]. *)
Definition seed2 : R * R :=
  if Rgt_dec (Curvature.KM g H - Curvature.sqrtk g H) 0
  then (fst seed1 + snd dk12, snd seed1 - snd dk12)
  else (fst seed1 - snd dk12, snd seed1 + snd dk12).

Definition dsqrtk : R := snd seed2.
Definition dKG : R := -0.5 * dsqrtk / Curvature.sqrtk g H.
(** [dKM] after [dKM += dsqrtk*KM/sqrtk]. *)
Definition dKM : R := fst seed2 + dsqrtk * Curvature.KM g H / Curvature.sqrtk g H.

Definition dHprod : R := 0.5 * dKM / (Curvature.gn g * Curvature.sqrtgn g).
Definition dHfact : R := dKG / (Curvature.gn g * Curvature.gn g).
(** [dgn] after [dgn -= 2.0*dKG*Hfact/(gn*gn*gn)]. *)
Definition dgn : R :=
  -0.5 * dKM * ((1.5 * Curvature.Hprod g H -
                 0.5 * Curvature.gn g * (rd H 0 + rd H 3 + rd H 5)) /
                (Curvature.gn g * Curvature.gn g * Curvature.sqrtgn g))
  - 2.0 * dKG * Curvature.Hfact g H /
    (Curvature.gn g * Curvature.gn g * Curvature.gn g).

(** [dH] before the cofactor terms are added. *)
Definition dH0 : list R :=
  [ -0.5 * dKM / Curvature.sqrtgn g + dHprod * rd g 0 * rd g 0;
    2.0 * dHprod * rd g 0 * rd g 1;
    2.0 * dHprod * rd g 0 * rd g 2;
    -0.5 * dKM / Curvature.sqrtgn g + dHprod * rd g 1 * rd g 1;
    2.0 * dHprod * rd g 1 * rd g 2;
    -0.5 * dKM / Curvature.sqrtgn g + dHprod * rd g 2 * rd g 2 ].

Definition dg : list R :=
  let Hf := Curvature.Hf H in
  [ 2.0 * dgn * rd g 0 +
    2.0 * (dHprod * (rd H 0 * rd g 0 + rd H 1 * rd g 1 + rd H 2 * rd g 2) +
           dHfact * (rd Hf 0 * rd g 0 + rd Hf 1 * rd g 1 + rd Hf 2 * rd g 2));
    2.0 * dgn * rd g 1 +
    2.0 * (dHprod * (rd H 1 * rd g 0 + rd H 3 * rd g 1 + rd H 4 * rd g 2) +
           dHfact * (rd Hf 1 * rd g 0 + rd Hf 3 * rd g 1 + rd Hf 4 * rd g 2));
    2.0 * dgn * rd g 2 +
    2.0 * (dHprod * (rd H 2 * rd g 0 + rd H 4 * rd g 1 + rd H 5 * rd g 2) +
           dHfact * (rd Hf 2 * rd g 0 + rd Hf 4 * rd g 1 + rd Hf 5 * rd g 2)) ].

Definition dHf : list R :=
  [ dHfact * rd g 0 * rd g 0;
    2.0 * dHfact * rd g 0 * rd g 1;
    2.0 * dHfact * rd g 0 * rd g 2;
    dHfact * rd g 1 * rd g 1;
    2.0 * dHfact * rd g 1 * rd g 2;
    dHfact * rd g 2 * rd g 2 ].

(** [dH] after the statements [dH[i] += ...]. *)
Definition dH : list R :=
  [ rd dH0 0 + (rd H 5 * rd dHf 3 - rd H 4 * rd dHf 4 + rd H 3 * rd dHf 5);
    rd dH0 1 + (- rd H 5 * rd dHf 1 + rd H 4 * rd dHf 2 + rd H 2 * rd dHf 4
                - 2 * rd H 1 * rd dHf 5);
    rd dH0 2 + (rd H 4 * rd dHf 1 - rd H 3 * rd dHf 2 - 2 * rd H 2 * rd dHf 3
                + rd H 1 * rd dHf 4);
    rd dH0 3 + (rd H 5 * rd dHf 0 - rd H 2 * rd dHf 2 + rd H 0 * rd dHf 5);
    rd dH0 4 + (-2 * rd H 4 * rd dHf 0 + rd H 2 * rd dHf 1 + rd H 1 * rd dHf 2
                - rd H 0 * rd dHf 4);
    rd dH0 5 + (rd H 3 * rd dHf 0 - rd H 1 * rd dHf 1 + rd H 0 * rd dHf 3) ].

(** [TMRCurvatureConstraint::evalCurvDeriv(val, g, H, dval, dg, dH)] *)
Definition evalCurvDeriv : curv_deriv :=
  {| cd_result := Curvature.factor val * ksres;
     cd_dval := -64 * dfactor * (val - 0.5) * (val - 0.5) * (val - 0.5);
     cd_dg := dg;
     cd_dH := dH |}.

End EvalCurvDeriv.

(** The value of [evalCurvature] as a function of the two curvatures. *)
Definition smooth_max (aggregate_weight val km kg : R) : R :=
  let s := sqrt (km * km - kg) in
  Curvature.factor val *
  (Rabs km + s +
   ln (1 + exp (aggregate_weight * (Rabs (Rabs km - s) - (Rabs km + s)))) /
   aggregate_weight).

End CurvDeriv.

(** ** The tri-quadratic fit of the curvature constraint *)

Module Poly.

Record poly := { pN : list R; pNx : list R; pNy : list R; pNz : list R }.

(** [evalPoly(x, N, Nx, Ny, Nz)] *)
Definition evalPoly (x : list R) : poly :=
  let x0 := rd x 0 in let x1 := rd x 1 in let x2 := rd x 2 in
  {| pN :=
       [ 1.0; x0; x1; x2;
         x2 * x1; x0 * x2; x0 * x1; x0 * x0; x1 * x1; x2 * x2;
         x0 * x1 * x2;
         x0 * x0 * x1; x0 * x0 * x2; x0 * x0 * x1 * x2;
         x1 * x1 * x0; x1 * x1 * x2; x1 * x1 * x0 * x2;
         x2 * x2 * x0; x2 * x2 * x1; x2 * x2 * x0 * x1 ];
     pNx :=
       [ 0.0; 1.0; 0.0; 0.0; 0.0; x2; x1; 2 * x0; 0.0; 0.0;
         x1 * x2; 2 * x0 * x1; 2 * x0 * x2; 2 * x0 * x1 * x2;
         x1 * x1; 0.0; x1 * x1 * x2; x2 * x2; 0.0; x2 * x2 * x1 ];
     pNy :=
       [ 0.0; 0.0; 1.0; 0.0; x2; 0.0; x0; 0.0; 2 * x1; 0.0;
         x0 * x2; x0 * x0; 0.0; x0 * x0 * x2;
         2 * x1 * x0; 2 * x1 * x2; 2 * x1 * x0 * x2; 0.0; x2 * x2; x2 * x2 * x0 ];
     pNz :=
       [ 0.0; 0.0; 0.0; 1.0; x1; x0; 0.0; 0.0; 0.0; 2 * x2;
         x0 * x1; 0.0; x0 * x0; x0 * x0 * x1;
         0.0; x1 * x1; x1 * x1 * x0; 2 * x2 * x0; 2 * x2 * x1; 2 * x2 * x0 * x1 ] |}.

(** [if (g < 0.0) g = g - 1e-6; else g = g + 1e-6;] *)
Definition perturb (x : R) : R :=
  if Rlt_dec x 0 then x - 1e-6 else x + 1e-6.

(** [TMRCurvatureConstraint::estimateHessian]: [(val, g, H)].  The matrix
    [A] has 32 rows and 20 columns, stored by columns. *)
Definition estimateHessian (lib : Lib) (elem_Xpts elem_vals elem_derivs : list R)
  : R * list R * list R :=
  let c0 := accum (fun i => 0.125 * rd elem_Xpts (3 * i)) 8 in
  let c1 := accum (fun i => 0.125 * rd elem_Xpts (3 * i + 1)) 8 in
  let c2 := accum (fun i => 0.125 * rd elem_Xpts (3 * i + 2)) 8 in
  let p i :=
    evalPoly [ rd elem_Xpts (3 * i) - c0;
               rd elem_Xpts (3 * i + 1) - c1;
               rd elem_Xpts (3 * i + 2) - c2 ] in
  let A :=
    flat_map (fun j =>
      flat_map (fun i =>
        [rd (pN (p i)) j; rd (pNx (p i)) j; rd (pNy (p i)) j; rd (pNz (p i)) j])
        (seq 0 8))
      (seq 0 20) in
  let rhs :=
    flat_map (fun i =>
      [ rd elem_vals i; rd elem_derivs (3 * i);
        rd elem_derivs (3 * i + 1); rd elem_derivs (3 * i + 2) ])
      (seq 0 8) in
  let sol := LAPACKdgelss lib 32 20 1 A rhs in
  (rd sol 0,
   [perturb (rd sol 1); perturb (rd sol 2); perturb (rd sol 3)],
   [rd sol 7; rd sol 6; rd sol 5; rd sol 8; rd sol 4; rd sol 9]).

(** [evalCurvature(elem_size, N, Na, Nb, Nc, J, Xpts, elem_vals,
    elem_deriv)]: the interpolated value, gradient and symmetrised Hessian
    handed to [evalCurvature(val, g, H)]. *)
Definition interp_val_g_H (elem_size : nat) (N Na Nb Nc J elem_vals elem_deriv : list R)
  : R * list R * list R :=
  let val := accum (fun j => rd elem_vals j * rd N j) elem_size in
  let g d := accum (fun j => rd elem_deriv (3 * j + d) * rd N j) elem_size in
  let h d Nx := accum (fun j => rd elem_deriv (3 * j + d) * rd Nx j) elem_size in
  let h0 := h 0%nat Na in let h1 := h 0%nat Nb in let h2 := h 0%nat Nc in
  let h3 := h 1%nat Na in let h4 := h 1%nat Nb in let h5 := h 1%nat Nc in
  let h6 := h 2%nat Na in let h7 := h 2%nat Nb in let h8 := h 2%nat Nc in
  (val, [g 0%nat; g 1%nat; g 2%nat],
   [ rd J 0 * h0 + rd J 3 * h1 + rd J 6 * h2;
     0.5 * ((rd J 1 * h0 + rd J 4 * h1 + rd J 7 * h2) +
            (rd J 0 * h3 + rd J 3 * h4 + rd J 6 * h5));
     0.5 * ((rd J 2 * h0 + rd J 5 * h1 + rd J 8 * h2) +
            (rd J 0 * h6 + rd J 3 * h7 + rd J 6 * h8));
     rd J 1 * h3 + rd J 4 * h4 + rd J 7 * h5;
     0.5 * ((rd J 2 * h3 + rd J 5 * h4 + rd J 8 * h5) +
            (rd J 1 * h6 + rd J 4 * h7 + rd J 7 * h8));
     rd J 2 * h6 + rd J 5 * h7 + rd J 8 * h8 ]).

Definition evalCurvature_elem (aggregate_weight : R) (elem_size : nat)
    (N Na Nb Nc J elem_vals elem_deriv : list R) : R :=
  let '(val, g, H) := interp_val_g_H elem_size N Na Nb Nc J elem_vals elem_deriv in
  Curvature.evalCurvature aggregate_weight g H val.

End Poly.

(** ** Curves *)

Module Curve.

(** The virtual interface of [TMRCurve] that this file uses:
    [getRange(&tmin, &tmax)] and [evalPoint(t, &p)], which returns a fail
    flag and the point it writes. *)
Record TMRCurve := {
  getRange : R * R;
  evalPoint : R -> Z * TMRPoint
}.

(** The comparisons of doubles, as booleans. *)
Definition Rltb (x y : R) : bool := if Rlt_dec x y then true else false.
Definition Rleb (x y : R) : bool := if Rle_dec x y then true else false.

(** [TMRCurve::evalDeriv(t, Xt)] with the static [deriv_step_size]: the
    returned flag and the content of [*Xt] on return. *)
Definition evalDeriv (deriv_step_size : R) (c : TMRCurve) (t : R) (Xt : TMRPoint)
  : Z * TMRPoint :=
  let '(tmin, tmax) := getRange c in
  if Rleb tmin t && Rleb t tmax then
    let '(fail, p) := evalPoint c t in
    if negb (Z.eqb fail 0) then (fail, Xt)
    else if Rleb (t + deriv_step_size) tmax then
      let '(fail, p2) := evalPoint c (t + deriv_step_size) in
      if negb (Z.eqb fail 0) then (fail, Xt)
      else (fail, {| px := (px p2 - px p) / deriv_step_size;
                     py := (py p2 - py p) / deriv_step_size;
                     pz := (pz p2 - pz p) / deriv_step_size |})
    else if Rleb (tmin + deriv_step_size) t then
      let '(fail, p2) := evalPoint c (t - deriv_step_size) in
      if negb (Z.eqb fail 0) then (fail, Xt)
      else (fail, {| px := (px p - px p2) / deriv_step_size;
                     py := (py p - py p2) / deriv_step_size;
                     pz := (pz p - pz p2) / deriv_step_size |})
    else (fail, Xt)
  else (1%Z, Xt).

(** An entry of the linked list of [integrate]. *)
Record IntegralPt := { ip_t : R; ip_dist : R }.

(** [pointDist(a, b)] *)
Definition pointDist (a b : TMRPoint) : R :=
  sqrt ((px a - px b) * (px a - px b) +
        (py a - py b) * (py a - py b) +
        (pz a - pz b) * (pz a - pz b)).

(** The entry that [*_pt] points to: the last one of the list. *)
Definition tail_pt (pts : list IntegralPt) : IntegralPt :=
  last pts {| ip_t := 0; ip_dist := 0 |}.

(** [integrateEdge(edge, t1, p1, t2, tol, ncalls, &pt)]: the list after
    the call.  [fuel] bounds the depth of the recursion. *)
Fixpoint integrateEdge (fuel : nat) (edge : TMRCurve) (t1 : R) (p1 : TMRPoint)
    (t2 tol : R) (ncalls : nat) (pts : list IntegralPt)
  : option (list IntegralPt) :=
  match fuel with
  | O => None
  | Datatypes.S fuel' =>
    let tmid := 0.5 * (t1 + t2) in
    let pmid := snd (evalPoint edge tmid) in
    let p2 := snd (evalPoint edge t2) in
    let int1 := (tmid - t1) * pointDist p1 pmid in
    let int2 := (t2 - tmid) * pointDist pmid p2 in
    let int3 := (tmid - t1) * pointDist p1 p2 in
    let error := Rabs (int3 - int1 - int2) in
    if ((5 <? ncalls)%nat && Rltb error tol) || (20 <? ncalls)%nat then
      let mid := {| ip_t := tmid; ip_dist := ip_dist (tail_pt pts) + int1 |} in
      let fin := {| ip_t := t2; ip_dist := ip_dist mid + int2 |} in
      Some (pts ++ [mid; fin])
    else
      match integrateEdge fuel' edge t1 p1 tmid tol (ncalls + 1) pts with
      | None => None
      | Some pts' => integrateEdge fuel' edge tmid pmid t2 tol (ncalls + 1) pts'
      end
  end.

(** [TMRCurve::integrate(t1, t2, tol, &tvals, &dist, &nvals)]: the arrays,
    the count and the returned length. *)
Definition integrate (fuel : nat) (edge : TMRCurve) (t1 t2 tol : R)
  : option (list R * list R * nat * R) :=
  let root := {| ip_t := t1; ip_dist := 0.0 |} in
  let p1 := snd (evalPoint edge t1) in
  match integrateEdge fuel edge t1 p1 t2 tol 0 [root] with
  | None => None
  | Some pts =>
      Some (map ip_t pts, map ip_dist pts, length pts, ip_dist (tail_pt pts))
  end.

End Curve.

(** ** Error statistics *)

Module Bins.

Definition NUM_BINS : nat := 30.
Definition low : R := -15.
Definition high : R := 0.

(** [bin_bounds[k] = pow(10.0, low + 1.0*k*(high - low)/NUM_BINS)] *)
Definition bin_bounds (k : nat) : R :=
  Rpower 10.0 (low + 1.0 * INR k * (high - low) / INR NUM_BINS).

(** [bins[i]++] *)
Definition incr (i : nat) (bins : list Z) : list Z :=
  firstn i bins ++ (nth i bins 0%Z + 1)%Z :: skipn (Datatypes.S i) bins.

(** The body of the loop over the elements, for one value [error[i]]. *)
Definition count_one (bins : list Z) (e : R) : list Z :=
  if Curve.Rleb e (bin_bounds 0) then incr 0 bins
  else if Curve.Rleb (bin_bounds NUM_BINS) e then incr (NUM_BINS + 1) bins
  else
    fold_left (fun b j =>
      if Curve.Rleb (bin_bounds j) e && Curve.Rltb e (bin_bounds (j + 1))
      then incr (j + 1) b else b)
      (seq 0 NUM_BINS) bins.

(** The bins of one process before the reduction. *)
Definition local_bins (error : list R) : list Z :=
  fold_left count_one error (repeat 0%Z (NUM_BINS + 2)).

(** [MPI_Allreduce(MPI_IN_PLACE, bins, NUM_BINS+2, MPI_INT, MPI_SUM, comm)] *)
Definition allreduce_bins (locals : list (list Z)) : list Z :=
  map (fun i => fold_right Z.add 0%Z (map (fun b => nth i b 0%Z) locals))
      (seq 0 (NUM_BINS + 2)).

Record stats := {
  st_mean : R;
  st_stddev : R;
  st_bins : list Z;
  st_total : Z
}.

(** [TMR_PrintErrorBins]: the values written to [*mean] and [*stddev],
    the reduced bins and the [total] that the percentages divide by.  One
    list of element errors per process. *)
Definition TMR_PrintErrorBins (errors : list (list R)) : stats :=
  let ntotal := fold_right Z.add 0%Z (map (fun e => Z.of_nat (length e)) errors) in
  let m :=
    MPI_Allreduce_SUM (map (fun e => accum (fun i => ln (rd e i)) (length e)) errors)
    / IZR ntotal in
  let s :=
    sqrt (MPI_Allreduce_SUM
            (map (fun e => accum (fun i => (ln (rd e i) - m) * (ln (rd e i) - m))
                                 (length e)) errors)
          / IZR (ntotal - 1)) in
  let bins := allreduce_bins (map local_bins errors) in
  {| st_mean := m;
     st_stddev := s;
     st_bins := bins;
     st_total := fold_left Z.add bins 0%Z |}.

End Bins.

(** ** Refined-field builder for quads *)

Module Refine2D.
Import Enrich.

(** The statements of [addRefinedSolution2D] on the scratch buffer [uref]
    for one element: the [memset], the knot loops and the zeroing of the
    dependent slots. *)
Definition fill_uref2D (forest refined_forest : QuadForest) (vpn : nat)
    (compute_difference : bool) (uelem ubar : list R) (refined_nodes : list Z)
    (uref : list R) : option (list R) :=
  let order := quad_order forest in
  let refined_order := quad_order refined_forest in
  let refined_knots := quad_knots refined_forest in
  let num_refined_nodes := (refined_order * refined_order)%nat in
  let nenrich := getNum2dEnrich order in
  Mem.bind (Mem.memset0 uref (vpn * num_refined_nodes)) (fun uref =>
  Mem.bind
    (Mem.for_ (seq 0 refined_order) (fun m =>
     Mem.for_ (seq 0 refined_order) (fun n uref =>
       let pt := [rd refined_knots n; rd refined_knots m] in
       let offset := (n + refined_order * m)%nat in
       let Nr := evalEnrichmentFuncs2D_N order pt refined_knots [] in
       let add_enrich :=
         Mem.for_ (seq 0 vpn) (fun i =>
         Mem.for_ (seq 0 nenrich) (fun k u =>
           Mem.add_to u (vpn * offset + i) (rd Nr k * rd ubar (i + vpn * k)))) in
       if compute_difference then add_enrich uref
       else
         let N := N2 (quad_evalInterp forest pt) in
         Mem.bind
           (Mem.for_ (seq 0 vpn) (fun i =>
            Mem.for_ (seq 0 (order * order)) (fun k u =>
              Mem.add_to u (vpn * offset + i) (rd N k * rd uelem (i + vpn * k))))
              uref)
           add_enrich)) uref)
    (fun uref =>
     Mem.for_ (seq 0 num_refined_nodes) (fun i uref =>
       if (nth i refined_nodes 0 <? 0)%Z then
         Mem.for_ (seq 0 vpn) (fun j u => Mem.store u (vpn * i + j) 0) uref
       else Some uref) uref)).

(** [addRefinedSolution2D] on one process: the scratch buffer and the
    refined vector after the element loop, or [None] after a write outside
    [uref]. *)
Definition addRefinedSolution2D (lib : Lib)
    (forest : QuadForest) (tacs : TACSAssembler)
    (refined_forest : QuadForest) (refined_tacs : TACSAssembler)
    (vec vecDeriv vec_refined : BVec.t) (compute_difference : bool)
    (element_nums : option (list nat)) : option (list R * BVec.t) :=
  let vpn := getVarsPerNode tacs in
  let refined_order := quad_order refined_forest in
  let uref := Mem.alloc (vpn * (refined_order * refined_order)) in
  Mem.for_ (elem_loop tacs element_nums) (fun elem '(uref, vec_refined) =>
    let nodes := el_nodes (getElement tacs elem) in
    let uelem := BVec.getValues (depNodes tacs) vpn nodes vec in
    let delem := BVec.getValues (depNodes tacs) (3 * vpn) nodes vecDeriv in
    let Xpts := el_Xpts (getElement refined_tacs elem) in
    let ubar := Recon.computeElemRecon2D lib vpn forest refined_forest Xpts uelem delem in
    let refined_nodes := el_nodes (getElement refined_tacs elem) in
    Mem.bind (fill_uref2D forest refined_forest vpn compute_difference
                uelem ubar refined_nodes uref)
      (fun uref =>
         Some (uref, BVec.setValues_ADD (depNodes refined_tacs) vpn
                       refined_nodes uref vec_refined)))
    (uref, vec_refined).

(** The value that the knot loops leave for variable [i] at the refined
    knot [(n, m)]. *)
Definition refined_value (forest refined_forest : QuadForest) (vpn : nat)
    (compute_difference : bool) (uelem ubar : list R) (m n i : nat) : R :=
  let order := quad_order forest in
  let refined_knots := quad_knots refined_forest in
  let pt := [rd refined_knots n; rd refined_knots m] in
  let Nr := evalEnrichmentFuncs2D_N order pt refined_knots [] in
  (if compute_difference then 0
   else Rsum (map (fun k => rd (N2 (quad_evalInterp forest pt)) k *
                            rd uelem (i + vpn * k)) (seq 0 (order * order)))) +
  Rsum (map (fun k => rd Nr k * rd ubar (i + vpn * k))
            (seq 0 (getNum2dEnrich order))).

End Refine2D.

(** ** Nodes of the enrichment *)

Module EnrichNodes.


End EnrichNodes.

(** ** Curvature constraint: the induced aggregate *)

Module CurvCon.

(** One process of [TMRCurvatureConstraint]: the forest, the number of
    elements that [getNodeConn] reports and the dependent-node table of the
    member vectors. *)
Record proc := {
  cp_forest : OctForest;
  cp_num_elements : nat;
  cp_dep : Z -> list (Z * R)
}.

(** The value [evalCurvature(val, g, H)] that both loops of
    [evalConstraint] compute for element [elem]. *)
Definition elem_result (lib : Lib) (aggregate_weight : R) (xvec xderiv : BVec.t)
    (p : proc) (elem : nat) : R :=
  let forest := cp_forest p in
  let conn := oct_conn forest in
  let elem_Xpts :=
    flat_map (fun j =>
      let c := nth (8 * elem + j) conn 0%Z in
      let node := oct_getLocalNodeNumber forest c in
      let X := nth node (oct_points forest) {| px := 0; py := 0; pz := 0 |} in
      [px X; py X; pz X]) (seq 0 8) in
  let nodes := map (fun j => nth (8 * elem + j) conn 0%Z) (seq 0 8) in
  let elem_vals := BVec.getValues (cp_dep p) 1 nodes xvec in
  let elem_derivs := BVec.getValues (cp_dep p) 3 nodes xderiv in
  let '(_, g, H) := Poly.estimateHessian lib elem_Xpts elem_vals elem_derivs in
  let val := accum (fun j => 0.125 * rd elem_vals j) 8 in
  Curvature.evalCurvature aggregate_weight g H val.

(** The members [max_curvature], [aggregate_numer], [aggregate_denom] and
    the returned value. *)
Record result := {
  max_curvature : R;
  aggregate_numer : R;
  aggregate_denom : R;
  func_val : R
}.

(** [TMRCurvatureConstraint::evalConstraint], from the first element loop
    on; [xvec] and [xderiv] are the member vectors after the copy and after
    [computeNodeDeriv()]. *)
Definition evalConstraint (lib : Lib) (aggregate_weight : R)
    (procs : list proc) (xvec xderiv : BVec.t) : result :=
  let res := elem_result lib aggregate_weight xvec xderiv in
  let mx :=
    MPI_Allreduce_MAX
      (map (fun p =>
              fold_left (fun m elem =>
                           if Rgt_dec (res p elem) m then res p elem else m)
                        (seq 0 (cp_num_elements p)) 0.0) procs) in
  let numer :=
    MPI_Allreduce_SUM
      (map (fun p =>
              fold_left (fun a elem =>
                           a + res p elem * exp (aggregate_weight * (res p elem - mx)))
                        (seq 0 (cp_num_elements p)) 0.0) procs) in
  let denom :=
    MPI_Allreduce_SUM
      (map (fun p =>
              fold_left (fun a elem =>
                           a + exp (aggregate_weight * (res p elem - mx)))
                        (seq 0 (cp_num_elements p)) 0.0) procs) in
  {| max_curvature := mx;
     aggregate_numer := numer;
     aggregate_denom := denom;
     func_val := numer / denom |}.

(** The element values of all the processes, in the order of the loops. *)
Definition results (lib : Lib) (aggregate_weight : R)
    (procs : list proc) (xvec xderiv : BVec.t) : list R :=
  flat_map (fun p => map (elem_result lib aggregate_weight xvec xderiv p)
                         (seq 0 (cp_num_elements p))) procs.

End CurvCon.

(** ** A second concrete mesh: the cube with its own orientation *)

Module Example2.

(** The nodes of the higher-order hexahedron: the cube [-1,1]^3. *)
Definition cube_points : list TMRPoint :=
  flat_map (fun z => flat_map (fun y => map (fun x =>
    {| px := x; py := y; pz := z |}) [-1; 0; 1]) [-1; 0; 1]) [-1; 0; 1].

Definition oct3 : OctForest :=
  {| oct_order := 3; oct_knots := [-1; 0; 1];
     oct_evalInterp := Example.interp3 Example.lag3 Example.dlag3;
     oct_conn := map Z.of_nat (seq 0 27);
     oct_getLocalNodeNumber := Z.to_nat;
     oct_points := cube_points |}.

(** The straight curve from the origin to (1, 2, 2) on the range [0, 1]. *)
Definition segment : Curve.TMRCurve :=
  {| Curve.getRange := (0, 1);
     Curve.evalPoint := fun t => (0%Z, {| px := t; py := 2 * t; pz := 2 * t |}) |}.

(** One process of the curvature constraint with one element on the nodes
    of [Example.oct2]. *)
Definition curv_proc : CurvCon.proc :=
  {| CurvCon.cp_forest := Example.oct2;
     CurvCon.cp_num_elements := 1;
     CurvCon.cp_dep := fun _ => [] |}.

End Example2.

(** ** Sensitivities of the element curvature *)

(** The array [a] with [a[i]] replaced by [v]. *)
Definition with_entry (a : list R) (i : nat) (v : R) : list R :=
  firstn i a ++ v :: skipn (S i) a.

Module ElemCurv.

(** The array [dh[9]] of [addCurvDeriv]. *)
Definition dh (J dH : list R) : list R :=
  [ rd J 0 * rd dH 0 + 0.5 * rd J 1 * rd dH 1 + 0.5 * rd J 2 * rd dH 2;
    rd J 3 * rd dH 0 + 0.5 * rd J 4 * rd dH 1 + 0.5 * rd J 5 * rd dH 2;
    rd J 6 * rd dH 0 + 0.5 * rd J 7 * rd dH 1 + 0.5 * rd J 8 * rd dH 2;
    0.5 * rd J 0 * rd dH 1 + rd J 1 * rd dH 3 + 0.5 * rd J 2 * rd dH 4;
    0.5 * rd J 3 * rd dH 1 + rd J 4 * rd dH 3 + 0.5 * rd J 5 * rd dH 4;
    0.5 * rd J 6 * rd dH 1 + rd J 7 * rd dH 3 + 0.5 * rd J 8 * rd dH 4;
    0.5 * rd J 0 * rd dH 2 + 0.5 * rd J 1 * rd dH 4 + rd J 2 * rd dH 5;
    0.5 * rd J 3 * rd dH 2 + 0.5 * rd J 4 * rd dH 4 + rd J 5 * rd dH 5;
    0.5 * rd J 6 * rd dH 2 + 0.5 * rd J 7 * rd dH 4 + rd J 8 * rd dH 5 ].

(** The body of the second loop of [addCurvDeriv] on [(dvals, dderiv)]. *)
Definition add_node (alpha dval : R) (N Na Nb Nc dg dh : list R) (j : nat)
    (s : list R * list R) : option (list R * list R) :=
  let '(dvals, dderiv) := s in
  Mem.bind (Mem.add_to dvals j (alpha * dval * rd N j)) (fun dvals =>
  Mem.bind (Mem.add_to dderiv (3 * j)
              (alpha * (rd N j * rd dg 0 + rd Na j * rd dh 0 +
                        rd Nb j * rd dh 1 + rd Nc j * rd dh 2))) (fun dderiv =>
  Mem.bind (Mem.add_to dderiv (3 * j + 1)
              (alpha * (rd N j * rd dg 1 + rd Na j * rd dh 3 +
                        rd Nb j * rd dh 4 + rd Nc j * rd dh 5))) (fun dderiv =>
  Mem.bind (Mem.add_to dderiv (3 * j + 2)
              (alpha * (rd N j * rd dg 2 + rd Na j * rd dh 6 +
                        rd Nb j * rd dh 7 + rd Nc j * rd dh 8))) (fun dderiv =>
  Some (dvals, dderiv))))).

(** [TMRCurvatureConstraint::addCurvDeriv(alpha, elem_size, N, Na, Nb, Nc, J,
    Xpts, elem_vals, elem_deriv, dvals, dderiv)]: the value returned and the
    arrays [dvals] and [dderiv] after the call ([Xpts] is not read). *)
Definition addCurvDeriv (aggregate_weight alpha : R) (elem_size : nat)
    (N Na Nb Nc J elem_vals elem_deriv dvals dderiv : list R)
  : option (R * list R * list R) :=
  let '(val, g, H) :=
    Poly.interp_val_g_H elem_size N Na Nb Nc J elem_vals elem_deriv in
  let d := CurvDeriv.evalCurvDeriv aggregate_weight val g H in
  Mem.bind
    (Mem.for_ (seq 0 elem_size)
       (add_node alpha (CurvDeriv.cd_dval d) N Na Nb Nc (CurvDeriv.cd_dg d)
          (dh J (CurvDeriv.cd_dH d)))
       (dvals, dderiv))
    (fun s => Some (CurvDeriv.cd_result d, fst s, snd s)).

End ElemCurv.

(** ** Sensitivities of the strain *)

Module StrainDeriv.
Import Enrich.

(** One pass of a loop of [addStrainDeriv] on the array [out] ([dfdu] or
    [dfdubar]), where [na[0]], [nb[0]], [nc[0]] are entry [i] of the arrays
    [Nx], [Ny], [Nz] and [out] has been advanced by [3*i]. *)
Definition add_row (J : list R) (alpha : R) (dfde Nx Ny Nz : list R) (i : nat)
    (out : list R) : option (list R) :=
  let Dx := rd Nx i * rd J 0 + rd Ny i * rd J 3 + rd Nz i * rd J 6 in
  let Dy := rd Nx i * rd J 1 + rd Ny i * rd J 4 + rd Nz i * rd J 7 in
  let Dz := rd Nx i * rd J 2 + rd Ny i * rd J 5 + rd Nz i * rd J 8 in
  Mem.bind (Mem.add_to out (3 * i)
              (alpha * (rd dfde 0 * Dx + rd dfde 4 * Dz + rd dfde 5 * Dy)))
    (fun out =>
  Mem.bind (Mem.add_to out (3 * i + 1)
              (alpha * (rd dfde 1 * Dy + rd dfde 3 * Dz + rd dfde 5 * Dx)))
    (fun out =>
  Mem.add_to out (3 * i + 2)
    (alpha * (rd dfde 2 * Dz + rd dfde 3 * Dy + rd dfde 4 * Dx)))).

(** [TMRStressConstraint::addStrainDeriv(pt, J, alpha, dfde, dfdu, dfdubar)]:
    the value returned and the arrays [dfdu] and [dfdubar] after the call. *)
Definition addStrainDeriv (forest : OctForest) (pt J : list R) (alpha : R)
    (dfde dfdu dfdubar : list R) : option (R * list R * list R) :=
  let order := oct_order forest in
  let f := oct_evalInterp forest pt in
  let en := evalEnrichmentFuncs3D order pt (mk3D [] [] [] []) in
  let nenrich := getNum3dEnrich order in
  let len := (order * order * order)%nat in
  Mem.bind (Mem.for_ (seq 0 len)
              (add_row J alpha dfde (Na3 f) (Nb3 f) (Nc3 f)) dfdu)
    (fun dfdu =>
  Mem.bind (Mem.for_ (seq 0 nenrich)
              (add_row J alpha dfde (Na3 en) (Nb3 en) (Nc3 en)) dfdubar)
    (fun dfdubar =>
  Some (0, dfdu, dfdubar))).

(** The product [dfde . e] of the six strain components. *)
Definition dfde_dot (dfde e : list R) : R :=
  accum (fun m => rd dfde m * rd e m) 6.

End StrainDeriv.


(** ** The curvature descriptor with checked division *)

Module CurvatureChecked.

(** A quotient [a / b] of the code: it has no value where the divisor is
    zero. *)
Definition div (a b : R) : option R :=
  if Req_dec_T b 0 then None else Some (a / b).

Section EvalCurvature.
Variable aggregate_weight : R.
Variables g H : list R.

(** [KG = 0.0; if (gn != 0.0) KG = Hfact/(gn*gn);] *)
Definition KG : option R :=
  if Req_dec_T (Curvature.gn g) 0 then Some 0
  else div (Curvature.Hfact g H) (Curvature.gn g * Curvature.gn g).

(** [KM = 0.0; if (gn != 0.0) KM = 0.5*(Hprod - gn*tr)/(gn*sqrtgn);] *)
Definition KM : option R :=
  if Req_dec_T (Curvature.gn g) 0 then Some 0
  else div (0.5 * (Curvature.Hprod g H -
                   Curvature.gn g * (rd H 0 + rd H 3 + rd H 5)))
           (Curvature.gn g * Curvature.sqrtgn g).

(** The statements of [evalCurvature] from [sqrtk] to [result], on the
    values of [KG] and [KM]. *)
Definition result (val KG KM : R) : option R :=
  let sqrtk := sqrt (KM * KM - KG) in
  let k1 := Rabs (KM + sqrtk) in
  let k2 := Rabs (KM - sqrtk) in
  let kmax := if Rgt_dec k1 k2 then k1 else k2 in
  let kdiff := if Rgt_dec k1 k2 then k2 - k1 else k1 - k2 in
  Mem.bind (div (ln (1 + exp (aggregate_weight * kdiff))) aggregate_weight)
    (fun q => Some (Curvature.factor val * (kmax + q))).

(** [TMRCurvatureConstraint::evalCurvature(val, g, H)], every division
    checked. *)
Definition evalCurvature (val : R) : option R :=
  Mem.bind KG (fun KG => Mem.bind KM (fun KM => result val KG KM)).

End EvalCurvature.

End CurvatureChecked.

(** ** The strain-energy indicator in the words of the specification *)

Module EnergySpec.
Import Enrich.

(** Follows the specification, not the code: the field reconstructed at
    the knots of the refined element is [N(coarse, pt).Uelem + Nenr(pt).ubar]
    at each knot, node by node ([n] fastest), variable by variable. *)
Definition reconstructed_field2D (forest refined_forest : QuadForest)
    (vpn : nat) (uelem ubar : list R) : list R :=
  let order := quad_order forest in
  let refined_order := quad_order refined_forest in
  let refined_knots := quad_knots refined_forest in
  flat_map (fun m =>
    flat_map (fun n =>
      let pt := [rd refined_knots n; rd refined_knots m] in
      let N := N2 (quad_evalInterp forest pt) in
      let Nr := evalEnrichmentFuncs2D_N order pt refined_knots [] in
      map (fun kk =>
             Rsum (map (fun k => rd N k * rd uelem (vpn * k + kk))
                       (seq 0 (order * order))) +
             Rsum (map (fun k => rd ubar (vpn * k + kk) * rd Nr k)
                       (seq 0 (getNum2dEnrich order))))
          (seq 0 vpn))
      (seq 0 refined_order))
    (seq 0 refined_order).

(** Follows the specification, not the code: the absolute potential energy
    that the element collaborator returns for element [i] on the
    reconstructed field. *)
Definition claimed_indicator2D (lib : Lib)
    (p : QuadForest * TACSAssembler * QuadForest * TACSAssembler)
    (uvec uderiv : BVec.t) (i : nat) : R :=
  let '(forest, tacs, forest_refined, tacs_refined) := p in
  let vpn := getVarsPerNode tacs in
  let ro := quad_order forest_refined in
  let nodes := el_nodes (getElement tacs i) in
  let Xpts := el_Xpts (getElement tacs_refined i) in
  let uelem := BVec.getValues (depNodes tacs) vpn nodes uvec in
  let ubar :=
    Recon.computeElemRecon2D lib vpn forest forest_refined Xpts uelem
      (BVec.getValues (depNodes tacs) (3 * vpn) nodes uderiv) in
  Rabs (snd (computeEnergies (el_obj (getElement tacs_refined i)) 0 Xpts
               (reconstructed_field2D forest forest_refined vpn uelem ubar)
               (repeat 0 (vpn * (ro * ro))))).

(** Follows the specification, not the code: the indicators of every
    process and the sum-reduce of their sums. *)
Definition claimed_result (lib : Lib)
    (procs : list (QuadForest * TACSAssembler * QuadForest * TACSAssembler))
    (uvec : BVec.t) : list (list R) * R :=
  let uderiv := Aux.energy_uderiv2D lib procs uvec in
  let indicators (p : QuadForest * TACSAssembler * QuadForest * TACSAssembler) :=
    map (claimed_indicator2D lib p uvec uderiv)
        (seq 0 (length (elems (snd (fst (fst p)))))) in
  (map indicators procs,
   MPI_Allreduce_SUM (map (fun p => Rsum (indicators p)) procs)).

End EnergySpec.

(** ** A regular mesh: one flat square and one cube *)

Module Regular.

(** The nodes of the square [-1,1]^2 in the plane [z = 0] on the given
    knots, [x] fastest. *)
Definition square (knots : list R) : list R :=
  flat_map (fun y => flat_map (fun x => [x; y; 0]) knots) knots.

(** The nodes of the cube [-1,1]^3 on the given knots, [x] fastest. *)
Definition cube (knots : list R) : list R :=
  flat_map (fun z => flat_map (fun y => flat_map (fun x => [x; y; z]) knots)
                       knots) knots.

(** An element whose potential energy is half the sum of the squares of
    its variables. *)
Definition element (n : nat) : TACSElement :=
  {| numNodes := n;
     computeEnergies := fun _ _ vars _ =>
       (0, Rsum (map (fun v => v * v) vars) / 2);
     addLocalizedError := fun _ err _ _ _ => err;
     failure := fun _ _ => 0 |}.

(** One element on the nodes [0 .. n-1] at the locations [Xpts], one
    variable per node, no dependent node, no auxiliary element. *)
Definition assembler (n : nat) (Xpts : list R) : TACSAssembler :=
  {| getVarsPerNode := 1;
     elems := [ {| el_nodes := map Z.of_nat (seq 0 n);
                   el_Xpts := Xpts;
                   el_obj := element n |} ];
     depNodes := fun _ => [];
     auxElems := [] |}.

(** The square with the nodes of order 2 and of order 3, the cube with the
    nodes of order 2. *)
Definition plate2 : TACSAssembler := assembler 4 (square [-1; 1]).
Definition plate3 : TACSAssembler := assembler 9 (square [-1; 0; 1]).
Definition brick2 : TACSAssembler := assembler 8 (cube [-1; 1]).

(** The process of the strain-energy estimator: the plate of order 2 and
    its refinement of order 3. *)
Definition plate_proc : QuadForest * TACSAssembler * QuadForest * TACSAssembler :=
  (Example.quad2, plate2, Example.quad3, plate3).

End Regular.

(** * Properties *)

(** ** Differentiation of the enrichment functions *)

Lemma derivable_pt_lim_eq (f : R -> R) (x l l' : R) :
derivable_pt_lim f x l' -> l' = l -> derivable_pt_lim f x l.
Proof. intros H E; subst; exact H. Qed.

(** Derive a polynomial expression syntactically; the derivative found is
  left in the (existential) limit. *)
Ltac derive_poly :=
lazymatch goal with
| |- derivable_pt_lim (fun x => x) _ _ => apply derivable_pt_lim_id
| |- derivable_pt_lim (fun _ => ?c) _ _ => apply derivable_pt_lim_const
| |- derivable_pt_lim (fun x => @?f x + @?g x) _ _ =>
    apply (derivable_pt_lim_plus f g); derive_poly
| |- derivable_pt_lim (fun x => @?f x - @?g x) _ _ =>
    apply (derivable_pt_lim_minus f g); derive_poly
| |- derivable_pt_lim (fun x => @?f x * @?g x) _ _ =>
    apply (derivable_pt_lim_mult f g); derive_poly
end.

Ltac poly_deriv :=
cbv [rd nth]; eapply derivable_pt_lim_eq; [derive_poly | ring].

Section EnrichmentDerivatives.
Import Enrich.

Variables (knots : list R) (old : funcs3D).

Lemma deriv2D_a (order : nat) (xi eta : R) (i : nat) :
  (order = 2 \/ order = 3 \/ order = 4)%nat ->
  (i < getNum2dEnrich order)%nat ->
  derivable_pt_lim
    (fun x => rd (N2 (evalEnrichmentFuncs2D order [x; eta] knots)) i) xi
    (rd (Na2 (evalEnrichmentFuncs2D order [xi; eta] knots)) i).
Proof.
  intros [-> | [-> | ->]] Hi; cbn in Hi;
    repeat (destruct i as [|i]; [cbn; poly_deriv | try lia]).
Qed.

Lemma deriv2D_b (order : nat) (xi eta : R) (i : nat) :
  (order = 2 \/ order = 3 \/ order = 4)%nat ->
  (i < getNum2dEnrich order)%nat ->
  derivable_pt_lim
    (fun y => rd (N2 (evalEnrichmentFuncs2D order [xi; y] knots)) i) eta
    (rd (Nb2 (evalEnrichmentFuncs2D order [xi; eta] knots)) i).
Proof.
  intros [-> | [-> | ->]] Hi; cbn in Hi;
    repeat (destruct i as [|i]; [cbn; poly_deriv | try lia]).
Qed.

Lemma deriv3D_a (order : nat) (xi eta zeta : R) (i : nat) :
  (order = 2 \/ order = 3)%nat ->
  (i < getNum3dEnrich order)%nat ->
  derivable_pt_lim
    (fun x => rd (N3 (evalEnrichmentFuncs3D order [x; eta; zeta] old)) i) xi
    (rd (Na3 (evalEnrichmentFuncs3D order [xi; eta; zeta] old)) i).
Proof.
  intros [-> | ->] Hi; cbn in Hi;
    repeat (destruct i as [|i]; [cbn; poly_deriv | try lia]).
Qed.

Lemma deriv3D_b (order : nat) (xi eta zeta : R) (i : nat) :
  (order = 2 \/ order = 3)%nat ->
  (i < getNum3dEnrich order)%nat ->
  derivable_pt_lim
    (fun y => rd (N3 (evalEnrichmentFuncs3D order [xi; y; zeta] old)) i) eta
    (rd (Nb3 (evalEnrichmentFuncs3D order [xi; eta; zeta] old)) i).
Proof.
  intros [-> | ->] Hi; cbn in Hi;
    repeat (destruct i as [|i]; [cbn; poly_deriv | try lia]).
Qed.

Lemma deriv3D_c (order : nat) (xi eta zeta : R) (i : nat) :
  (order = 2 \/ order = 3)%nat ->
  (i < getNum3dEnrich order)%nat ->
  derivable_pt_lim
    (fun z => rd (N3 (evalEnrichmentFuncs3D order [xi; eta; z] old)) i) zeta
    (rd (Nc3 (evalEnrichmentFuncs3D order [xi; eta; zeta] old)) i).
Proof.
  intros [-> | ->] Hi; cbn in Hi;
    repeat (destruct i as [|i]; [cbn; poly_deriv | try lia]).
Qed.

(** The values-only overload and the overload with derivatives emit the
    same [N] for the supported orders. *)
Lemma evalEnrichmentFuncs2D_same_N (order : nat) (pt N0 : list R) :
  (order = 2 \/ order = 3 \/ order = 4)%nat ->
  evalEnrichmentFuncs2D_N order pt knots N0 =
  N2 (evalEnrichmentFuncs2D order pt knots).
Proof. intros [-> | [-> | ->]]; reflexivity. Qed.

(** C9.  For the orders 2, 3, 4 in 2D and 2, 3 in 3D and every parametric
    point, every entry of the arrays [Na], [Nb] (and [Nc]) is the partial
    derivative, in the sense of the limit of the difference quotient, of
    the same entry of [N] with respect to the matching coordinate. *)
Theorem enrichment_derivatives_analytic
    (order : nat) (xi eta zeta : R) (i : nat) :
  ((order = 2 \/ order = 3 \/ order = 4)%nat ->
   (i < getNum2dEnrich order)%nat ->
   derivable_pt_lim
     (fun x => rd (N2 (evalEnrichmentFuncs2D order [x; eta] knots)) i) xi
     (rd (Na2 (evalEnrichmentFuncs2D order [xi; eta] knots)) i) /\
   derivable_pt_lim
     (fun y => rd (N2 (evalEnrichmentFuncs2D order [xi; y] knots)) i) eta
     (rd (Nb2 (evalEnrichmentFuncs2D order [xi; eta] knots)) i)) /\
  ((order = 2 \/ order = 3)%nat ->
   (i < getNum3dEnrich order)%nat ->
   derivable_pt_lim
     (fun x => rd (N3 (evalEnrichmentFuncs3D order [x; eta; zeta] old)) i) xi
     (rd (Na3 (evalEnrichmentFuncs3D order [xi; eta; zeta] old)) i) /\
   derivable_pt_lim
     (fun y => rd (N3 (evalEnrichmentFuncs3D order [xi; y; zeta] old)) i) eta
     (rd (Nb3 (evalEnrichmentFuncs3D order [xi; eta; zeta] old)) i) /\
   derivable_pt_lim
     (fun z => rd (N3 (evalEnrichmentFuncs3D order [xi; eta; z] old)) i) zeta
     (rd (Nc3 (evalEnrichmentFuncs3D order [xi; eta; zeta] old)) i)).
Proof.
  split; intros Ho Hi.
  - split; [apply deriv2D_a | apply deriv2D_b]; assumption.
  - split; [apply deriv3D_a | split; [apply deriv3D_b | apply deriv3D_c]];
      assumption.
Qed.

End EnrichmentDerivatives.

(** ** Sums, folds and the vector operations *)

Lemma Rsum_app (l1 l2 : list R) : Rsum (l1 ++ l2) = Rsum l1 + Rsum l2.
Proof. induction l1 as [|a l1 IH]; simpl; [lra | rewrite IH; lra]. Qed.

Lemma Rsum_map_zero {A} (f : A -> R) (l : list A) :
  (forall a, In a l -> f a = 0) -> Rsum (map f l) = 0.
Proof.
  induction l as [|a l IH]; simpl; intros H; [reflexivity|].
  rewrite (H a), IH; [lra | intros; apply H; now right | now left].
Qed.

Lemma Rsum_map_ext_in {A} (f g : A -> R) (l : list A) :
  (forall a, In a l -> f a = g a) -> Rsum (map f l) = Rsum (map g l).
Proof. intros H; f_equal; now apply map_ext_in. Qed.

Lemma Rsum_map_plus {A} (f g : A -> R) (l : list A) :
  Rsum (map (fun a => f a + g a) l) = Rsum (map f l) + Rsum (map g l).
Proof. induction l as [|a l IH]; simpl; [lra | rewrite IH; lra]. Qed.

Lemma Rsum_map_scal {A} (c : R) (f : A -> R) (l : list A) :
  Rsum (map (fun a => c * f a) l) = c * Rsum (map f l).
Proof. induction l as [|a l IH]; simpl; [lra | rewrite IH; lra]. Qed.

Lemma Rsum_flat_map {A} (f : A -> list R) (l : list A) :
  Rsum (flat_map f l) = Rsum (map (fun a => Rsum (f a)) l).
Proof.
  induction l as [|a l IH]; simpl; [reflexivity|].
  now rewrite Rsum_app, IH.
Qed.

Lemma Rsum_repeat0 (n : nat) : Rsum (repeat 0 n) = 0.
Proof. induction n; simpl; lra. Qed.

(** Picking one index out of a range. *)
Lemma Rsum_pick (v : nat -> R) (k' start len : nat) :
  Rsum (map (fun k => if Nat.eqb k' k then v k else 0) (seq start len)) =
  if (Nat.leb start k' && Nat.ltb k' (start + len))%bool then v k' else 0.
Proof.
  revert start; induction len as [|len IH]; intros start; simpl.
  - destruct (Nat.leb_spec start k'), (Nat.ltb_spec k' (start + 0)); simpl; try reflexivity; lia.
  - rewrite IH.
    destruct (Nat.eqb_spec k' start) as [->|Hne].
    + rewrite Nat.leb_refl.
      destruct (Nat.leb_spec (S start) start); [lia|].
      destruct (Nat.ltb_spec start (start + S len)); [|lia]. simpl. lra.
    + destruct (Nat.leb_spec (S start) k'), (Nat.leb_spec start k'),
        (Nat.ltb_spec k' (S start + len)), (Nat.ltb_spec k' (start + S len));
        simpl; try lra; lia.
Qed.

Lemma fold_left_Rplus_acc {A} (f : A -> R) (l : list A) (a0 : R) :
  fold_left (fun acc i => acc + f i) l a0 = a0 + Rsum (map f l).
Proof.
  revert a0; induction l as [|a l IH]; intros a0; simpl; [lra|].
  rewrite IH; lra.
Qed.

Lemma accum_Rsum (f : nat -> R) (n : nat) : accum f n = Rsum (map f (seq 0 n)).
Proof. unfold accum, accum_from; rewrite fold_left_Rplus_acc; lra. Qed.

Lemma accum_from_Rsum (init : R) (f : nat -> R) (n : nat) :
  accum_from init f n = init + Rsum (map f (seq 0 n)).
Proof. unfold accum_from; apply fold_left_Rplus_acc. Qed.

(** A fold whose step adds [g a] pointwise adds the sum of the [g a]. *)
Lemma fold_left_additive {A} (step : BVec.t -> A -> BVec.t) (g : A -> Z -> nat -> R) :
  (forall y a n k, step y a n k = y n k + g a n k) ->
  forall l x n k, fold_left step l x n k = x n k + Rsum (map (fun a => g a n k) l).
Proof.
  intros Hs l; induction l as [|a l IH]; intros x n k; simpl; [lra|].
  rewrite IH, Hs; lra.
Qed.

Lemma add_at_spec (x : BVec.t) n k v n' k' :
  BVec.add_at x n k v n' k' =
  x n' k' + (if (Z.eqb n' n && Nat.eqb k' k)%bool then v else 0).
Proof. unfold BVec.add_at; destruct (_ && _)%bool; lra. Qed.

Lemma add_node_spec dep (x : BVec.t) n k v n' k' :
  BVec.add_node dep x n k v n' k' = x n' k' + Aux.contrib dep n k v n' k'.
Proof.
  unfold BVec.add_node, Aux.contrib; destruct (0 <=? n)%Z.
  - apply add_at_spec.
  - apply (fold_left_additive
             (fun y iw => BVec.add_at y (fst iw) k (snd iw * v))
             (fun iw n' k' => if (Z.eqb n' (fst iw) && Nat.eqb k' k)%bool
                              then snd iw * v else 0)).
    intros; apply add_at_spec.
Qed.

Lemma setValues_ADD_spec dep bs nodes vals (x : BVec.t) n' k' :
  BVec.setValues_ADD dep bs nodes vals x n' k' =
  x n' k' +
  Rsum (map (fun j =>
          Rsum (map (fun k => Aux.contrib dep (nth j nodes 0%Z) k
                                (rd vals (bs * j + k)) n' k') (seq 0 bs)))
        (seq 0 (length nodes))).
Proof.
  unfold BVec.setValues_ADD.
  apply (fold_left_additive
    (fun y j => fold_left
       (fun z k => BVec.add_node dep z (nth j nodes 0%Z) k (rd vals (bs * j + k)))
       (seq 0 bs) y)
    (fun j n' k' => Rsum (map (fun k => Aux.contrib dep (nth j nodes 0%Z) k
                                (rd vals (bs * j + k)) n' k') (seq 0 bs)))).
  intros y j n k.
  apply (fold_left_additive
    (fun z k => BVec.add_node dep z (nth j nodes 0%Z) k (rd vals (bs * j + k)))
    (fun k n' k' => Aux.contrib dep (nth j nodes 0%Z) k (rd vals (bs * j + k)) n' k')).
  intros; apply add_node_spec.
Qed.

Lemma contrib_zero dep n k n' k' : Aux.contrib dep n k 0 n' k' = 0.
Proof.
  unfold Aux.contrib; destruct (0 <=? n)%Z.
  - destruct (_ && _)%bool; reflexivity.
  - apply Rsum_map_zero; intros iw _; destruct (_ && _)%bool; lra.
Qed.

(** ** Knot enumeration and block indexing *)

Lemma nth_flat_map_blocks {A B} (f : A -> list B) (bs : nat) (l : list A)
    (j c : nat) (d : B) (a0 : A) :
  (forall a, In a l -> length (f a) = bs) ->
  (j < length l)%nat -> (c < bs)%nat ->
  nth (bs * j + c) (flat_map f l) d = nth c (f (nth j l a0)) d.
Proof.
  revert j; induction l as [|a l IH]; intros j Hlen Hj Hc; simpl in *; [lia|].
  destruct j as [|j].
  - rewrite Nat.mul_0_r; simpl. apply app_nth1. rewrite Hlen; auto.
  - replace (bs * S j + c)%nat with (length (f a) + (bs * j + c))%nat
      by (rewrite Hlen; auto; lia).
    rewrite app_nth2_plus. apply IH; auto; lia.
Qed.

Lemma map_seq_shift {A} (h : nat -> A) (a n : nat) :
  map h (seq a n) = map (fun b => h (a + b)%nat) (seq 0 n).
Proof.
  revert h a; induction n as [|n IH]; intros h a; simpl; [reflexivity|].
  rewrite Nat.add_0_r; f_equal.
  rewrite (IH h (S a)), (IH (fun b => h (a + b)%nat) 1%nat).
  apply map_ext; intros b. f_equal; lia.
Qed.



Lemma map_flat_map_comm {A B C} (g : B -> C) (f : A -> list B) (l : list A) :
  map g (flat_map f l) = flat_map (fun a => map g (f a)) l.
Proof.
  induction l as [|a l IH]; simpl; [reflexivity|].
  now rewrite map_app, IH.
Qed.




Lemma length_flat_map_blocks {A B} (f : A -> list B) (bs : nat) (l : list A) :
  (forall a, In a l -> length (f a) = bs) ->
  length (flat_map f l) = (bs * length l)%nat.
Proof.
  induction l as [|a l IH]; intros H; simpl; [lia|].
  rewrite length_app, H, IH; [lia | | now left].
  intros; apply H; now right.
Qed.

Lemma rd_flat_map_seq (g : nat -> list R) (bs m j c : nat) :
  (forall a, (a < m)%nat -> length (g a) = bs) ->
  (j < m)%nat -> (c < bs)%nat ->
  rd (flat_map g (seq 0 m)) (bs * j + c) = rd (g j) c.
Proof.
  intros Hlen Hj Hc. unfold rd.
  rewrite (nth_flat_map_blocks g bs (seq 0 m) j c 0 0%nat).
  - now rewrite seq_nth.
  - intros a Ha; apply in_seq in Ha; apply Hlen; lia.
  - now rewrite length_seq.
  - assumption.
Qed.

Lemma rd_getValues dep bs nodes (x : BVec.t) j c :
  (j < length nodes)%nat -> (c < bs)%nat ->
  rd (BVec.getValues dep bs nodes x) (bs * j + c) =
  BVec.read dep x (nth j nodes 0%Z) c.
Proof.
  intros Hj Hc. unfold BVec.getValues, rd.
  rewrite (nth_flat_map_blocks _ bs nodes j c 0 0%Z); auto.
  - rewrite (nth_indep _ 0 (BVec.read dep x (nth j nodes 0%Z) 0%nat))
      by (now rewrite length_map, length_seq).
    now rewrite map_nth, seq_nth.
  - intros; now rewrite length_map, length_seq.
Qed.





(** What [setValues] adds at an independent node when the values of the
    dependent slots are zero. *)
Lemma setValues_slots dep bs nodes vals n c :
  (0 <= n)%Z -> (c < bs)%nat ->
  (forall j c', (j < length nodes)%nat -> (c' < bs)%nat ->
                (nth j nodes 0 < 0)%Z -> rd vals (bs * j + c') = 0) ->
  Rsum (map (fun j =>
          Rsum (map (fun k => Aux.contrib dep (nth j nodes 0%Z) k
                                (rd vals (bs * j + k)) n c) (seq 0 bs)))
        (seq 0 (length nodes))) =
  Rsum (map (fun j => if Z.eqb (nth j nodes 0%Z) n then rd vals (bs * j + c) else 0)
            (seq 0 (length nodes))).
Proof.
  intros Hn Hc Hdep. apply Rsum_map_ext_in; intros j Hj; apply in_seq in Hj.
  destruct (Z.leb_spec 0 (nth j nodes 0%Z)) as [Hpos|Hneg].
  - transitivity (Rsum (map (fun k => if Nat.eqb c k
        then (if Z.eqb (nth j nodes 0%Z) n then rd vals (bs * j + k) else 0) else 0)
        (seq 0 bs))).
    + apply Rsum_map_ext_in; intros k _. unfold Aux.contrib.
      destruct (Z.leb_spec 0 (nth j nodes 0%Z)); [|lia].
      rewrite (Z.eqb_sym n). destruct (Z.eqb _ n), (Nat.eqb c k); reflexivity.
    + rewrite Rsum_pick. simpl.
      destruct (Nat.ltb_spec c bs); [reflexivity | lia].
  - destruct (Z.eqb_spec (nth j nodes 0%Z) n); [lia|].
    apply Rsum_map_zero; intros k Hk; apply in_seq in Hk.
    rewrite Hdep by (auto; lia). apply contrib_zero.
Qed.

(** ** Nodal derivatives as weighted sums *)

Lemma Rsum_map_map {A B} (f : B -> R) (g : A -> B) (l : list A) :
  Rsum (map f (map g l)) = Rsum (map (fun a => f (g a)) l).
Proof. now rewrite map_map. Qed.










(** ** Constant fields *)

Lemma rd_all0 (l : list R) (i : nat) : all0 l -> rd l i = 0.
Proof.
  intros H. unfold rd. destruct (Nat.lt_ge_cases i (length l)) as [Hi|Hi].
  - exact (proj1 (Forall_nth _ l) H i 0 Hi).
  - now apply nth_overflow.
Qed.

Lemma all0_flat_map {A} (f : A -> list R) (l : list A) :
  (forall a, In a l -> all0 (f a)) -> all0 (flat_map f l).
Proof. intros H. apply Forall_flat_map, Forall_forall. exact H. Qed.

Lemma all0_repeat (l : list R) : all0 l -> l = repeat 0 (length l).
Proof.
  induction 1 as [|x l Hx Hl IH]; simpl; [reflexivity|]. now rewrite Hx, <- IH.
Qed.

(** The derivative of a constant field along a parametric direction. *)
Lemma Uderiv_const vpn uelem Nx num k (c : nat -> R) :
  (forall i, (i < num)%nat -> rd uelem (k + vpn * i) = c k) ->
  Rsum (map (rd Nx) (seq 0 num)) = 0 ->
  Recon.Uderiv vpn uelem Nx num k = 0.
Proof.
  intros Hc Hs. unfold Recon.Uderiv. rewrite accum_Rsum.
  rewrite (Rsum_map_ext_in _ (fun i => c k * rd Nx i)).
  - rewrite Rsum_map_scal, Hs; lra.
  - intros i Hi; apply in_seq in Hi. rewrite Hc by lia. reflexivity.
Qed.

Lemma sample3D_const lib forest vpn Xpts uelem ii jj kk k (c : nat -> R) :
  Aux.derivs_sum_zero3D forest ->
  (forall i, (i < oct_order forest * oct_order forest * oct_order forest)%nat ->
             rd uelem (k + vpn * i) = c k) ->
  Recon.sample3D lib forest vpn Xpts uelem ii jj kk k = [0; 0; 0].
Proof.
  intros Hs Hc. unfold Recon.sample3D. cbv zeta.
  destruct (Hs [rd (oct_knots forest) ii; rd (oct_knots forest) jj;
                rd (oct_knots forest) kk]) as (Ha & Hb & Hcc).
  unfold Recon.computeJacobianTrans3D. cbv zeta. unfold Recon.grad3D.
  rewrite !(Uderiv_const _ _ _ _ _ c) by assumption.
  repeat f_equal; ring.
Qed.

Lemma sample2D_const lib forest vpn Xpts uelem ii jj k (c : nat -> R) :
  Aux.derivs_sum_zero2D forest ->
  (forall i, (i < quad_order forest * quad_order forest)%nat ->
             rd uelem (k + vpn * i) = c k) ->
  Recon.sample2D lib forest vpn Xpts uelem ii jj k = [0; 0; 0].
Proof.
  intros Hs Hc. unfold Recon.sample2D. cbv zeta.
  destruct (Hs [rd (quad_knots forest) ii; rd (quad_knots forest) jj]) as (Ha & Hb).
  unfold Recon.computeJacobianTrans2D. cbv zeta. unfold Recon.grad2D.
  rewrite !(Uderiv_const _ _ _ _ _ c) by assumption.
  repeat f_equal; ring.
Qed.

Lemma nodeDeriv3D_elem_const lib forest vpn nodes Xpts welem uelem (c : nat -> R) :
  Aux.derivs_sum_zero3D forest ->
  (forall i k, (i < oct_order forest * oct_order forest * oct_order forest)%nat ->
               (k < vpn)%nat -> rd uelem (k + vpn * i) = c k) ->
  all0 (Recon.nodeDeriv3D_elem lib forest vpn nodes Xpts welem uelem).
Proof.
  intros Hs Hc. unfold Recon.nodeDeriv3D_elem.
  apply all0_flat_map; intros [[ii jj] kk] _.
  destruct (0 <=? _)%Z; apply all0_flat_map; intros k Hk; apply in_seq in Hk.
  - rewrite (sample3D_const _ _ _ _ _ _ _ _ _ c) by (auto; intros; apply Hc; lia).
    repeat constructor; lra.
  - repeat constructor.
Qed.

Lemma nodeDeriv2D_elem_const lib forest vpn nodes Xpts welem uelem (c : nat -> R) :
  Aux.derivs_sum_zero2D forest ->
  (forall i k, (i < quad_order forest * quad_order forest)%nat ->
               (k < vpn)%nat -> rd uelem (k + vpn * i) = c k) ->
  all0 (Recon.nodeDeriv2D_elem lib forest vpn nodes Xpts welem uelem).
Proof.
  intros Hs Hc. unfold Recon.nodeDeriv2D_elem.
  apply all0_flat_map; intros [ii jj] _.
  destruct (0 <=? _)%Z; apply all0_flat_map; intros k Hk; apply in_seq in Hk.
  - rewrite (sample2D_const _ _ _ _ _ _ _ _ c) by (auto; intros; apply Hc; lia).
    repeat constructor; lra.
  - repeat constructor.
Qed.

(** Adding an array of zeros changes nothing. *)
Lemma setValues_ADD_all0 dep bs nodes vals (x : BVec.t) n k :
  all0 vals -> BVec.setValues_ADD dep bs nodes vals x n k = x n k.
Proof.
  intros H. rewrite setValues_ADD_spec.
  rewrite Rsum_map_zero; [lra|]. intros j _.
  apply Rsum_map_zero; intros c _. rewrite rd_all0 by assumption.
  apply contrib_zero.
Qed.

Lemma fold_left_unchanged {A} (step : BVec.t -> A -> BVec.t) (l : list A) (x : BVec.t) n k :
  (forall y a, In a l -> step y a n k = y n k) ->
  fold_left step l x n k = x n k.
Proof.
  revert x; induction l as [|a l IH]; intros x H; simpl; [reflexivity|].
  rewrite IH by (intros; apply H; now right). apply H; now left.
Qed.

(** The element values of a constant field. *)
Lemma uelem_const tacs nums uvec c elem i k :
  Aux.constant_field tacs nums uvec c ->
  In elem (elem_loop tacs nums) ->
  (i < length (el_nodes (getElement tacs elem)))%nat ->
  (k < getVarsPerNode tacs)%nat ->
  rd (BVec.getValues (depNodes tacs) (getVarsPerNode tacs)
        (el_nodes (getElement tacs elem)) uvec) (k + getVarsPerNode tacs * i) = c k.
Proof.
  intros Hc He Hi Hk. rewrite Nat.add_comm, rd_getValues by assumption.
  now apply Hc.
Qed.

Lemma computeNodeDeriv3D_local_const lib forest tacs uvec weights nums c n k :
  Aux.derivs_sum_zero3D forest ->
  Aux.constant_field tacs nums uvec c ->
  (forall elem, In elem (elem_loop tacs nums) ->
     length (el_nodes (getElement tacs elem)) =
     (oct_order forest * oct_order forest * oct_order forest)%nat) ->
  Recon.computeNodeDeriv3D_local lib forest tacs uvec weights nums n k = 0.
Proof.
  intros Hs Hc Hwf. unfold Recon.computeNodeDeriv3D_local.
  rewrite fold_left_unchanged; [reflexivity|].
  intros y elem He. cbv zeta. apply setValues_ADD_all0.
  apply (nodeDeriv3D_elem_const _ _ _ _ _ _ _ c); [assumption|].
  intros i k' Hi Hk'. apply uelem_const with (nums := nums); auto.
  rewrite Hwf; auto.
Qed.

Lemma computeNodeDeriv2D_local_const lib forest tacs uvec weights nums c n k :
  Aux.derivs_sum_zero2D forest ->
  Aux.constant_field tacs nums uvec c ->
  (forall elem, In elem (elem_loop tacs nums) ->
     length (el_nodes (getElement tacs elem)) =
     (quad_order forest * quad_order forest)%nat) ->
  Recon.computeNodeDeriv2D_local lib forest tacs uvec weights nums n k = 0.
Proof.
  intros Hs Hc Hwf. unfold Recon.computeNodeDeriv2D_local.
  rewrite fold_left_unchanged; [reflexivity|].
  intros y elem He. cbv zeta. apply setValues_ADD_all0.
  apply (nodeDeriv2D_elem_const _ _ _ _ _ _ _ c); [assumption|].
  intros i k' Hi Hk'. apply uelem_const with (nums := nums); auto.
  rewrite Hwf; auto.
Qed.

Lemma Rsum_nonneg {A} (f : A -> R) (l : list A) :
  (forall a, In a l -> 0 <= f a) -> 0 <= Rsum (map f l).
Proof.
  induction l as [|a l IH]; simpl; intros H; [lra|].
  pose proof (H a (or_introl eq_refl)).
  pose proof (IH (fun b Hb => H b (or_intror Hb))). lra.
Qed.

Lemma Rsum_nonneg_zero {A} (f : A -> R) (l : list A) :
  (forall a, In a l -> 0 <= f a) -> Rsum (map f l) <= 0 ->
  forall a, In a l -> f a = 0.
Proof.
  induction l as [|b l IH]; simpl; intros H Hs a Ha; [contradiction|].
  pose proof (H b (or_introl eq_refl)) as Hb.
  pose proof (Rsum_nonneg f l (fun c Hc => H c (or_intror Hc))) as Hl.
  destruct Ha as [->|Ha]; [lra|].
  apply IH; auto. lra.
Qed.

Lemma residual_nonneg m n A b x : 0 <= LSQ.residual m n A b x.
Proof. unfold LSQ.residual. apply Rsum_nonneg; intros; apply Rle_0_sqr. Qed.

(** The minimum-norm least-squares solution of a system with a zero
    right-hand side is zero. *)
Lemma min_norm_lsq_zero m n A (b : nat -> R) x i :
  (forall r, (r < m)%nat -> b r = 0) ->
  LSQ.min_norm_lsq m n A b x -> (i < n)%nat -> rd x i = 0.
Proof.
  intros Hb [_ Hmin] Hi.
  assert (Hres : LSQ.residual m n A b [] = 0).
  { unfold LSQ.residual. apply Rsum_map_zero; intros r Hr; apply in_seq in Hr.
    rewrite Hb by lia. unfold LSQ.Ax. rewrite Rsum_map_zero; [lra|].
    intros j _. unfold rd at 2. destruct j; simpl; lra. }
  assert (Hn : LSQ.norm2 n x <= 0).
  { eapply Rle_trans; [apply (Hmin [])|].
    - intros z. rewrite Hres. apply residual_nonneg.
    - unfold LSQ.norm2. rewrite Rsum_map_zero; [lra|].
      intros j _. unfold rd. destruct j; simpl; lra. }
  unfold LSQ.norm2 in Hn.
  pose proof (Rsum_nonneg_zero (fun i => rd x i * rd x i) (seq 0 n)
                (fun a _ => Rle_0_sqr (rd x a)) Hn i) as Hz.
  assert (Hq : rd x i * rd x i = 0) by (apply Hz; apply in_seq; lia).
  nra.
Qed.

Lemma dgelss_zero m n nrhs A b bout j i :
  all0 b -> LSQ.dgelss_contract m n nrhs A b bout ->
  (j < nrhs)%nat -> (i < n)%nat -> rd bout (m * j + i) = 0.
Proof.
  intros Hb Hc Hj Hi.
  pose proof (min_norm_lsq_zero m n A _ _ i
                (fun r _ => rd_all0 b (m * j + r) Hb) (Hc j Hj) Hi) as H.
  unfold rd at 1 in H.
  rewrite (nth_indep _ 0 (rd bout (m * j + 0))) in H by (now rewrite length_map, length_seq).
  now rewrite (map_nth (fun i => rd bout (m * j + i))), seq_nth in H.
Qed.

Lemma length_copy_ubar vpn nenrich m b :
  length (Recon.copy_ubar vpn nenrich m b) = (vpn * nenrich)%nat.
Proof.
  unfold Recon.copy_ubar.
  rewrite (length_flat_map_blocks _ vpn), length_seq; [reflexivity|].
  intros; now rewrite length_map, length_seq.
Qed.

Lemma copy_ubar_zero lib m n nrhs A b :
  all0 b -> LSQ.solves_homogeneous lib ->
  Recon.copy_ubar nrhs n m (LAPACKdgelss lib m n nrhs A b) = repeat 0 (nrhs * n).
Proof.
  intros Hb Hs. rewrite <- (length_copy_ubar nrhs n m (LAPACKdgelss lib m n nrhs A b)).
  apply all0_repeat. unfold Recon.copy_ubar.
  apply all0_flat_map; intros i Hi; apply in_seq in Hi.
  apply Forall_forall; intros v Hv. apply in_map_iff in Hv as (j & <- & Hj).
  apply in_seq in Hj.
  apply (dgelss_zero m n nrhs A b); [assumption | apply Hs; assumption | lia | lia].
Qed.

Lemma getValues_zero dep bs nodes (x : BVec.t) :
  (forall n k, x n k = 0) -> all0 (BVec.getValues dep bs nodes x).
Proof.
  intros Hx. unfold BVec.getValues. apply all0_flat_map; intros n _.
  apply Forall_forall; intros v Hv. apply in_map_iff in Hv as (k & <- & _).
  unfold BVec.read. destruct (0 <=? n)%Z; [apply Hx|].
  apply Rsum_map_zero; intros iw _. rewrite Hx; lra.
Qed.

Lemma recon3D_rhs_const lib vpn forest refined_forest Xpts uvals uderiv (c : nat -> R) :
  Aux.derivs_sum_zero3D forest ->
  (forall i k, (i < oct_order forest * oct_order forest * oct_order forest)%nat ->
               (k < vpn)%nat -> rd uvals (k + vpn * i) = c k) ->
  all0 uderiv ->
  all0 (Recon.recon3D_rhs lib vpn forest refined_forest Xpts uvals uderiv).
Proof.
  intros Hs Hc Hd. unfold Recon.recon3D_rhs. cbv zeta.
  apply all0_flat_map; intros k Hk; apply in_seq in Hk.
  apply all0_flat_map; intros [[ii jj] kk] _.
  unfold Recon.computeJacobianTrans3D. cbv zeta.
  destruct (Hs [rd (oct_knots forest) ii; rd (oct_knots forest) jj;
                rd (oct_knots forest) kk]) as (Ha & Hb & Hcc).
  unfold Recon.grad3D.
  rewrite !(Uderiv_const _ _ _ _ _ c) by (auto; intros; apply Hc; lia).
  rewrite !(rd_all0 uderiv) by assumption.
  repeat constructor; cbn [rd nth]; ring.
Qed.

Lemma recon2D_rhs_const lib vpn forest refined_forest Xpts uvals uderiv (c : nat -> R) :
  Aux.derivs_sum_zero2D forest ->
  (forall i k, (i < quad_order forest * quad_order forest)%nat ->
               (k < vpn)%nat -> rd uvals (k + vpn * i) = c k) ->
  all0 uderiv ->
  all0 (Recon.recon2D_rhs lib vpn forest refined_forest Xpts uvals uderiv).
Proof.
  intros Hs Hc Hd. unfold Recon.recon2D_rhs. cbv zeta.
  apply all0_flat_map; intros k Hk; apply in_seq in Hk.
  apply all0_flat_map; intros [ii jj] _.
  unfold Recon.computeJacobianTrans2D. cbv zeta.
  destruct (Hs [rd (quad_knots forest) ii; rd (quad_knots forest) jj]) as (Ha & Hb).
  unfold Recon.grad2D.
  rewrite !(Uderiv_const _ _ _ _ _ c) by (auto; intros; apply Hc; lia).
  rewrite !(rd_all0 uderiv) by assumption.
  repeat constructor; cbn [rd nth]; ring.
Qed.

Lemma computeElemRecon3D_const lib vpn forest refined_forest Xpts uvals uderiv c :
  LSQ.solves_homogeneous lib ->
  Aux.derivs_sum_zero3D forest ->
  (forall i k, (i < oct_order forest * oct_order forest * oct_order forest)%nat ->
               (k < vpn)%nat -> rd uvals (k + vpn * i) = c k) ->
  all0 uderiv ->
  Recon.computeElemRecon3D lib vpn forest refined_forest Xpts uvals uderiv =
  repeat 0 (vpn * Enrich.getNum3dEnrich (oct_order forest)).
Proof.
  intros Hl Hs Hc Hd. unfold Recon.computeElemRecon3D. cbv zeta.
  apply copy_ubar_zero; [|assumption].
  now apply (recon3D_rhs_const _ _ _ _ _ _ _ c).
Qed.

Lemma computeElemRecon2D_const lib vpn forest refined_forest Xpts uvals uderiv c :
  LSQ.solves_homogeneous lib ->
  Aux.derivs_sum_zero2D forest ->
  (forall i k, (i < quad_order forest * quad_order forest)%nat ->
               (k < vpn)%nat -> rd uvals (k + vpn * i) = c k) ->
  all0 uderiv ->
  Recon.computeElemRecon2D lib vpn forest refined_forest Xpts uvals uderiv =
  repeat 0 (vpn * Enrich.getNum2dEnrich (quad_order forest)).
Proof.
  intros Hl Hs Hc Hd. unfold Recon.computeElemRecon2D. cbv zeta.
  apply copy_ubar_zero; [|assumption].
  now apply (recon2D_rhs_const _ _ _ _ _ _ _ c).
Qed.

Lemma computeNodeDeriv3D_const lib procs uvec weights c n k :
  Aux.well_formed3D procs ->
  (forall forest tacs nums, In (forest, tacs, nums) procs ->
     Aux.derivs_sum_zero3D forest /\ Aux.constant_field tacs nums uvec c) ->
  Recon.computeNodeDeriv3D lib procs uvec weights n k = 0.
Proof.
  intros Hwf H. unfold Recon.computeNodeDeriv3D, BVec.finalize_distribute.
  rewrite Rsum_map_map. apply Rsum_map_zero; intros [[forest tacs] nums] Hp.
  destruct (H _ _ _ Hp) as [Hs Hc].
  apply (computeNodeDeriv3D_local_const _ _ _ _ _ _ c); auto.
  intros elem He. eapply Hwf; eauto.
Qed.

Lemma computeNodeDeriv2D_const lib procs uvec weights c n k :
  Aux.well_formed2D procs ->
  (forall forest tacs nums, In (forest, tacs, nums) procs ->
     Aux.derivs_sum_zero2D forest /\ Aux.constant_field tacs nums uvec c) ->
  Recon.computeNodeDeriv2D lib procs uvec weights n k = 0.
Proof.
  intros Hwf H. unfold Recon.computeNodeDeriv2D, BVec.finalize_distribute.
  rewrite Rsum_map_map. apply Rsum_map_zero; intros [[forest tacs] nums] Hp.
  destruct (H _ _ _ Hp) as [Hs Hc].
  apply (computeNodeDeriv2D_local_const _ _ _ _ _ _ c); auto.
  intros elem He. eapply Hwf; eauto.
Qed.

(** C3.  For a nodal field that reads the same vector [c] at every node of
    every element, on meshes whose Lagrange basis derivatives sum to zero
    at every point: the nodal derivatives that [computeNodeDeriv3D] and
    [computeNodeDeriv2D] produce are zero in every component at every node,
    and the enrichment coefficients [ubar] that [computeElemRecon3D] and
    [computeElemRecon2D] return for every element are all zero, the solver
    returning the minimum-norm solution of the system whose right-hand
    side vanishes. *)
Theorem constant_field_null_reconstruction
    (lib : Lib)
    (procs3 : list (OctForest * TACSAssembler * option (list nat)))
    (procs2 : list (QuadForest * TACSAssembler * option (list nat)))
    (uvec weights : BVec.t) (c : nat -> R) :
  LSQ.solves_homogeneous lib ->
  (Aux.well_formed3D procs3 ->
   (forall forest tacs nums, In (forest, tacs, nums) procs3 ->
      Aux.derivs_sum_zero3D forest /\ Aux.constant_field tacs nums uvec c) ->
   (forall n k, Recon.computeNodeDeriv3D lib procs3 uvec weights n k = 0) /\
   (forall forest tacs nums elem refined_forest Xpts,
      In (forest, tacs, nums) procs3 -> In elem (elem_loop tacs nums) ->
      let e := getElement tacs elem in
      let vpn := getVarsPerNode tacs in
      Recon.computeElemRecon3D lib vpn forest refined_forest Xpts
        (BVec.getValues (depNodes tacs) vpn (el_nodes e) uvec)
        (BVec.getValues (depNodes tacs) (3 * vpn) (el_nodes e)
           (Recon.computeNodeDeriv3D lib procs3 uvec weights)) =
      repeat 0 (vpn * Enrich.getNum3dEnrich (oct_order forest)))) /\
  (Aux.well_formed2D procs2 ->
   (forall forest tacs nums, In (forest, tacs, nums) procs2 ->
      Aux.derivs_sum_zero2D forest /\ Aux.constant_field tacs nums uvec c) ->
   (forall n k, Recon.computeNodeDeriv2D lib procs2 uvec weights n k = 0) /\
   (forall forest tacs nums elem refined_forest Xpts,
      In (forest, tacs, nums) procs2 -> In elem (elem_loop tacs nums) ->
      let e := getElement tacs elem in
      let vpn := getVarsPerNode tacs in
      Recon.computeElemRecon2D lib vpn forest refined_forest Xpts
        (BVec.getValues (depNodes tacs) vpn (el_nodes e) uvec)
        (BVec.getValues (depNodes tacs) (3 * vpn) (el_nodes e)
           (Recon.computeNodeDeriv2D lib procs2 uvec weights)) =
      repeat 0 (vpn * Enrich.getNum2dEnrich (quad_order forest)))).
Proof.
  intros Hl. split; intros Hwf H.
  - assert (HD : forall n k, Recon.computeNodeDeriv3D lib procs3 uvec weights n k = 0)
      by (intros; now apply (computeNodeDeriv3D_const _ _ _ _ c)).
    split; [exact HD|].
    intros forest tacs nums elem refined_forest Xpts Hp He e vpn.
    destruct (H _ _ _ Hp) as [Hs Hc].
    apply (computeElemRecon3D_const _ _ _ _ _ _ _ c); auto.
    + intros i k Hi Hk. apply uelem_const with (nums := nums); auto.
      unfold e. erewrite Hwf; eauto.
    + now apply getValues_zero.
  - assert (HD : forall n k, Recon.computeNodeDeriv2D lib procs2 uvec weights n k = 0)
      by (intros; now apply (computeNodeDeriv2D_const _ _ _ _ c)).
    split; [exact HD|].
    intros forest tacs nums elem refined_forest Xpts Hp He e vpn.
    destruct (H _ _ _ Hp) as [Hs Hc].
    apply (computeElemRecon2D_const _ _ _ _ _ _ _ c); auto.
    + intros i k Hi Hk. apply uelem_const with (nums := nums); auto.
      unfold e. erewrite Hwf; eauto.
    + now apply getValues_zero.
Qed.

(** ** Checked buffers *)

Lemma for_opt_None {A S : Type} (l : list A) (body : A -> S -> option S) :
  fold_left (fun acc a => Mem.bind acc (body a)) l None = None.
Proof. induction l as [|a l IH]; simpl; auto. Qed.

Lemma for_cons {A S : Type} (a : A) (l : list A) (body : A -> S -> option S) (s : S) :
  Mem.for_ (a :: l) body s = Mem.bind (body a s) (Mem.for_ l body).
Proof.
  unfold Mem.for_; simpl. destruct (body a s) as [s'|]; simpl; [reflexivity|].
  apply for_opt_None.
Qed.

Lemma for_nil {A S : Type} (body : A -> S -> option S) (s : S) :
  Mem.for_ [] body s = Some s.
Proof. reflexivity. Qed.

Lemma for_app {A S : Type} (l1 l2 : list A) (body : A -> S -> option S) (s : S) :
  Mem.for_ (l1 ++ l2) body s = Mem.bind (Mem.for_ l1 body s) (Mem.for_ l2 body).
Proof.
  revert s; induction l1 as [|a l1 IH]; intros s; [reflexivity|].
  rewrite <- app_comm_cons, !for_cons.
  destruct (body a s) as [s'|]; simpl; [apply IH | reflexivity].
Qed.

Lemma for_ext_in {A S : Type} (l : list A) (f g : A -> S -> option S) (s : S) :
  (forall a s', In a l -> f a s' = g a s') -> Mem.for_ l f s = Mem.for_ l g s.
Proof.
  revert s; induction l as [|a l IH]; intros s H; [reflexivity|].
  rewrite !for_cons, (H a s (or_introl eq_refl)).
  destruct (g a s) as [s'|]; simpl; [|reflexivity].
  apply IH; intros; apply H; now right.
Qed.

Lemma store_Some (buf : list R) (i : nat) (v : R) :
  (i < length buf)%nat ->
  Mem.store buf i v = Some (firstn i buf ++ v :: skipn (S i) buf).
Proof.
  intros H; unfold Mem.store. destruct (Nat.ltb_spec i (length buf)); [reflexivity|lia].
Qed.

Lemma store_None (buf : list R) (i : nat) (v : R) :
  (length buf <= i)%nat -> Mem.store buf i v = None.
Proof.
  intros H; unfold Mem.store. destruct (Nat.ltb_spec i (length buf)); [lia|reflexivity].
Qed.

Lemma store_length (buf buf' : list R) (i : nat) (v : R) :
  Mem.store buf i v = Some buf' -> length buf' = length buf.
Proof.
  destruct (Nat.lt_ge_cases i (length buf)) as [Hi|Hi].
  - rewrite store_Some by assumption. intros H.
    assert (E : buf' = firstn i buf ++ v :: skipn (S i) buf) by congruence.
    subst buf'. rewrite length_app, length_firstn, Nat.min_l by lia.
    change (length (v :: skipn (S i) buf)) with (S (length (skipn (S i) buf))).
    rewrite length_skipn. lia.
  - rewrite store_None by assumption. discriminate.
Qed.

Lemma rd_store (buf buf' : list R) (i j : nat) (v : R) :
  Mem.store buf i v = Some buf' ->
  rd buf' j = if Nat.eqb j i then v else rd buf j.
Proof.
  destruct (Nat.lt_ge_cases i (length buf)) as [Hi|Hi];
    [rewrite store_Some by assumption | rewrite store_None by assumption; discriminate].
  intros H.
  assert (E : buf' = firstn i buf ++ v :: skipn (S i) buf) by congruence.
  subst buf'. unfold rd.
  assert (Hf : length (firstn i buf) = i) by (rewrite length_firstn; lia).
  destruct (Nat.eqb_spec j i) as [->|Hne].
  - rewrite app_nth2 by lia. rewrite Hf, Nat.sub_diag. reflexivity.
  - destruct (Nat.lt_ge_cases j i) as [Hlt|Hge].
    + rewrite app_nth1 by lia. rewrite nth_firstn.
      destruct (Nat.ltb_spec j i); [reflexivity | lia].
    + rewrite app_nth2 by lia. rewrite Hf.
      destruct (j - i)%nat as [|d] eqn:E; [lia|].
      change (nth (S d) (v :: skipn (S i) buf) 0) with (nth d (skipn (S i) buf) 0).
      rewrite nth_skipn. f_equal; lia.
Qed.

(** [memset] inside the buffer zeroes its first [n] cells. *)
Lemma memset0_ok (buf : list R) (n : nat) :
  (n <= length buf)%nat ->
  Mem.memset0 buf n = Some (repeat 0 n ++ skipn n buf).
Proof.
  unfold Mem.memset0. induction n as [|n IH]; intros Hn; [reflexivity|].
  rewrite seq_S, for_app, IH by lia. cbn [Mem.bind Nat.add].
  rewrite for_cons.
  rewrite store_Some by (rewrite length_app, repeat_length, length_skipn; lia).
  cbn [Mem.bind]. rewrite for_nil. f_equal.
  assert (E1 : firstn n (repeat 0 n ++ skipn n buf) = repeat 0 n).
  { rewrite firstn_app, repeat_length, Nat.sub_diag, firstn_O, app_nil_r.
    apply firstn_all2. rewrite repeat_length; lia. }
  assert (E2 : skipn (S n) (repeat 0 n ++ skipn n buf) = skipn (S n) buf).
  { rewrite skipn_app, repeat_length.
    rewrite (skipn_all2 (repeat 0 n)) by (rewrite repeat_length; lia).
    replace (S n - n)%nat with 1%nat by lia.
    rewrite skipn_skipn. reflexivity. }
  rewrite E1, E2.
  change (repeat 0 (S n)) with (0 :: repeat 0 n).
  rewrite repeat_cons, <- app_assoc. reflexivity.
Qed.

(** [memset] past the end of the buffer is a write outside it. *)
Lemma memset0_overflow (buf : list R) (n : nat) :
  (length buf < n)%nat -> Mem.memset0 buf n = None.
Proof.
  intros Hn. unfold Mem.memset0.
  replace n with (length buf + S (n - length buf - 1))%nat by lia.
  rewrite seq_app, for_app.
  fold (Mem.memset0 buf (length buf)). rewrite memset0_ok by lia.
  rewrite skipn_all, app_nil_r. cbn [Mem.bind seq Nat.add]. rewrite for_cons.
  rewrite store_None by (rewrite repeat_length; lia). reflexivity.
Qed.

(** ** The scratch buffer of addRefinedSolution3D *)

(** With a refined order above the order, the [memset] of the first
    element already leaves the buffer. *)
Lemma fill_uref3D_overflow forest refined_forest vpn cd uelem ubar refined_nodes uref :
  (length uref <
   vpn * (oct_order refined_forest * oct_order refined_forest * oct_order refined_forest))%nat ->
  Refine.fill_uref3D forest refined_forest vpn cd uelem ubar refined_nodes uref = None.
Proof.
  intros H. unfold Refine.fill_uref3D. cbv zeta.
  now rewrite memset0_overflow.
Qed.

Lemma addRefinedSolution3D_overflow lib forest tacs refined_forest refined_tacs
    vec vecDeriv vec_refined cd element_nums :
  (oct_order forest < oct_order refined_forest)%nat ->
  (0 < getVarsPerNode tacs)%nat ->
  elem_loop tacs element_nums <> [] ->
  Refine.addRefinedSolution3D lib forest tacs refined_forest refined_tacs
    vec vecDeriv vec_refined cd element_nums = None.
Proof.
  intros Ho Hv Hl. unfold Refine.addRefinedSolution3D. cbv zeta.
  destruct (elem_loop tacs element_nums) as [|elem rest]; [contradiction|].
  rewrite for_cons. rewrite fill_uref3D_overflow; [reflexivity|].
  unfold Mem.alloc. rewrite repeat_length.
  set (o := oct_order forest) in *. set (ro := oct_order refined_forest) in *.
  set (v := getVarsPerNode tacs) in *.
  assert (o * o * o < ro * ro * ro)%nat.
  { assert (o * o <= ro * ro)%nat by (apply Nat.mul_le_mono; lia).
    assert (o * o * o <= ro * ro * o)%nat by (apply Nat.mul_le_mono; lia).
    assert (ro * ro * o < ro * ro * ro)%nat by (apply Nat.mul_lt_mono_pos_l; nia).
    lia. }
  rewrite <- !Nat.mul_assoc. apply Nat.mul_lt_mono_pos_l; lia.
Qed.

(** C5.  Order 2 refined to order 3 with one element: the first statement
    on [uref], the [memset] of 3*27 cells, writes outside the 3*8 cells that
    were allocated. *)
Theorem addRefinedSolution3D_uref_out_of_bounds :
  length (Mem.alloc (getVarsPerNode (Example.assembler 8) *
                     oct_order Example.oct2 * oct_order Example.oct2 *
                     oct_order Example.oct2)) = 24%nat /\
  Refine.addRefinedSolution3D Example.lib Example.oct2 (Example.assembler 8)
    Example.oct3 (Example.assembler 27)
    Example.ones BVec.zeroEntries BVec.zeroEntries false None = None.
Proof.
  split; [reflexivity|].
  apply addRefinedSolution3D_overflow; cbn; try lia. discriminate.
Qed.

(** ** Strain-energy estimator *)

(** A loop whose body adds [g a j] to cell [j] adds the sum of the [g a j]. *)
Lemma for_accumulate {A : Type} (l : list A)
    (body : A -> list R -> option (list R)) (g : A -> nat -> R) (len : nat) :
  (forall a buf, In a l -> length buf = len ->
     exists buf', body a buf = Some buf' /\ length buf' = len /\
                  forall j, rd buf' j = rd buf j + g a j) ->
  forall buf, length buf = len ->
    exists buf', Mem.for_ l body buf = Some buf' /\ length buf' = len /\
                 forall j, rd buf' j = rd buf j + Rsum (map (fun a => g a j) l).
Proof.
  induction l as [|a l IH]; intros Hb buf Hlen.
  - exists buf. repeat split; auto. intros; simpl; lra.
  - destruct (Hb a buf (or_introl eq_refl) Hlen) as (b1 & E1 & L1 & R1).
    destruct (IH (fun a' b' Ha => Hb a' b' (or_intror Ha)) b1 L1) as (b2 & E2 & L2 & R2).
    exists b2. rewrite for_cons, E1. cbn [Mem.bind]. repeat split; auto.
    intros j. rewrite R2, R1. simpl. lra.
Qed.

Lemma add_to_accumulate (buf : list R) (i : nat) (v : R) :
  (i < length buf)%nat ->
  exists buf', Mem.add_to buf i v = Some buf' /\ length buf' = length buf /\
               forall j, rd buf' j = rd buf j + (if Nat.eqb j i then v else 0).
Proof.
  intros Hi. unfold Mem.add_to.
  pose proof (store_Some buf i (rd buf i + v) Hi) as E.
  eexists; split; [exact E|]. split; [eapply store_length; eauto|].
  intros j. rewrite (rd_store _ _ _ _ _ E).
  destruct (Nat.eqb_spec j i) as [->|]; lra.
Qed.

Lemma list_eq_rd (l1 l2 : list R) :
  length l1 = length l2 ->
  (forall j, (j < length l1)%nat -> rd l1 j = rd l2 j) -> l1 = l2.
Proof. intros Hl H. apply (nth_ext l1 l2 0 0 Hl). exact H. Qed.

Lemma rd_map_seq (h : nat -> R) (n k : nat) :
  (k < n)%nat -> rd (map h (seq 0 n)) k = h k.
Proof.
  intros Hk. unfold rd.
  rewrite (nth_indep _ 0 (h 0%nat)) by (now rewrite length_map, length_seq).
  now rewrite (map_nth h), seq_nth.
Qed.

Lemma length_pointwise_enrichment2D forest refined_forest vpn ubar :
  length (Aux.pointwise_enrichment2D forest refined_forest vpn ubar) =
  (vpn * (quad_order refined_forest * quad_order refined_forest))%nat.
Proof.
  unfold Aux.pointwise_enrichment2D. cbv zeta.
  rewrite (length_flat_map_blocks _ (vpn * quad_order refined_forest)%nat).
  - rewrite length_seq. lia.
  - intros m _. rewrite (length_flat_map_blocks _ vpn).
    + now rewrite length_seq.
    + intros n _. now rewrite length_map, length_seq.
Qed.

Lemma rd_pointwise_enrichment2D forest refined_forest vpn ubar m n kk :
  (m < quad_order refined_forest)%nat -> (n < quad_order refined_forest)%nat ->
  (kk < vpn)%nat ->
  rd (Aux.pointwise_enrichment2D forest refined_forest vpn ubar)
     (vpn * (n + m * quad_order refined_forest) + kk) =
  let pt := [rd (quad_knots refined_forest) n; rd (quad_knots refined_forest) m] in
  let Nr := Enrich.evalEnrichmentFuncs2D_N (quad_order forest) pt
              (quad_knots refined_forest) [] in
  Rsum (map (fun k => rd ubar (vpn * k + kk) * rd Nr k)
            (seq 0 (Enrich.getNum2dEnrich (quad_order forest)))).
Proof.
  intros Hm Hn Hk. unfold Aux.pointwise_enrichment2D. cbv zeta.
  set (ro := quad_order refined_forest) in *.
  replace (vpn * (n + m * ro) + kk)%nat with (vpn * ro * m + (vpn * n + kk))%nat by lia.
  rewrite rd_flat_map_seq; [| | assumption | nia].
  - rewrite rd_flat_map_seq; [| | assumption | assumption].
    + now rewrite rd_map_seq.
    + intros; now rewrite length_map, length_seq.
  - intros a _. rewrite (length_flat_map_blocks _ vpn), length_seq; [lia|].
    intros; now rewrite length_map, length_seq.
Qed.

Lemma mul_add_inj (d a c b e : nat) :
  (c < d)%nat -> (e < d)%nat -> (d * a + c = d * b + e)%nat -> a = b /\ c = e.
Proof.
  intros Hc He E.
  assert (a < b \/ a = b \/ b < a)%nat as [L|[L|L]] by lia.
  - assert (d * (a + 1) <= d * b)%nat by (apply Nat.mul_le_mono_l; lia). lia.
  - subst. lia.
  - assert (d * (b + 1) <= d * a)%nat by (apply Nat.mul_le_mono_l; lia). lia.
Qed.

(** Which cell a knot, a variable and a slot address. *)
Lemma cell_eqb (vpn ro m0 n0 c m n kk : nat) :
  (n0 < ro)%nat -> (n < ro)%nat -> (c < vpn)%nat -> (kk < vpn)%nat ->
  Nat.eqb (vpn * (n0 + m0 * ro) + c) (vpn * (n + m * ro) + kk) =
  (Nat.eqb m0 m && (Nat.eqb n0 n && Nat.eqb c kk))%bool.
Proof.
  intros Hn0 Hn Hc Hkk.
  destruct (Nat.eqb_spec (vpn * (n0 + m0 * ro) + c) (vpn * (n + m * ro) + kk)) as [E|E].
  - apply mul_add_inj in E as [E1 E2]; try assumption.
    assert (E3 : (ro * m0 + n0 = ro * m + n)%nat) by lia.
    apply mul_add_inj in E3 as [E3 E4]; try assumption.
    subst. now rewrite !Nat.eqb_refl.
  - destruct (Nat.eqb_spec m0 m) as [->|]; [|reflexivity].
    destruct (Nat.eqb_spec n0 n) as [->|]; [|reflexivity].
    destruct (Nat.eqb_spec c kk) as [->|]; [|reflexivity].
    contradiction.
Qed.

Lemma cell_in_range (vpn ro m n kk : nat) :
  (m < ro)%nat -> (n < ro)%nat -> (kk < vpn)%nat ->
  (vpn * (n + m * ro) + kk < vpn * (ro * ro))%nat.
Proof.
  intros Hm Hn Hk.
  assert (H1 : ((m + 1) * ro <= ro * ro)%nat) by (apply Nat.mul_le_mono_r; lia).
  assert (H2 : (vpn * (n + m * ro + 1) <= vpn * (ro * ro))%nat)
    by (apply Nat.mul_le_mono_l; lia).
  lia.
Qed.

Lemma Rsum_pick_if (v : nat -> R) (k' len : nat) :
  (k' < len)%nat ->
  Rsum (map (fun k => if Nat.eqb k' k then v k else 0) (seq 0 len)) = v k'.
Proof.
  intros H. rewrite Rsum_pick. simpl.
  destruct (Nat.ltb_spec k' len); [reflexivity | lia].
Qed.

(** The knot loops of the estimator leave in [vars_interp] the enrichment
    part of the reconstruction at the refined knots. *)
Lemma interp_enrichment2D_spec forest refined_forest vpn ubar vars_interp :
  length vars_interp =
  (vpn * (quad_order refined_forest * quad_order refined_forest))%nat ->
  ErrorEst.interp_enrichment2D forest refined_forest vpn ubar vars_interp =
  Some (Aux.pointwise_enrichment2D forest refined_forest vpn ubar).
Proof.
  intros Hlen. unfold ErrorEst.interp_enrichment2D. cbv zeta.
  set (ro := quad_order refined_forest) in *.
  set (N := (vpn * (ro * ro))%nat) in *.
  rewrite memset0_ok by lia. rewrite <- Hlen, skipn_all, app_nil_r, Hlen.
  cbn [Mem.bind].
  set (Nr := fun m n => Enrich.evalEnrichmentFuncs2D_N (quad_order forest)
                [rd (quad_knots refined_forest) n; rd (quad_knots refined_forest) m]
                (quad_knots refined_forest) []).
  set (ne := Enrich.getNum2dEnrich (quad_order forest)).
  destruct (for_accumulate (seq 0 ro)
    (fun m => Mem.for_ (seq 0 ro) (fun n =>
       Mem.for_ (seq 0 ne) (fun k =>
       Mem.for_ (seq 0 vpn) (fun kk v =>
         Mem.add_to v (vpn * (n + m * ro) + kk) (rd ubar (vpn * k + kk) * rd (Nr m n) k)))))
    (fun m j => Rsum (map (fun n => Rsum (map (fun k => Rsum (map (fun kk =>
       if Nat.eqb j (vpn * (n + m * ro) + kk)
       then rd ubar (vpn * k + kk) * rd (Nr m n) k else 0)
       (seq 0 vpn))) (seq 0 ne))) (seq 0 ro)))
    N) with (repeat 0 N) as (buf' & E & L & Rd).
  - intros m b1 Hm L1; apply in_seq in Hm.
    apply for_accumulate; [|assumption]. intros n b2 Hn L2; apply in_seq in Hn.
    apply for_accumulate; [|assumption]. intros k b3 Hk L3.
    apply for_accumulate; [|assumption]. intros kk b4 Hkk L4; apply in_seq in Hkk.
    rewrite <- L4. apply add_to_accumulate. rewrite L4. unfold N.
    apply cell_in_range; lia.
  - apply repeat_length.
  - fold Nr in E. unfold Nr in E. rewrite E. f_equal.
    apply list_eq_rd.
    + rewrite L, length_pointwise_enrichment2D. reflexivity.
    + intros j Hj. rewrite L in Hj. rewrite Rd.
      assert (Hv : (0 < vpn)%nat) by (destruct vpn; [unfold N in Hj; lia | lia]).
      assert (Hro : (0 < ro)%nat) by (destruct ro; [unfold N in Hj; lia | lia]).
      set (c := (j mod vpn)%nat). set (s := (j / vpn)%nat).
      set (n0 := (s mod ro)%nat). set (m0 := (s / ro)%nat).
      assert (Hc : (c < vpn)%nat) by (apply Nat.mod_upper_bound; lia).
      assert (Hs : (s < ro * ro)%nat)
        by (apply Nat.Div0.div_lt_upper_bound; unfold N in Hj; lia).
      assert (Hn0 : (n0 < ro)%nat) by (apply Nat.mod_upper_bound; lia).
      assert (Hm0 : (m0 < ro)%nat) by (apply Nat.Div0.div_lt_upper_bound; lia).
      assert (Ej : j = (vpn * (n0 + m0 * ro) + c)%nat).
      { pose proof (Nat.div_mod j vpn ltac:(lia)).
        pose proof (Nat.div_mod s ro ltac:(lia)).
        unfold c, n0, m0, s in *. nia. }
      rewrite Ej at 2. rewrite rd_pointwise_enrichment2D by assumption. cbv zeta.
      rewrite rd_all0 by (apply Forall_forall; intros x Hx; now apply repeat_spec in Hx).
      rewrite Rplus_0_l.
      rewrite (Rsum_map_ext_in _ (fun m => if Nat.eqb m0 m then
         Rsum (map (fun k => rd ubar (vpn * k + c) *
           rd (Enrich.evalEnrichmentFuncs2D_N (quad_order forest)
                 [rd (quad_knots refined_forest) n0; rd (quad_knots refined_forest) m]
                 (quad_knots refined_forest) []) k) (seq 0 ne)) else 0)).
      * rewrite Rsum_pick_if by assumption. reflexivity.
      * intros m Hm; apply in_seq in Hm.
        rewrite (Rsum_map_ext_in _ (fun n => if (Nat.eqb m0 m && Nat.eqb n0 n)%bool then
           Rsum (map (fun k => rd ubar (vpn * k + c) *
             rd (Enrich.evalEnrichmentFuncs2D_N (quad_order forest)
                   [rd (quad_knots refined_forest) n; rd (quad_knots refined_forest) m]
                   (quad_knots refined_forest) []) k) (seq 0 ne)) else 0)).
        -- destruct (Nat.eqb m0 m); cbn [andb].
           ++ rewrite Rsum_pick_if by assumption. reflexivity.
           ++ apply Rsum_map_zero; reflexivity.
        -- intros n Hn; apply in_seq in Hn.
           destruct (Nat.eqb m0 m && Nat.eqb n0 n)%bool eqn:Emn.
           ++ apply Rsum_map_ext_in; intros k _.
              rewrite (Rsum_map_ext_in _ (fun kk => if Nat.eqb c kk
                 then rd ubar (vpn * k + kk) *
                      rd (Enrich.evalEnrichmentFuncs2D_N (quad_order forest)
                            [rd (quad_knots refined_forest) n;
                             rd (quad_knots refined_forest) m]
                            (quad_knots refined_forest) []) k else 0)).
              ** rewrite Rsum_pick_if by assumption. reflexivity.
              ** intros kk Hkk; apply in_seq in Hkk.
                 rewrite Ej, cell_eqb by lia.
                 apply andb_prop in Emn as [-> ->]. reflexivity.
           ++ apply Rsum_map_zero; intros k _.
              apply Rsum_map_zero; intros kk Hkk; apply in_seq in Hkk.
              rewrite Ej, cell_eqb by lia.
              rewrite andb_assoc, Emn. reflexivity.
Qed.

Lemma for_collect {A B : Type} (l : list A)
    (body : A -> list B -> option (list B)) (g : A -> B) (acc : list B) :
  (forall a acc, In a l -> body a acc = Some (acc ++ [g a])) ->
  Mem.for_ l body acc = Some (acc ++ map g l).
Proof.
  revert acc; induction l as [|a l IH]; intros acc H.
  - now rewrite for_nil, app_nil_r.
  - rewrite for_cons, (H a acc (or_introl eq_refl)). cbn [Mem.bind].
    rewrite IH by (intros; apply H; now right).
    now rewrite <- app_assoc.
Qed.

Lemma StrainEnergy2D_loop lib forest tacs forest_refined tacs_refined uvec uderiv
    dvars (l : list nat) (vars_interp error : list R) (total : R) :
  let vpn := getVarsPerNode tacs in
  let N := (vpn * (quad_order forest_refined * quad_order forest_refined))%nat in
  let ind i :=
    let Xpts := el_Xpts (getElement tacs_refined i) in
    let ubar :=
      Recon.computeElemRecon2D lib vpn forest forest_refined Xpts
        (ErrorEst.getElementVars tacs uvec i)
        (BVec.getValues (depNodes tacs) (3 * vpn) (el_nodes (getElement tacs i)) uderiv) in
    Rabs (snd (computeEnergies (el_obj (getElement tacs_refined i)) 0 Xpts
                 (Aux.pointwise_enrichment2D forest forest_refined vpn ubar) dvars)) in
  length vars_interp = N ->
  exists vi,
    Mem.for_ l
      (fun i '(vars_interp, error, SE_total_error) =>
        let time := 0 in
        let vars_elem := ErrorEst.getElementVars tacs uvec i in
        let nodes := el_nodes (getElement tacs i) in
        let delem := BVec.getValues (depNodes tacs) (3 * vpn) nodes uderiv in
        let Xpts := el_Xpts (getElement tacs_refined i) in
        let elem := el_obj (getElement tacs_refined i) in
        let ubar := Recon.computeElemRecon2D lib vpn forest forest_refined
                      Xpts vars_elem delem in
        Mem.bind (ErrorEst.interp_enrichment2D forest forest_refined vpn ubar vars_interp)
          (fun vars_interp =>
             let Pe := snd (computeEnergies elem time Xpts vars_interp dvars) in
             let err := Rabs Pe in
             Some (vars_interp, error ++ [err], SE_total_error + err)))
      (vars_interp, error, total) =
    Some (vi, error ++ map ind l, total + Rsum (map ind l)) /\ length vi = N.
Proof.
  intros vpn N ind. revert vars_interp error total.
  induction l as [|i l IH]; intros vi error total Hlen.
  - exists vi. rewrite for_nil, app_nil_r. simpl. rewrite Rplus_0_r. auto.
  - rewrite for_cons. cbv zeta.
    rewrite interp_enrichment2D_spec by assumption. cbn [Mem.bind].
    edestruct IH as (vi' & E & L);
      [apply length_pointwise_enrichment2D|].
    exists vi'. split; [|exact L]. rewrite E. apply f_equal.
    apply f_equal2; [apply f_equal|].
    + change ((error ++ [ind i]) ++ map ind l = error ++ ([ind i] ++ map ind l)).
      now rewrite app_assoc.
    + change (total + ind i + Rsum (map ind l) = total + (ind i + Rsum (map ind l))).
      ring.
Qed.

Lemma memset0_full (n : nat) : Mem.memset0 (repeat 0 n) n = Some (repeat 0 n).
Proof.
  rewrite memset0_ok by (rewrite repeat_length; lia).
  rewrite skipn_all2 by (rewrite repeat_length; lia).
  now rewrite app_nil_r.
Qed.

Lemma StrainEnergy2D_local_spec lib forest tacs forest_refined tacs_refined uvec uderiv :
  ErrorEst.StrainEnergy2D_local lib forest tacs forest_refined tacs_refined uvec uderiv =
  Some (map (Aux.energy_indicator2D lib (forest, tacs, forest_refined, tacs_refined)
               uvec uderiv) (seq 0 (length (elems tacs))),
        Rsum (map (Aux.energy_indicator2D lib (forest, tacs, forest_refined, tacs_refined)
                     uvec uderiv) (seq 0 (length (elems tacs))))).
Proof.
  unfold ErrorEst.StrainEnergy2D_local, Mem.alloc.
  destruct (StrainEnergy2D_loop lib forest tacs forest_refined tacs_refined uvec uderiv
              (repeat 0 (getVarsPerNode tacs *
                         (quad_order forest_refined * quad_order forest_refined)))
              (seq 0 (length (elems tacs)))
              (repeat 0 (getVarsPerNode tacs *
                         (quad_order forest_refined * quad_order forest_refined)))
              [] 0 (repeat_length 0 _)) as (vi & E & _).
  cbv zeta in E. cbv zeta.
  rewrite memset0_full. cbn [Mem.bind].
  rewrite E. cbn [Mem.bind app]. rewrite Rplus_0_l.
  reflexivity.
Qed.

(** C6.  On every process the array [error] of the quad estimator holds,
    for each element, the absolute value of the potential energy that
    [computeEnergies] returns on the enrichment part [Nenr(pt).ubar] of the
    reconstruction at the refined knots (the difference between the
    reconstructed and the interpolated field, without the interpolation
    [N.U] of the coarse values), with zero [dvars]; the returned value is
    the sum over the processes of the sums of these indicators. *)
Theorem strain_energy_indicators
    (lib : Lib)
    (procs : list (QuadForest * TACSAssembler * QuadForest * TACSAssembler))
    (uvec : BVec.t) :
  let uderiv := Aux.energy_uderiv2D lib procs uvec in
  let indicators (p : QuadForest * TACSAssembler * QuadForest * TACSAssembler) :=
    map (Aux.energy_indicator2D lib p uvec uderiv)
        (seq 0 (length (elems (snd (fst (fst p)))))) in
  ErrorEst.TMR_StrainEnergyErrorEst2D lib procs uvec =
  Some (map indicators procs,
        MPI_Allreduce_SUM (map (fun p => Rsum (indicators p)) procs)).
Proof.
  intros uderiv indicators. unfold ErrorEst.TMR_StrainEnergyErrorEst2D. cbv zeta.
  fold (Aux.energy_uderiv2D lib procs uvec). fold uderiv.
  rewrite (for_collect procs _ (fun p => (indicators p, Rsum (indicators p)))).
  - cbn [Mem.bind app]. rewrite !map_map. cbn [fst snd]. reflexivity.
  - intros [[[forest tacs] forest_refined] tacs_refined] acc _.
    now rewrite StrainEnergy2D_local_spec.
Qed.

(** ** Adjoint-weighted residual estimator *)

Lemma aux_errors_length aux elem t err adj X v :
  (forall na, In na aux -> Aux.preserves_length (snd na)) ->
  length (fst (ErrorEst.aux_errors aux elem t err adj X v)) = length err /\
  (forall na, In na (snd (ErrorEst.aux_errors aux elem t err adj X v)) ->
              Aux.preserves_length (snd na)).
Proof.
  revert err; induction aux as [|[num a] aux IH]; intros err H; simpl.
  - split; [reflexivity | intros ? []].
  - destruct (Nat.eqb num elem).
    + destruct (IH (addLocalizedError a t err adj X v)
                  (fun na Hna => H na (or_intror Hna))) as [L P].
      split; [|exact P]. rewrite L. apply (H (num, a)). now left.
    + split; [reflexivity | exact H].
Qed.

(** The first element loop, from any state of the [err] array. *)
Lemma adjoint_deposit_loop tacs_refined nrn sol adj (l : list nat)
    (err : list R) (aux : list (nat * TACSElement)) (corr : R) (x : BVec.t) :
  length err = nrn ->
  (forall elem, In elem l ->
     (numNodes (el_obj (getElement tacs_refined elem)) <= nrn)%nat /\
     Aux.preserves_length (el_obj (getElement tacs_refined elem))) ->
  (forall na, In na aux -> Aux.preserves_length (snd na)) ->
  exists err' aux',
    Mem.for_ l
      (fun elem '(err, aux, total_adjoint_corr, nodal_error) =>
         let time := 0 in
         let refine_nodes := el_nodes (getElement tacs_refined elem) in
         let Xpts := el_Xpts (getElement tacs_refined elem) in
         let element := el_obj (getElement tacs_refined elem) in
         let vars_interp :=
           BVec.getValues (depNodes tacs_refined) (getVarsPerNode tacs_refined)
             refine_nodes sol in
         let adj_interp :=
           BVec.getValues (depNodes tacs_refined) (getVarsPerNode tacs_refined)
             refine_nodes adj in
         Mem.bind (Mem.memset0 err (numNodes element)) (fun err =>
           let err := addLocalizedError element time err adj_interp Xpts vars_interp in
           let '(err, aux) :=
             ErrorEst.aux_errors aux elem time err adj_interp Xpts vars_interp in
           let corr := accum_from total_adjoint_corr (rd err) (numNodes element) in
           Some (err, aux, corr,
                 BVec.setValues_ADD (depNodes tacs_refined) 1 refine_nodes err
                   nodal_error)))
      (err, aux, corr, x) =
    Some (err', aux',
          corr + Aux.deposited_sum tacs_refined
                   (Aux.deposit_trace tacs_refined sol adj l err aux),
          Aux.deposited_vector tacs_refined
            (Aux.deposit_trace tacs_refined sol adj l err aux) x).
Proof.
  match goal with
  | |- _ -> _ -> _ -> exists _ _, Mem.for_ _ ?b _ = _ => set (body := b)
  end.
  revert err aux corr x.
  induction l as [|elem l IH]; intros err aux corr x Hlen Hel Haux.
  - exists err, aux. rewrite for_nil. unfold Aux.deposited_sum. simpl.
    now rewrite Rplus_0_r.
  - destruct (Hel elem (or_introl eq_refl)) as [Hn Hp].
    rewrite for_cons. unfold body at 1. cbv beta iota zeta.
    rewrite memset0_ok by lia. cbn [Mem.bind].
    set (e := getElement tacs_refined elem) in *.
    set (vars := BVec.getValues (depNodes tacs_refined) (getVarsPerNode tacs_refined)
                   (el_nodes e) sol).
    set (adjv := BVec.getValues (depNodes tacs_refined) (getVarsPerNode tacs_refined)
                   (el_nodes e) adj).
    set (err0 := repeat 0 (numNodes (el_obj e)) ++ skipn (numNodes (el_obj e)) err).
    set (err1 := addLocalizedError (el_obj e) 0 err0 adjv (el_Xpts e) vars).
    assert (L0 : length err0 = nrn).
    { unfold err0. rewrite length_app, repeat_length, length_skipn. lia. }
    assert (L1 : length err1 = nrn) by (unfold err1; now rewrite Hp).
    destruct (aux_errors_length aux elem 0 err1 adjv (el_Xpts e) vars Haux) as [L2 P2].
    assert (Et : Aux.deposit_trace tacs_refined sol adj (elem :: l) err aux =
                 (elem, fst (ErrorEst.aux_errors aux elem 0 err1 adjv (el_Xpts e) vars)) ::
                 Aux.deposit_trace tacs_refined sol adj l
                   (fst (ErrorEst.aux_errors aux elem 0 err1 adjv (el_Xpts e) vars))
                   (snd (ErrorEst.aux_errors aux elem 0 err1 adjv (el_Xpts e) vars)))
      by reflexivity.
    rewrite Et. clear Et.
    destruct (ErrorEst.aux_errors aux elem 0 err1 adjv (el_Xpts e) vars)
      as [err2 aux2].
    cbn [fst snd] in *.
    destruct (IH err2 aux2
                (accum_from corr (rd err2) (numNodes (el_obj e)))
                (BVec.setValues_ADD (depNodes tacs_refined) 1 (el_nodes e) err2 x)
                ltac:(lia) (fun el Hin => Hel el (or_intror Hin)) P2)
      as (err' & aux' & E).
    exists err', aux'. cbn [Mem.bind]. rewrite E.
    apply f_equal. apply f_equal2; [apply f_equal2; [reflexivity|]|].
    + unfold Aux.deposited_sum. cbn [map Rsum fold_right fst snd]. fold e.
      rewrite accum_from_Rsum. apply Rplus_assoc.
    + reflexivity.
Qed.

Lemma adjoint_deposit_spec tacs tacs_refined nrn sol adj :
  Aux.fits_err tacs tacs_refined nrn ->
  exists err' aux',
    ErrorEst.adjoint_deposit tacs_refined nrn (length (elems tacs)) sol adj =
    Some (err', aux',
          Aux.deposited_sum tacs_refined (Aux.deposits tacs tacs_refined nrn sol adj),
          Aux.deposited_vector tacs_refined
            (Aux.deposits tacs tacs_refined nrn sol adj) BVec.zeroEntries).
Proof.
  intros [Hel Haux]. unfold ErrorEst.adjoint_deposit.
  destruct (adjoint_deposit_loop tacs_refined nrn sol adj (seq 0 (length (elems tacs)))
              (Mem.alloc nrn) (auxElems tacs_refined) 0 BVec.zeroEntries)
    as (err' & aux' & E).
  - apply repeat_length.
  - intros elem Hin; apply in_seq in Hin. apply Hel; lia.
  - exact Haux.
  - exists err', aux'. cbv zeta in E. cbv zeta. rewrite E.
    unfold Aux.deposits. now rewrite Rplus_0_l.
Qed.

(** The strided loops of the quad overload visit the indices 0 and
    [refined_order - 1]. *)
Lemma stride_loop_two {S : Type} (fuel ro : nat) (body : nat -> S -> S) (s : S) :
  (2 <= ro)%nat -> (3 <= fuel)%nat ->
  ErrorEst.stride_loop fuel 0 (ro - 1) ro body s = Some (body (ro - 1)%nat (body 0%nat s)).
Proof.
  intros Hro Hf. destruct fuel as [|[|[|fuel]]]; try lia.
  cbn [ErrorEst.stride_loop].
  destruct (Nat.ltb_spec 0 ro); [|lia].
  cbn [Nat.add].
  destruct (Nat.ltb_spec (ro - 1) ro); [|lia].
  destruct (Nat.ltb_spec (ro - 1 + (ro - 1)) ro); [lia|]. reflexivity.
Qed.

Lemma quad_indicator_spec (fuel ro : nat) (err : list R) :
  (2 <= ro)%nat -> (3 <= fuel)%nat ->
  ErrorEst.quad_indicator fuel ro err = Some (0.25 * Rabs (Aux.corner_sum2D ro err)).
Proof.
  intros Hro Hf. unfold ErrorEst.quad_indicator.
  rewrite stride_loop_two by assumption. cbn [Mem.bind].
  rewrite !stride_loop_two by assumption. cbn [Mem.bind].
  rewrite !stride_loop_two by assumption. cbn [Mem.bind].
  apply f_equal. apply f_equal. apply f_equal.
  unfold Aux.corner_sum2D. cbn [map Rsum fold_right fst snd].
  rewrite !Nat.mul_0_l, !Nat.add_0_r. cbn [Nat.add]. ring.
Qed.

Lemma oct_indicator_spec (ro : nat) (err : list R) :
  ErrorEst.oct_indicator ro err = 0.125 * Rabs (Aux.corner_sum3D ro err).
Proof.
  unfold ErrorEst.oct_indicator, Aux.corner_sum3D. cbv zeta.
  cbn [seq fold_left map Rsum fold_right].
  rewrite !Nat.mul_0_r, !Nat.mul_0_l, !Nat.mul_1_r, !Nat.add_0_r. cbn [Nat.add].
  apply f_equal. apply f_equal. ring.
Qed.

Lemma quad_indicators_spec fuel tacs_refined ro nelems (nodal_error : BVec.t) :
  (2 <= ro)%nat -> (3 <= fuel)%nat ->
  let ind elem :=
    0.25 * Rabs (Aux.corner_sum2D ro
      (BVec.getValues (depNodes tacs_refined) 1
         (el_nodes (getElement tacs_refined elem)) nodal_error)) in
  ErrorEst.quad_indicators fuel tacs_refined ro nelems nodal_error =
  Some (map ind (seq 0 nelems), Rsum (map ind (seq 0 nelems))).
Proof.
  intros Hro Hf ind. unfold ErrorEst.quad_indicators.
  assert (G : forall l error total,
    Mem.for_ l (fun elem '(error, total_error_remain) =>
      let refine_nodes := el_nodes (getElement tacs_refined elem) in
      let err := BVec.getValues (depNodes tacs_refined) 1 refine_nodes nodal_error in
      Mem.bind (ErrorEst.quad_indicator fuel ro err) (fun e =>
        Some (error ++ [e], total_error_remain + e))) (error, total) =
    Some (error ++ map ind l, total + Rsum (map ind l))).
  { induction l as [|elem l IH]; intros error total.
    - rewrite for_nil, app_nil_r. simpl. now rewrite Rplus_0_r.
    - rewrite for_cons. cbv zeta. rewrite quad_indicator_spec by assumption.
      cbn [Mem.bind]. rewrite IH. apply f_equal. apply f_equal2.
      + change ((error ++ [ind elem]) ++ map ind l = error ++ ([ind elem] ++ map ind l)).
        now rewrite app_assoc.
      + change (total + ind elem + Rsum (map ind l) =
                total + (ind elem + Rsum (map ind l))). ring. }
  rewrite G. cbn [app]. now rewrite Rplus_0_l.
Qed.

Lemma oct_indicators_spec tacs_refined ro nelems (nodal_error : BVec.t) :
  let ind elem :=
    0.125 * Rabs (Aux.corner_sum3D ro
      (BVec.getValues (depNodes tacs_refined) 1
         (el_nodes (getElement tacs_refined elem)) nodal_error)) in
  ErrorEst.oct_indicators tacs_refined ro nelems nodal_error =
  (map ind (seq 0 nelems), Rsum (map ind (seq 0 nelems))).
Proof.
  intros ind. unfold ErrorEst.oct_indicators.
  assert (G : forall l error total,
    fold_left (fun '(error, total_error_remain) elem =>
      let nodes := el_nodes (getElement tacs_refined elem) in
      let err := BVec.getValues (depNodes tacs_refined) 1 nodes nodal_error in
      let e := ErrorEst.oct_indicator ro err in
      (error ++ [e], total_error_remain + e)) l (error, total) =
    (error ++ map ind l, total + Rsum (map ind l))).
  { induction l as [|elem l IH]; intros error total.
    - simpl. now rewrite app_nil_r, Rplus_0_r.
    - cbn [fold_left]. cbv zeta. rewrite oct_indicator_spec, IH. apply f_equal2.
      + change ((error ++ [ind elem]) ++ map ind l = error ++ ([ind elem] ++ map ind l)).
        now rewrite app_assoc.
      + change (total + ind elem + Rsum (map ind l) =
                total + (ind elem + Rsum (map ind l))). ring. }
  rewrite G. cbn [app]. now rewrite Rplus_0_l.
Qed.

(** Collecting the deposits of the processes. *)
Lemma deposits_collect {P : Type} (procs : list P)
    (body : P -> list (list R * list (nat * TACSElement) * R * BVec.t) ->
            option (list (list R * list (nat * TACSElement) * R * BVec.t)))
    (c : P -> R) (v : P -> BVec.t) :
  (forall p acc, In p procs ->
     exists e a, body p acc = Some (acc ++ [(e, a, c p, v p)])) ->
  forall acc, exists ds,
    Mem.for_ procs body acc = Some (acc ++ ds) /\
    map (fun '(_, _, _, x) => x) ds = map v procs /\
    map (fun '(_, _, c, _) => c) ds = map c procs.
Proof.
  induction procs as [|p procs IH]; intros H acc.
  - exists []. rewrite for_nil, app_nil_r. auto.
  - destruct (H p acc (or_introl eq_refl)) as (e & a & E).
    destruct (IH (fun q acc' Hq => H q acc' (or_intror Hq)) (acc ++ [(e, a, c p, v p)]))
      as (ds & E' & Ev & Ec).
    exists ((e, a, c p, v p) :: ds). rewrite for_cons, E. cbn [Mem.bind].
    rewrite E', <- app_assoc. cbn [app map]. rewrite Ev, Ec. auto.
Qed.

(** C7.  Each element's indicator is the corner weight times the absolute
    value of the sum of the nodal error values at its corner nodes; the
    returned error is the sum over the processes of the sums of the
    indicators, and the correction is the sum over the processes of the
    sums of the deposited values. *)
Theorem adjoint_error_indicators
    (fuel : nat)
    (procs2 : list (QuadForest * TACSAssembler * TACSAssembler))
    (procs3 : list (OctForest * TACSAssembler * TACSAssembler))
    (solution_refined adjoint_refined : BVec.t) :
  ((3 <= fuel)%nat ->
   (forall forest_refined tacs tacs_refined,
      In (forest_refined, tacs, tacs_refined) procs2 ->
      (2 <= quad_order forest_refined)%nat /\
      Aux.fits_err tacs tacs_refined
        (quad_order forest_refined * quad_order forest_refined)) ->
   let nodal_error := Aux.nodal_error2D procs2 solution_refined adjoint_refined in
   ErrorEst.TMR_AdjointErrorEst2D fuel procs2 solution_refined adjoint_refined =
   Some {| ErrorEst.adj_error := map (Aux.indicators2D nodal_error) procs2;
           ErrorEst.adj_total_error :=
             MPI_Allreduce_SUM
               (map (fun p => Rsum (Aux.indicators2D nodal_error p)) procs2);
           ErrorEst.adj_corr :=
             MPI_Allreduce_SUM
               (map (fun p : QuadForest * TACSAssembler * TACSAssembler =>
                       let '(forest_refined, tacs, tacs_refined) := p in
                       let ro := quad_order forest_refined in
                       Aux.deposited_sum tacs_refined
                         (Aux.deposits tacs tacs_refined (ro * ro)
                            solution_refined adjoint_refined)) procs2) |}) /\
  ((forall forest_refined tacs tacs_refined,
      In (forest_refined, tacs, tacs_refined) procs3 ->
      Aux.fits_err tacs tacs_refined
        (oct_order forest_refined * oct_order forest_refined *
         oct_order forest_refined)) ->
   let nodal_error := Aux.nodal_error3D procs3 solution_refined adjoint_refined in
   ErrorEst.TMR_AdjointErrorEst3D procs3 solution_refined adjoint_refined =
   Some {| ErrorEst.adj_error := map (Aux.indicators3D nodal_error) procs3;
           ErrorEst.adj_total_error :=
             MPI_Allreduce_SUM
               (map (fun p => Rsum (Aux.indicators3D nodal_error p)) procs3);
           ErrorEst.adj_corr :=
             MPI_Allreduce_SUM
               (map (fun p : OctForest * TACSAssembler * TACSAssembler =>
                       let '(forest_refined, tacs, tacs_refined) := p in
                       let ro := oct_order forest_refined in
                       Aux.deposited_sum tacs_refined
                         (Aux.deposits tacs tacs_refined (ro * ro * ro)
                            solution_refined adjoint_refined)) procs3) |}).
Proof.
  split.
  - intros Hf Hp nodal_error. unfold ErrorEst.TMR_AdjointErrorEst2D.
    edestruct (deposits_collect procs2) as (ds & E & Ev & Ec);
      [| rewrite E; clear E].
    + intros [[fr tacs] tr] acc Hin. destruct (Hp _ _ _ Hin) as [_ Hfit].
      destruct (adjoint_deposit_spec tacs tr (quad_order fr * quad_order fr)
                  solution_refined adjoint_refined Hfit) as (e & a & E).
      exists e, a. cbv zeta. rewrite E. cbn [Mem.bind].
      instantiate (1 := fun p : QuadForest * TACSAssembler * TACSAssembler =>
        let '(fr, tacs, tr) := p in
        Aux.deposited_vector tr
          (Aux.deposits tacs tr (quad_order fr * quad_order fr)
             solution_refined adjoint_refined) BVec.zeroEntries).
      instantiate (1 := fun p : QuadForest * TACSAssembler * TACSAssembler =>
        let '(fr, tacs, tr) := p in
        Aux.deposited_sum tr
          (Aux.deposits tacs tr (quad_order fr * quad_order fr)
             solution_refined adjoint_refined)).
      reflexivity.
    + cbn [app Mem.bind]. rewrite Ev, Ec.
      fold (Aux.nodal_error2D procs2 solution_refined adjoint_refined). fold nodal_error.
      rewrite (for_collect procs2 _
                 (fun p => (Aux.indicators2D nodal_error p,
                            Rsum (Aux.indicators2D nodal_error p)))).
      * cbn [Mem.bind app]. rewrite !map_map. cbn [fst snd]. reflexivity.
      * intros [[fr tacs] tr] acc Hin. destruct (Hp _ _ _ Hin) as [Hro _].
        rewrite quad_indicators_spec by assumption. reflexivity.
  - intros Hp nodal_error. unfold ErrorEst.TMR_AdjointErrorEst3D.
    edestruct (deposits_collect procs3) as (ds & E & Ev & Ec);
      [| rewrite E; clear E].
    + intros [[fr tacs] tr] acc Hin. pose proof (Hp _ _ _ Hin) as Hfit.
      destruct (adjoint_deposit_spec tacs tr
                  (oct_order fr * oct_order fr * oct_order fr)
                  solution_refined adjoint_refined Hfit) as (e & a & E).
      exists e, a. cbv zeta. rewrite E. cbn [Mem.bind].
      instantiate (1 := fun p : OctForest * TACSAssembler * TACSAssembler =>
        let '(fr, tacs, tr) := p in
        Aux.deposited_vector tr
          (Aux.deposits tacs tr (oct_order fr * oct_order fr * oct_order fr)
             solution_refined adjoint_refined) BVec.zeroEntries).
      instantiate (1 := fun p : OctForest * TACSAssembler * TACSAssembler =>
        let '(fr, tacs, tr) := p in
        Aux.deposited_sum tr
          (Aux.deposits tacs tr (oct_order fr * oct_order fr * oct_order fr)
             solution_refined adjoint_refined)).
      reflexivity.
    + cbn [app Mem.bind]. cbv zeta. rewrite Ev, Ec.
      fold (Aux.nodal_error3D procs3 solution_refined adjoint_refined). fold nodal_error.
      apply f_equal.
      assert (Ei : map (fun '(forest_refined, tacs, tacs_refined) =>
                     ErrorEst.oct_indicators tacs_refined (oct_order forest_refined)
                       (length (elems tacs)) nodal_error) procs3 =
                   map (fun p => (Aux.indicators3D nodal_error p,
                                  Rsum (Aux.indicators3D nodal_error p))) procs3).
      { apply map_ext; intros [[fr tacs] tr]. apply oct_indicators_spec. }
      rewrite Ei, !map_map. cbn [fst snd]. reflexivity.
Qed.

(** ** KS stress constraint *)

Lemma fold_left_flat_map {A B C : Type} (f : A -> B -> A) (g : C -> list B)
    (l : list C) (a : A) :
  fold_left f (flat_map g l) a = fold_left (fun a x => fold_left f (g x) a) l a.
Proof.
  revert a; induction l as [|x l IH]; intros a; simpl; [reflexivity|].
  now rewrite fold_left_app, IH.
Qed.

Lemma fold_left_map {A B C : Type} (f : A -> B -> A) (g : C -> B)
    (l : list C) (a : A) :
  fold_left f (map g l) a = fold_left (fun a x => f a (g x)) l a.
Proof. revert a; induction l as [|x l IH]; intros a; simpl; auto. Qed.

Lemma fold_left_ext_in {A B : Type} (f g : A -> B -> A) (l : list B) (a : A) :
  (forall a x, In x l -> f a x = g a x) -> fold_left f l a = fold_left g l a.
Proof.
  revert a; induction l as [|x l IH]; intros a H; simpl; [reflexivity|].
  rewrite (H a x (or_introl eq_refl)). apply IH. intros; apply H; now right.
Qed.

(** The update [if (fval > ks_max_fail) ks_max_fail = fval]. *)
Lemma max_update (fval m : R) :
  (if Rgt_dec fval m then fval else m) = Rmax m fval.
Proof.
  unfold Rmax. destruct (Rgt_dec fval m), (Rle_dec m fval); lra.
Qed.

Lemma max_sweep_samples lib p uvec uderiv :
  KS.max_sweep lib p uvec uderiv =
  fold_left Rmax (map KS.s_fval (KS.proc_samples lib uvec uderiv p)) (-1e20).
Proof.
  unfold KS.max_sweep, KS.proc_samples. destruct p as [[forest interp_forest] tacs].
  destruct (getGaussPtsWts lib (oct_order forest + 1)) as [[nq gp] gw].
  rewrite fold_left_map, fold_left_flat_map.
  apply fold_left_ext_in; intros a i _.
  destruct (KS.elem_data lib (forest, interp_forest, tacs) uvec uderiv i) as [[X v] u].
  rewrite fold_left_flat_map. apply fold_left_ext_in; intros a1 kk _.
  rewrite fold_left_flat_map. apply fold_left_ext_in; intros a2 jj _.
  rewrite fold_left_map. apply fold_left_ext_in; intros a3 ii _.
  cbv zeta. cbn [KS.s_fval]. apply max_update.
Qed.

Lemma sum_sweep_samples lib ks_weight ks_max p uvec uderiv :
  KS.sum_sweep lib ks_weight ks_max p uvec uderiv =
  Rsum (map (KS.ks_term ks_weight ks_max) (KS.proc_samples lib uvec uderiv p)).
Proof.
  rewrite <- (Rplus_0_l (Rsum _)), <- fold_left_Rplus_acc.
  unfold KS.sum_sweep, KS.proc_samples. destruct p as [[forest interp_forest] tacs].
  destruct (getGaussPtsWts lib (oct_order forest + 1)) as [[nq gp] gw].
  rewrite fold_left_flat_map.
  apply fold_left_ext_in; intros a i _.
  destruct (KS.elem_data lib (forest, interp_forest, tacs) uvec uderiv i) as [[X v] u].
  rewrite fold_left_flat_map. apply fold_left_ext_in; intros a1 kk _.
  rewrite fold_left_flat_map. apply fold_left_ext_in; intros a2 jj _.
  rewrite fold_left_map. apply fold_left_ext_in; intros a3 ii _.
  cbv zeta. unfold KS.ks_term. cbn [KS.s_fval KS.s_detJ KS.s_weight]. reflexivity.
Qed.

(** Running maxima. *)
Lemma foldmax_ge_init (l : list R) (init : R) : init <= fold_left Rmax l init.
Proof.
  revert init; induction l as [|x l IH]; intros init; simpl; [lra|].
  eapply Rle_trans; [apply (Rmax_l init x) | apply IH].
Qed.

Lemma foldmax_upper (l : list R) (init x : R) :
  In x l -> x <= fold_left Rmax l init.
Proof.
  revert init; induction l as [|y l IH]; intros init; simpl; [contradiction|].
  intros [->|H]; [|now apply IH].
  eapply Rle_trans; [apply (Rmax_r init x) | apply foldmax_ge_init].
Qed.

Lemma foldmax_attained (l : list R) (init : R) :
  fold_left Rmax l init = init \/ In (fold_left Rmax l init) l.
Proof.
  revert init; induction l as [|y l IH]; intros init; simpl; [now left|].
  destruct (IH (Rmax init y)) as [E|H]; [|now right; right].
  rewrite E. unfold Rmax. destruct (Rle_dec init y); [right; now left | now left].
Qed.

Lemma foldmax_raise (l : list R) (a b : R) :
  a <= b -> fold_left Rmax l b = Rmax b (fold_left Rmax l a).
Proof.
  revert a b; induction l as [|z l IH]; intros a b Hab; simpl.
  - symmetry. now apply Rmax_left.
  - rewrite (IH (Rmax a z) (Rmax b z))
      by (unfold Rmax; destruct (Rle_dec a z), (Rle_dec b z); lra).
    assert (HF : z <= fold_left Rmax l (Rmax a z))
      by (eapply Rle_trans; [apply (Rmax_r a z) | apply foldmax_ge_init]).
    generalize dependent (fold_left Rmax l (Rmax a z)). intros F HF.
    unfold Rmax.
    destruct (Rle_dec b z);
      [destruct (Rle_dec z F), (Rle_dec b F) | destruct (Rle_dec b F)]; lra.
Qed.

Lemma foldmax_app (l1 l2 : list R) (init : R) :
  fold_left Rmax (l1 ++ l2) init =
  Rmax (fold_left Rmax l1 init) (fold_left Rmax l2 init).
Proof.
  rewrite fold_left_app. apply foldmax_raise. apply foldmax_ge_init.
Qed.

(** The reduction of the running maxima of the processes is the running
    maximum over all their samples. *)
Lemma allreduce_max_flat {P : Type} (fs : P -> list R) (procs : list P) (init : R) :
  procs <> [] ->
  MPI_Allreduce_MAX (map (fun p => fold_left Rmax (fs p) init) procs) =
  fold_left Rmax (flat_map fs procs) init.
Proof.
  destruct procs as [|p rest]; [contradiction|]; intros _.
  cbn [MPI_Allreduce_MAX map flat_map].
  generalize (fs p) as acc. induction rest as [|q rest IH]; intros acc.
  - cbn. now rewrite app_nil_r.
  - cbn [map fold_left flat_map]. rewrite <- foldmax_app, IH.
    now rewrite app_assoc.
Qed.

Lemma ks_max_fail_samples lib ks_weight procs uvec :
  procs <> [] ->
  KS.ks_max_fail (KS.evalConstraint lib ks_weight procs uvec) =
  fold_left Rmax (map KS.s_fval (KS.samples lib procs uvec)) (-1e20).
Proof.
  intros Hp. unfold KS.evalConstraint. cbv zeta. cbn [KS.ks_max_fail].
  fold (KS.ks_uderiv lib procs uvec).
  rewrite (map_ext _ (fun p => fold_left Rmax
             (map KS.s_fval (KS.proc_samples lib uvec (KS.ks_uderiv lib procs uvec) p))
             (-1e20))) by (intros; apply max_sweep_samples).
  rewrite allreduce_max_flat by assumption.
  unfold KS.samples. now rewrite map_flat_map_comm.
Qed.

Lemma ks_fail_sum_samples lib ks_weight procs uvec :
  KS.ks_fail_sum (KS.evalConstraint lib ks_weight procs uvec) =
  Rsum (map (KS.ks_term ks_weight
               (KS.ks_max_fail (KS.evalConstraint lib ks_weight procs uvec)))
            (KS.samples lib procs uvec)).
Proof.
  unfold KS.evalConstraint. cbv zeta. cbn [KS.ks_fail_sum KS.ks_max_fail].
  fold (KS.ks_uderiv lib procs uvec).
  unfold MPI_Allreduce_SUM at 1.
  rewrite (map_ext _ (fun p => Rsum (map (KS.ks_term ks_weight _)
             (KS.proc_samples lib uvec (KS.ks_uderiv lib procs uvec) p))))
    by (intros; apply sum_sweep_samples).
  unfold KS.samples. rewrite map_flat_map_comm, Rsum_flat_map. reflexivity.
Qed.


(** C8, as the code has it.  The sweep never tests the sign of [detJ]: the
    terms of the Gauss points with [detJ <= 0] are added to [ks_fail_sum]
    like the others, and the function prints the two values and the time,
    nothing about an element. *)
Theorem ks_sweep_keeps_degenerate_points
    (lib : Lib) (ks_weight : R) (procs : list KS.proc) (uvec : BVec.t) :
  let r := KS.evalConstraint lib ks_weight procs uvec in
  let sweep := KS.samples lib procs uvec in
  KS.ks_fail_sum r =
    KS.skipping_sum ks_weight (KS.ks_max_fail r) sweep +
    Rsum (map (fun s => if Rle_dec (KS.s_detJ s) 0
                        then KS.ks_term ks_weight (KS.ks_max_fail r) s else 0) sweep) /\
  KS.stdout r = [KS.KS_stress_value (KS.ks_func_val r);
                 KS.Max_stress_value (KS.ks_max_fail r); KS.Total_time].
Proof.
  intros r sweep. split; [|reflexivity].
  unfold r. rewrite ks_fail_sum_samples. fold sweep. fold r.
  unfold KS.skipping_sum. rewrite <- Rsum_map_plus.
  apply Rsum_map_ext_in; intros s _. destruct (Rle_dec (KS.s_detJ s) 0); lra.
Qed.

(** ** Curvature descriptor *)

Lemma gn_nonneg (g : list R) : 0 <= Curvature.gn g.
Proof. unfold Curvature.gn. nra. Qed.

(** The divisions of the guarded branch have non-zero divisors. *)
Lemma curvature_divisors_nonzero (g : list R) :
  Curvature.gn g <> 0 ->
  Curvature.gn g * Curvature.gn g <> 0 /\
  Curvature.gn g * Curvature.sqrtgn g <> 0.
Proof.
  intros H. pose proof (gn_nonneg g) as Hn.
  assert (Hs : 0 < sqrt (Curvature.gn g)) by (apply sqrt_lt_R0; lra).
  unfold Curvature.sqrtgn. split; nra.
Qed.

Lemma Hfact_is_cofactor_form (g H : list R) :
  Curvature.Hfact g H = Curvature.quad3 (Curvature.cof3 (Curvature.sym3 H)) g.
Proof.
  unfold Curvature.Hfact, Curvature.Hf, Curvature.quad3, Curvature.cof3, Curvature.sym3.
  cbn. ring.
Qed.

Lemma Hprod_is_quadratic_form (g H : list R) :
  Curvature.Hprod g H = Curvature.quad3 (Curvature.sym3 H) g.
Proof.
  unfold Curvature.Hprod, Curvature.quad3, Curvature.sym3. cbn. ring.
Qed.

Lemma KG_is_kappa_G (g H : list R) :
  Curvature.gn g <> 0 -> Curvature.KG g H = Curvature.kappa_G g H.
Proof.
  intros Hg. unfold Curvature.KG, Curvature.kappa_G, Curvature.norm3.
  destruct (Req_dec_T (Curvature.gn g) 0) as [E|_]; [contradiction|].
  rewrite Hfact_is_cofactor_form.
  pose proof (gn_nonneg g) as Hn.
  replace (sqrt (Curvature.gn g) ^ 4)
    with ((sqrt (Curvature.gn g) * sqrt (Curvature.gn g)) *
          (sqrt (Curvature.gn g) * sqrt (Curvature.gn g))) by ring.
  now rewrite sqrt_sqrt by assumption.
Qed.

Lemma KM_is_kappa_M (g H : list R) :
  Curvature.gn g <> 0 -> Curvature.KM g H = Curvature.kappa_M g H.
Proof.
  intros Hg. unfold Curvature.KM, Curvature.kappa_M, Curvature.norm3, Curvature.sqrtgn.
  destruct (Req_dec_T (Curvature.gn g) 0) as [E|_]; [contradiction|].
  rewrite Hprod_is_quadratic_form.
  pose proof (gn_nonneg g) as Hn.
  assert (Hs : 0 < sqrt (Curvature.gn g)) by (apply sqrt_lt_R0; lra).
  assert (E2 : sqrt (Curvature.gn g) ^ 2 = Curvature.gn g).
  { replace (sqrt (Curvature.gn g) ^ 2)
      with (sqrt (Curvature.gn g) * sqrt (Curvature.gn g)) by ring.
    now apply sqrt_sqrt. }
  assert (E3 : sqrt (Curvature.gn g) ^ 3 = Curvature.gn g * sqrt (Curvature.gn g)).
  { replace (sqrt (Curvature.gn g) ^ 3)
      with (sqrt (Curvature.gn g) ^ 2 * sqrt (Curvature.gn g)) by ring.
    now rewrite E2. }
  rewrite E2, E3.
  unfold Curvature.trace3, Curvature.sym3.
  replace 0.5 with (/ 2) by lra. field. split; lra.
Qed.

(** The larger and the smaller of [|a + s|] and [|a - s|] for [s >= 0]. *)
Lemma abs_pair_max (a s : R) :
  0 <= s ->
  (if Rgt_dec (Rabs (a + s)) (Rabs (a - s))
   then (Rabs (a + s), Rabs (a - s) - Rabs (a + s))
   else (Rabs (a - s), Rabs (a + s) - Rabs (a - s))) =
  (Rabs a + s, Rabs (Rabs a - s) - (Rabs a + s)).
Proof.
  intros Hs.
  destruct (Rgt_dec (Rabs (a + s)) (Rabs (a - s))) as [Hgt|Hle];
    revert Hgt || revert Hle; unfold Rabs;
    repeat match goal with |- context [Rcase_abs ?x] => destruct (Rcase_abs x) end;
    intros; f_equal; lra.
Qed.

Lemma evalCurvature_as_coded (k val : R) (g H : list R) :
  Curvature.evalCurvature k g H val =
  Curvature.factor val *
  (Rabs (Curvature.KM g H) + Curvature.sqrtk g H +
   ln (1 + exp (k * (Rabs (Rabs (Curvature.KM g H) - Curvature.sqrtk g H) -
                      (Rabs (Curvature.KM g H) + Curvature.sqrtk g H)))) / k).
Proof.
  unfold Curvature.evalCurvature, Curvature.kmax_kdiff, Curvature.k1, Curvature.k2.
  rewrite abs_pair_max by (unfold Curvature.sqrtk; apply sqrt_pos).
  reflexivity.
Qed.

Lemma factor_poly (val : R) : Curvature.factor val = 1 - 16 * (val - 1 / 2) ^ 4.
Proof. unfold Curvature.factor. replace 0.5 with (1 / 2) by lra. ring. Qed.

(** C2, as the code has it.  The cost is
    [b*(kmax + log(1 + exp(k*(kmin - kmax)))/k)] with [b = 1 - 16(x - 1/2)^4],
    [kmax = |KM| + sqrt(KM^2 - KG)], the larger of [|KM + sqrt(..)|] and
    [|KM - sqrt(..)|], and [kmin = | |KM| - sqrt(KM^2 - KG) |], the smaller
    of the two; [KG] and [KM] are the Gaussian and mean curvature of the
    specification when the gradient is not zero. *)
Theorem curvature_cost_as_coded (k x : R) (g H : list R) :
  let KG := Curvature.KG g H in
  let KM := Curvature.KM g H in
  let s := sqrt (KM * KM - KG) in
  let kappa_max := Rabs KM + s in
  let kappa_min := Rabs (Rabs KM - s) in
  (Curvature.gn g <> 0 ->
   KG = Curvature.kappa_G g H /\ KM = Curvature.kappa_M g H) /\
  kappa_max = Rmax (Rabs (KM + s)) (Rabs (KM - s)) /\
  kappa_min = Rmin (Rabs (KM + s)) (Rabs (KM - s)) /\
  Curvature.evalCurvature k g H x =
  (1 - 16 * (x - 1 / 2) ^ 4) *
  (kappa_max + ln (1 + exp (k * (kappa_min - kappa_max))) / k).
Proof.
  intros KG KM s kappa_max kappa_min.
  assert (Hs : 0 <= s) by apply sqrt_pos.
  split; [|split; [|split]].
  - intros Hg. split; [now apply KG_is_kappa_G | now apply KM_is_kappa_M].
  - unfold kappa_max, Rmax, Rabs.
    repeat match goal with |- context [Rcase_abs ?x] => destruct (Rcase_abs x) end;
      match goal with |- context [Rle_dec ?x ?y] => destruct (Rle_dec x y) end; lra.
  - unfold kappa_min, Rmin, Rabs.
    repeat match goal with |- context [Rcase_abs ?x] => destruct (Rcase_abs x) end;
      match goal with |- context [Rle_dec ?x ?y] => destruct (Rle_dec x y) end; lra.
  - rewrite evalCurvature_as_coded, factor_poly. reflexivity.
Qed.

(** ** Checked division *)

Lemma div_zero (a b : R) : b = 0 -> CurvatureChecked.div a b = None.
Proof.
  intros E. unfold CurvatureChecked.div.
  destruct (Req_dec_T b 0); [reflexivity | contradiction].
Qed.

Lemma div_nonzero (a b : R) : b <> 0 -> CurvatureChecked.div a b = Some (a / b).
Proof.
  intros E. unfold CurvatureChecked.div.
  destruct (Req_dec_T b 0); [contradiction | reflexivity].
Qed.

(** The guards keep the divisions of both curvatures away from a zero
    divisor: the checked curvatures always have the values of [KG], [KM]. *)
Lemma checked_KG_KM (g H : list R) :
  CurvatureChecked.KG g H = Some (Curvature.KG g H) /\
  CurvatureChecked.KM g H = Some (Curvature.KM g H).
Proof.
  unfold CurvatureChecked.KG, CurvatureChecked.KM, Curvature.KG, Curvature.KM.
  destruct (Req_dec_T (Curvature.gn g) 0) as [E|E]; [split; reflexivity|].
  destruct (curvature_divisors_nonzero g E) as [D1 D2].
  rewrite !div_nonzero by assumption. split; reflexivity.
Qed.

(** With a non-zero aggregate weight the checked evaluation has a value at
    every gradient, the one of [evalCurvature]; with a zero weight it has
    none. *)
Lemma checked_evalCurvature (k val : R) (g H : list R) :
  CurvatureChecked.evalCurvature k g H val =
  if Req_dec_T k 0 then None else Some (Curvature.evalCurvature k g H val).
Proof.
  unfold CurvatureChecked.evalCurvature.
  destruct (checked_KG_KM g H) as [-> ->]. cbn [Mem.bind].
  unfold CurvatureChecked.result. cbv zeta.
  destruct (Req_dec_T k 0) as [E|E].
  - rewrite div_zero by exact E. reflexivity.
  - rewrite div_nonzero by exact E. cbn [Mem.bind].
    unfold Curvature.evalCurvature, Curvature.kmax_kdiff, Curvature.k1,
      Curvature.k2, Curvature.sqrtk. cbv zeta.
    destruct (Rgt_dec _ _); reflexivity.
Qed.

(** C10.  At a zero gradient the two divisions of the curvature formulas
    have a zero divisor, and the code does not execute them: the checked
    [KG] and [KM] have the value 0.  The only division executed is the one
    by the aggregate weight [k] of the result, so that for [k <> 0] the
    checked evaluation returns the factor times [0 + log(1 + exp(k*0))/k],
    and this is the value of the unchecked model as well. *)
Theorem curvature_zero_gradient (k val : R) (g H : list R) :
  Curvature.gn g = 0 ->
  (CurvatureChecked.div (Curvature.Hfact g H)
     (Curvature.gn g * Curvature.gn g) = None /\
   CurvatureChecked.div
     (0.5 * (Curvature.Hprod g H - Curvature.gn g * (rd H 0 + rd H 3 + rd H 5)))
     (Curvature.gn g * Curvature.sqrtgn g) = None) /\
  (CurvatureChecked.KG g H = Some 0 /\ CurvatureChecked.KM g H = Some 0) /\
  CurvatureChecked.evalCurvature k g H val =
    Mem.bind (CurvatureChecked.div (ln (1 + exp (k * 0))) k)
      (fun q => Some (Curvature.factor val * (0 + q))) /\
  (k <> 0 ->
   CurvatureChecked.evalCurvature k g H val =
     Some (Curvature.factor val * (0 + ln (1 + exp (k * 0)) / k))) /\
  Curvature.KG g H = 0 /\ Curvature.KM g H = 0 /\
  Curvature.kmax_kdiff g H = (0, 0) /\
  Curvature.evalCurvature k g H val =
  Curvature.factor val * (0 + ln (1 + exp (k * 0)) / k).
Proof.
  intros Hg.
  assert (EG : Curvature.KG g H = 0)
    by (unfold Curvature.KG; destruct (Req_dec_T (Curvature.gn g) 0); [reflexivity | contradiction]).
  assert (EM : Curvature.KM g H = 0)
    by (unfold Curvature.KM; destruct (Req_dec_T (Curvature.gn g) 0); [reflexivity | contradiction]).
  assert (Es : Curvature.sqrtk g H = 0).
  { unfold Curvature.sqrtk. rewrite EG, EM.
    replace (0 * 0 - 0) with 0 by ring. apply sqrt_0. }
  assert (Ek : Curvature.kmax_kdiff g H = (0, 0)).
  { unfold Curvature.kmax_kdiff, Curvature.k1, Curvature.k2. rewrite EM, Es.
    replace (0 + 0) with 0 by ring. replace (0 - 0) with 0 by ring.
    rewrite Rabs_R0. destruct (Rgt_dec 0 0); [lra|]. f_equal; ring. }
  assert (Ev : Curvature.evalCurvature k g H val =
               Curvature.factor val * (0 + ln (1 + exp (k * 0)) / k))
    by (unfold Curvature.evalCurvature; rewrite Ek; reflexivity).
  assert (CG : CurvatureChecked.KG g H = Some 0)
    by (rewrite (proj1 (checked_KG_KM g H)), EG; reflexivity).
  assert (CM : CurvatureChecked.KM g H = Some 0)
    by (rewrite (proj2 (checked_KG_KM g H)), EM; reflexivity).
  split; [split; apply div_zero; rewrite Hg; ring|].
  split; [split; assumption|].
  split; [|split; [|repeat split; assumption]].
  - rewrite checked_evalCurvature. destruct (Req_dec_T k 0) as [E|E].
    + rewrite div_zero by exact E. reflexivity.
    + rewrite div_nonzero by exact E. cbn [Mem.bind]. rewrite Ev. reflexivity.
  - intros Hk. rewrite checked_evalCurvature.
    destruct (Req_dec_T k 0); [contradiction|]. rewrite Ev. reflexivity.
Qed.

(** C2 fails where the Gaussian curvature is negative: gradient (1,0,0) and
    Hessian diag(0,1,-1) at x = 1/2 with k = 1. *)
Lemma curvature_cost_counterexample :
  Curvature.evalCurvature 1 [1; 0; 0] [0; 0; 0; 1; 0; -1] (1 / 2) <>
  Curvature.spec_cost 1 (1 / 2) [1; 0; 0] [0; 0; 0; 1; 0; -1].
Proof.
  set (g := [1; 0; 0]). set (H := [0; 0; 0; 1; 0; -1]).
  assert (Eg : Curvature.gn g = 1) by (unfold Curvature.gn, g; cbn; ring).
  assert (Hg : Curvature.gn g <> 0) by (rewrite Eg; lra).
  assert (EG : Curvature.KG g H = -1).
  { unfold Curvature.KG. destruct (Req_dec_T (Curvature.gn g) 0); [contradiction|].
    rewrite Eg. unfold Curvature.Hfact, Curvature.Hf, g, H. cbn. field. }
  assert (EM : Curvature.KM g H = 0).
  { unfold Curvature.KM. destruct (Req_dec_T (Curvature.gn g) 0); [contradiction|].
    unfold Curvature.sqrtgn. rewrite Eg, sqrt_1.
    unfold Curvature.Hprod, g, H. cbn. replace 0.5 with (/ 2) by lra. field. }
  assert (Es : sqrt (Curvature.KM g H * Curvature.KM g H - Curvature.KG g H) = 1).
  { rewrite EG, EM. replace (0 * 0 - -1) with 1 by ring. apply sqrt_1. }
  assert (Ecode : Curvature.evalCurvature 1 g H (1 / 2) = 1 + ln 2).
  { rewrite evalCurvature_as_coded. unfold Curvature.sqrtk. rewrite Es, EM.
    rewrite Rabs_R0. replace (0 - 1) with (-1) by ring.
    replace (Rabs (-1)) with 1 by (unfold Rabs; destruct (Rcase_abs (-1)); lra).
    replace (1 * (1 - (0 + 1))) with 0 by ring. rewrite exp_0.
    rewrite factor_poly. replace (1 + 1) with 2 by ring. field. }
  assert (Espec : Curvature.spec_cost 1 (1 / 2) g H = 1 + ln (1 + exp (-2))).
  { unfold Curvature.spec_cost.
    rewrite <- (KG_is_kappa_G g H Hg), <- (KM_is_kappa_M g H Hg).
    rewrite Es, EM, Rabs_R0.
    replace (1 * (0 - 1 - (0 + 1))) with (-2) by ring. field. }
  rewrite Ecode, Espec. intros E.
  assert (E2 : ln 2 = ln (1 + exp (-2))) by lra.
  assert (Hlt : exp (-2) < 1) by (rewrite <- exp_0; apply exp_increasing; lra).
  pose proof (exp_pos (-2)) as Hpos.
  pose proof (ln_increasing (1 + exp (-2)) 2 ltac:(lra) ltac:(lra)). lra.
Qed.

(** ** The example mesh *)

Lemma example_Xpts :
  KS.interp_Xpts Example.oct3 2 0 =
  flat_map (fun p => [px p; py p; pz p]) Example.mirrored_points.
Proof. reflexivity. Qed.

Lemma example_detJ x y z vars ubar :
  snd (KS.evalStrain Example.lib Example.oct2 Example.oct3 [x; y; z]
         (KS.interp_Xpts Example.oct3 2 0) vars ubar) = -1.
Proof.
  rewrite example_Xpts.
  lazy beta iota zeta delta [KS.evalStrain snd fst].
  cbn [jacobian3d Example.lib snd].
  lazy -[Rplus Rmult Ropp Rminus Rdiv Rinv IZR].

  field.
Qed.

Lemma example_gauss_weight_pos (i : nat) :
  (i < 3)%nat -> 0 < rd [5 / 9; 8 / 9; 5 / 9] i.
Proof.
  intros Hi. destruct i as [|[|[|i]]]; [| | |lia]; unfold rd; cbn [nth]; lra.
Qed.

Lemma example_samples (s : KS.sample) :
  In s (KS.samples Example.lib
          [(Example.oct2, Example.oct3, Example.assembler 8)] Example.ones) ->
  KS.s_detJ s = -1 /\ 0 < KS.s_weight s /\ KS.s_fval s = 1.
Proof.
  unfold KS.samples. cbn [flat_map]. rewrite app_nil_r.
  lazy beta iota zeta delta [KS.proc_samples KS.elem_data getGaussPtsWts Example.lib].
  intros Hs.
  apply in_flat_map in Hs as (i & Hi & Hs).
  apply in_flat_map in Hs as (kk & Hkk & Hs).
  apply in_flat_map in Hs as (jj & Hjj & Hs).
  apply in_map_iff in Hs as (ii & <- & Hii).
  apply in_seq in Hkk, Hjj, Hii.
  cbn [KS.s_detJ KS.s_weight KS.s_fval].
  assert (i = 0%nat) as -> by (apply in_seq in Hi; cbn in Hi; lia).
  split; [|split].
  - apply example_detJ.
  - repeat apply Rmult_lt_0_compat; apply example_gauss_weight_pos; lia.
  - reflexivity.
Qed.

Lemma example_sample_exists :
  exists s, In s (KS.samples Example.lib
                    [(Example.oct2, Example.oct3, Example.assembler 8)] Example.ones).
Proof.
  unfold KS.samples. cbn [flat_map]. rewrite app_nil_r.
  lazy beta iota zeta delta [KS.proc_samples KS.elem_data getGaussPtsWts Example.lib].
  eexists. apply in_flat_map. exists 0%nat. split; [now left|].
  apply in_flat_map. exists 0%nat. split; [now left|].
  apply in_flat_map. exists 0%nat. split; [now left|].
  apply in_map_iff. exists 0%nat. split; [reflexivity | now left].
Qed.

Lemma Rsum_neg {A} (f : A -> R) (l : list A) :
  l <> [] -> (forall a, In a l -> f a < 0) -> Rsum (map f l) < 0.
Proof.
  intros Hne H.
  destruct l as [|a l]; [contradiction|].
  cbn [map Rsum fold_right].
  pose proof (H a (or_introl eq_refl)).
  assert (Rsum (map f l) <= 0).
  { clear Hne H0. induction l as [|b l IH]; cbn; [lra|].
    pose proof (H b (or_intror (or_introl eq_refl))).
    assert (Rsum (map f l) <= 0)
      by (apply IH; intros c [<-|Hc]; apply H; [now left | right; now right]).
    unfold Rsum in *. lra. }
  unfold Rsum in *. lra.
Qed.


Lemma example_solves_homogeneous : LSQ.solves_homogeneous Example.lib.
Proof.
  intros m n nrhs A b Hb j Hj.
  cbn [LAPACKdgelss Example.lib].
  set (x := map (fun i => rd (repeat 0 (m * nrhs)) (m * j + i)) (seq 0 n)).
  assert (Hx : forall i, rd x i = 0).
  { intros i. unfold x.
    destruct (Nat.lt_ge_cases i n) as [Hi|Hi].
    - rewrite rd_map_seq by assumption. unfold rd. apply nth_repeat.
    - apply nth_overflow. now rewrite length_map, length_seq. }
  assert (Hr : LSQ.residual m n A (fun r => rd b (m * j + r)) x = 0).
  { unfold LSQ.residual. apply Rsum_map_zero. intros r _.
    rewrite (rd_all0 b) by assumption.
    unfold LSQ.Ax. rewrite Rsum_map_zero; [ring|].
    intros i _. rewrite Hx. ring. }
  split.
  - intros y. rewrite Hr. apply residual_nonneg.
  - intros y _. unfold LSQ.norm2.
    rewrite (Rsum_map_zero (fun i => rd x i * rd x i))
      by (intros i _; rewrite Hx; ring).
    apply Rsum_nonneg. intros i _. apply Rle_0_sqr.
Qed.

Lemma example_derivs_sum_zero3D : Aux.derivs_sum_zero3D Example.oct2.
Proof.
  intros pt.
  lazy beta iota zeta delta [oct_evalInterp Example.oct2 Example.interp3].
  generalize (rd pt 0), (rd pt 1), (rd pt 2). intros x y z.
  lazy -[Rplus Rmult Ropp Rminus Rdiv Rinv IZR].
  repeat split; field.
Qed.

Lemma example_derivs_sum_zero2D : Aux.derivs_sum_zero2D Example.quad2.
Proof.
  intros pt.
  lazy beta iota zeta delta [quad_evalInterp Example.quad2 Example.interp2].
  generalize (rd pt 0), (rd pt 1). intros x y.
  lazy -[Rplus Rmult Ropp Rminus Rdiv Rinv IZR].
  repeat split; field.
Qed.

Lemma example_fits_err (m n : nat) :
  Aux.fits_err (Example.assembler m) (Example.assembler n) n.
Proof.
  split.
  - intros elem He. cbn in He.
    assert (elem = 0%nat) as -> by lia.
    split; [cbn; lia|]. intros t err adj X v. cbn. apply length_map.
  - intros na [].
Qed.

(** ** The regular mesh *)

Lemma plate_well_formed :
  Aux.well_formed2D [(Example.quad2, Regular.plate2, None)].
Proof.
  intros forest tacs nums elem [E|[]] He. injection E as <- <- <-.
  cbn in He. destruct He as [<-|[]]. reflexivity.
Qed.

Lemma regular_constant_field (n : nat) (Xpts : list R) :
  Aux.constant_field (Regular.assembler n Xpts) None Example.ones (fun _ => 1).
Proof.
  intros elem i k He Hi Hk. unfold BVec.read.
  destruct (0 <=? _)%Z eqn:E; [reflexivity|].
  apply Z.leb_gt in E.
  cbn in He. destruct He as [<-|[]].
  cbn [getElement Regular.assembler elems nth el_nodes] in *.
  rewrite length_map, length_seq in Hi.
  rewrite (nth_indep _ 0%Z (Z.of_nat 0)) in E by (now rewrite length_map, length_seq).
  rewrite map_nth in E. lia.
Qed.

Lemma brick_well_formed :
  Aux.well_formed3D [(Example.oct2, Regular.brick2, None)].
Proof.
  intros forest tacs nums elem [E|[]] He. injection E as <- <- <-.
  cbn in He. destruct He as [<-|[]]. reflexivity.
Qed.

(** The nodal derivatives of the constant field on the plate are zero. *)
Lemma plate_uderiv_zero (n : Z) (k : nat) :
  Aux.energy_uderiv2D Example.lib [Regular.plate_proc] Example.ones n k = 0.
Proof.
  unfold Aux.energy_uderiv2D. cbn [map Regular.plate_proc].
  apply (computeNodeDeriv2D_const _ _ _ _ (fun _ => 1)).
  - exact plate_well_formed.
  - intros forest tacs nums [E|[]]. injection E as <- <- <-.
    split; [exact example_derivs_sum_zero2D | apply regular_constant_field].
Qed.

Lemma plate_uelem :
  BVec.getValues (depNodes (Regular.plate2)) 1
    (el_nodes (getElement (Regular.plate2) 0)) Example.ones =
  [1; 1; 1; 1].
Proof. reflexivity. Qed.

(** The enrichment coefficients of the constant field on the plate are
    zero: the right-hand side of the least-squares problem vanishes. *)
Lemma plate_ubar_zero :
  Recon.computeElemRecon2D Example.lib 1 Example.quad2 Example.quad3
    (el_Xpts (getElement (Regular.plate3) 0))
    [1; 1; 1; 1]
    (BVec.getValues (depNodes (Regular.plate2)) (3 * 1)
       (el_nodes (getElement (Regular.plate2) 0))
       (Aux.energy_uderiv2D Example.lib [Regular.plate_proc] Example.ones)) =
  repeat 0 5.
Proof.
  change (repeat 0 5)
    with (repeat 0 (1 * Enrich.getNum2dEnrich (quad_order Example.quad2))).
  apply (computeElemRecon2D_const _ _ _ _ _ _ _ (fun _ => 1)).
  - exact example_solves_homogeneous.
  - exact example_derivs_sum_zero2D.
  - intros i k Hi Hk. cbn in Hi.
    destruct i as [|[|[|[|i]]]]; [| | | |lia];
      destruct k as [|k]; try lia; reflexivity.
  - apply getValues_zero. exact plate_uderiv_zero.
Qed.

(** Zero coefficients give a zero enrichment part. *)
Lemma pointwise_enrichment2D_zero forest refined_forest vpn ubar :
  all0 ubar -> all0 (Aux.pointwise_enrichment2D forest refined_forest vpn ubar).
Proof.
  intros Hu. unfold Aux.pointwise_enrichment2D. cbv zeta.
  apply all0_flat_map; intros m _. apply all0_flat_map; intros n _.
  apply Forall_forall; intros v Hv. apply in_map_iff in Hv as (kk & <- & _).
  apply Rsum_map_zero; intros k _. rewrite (rd_all0 ubar) by exact Hu. ring.
Qed.

Lemma plate_energy_zero (vars dvars Xpts : list R) (n : nat) :
  all0 vars ->
  snd (computeEnergies (Regular.element n) 0 Xpts vars dvars) = 0.
Proof.
  intros Hv. cbn [computeEnergies Regular.element snd].
  rewrite Rsum_map_zero; [lra|].
  intros v Hin. rewrite (proj1 (Forall_forall _ vars) Hv v Hin). ring.
Qed.

(** The indicator that the code computes on the plate. *)
Lemma plate_code_indicator :
  Aux.energy_indicator2D Example.lib Regular.plate_proc Example.ones
    (Aux.energy_uderiv2D Example.lib [Regular.plate_proc] Example.ones) 0 = 0.
Proof.
  unfold Aux.energy_indicator2D, Regular.plate_proc. cbv zeta.
  cbn [getVarsPerNode Regular.assembler Regular.plate2 Regular.plate3].
  rewrite plate_uelem. fold Regular.plate_proc. rewrite plate_ubar_zero.
  cbn [getElement elems Regular.assembler Regular.plate2 Regular.plate3 nth el_obj].
  rewrite plate_energy_zero; [apply Rabs_R0|].
  apply pointwise_enrichment2D_zero. apply Forall_forall.
  intros x Hx. now apply repeat_spec in Hx.
Qed.

(** The bilinear basis sums to one at every point. *)
Lemma quad2_partition_of_unity (x y : R) :
  Rsum (map (fun k => rd (Enrich.N2 (quad_evalInterp Example.quad2 [x; y])) k *
                      rd [1; 1; 1; 1] (1 * k + 0))
            (seq 0 (2 * 2))) = 1.
Proof.
  cbn [quad_evalInterp Example.quad2 Example.interp2 Enrich.N2 Example.tensor2
       Example.lag2 flat_map map app seq Nat.mul Nat.add rd nth Rsum fold_right].
  field.
Qed.

(** The field that the claim names, on the plate: one at each of the nine
    refined knots. *)
Lemma plate_reconstructed_field :
  EnergySpec.reconstructed_field2D Example.quad2 Example.quad3 1
    [1; 1; 1; 1] (repeat 0 5) = repeat 1 9.
Proof.
  unfold EnergySpec.reconstructed_field2D. cbv zeta.
  cbn [quad_order quad_knots Example.quad2 Example.quad3 seq flat_map map app
       repeat].
  repeat (apply (f_equal2 (@cons R));
    [ rewrite quad2_partition_of_unity;
      rewrite Rsum_map_zero;
      [ring | intros k _; rewrite (rd_all0 (repeat 0 5));
              [ring | apply Forall_forall; intros v Hv; now apply repeat_spec in Hv]]
    |]).
  reflexivity.
Qed.

(** The indicator that the claim names, on the plate. *)
Lemma plate_claimed_indicator :
  EnergySpec.claimed_indicator2D Example.lib Regular.plate_proc Example.ones
    (Aux.energy_uderiv2D Example.lib [Regular.plate_proc] Example.ones) 0 = 9 / 2.
Proof.
  unfold EnergySpec.claimed_indicator2D, Regular.plate_proc. cbv zeta.
  cbn [getVarsPerNode Regular.assembler Regular.plate2 Regular.plate3].
  rewrite plate_uelem. fold Regular.plate_proc. rewrite plate_ubar_zero.
  rewrite plate_reconstructed_field.
  cbn [getElement elems Regular.assembler Regular.plate2 Regular.plate3 nth el_obj computeEnergies Regular.element
       snd repeat map Rsum fold_right].
  replace ((1 * 1 + (1 * 1 + (1 * 1 + (1 * 1 + (1 * 1 + (1 * 1 + (1 * 1 +
            (1 * 1 + (1 * 1 + 0))))))))) / 2) with (9 / 2) by field.
  apply Rabs_pos_eq. lra.
Qed.

(** ** The statements at the example mesh *)

(** C8 fails on the inside-out hexahedron: every Gauss point has
    [detJ = -1 <= 0], and [ks_fail_sum] is not the sum that skips them. *)
Lemma ks_degenerate_points_counterexample :
  (forall s,
     In s (KS.samples Example.lib
             [(Example.oct2, Example.oct3, Example.assembler 8)] Example.ones) ->
     KS.s_detJ s <= 0) /\
  KS.ks_fail_sum
    (KS.evalConstraint Example.lib 1
       [(Example.oct2, Example.oct3, Example.assembler 8)] Example.ones) <>
  KS.skipping_sum 1
    (KS.ks_max_fail
       (KS.evalConstraint Example.lib 1
          [(Example.oct2, Example.oct3, Example.assembler 8)] Example.ones))
    (KS.samples Example.lib
       [(Example.oct2, Example.oct3, Example.assembler 8)] Example.ones).
Proof.
  set (procs := [(Example.oct2, Example.oct3, Example.assembler 8)]).
  set (r := KS.evalConstraint Example.lib 1 procs Example.ones).
  split.
  - intros s Hs. destruct (example_samples s Hs) as (-> & _). lra.
  - assert (E0 : KS.skipping_sum 1 (KS.ks_max_fail r)
                   (KS.samples Example.lib procs Example.ones) = 0).
    { unfold KS.skipping_sum. apply Rsum_map_zero. intros s Hs.
      destruct (example_samples s Hs) as (E & _).
      destruct (Rle_dec (KS.s_detJ s) 0); [reflexivity | lra]. }
    rewrite E0. unfold r. rewrite ks_fail_sum_samples.
    apply Rlt_not_eq. apply Rsum_neg.
    + destruct example_sample_exists as (s & Hs). intros E. fold procs in Hs.
      rewrite E in Hs. contradiction.
    + intros s Hs. destruct (example_samples s Hs) as (E & Hw & _).
      unfold KS.ks_term. rewrite E.
      match goal with |- context [exp ?a] => pose proof (exp_pos a) end. nra.
Qed.


(** C2 (amended) at gradient (1,0,0) and Hessian diag(0,1,-1). *)
Lemma curvature_cost_as_coded_witness :
  Curvature.gn [1; 0; 0] <> 0 /\
  Curvature.KG [1; 0; 0] [0; 0; 0; 1; 0; -1] =
  Curvature.kappa_G [1; 0; 0] [0; 0; 0; 1; 0; -1] /\
  Curvature.KM [1; 0; 0] [0; 0; 0; 1; 0; -1] =
  Curvature.kappa_M [1; 0; 0] [0; 0; 0; 1; 0; -1].
Proof.
  assert (Hg : Curvature.gn [1; 0; 0] <> 0) by (unfold Curvature.gn; cbn; lra).
  split; [exact Hg|].
  pose proof (curvature_cost_as_coded 1 (1 / 2) [1; 0; 0] [0; 0; 0; 1; 0; -1]) as T.
  cbv zeta in T. exact (proj1 T Hg).
Defined.

(** C10 at the zero gradient. *)
Lemma curvature_zero_gradient_witness :
  Curvature.gn [0; 0; 0] = 0 /\
  CurvatureChecked.KG [0; 0; 0] [1; 2; 3; 4; 5; 6] = Some 0 /\
  CurvatureChecked.KM [0; 0; 0] [1; 2; 3; 4; 5; 6] = Some 0 /\
  CurvatureChecked.evalCurvature 1 [0; 0; 0] [1; 2; 3; 4; 5; 6] (1 / 2) =
  Some (Curvature.factor (1 / 2) * (0 + ln (1 + exp (1 * 0)) / 1)).
Proof.
  assert (Hg : Curvature.gn [0; 0; 0] = 0) by (unfold Curvature.gn; cbn; ring).
  assert (Hk : 1 <> 0) by lra.
  split; [exact Hg|].
  destruct (curvature_zero_gradient 1 (1 / 2) [0; 0; 0] [1; 2; 3; 4; 5; 6] Hg)
    as (_ & (A & B) & _ & C & _).
  split; [exact A | split; [exact B | exact (C Hk)]].
Defined.

(** C9 at order 2, the first enrichment function, the origin. *)
Lemma enrichment_derivatives_analytic_witness :
  (2 = 2 \/ 2 = 3 \/ 2 = 4)%nat /\ (0 < Enrich.getNum2dEnrich 2)%nat /\
  (2 = 2 \/ 2 = 3)%nat /\ (0 < Enrich.getNum3dEnrich 2)%nat /\
  derivable_pt_lim
    (fun x => rd (Enrich.N2 (Enrich.evalEnrichmentFuncs2D 2 [x; 0] [-1; 1])) 0) 0
    (rd (Enrich.Na2 (Enrich.evalEnrichmentFuncs2D 2 [0; 0] [-1; 1])) 0) /\
  derivable_pt_lim
    (fun z => rd (Enrich.N3 (Enrich.evalEnrichmentFuncs3D 2 [0; 0; z]
                               (Enrich.mk3D [] [] [] []))) 0) 0
    (rd (Enrich.Nc3 (Enrich.evalEnrichmentFuncs3D 2 [0; 0; 0]
                       (Enrich.mk3D [] [] [] []))) 0).
Proof.
  assert (H2 : (2 = 2 \/ 2 = 3 \/ 2 = 4)%nat) by (left; reflexivity).
  assert (I2 : (0 < Enrich.getNum2dEnrich 2)%nat) by (cbn; lia).
  assert (H3 : (2 = 2 \/ 2 = 3)%nat) by (left; reflexivity).
  assert (I3 : (0 < Enrich.getNum3dEnrich 2)%nat) by (cbn; lia).
  destruct (enrichment_derivatives_analytic [-1; 1] (Enrich.mk3D [] [] [] [])
              2 0 0 0 0) as [T2 T3].
  repeat (split; [assumption|]). split.
  - exact (proj1 (T2 H2 I2)).
  - exact (proj2 (proj2 (T3 H3 I3))).
Defined.

(** C3 at the regular mesh (the cube and the square with their nodes at
    the knots) with the field that is 1 everywhere. *)
Lemma constant_field_null_reconstruction_witness :
  LSQ.solves_homogeneous Example.lib /\
  (forall n k,
     Recon.computeNodeDeriv3D Example.lib
       [(Example.oct2, Regular.brick2, None)]
       Example.ones Example.ones n k = 0) /\
  Recon.computeElemRecon3D Example.lib 1 Example.oct2 Example.oct3
    (Regular.cube [-1; 0; 1])
    (BVec.getValues (fun _ => []) 1 (map Z.of_nat (seq 0 8)) Example.ones)
    (BVec.getValues (fun _ => []) 3 (map Z.of_nat (seq 0 8))
       (Recon.computeNodeDeriv3D Example.lib
          [(Example.oct2, Regular.brick2, None)]
          Example.ones Example.ones)) =
  repeat 0 (1 * Enrich.getNum3dEnrich 2) /\
  (forall n k,
     Recon.computeNodeDeriv2D Example.lib
       [(Example.quad2, Regular.plate2, None)]
       Example.ones Example.ones n k = 0) /\
  Recon.computeElemRecon2D Example.lib 1 Example.quad2 Example.quad3
    (Regular.square [-1; 0; 1])
    (BVec.getValues (fun _ => []) 1 (map Z.of_nat (seq 0 4)) Example.ones)
    (BVec.getValues (fun _ => []) 3 (map Z.of_nat (seq 0 4))
       (Recon.computeNodeDeriv2D Example.lib
          [(Example.quad2, Regular.plate2, None)]
          Example.ones Example.ones)) =
  repeat 0 (1 * Enrich.getNum2dEnrich 2).
Proof.
  destruct (constant_field_null_reconstruction Example.lib
              [(Example.oct2, Regular.brick2, None)]
              [(Example.quad2, Regular.plate2, None)]
              Example.ones Example.ones (fun _ => 1)
              example_solves_homogeneous) as [T3 T2].
  assert (H3 : forall forest tacs nums,
             In (forest, tacs, nums) [(Example.oct2, Regular.brick2, None)] ->
             Aux.derivs_sum_zero3D forest /\
             Aux.constant_field tacs nums Example.ones (fun _ => 1)).
  { intros forest tacs nums [E|[]]. injection E as <- <- <-.
    split; [exact example_derivs_sum_zero3D | apply regular_constant_field]. }
  assert (H2 : forall forest tacs nums,
             In (forest, tacs, nums) [(Example.quad2, Regular.plate2, None)] ->
             Aux.derivs_sum_zero2D forest /\
             Aux.constant_field tacs nums Example.ones (fun _ => 1)).
  { intros forest tacs nums [E|[]]. injection E as <- <- <-.
    split; [exact example_derivs_sum_zero2D | apply regular_constant_field]. }
  split; [exact example_solves_homogeneous|].
  split; [exact (proj1 (T3 brick_well_formed H3))|].
  split; [exact (proj2 (T3 brick_well_formed H3) Example.oct2 Regular.brick2
                   None 0%nat Example.oct3 (Regular.cube [-1; 0; 1])
                   (or_introl eq_refl) (or_introl eq_refl))|].
  split; [exact (proj1 (T2 plate_well_formed H2))|].
  exact (proj2 (T2 plate_well_formed H2) Example.quad2 Regular.plate2
           None 0%nat Example.quad3 (Regular.square [-1; 0; 1])
           (or_introl eq_refl) (or_introl eq_refl)).
Defined.


(** C7 at the example mesh: both estimators return. *)
Lemma adjoint_error_indicators_witness :
  (3 <= 3)%nat /\
  Aux.fits_err (Example.assembler 4) (Example.assembler 9) (3 * 3) /\
  Aux.fits_err (Example.assembler 8) (Example.assembler 27) (3 * 3 * 3) /\
  (exists r,
     ErrorEst.TMR_AdjointErrorEst2D 3
       [(Example.quad3, Example.assembler 4, Example.assembler 9)]
       Example.ones Example.ones = Some r /\
     ErrorEst.adj_total_error r =
     MPI_Allreduce_SUM
       (map (fun p => Rsum (Aux.indicators2D
                              (Aux.nodal_error2D
                                 [(Example.quad3, Example.assembler 4, Example.assembler 9)]
                                 Example.ones Example.ones) p))
            [(Example.quad3, Example.assembler 4, Example.assembler 9)])) /\
  (exists r,
     ErrorEst.TMR_AdjointErrorEst3D
       [(Example.oct3, Example.assembler 8, Example.assembler 27)]
       Example.ones Example.ones = Some r /\
     ErrorEst.adj_total_error r =
     MPI_Allreduce_SUM
       (map (fun p => Rsum (Aux.indicators3D
                              (Aux.nodal_error3D
                                 [(Example.oct3, Example.assembler 8, Example.assembler 27)]
                                 Example.ones Example.ones) p))
            [(Example.oct3, Example.assembler 8, Example.assembler 27)])).
Proof.
  destruct (adjoint_error_indicators 3
              [(Example.quad3, Example.assembler 4, Example.assembler 9)]
              [(Example.oct3, Example.assembler 8, Example.assembler 27)]
              Example.ones Example.ones) as [T2 T3].
  split; [exact (Nat.le_refl 3)|].
  split; [exact (example_fits_err 4 9)|].
  split; [exact (example_fits_err 8 27)|].
  split.
  - eexists. split.
    + apply T2; [exact (Nat.le_refl 3)|].
      intros forest_refined tacs tacs_refined [E|[]]. injection E as <- <- <-.
      split; [cbn; lia | exact (example_fits_err 4 9)].
    + reflexivity.
  - eexists. split.
    + apply T3.
      intros forest_refined tacs tacs_refined [E|[]]. injection E as <- <- <-.
      exact (example_fits_err 8 27).
    + reflexivity.
Defined.

(** C6 fails on the plate with the constant field 1: the enrichment
    coefficients are zero, the code hands the zero field to
    [computeEnergies] and sets the indicator and the total to 0, while the
    reconstructed field is 1 at the nine refined knots and the claim's
    indicator is 9/2. *)
Lemma strain_energy_reconstruction_counterexample :
  ErrorEst.TMR_StrainEnergyErrorEst2D Example.lib [Regular.plate_proc] Example.ones =
    Some ([[0]], 0) /\
  EnergySpec.claimed_result Example.lib [Regular.plate_proc] Example.ones =
    ([[9 / 2]], 9 / 2) /\
  ErrorEst.TMR_StrainEnergyErrorEst2D Example.lib [Regular.plate_proc] Example.ones <>
    Some (EnergySpec.claimed_result Example.lib [Regular.plate_proc] Example.ones).
Proof.
  assert (Ecode : ErrorEst.TMR_StrainEnergyErrorEst2D Example.lib [Regular.plate_proc]
                    Example.ones = Some ([[0]], 0)).
  { unfold ErrorEst.TMR_StrainEnergyErrorEst2D. cbv zeta.
    fold (Aux.energy_uderiv2D Example.lib [Regular.plate_proc] Example.ones).
    unfold Mem.for_. cbn [fold_left Mem.bind Regular.plate_proc].
    rewrite StrainEnergy2D_local_spec. fold Regular.plate_proc.
    cbn [Mem.bind app map fst snd elems Regular.assembler Regular.plate2 Regular.plate3 length seq].
    rewrite plate_code_indicator.
    unfold MPI_Allreduce_SUM. cbn [Rsum fold_right map].
    replace (0 + 0 + 0) with 0 by ring. reflexivity. }
  assert (Eclaim : EnergySpec.claimed_result Example.lib [Regular.plate_proc] Example.ones =
                   ([[9 / 2]], 9 / 2)).
  { unfold EnergySpec.claimed_result. cbv zeta.
    cbn [map Regular.plate_proc fst snd elems Regular.assembler Regular.plate2 Regular.plate3 length seq].
    fold Regular.plate_proc. rewrite plate_claimed_indicator.
    unfold MPI_Allreduce_SUM. cbn [Rsum fold_right map].
    replace (9 / 2 + 0 + 0) with (9 / 2) by ring. reflexivity. }
  split; [exact Ecode|]. split; [exact Eclaim|].
  rewrite Ecode, Eclaim. intros E. injection E as E1 E2. lra.
Qed.

(** ** Sensitivities and bounds of the curvature descriptor *)

Lemma kmax_kdiff_spec (g H : list R) :
  fst (Curvature.kmax_kdiff g H) = Rmax (Curvature.k1 g H) (Curvature.k2 g H) /\
  snd (Curvature.kmax_kdiff g H) =
    Rmin (Curvature.k1 g H) (Curvature.k2 g H) -
    Rmax (Curvature.k1 g H) (Curvature.k2 g H).
Proof.
  unfold Curvature.kmax_kdiff, Rmax, Rmin.
  destruct (Rgt_dec (Curvature.k1 g H) (Curvature.k2 g H)) as [Hgt|Hle];
    destruct (Rle_dec (Curvature.k1 g H) (Curvature.k2 g H)); cbn [fst snd];
    split; lra.
Qed.

Lemma factor_range (val : R) :
  0 <= val <= 1 -> 0 <= Curvature.factor val <= 1.
Proof.
  intros Hv. rewrite factor_poly.
  assert (Hp : 0 <= val * (1 - val)) by (apply Rmult_le_pos; lra).
  pose proof (Rle_0_sqr (val - 1 / 2)) as Hs. unfold Rsqr in Hs.
  assert (Hu : 0 <= (val - 1 / 2) * (val - 1 / 2) <= 1 / 4) by (split; lra).
  replace ((val - 1 / 2) ^ 4)
    with (((val - 1 / 2) * (val - 1 / 2)) * ((val - 1 / 2) * (val - 1 / 2))) by ring.
  nra.
Qed.

(** X1.  The value is a smooth maximum of the two absolute principal
    curvatures: it lies between [factor * max(k1, k2)] and that plus
    [factor * log 2 / aggregate_weight]; the factor lies in [0, 1] and
    vanishes at [val = 0] and [val = 1]. *)
Theorem evalCurvature_smooth_max_bounds (k val : R) (g H : list R) :
  0 < k -> 0 <= val <= 1 ->
  let kmax := Rmax (Curvature.k1 g H) (Curvature.k2 g H) in
  Curvature.factor val * kmax <= Curvature.evalCurvature k g H val /\
  Curvature.evalCurvature k g H val <= Curvature.factor val * (kmax + ln 2 / k) /\
  0 <= Curvature.evalCurvature k g H val /\
  Curvature.evalCurvature k g H 0 = 0 /\
  Curvature.evalCurvature k g H 1 = 0.
Proof.
  intros Hk Hv kmax.
  destruct (kmax_kdiff_spec g H) as [Emax Ediff].
  unfold Curvature.evalCurvature. rewrite Emax, Ediff. fold kmax.
  set (d := Rmin (Curvature.k1 g H) (Curvature.k2 g H) - kmax).
  assert (Hd : d <= 0).
  { unfold d, kmax, Rmin, Rmax.
    destruct (Rle_dec (Curvature.k1 g H) (Curvature.k2 g H)); lra. }
  assert (Hmax : 0 <= kmax).
  { unfold kmax. eapply Rle_trans; [|apply Rmax_l].
    unfold Curvature.k1. apply Rabs_pos. }
  pose proof (factor_range val Hv) as Hf.
  assert (He : 0 < exp (k * d) <= 1).
  { split; [apply exp_pos|].
    rewrite <- exp_0.
    destruct (Req_dec (k * d) 0) as [->|Hne]; [lra|].
    left. apply exp_increasing. nra. }
  assert (Hl : 0 <= ln (1 + exp (k * d)) <= ln 2).
  { split.
    - rewrite <- ln_1. left. apply ln_increasing; lra.
    - destruct (Req_dec (exp (k * d)) 1) as [->|Hne].
      + replace (1 + 1) with 2 by ring. lra.
      + left. apply ln_increasing; lra. }
  assert (Hq : 0 <= ln (1 + exp (k * d)) / k <= ln 2 / k).
  { assert (0 < / k) by (now apply Rinv_0_lt_compat).
    unfold Rdiv. split; nra. }
  assert (F0 : Curvature.factor 0 = 0) by (rewrite factor_poly; lra).
  assert (F1 : Curvature.factor 1 = 0) by (rewrite factor_poly; lra).
  rewrite F0, F1.
  repeat split; try nra.
Qed.

(** X2.  [evalCurvDeriv] returns the value of [evalCurvature], and [*dval] is the
    derivative of that value with respect to [val]. *)
Theorem evalCurvDeriv_dval (k val : R) (g H : list R) :
  CurvDeriv.cd_result (CurvDeriv.evalCurvDeriv k val g H) =
    Curvature.evalCurvature k g H val /\
  derivable_pt_lim (fun v => Curvature.evalCurvature k g H v) val
    (CurvDeriv.cd_dval (CurvDeriv.evalCurvDeriv k val g H)).
Proof.
  split; [reflexivity|].
  unfold CurvDeriv.evalCurvDeriv, CurvDeriv.dfactor, CurvDeriv.ksres,
    CurvDeriv.expdiff, Curvature.evalCurvature, Curvature.factor.
  cbv zeta. cbn [CurvDeriv.cd_dval].
  set (C := fst (Curvature.kmax_kdiff g H) +
            ln (1 + exp (k * snd (Curvature.kmax_kdiff g H))) / k).
  eapply derivable_pt_lim_eq; [derive_poly | ring].
Qed.

Lemma rd_map_scal (c : R) (l : list R) (i : nat) :
  rd (map (Rmult c) l) i = c * rd l i.
Proof.
  unfold rd. replace 0 with (c * 0) at 1 by ring. apply map_nth.
Qed.

(** X3.  Multiplying the gradient and the Hessian by the same positive number
    (the same level sets) changes neither curvature nor the value. *)
Theorem evalCurvature_scale_invariant (k val c : R) (g H : list R) :
  0 < c ->
  Curvature.KG (map (Rmult c) g) (map (Rmult c) H) = Curvature.KG g H /\
  Curvature.KM (map (Rmult c) g) (map (Rmult c) H) = Curvature.KM g H /\
  Curvature.evalCurvature k (map (Rmult c) g) (map (Rmult c) H) val =
  Curvature.evalCurvature k g H val.
Proof.
  intros Hc.
  assert (Egn : Curvature.gn (map (Rmult c) g) = c * c * Curvature.gn g)
    by (unfold Curvature.gn; rewrite !rd_map_scal; ring).
  assert (Esq : Curvature.sqrtgn (map (Rmult c) g) = c * Curvature.sqrtgn g).
  { unfold Curvature.sqrtgn. rewrite Egn, sqrt_mult_alt by nra.
    rewrite sqrt_square by lra. reflexivity. }
  assert (Ef : Curvature.Hfact (map (Rmult c) g) (map (Rmult c) H) =
               c * c * c * c * Curvature.Hfact g H).
  { unfold Curvature.Hfact, Curvature.Hf. cbn [rd nth].
    fold (rd (map (Rmult c) g) 0) (rd (map (Rmult c) g) 1) (rd (map (Rmult c) g) 2).
    fold (rd g 0) (rd g 1) (rd g 2).
    repeat match goal with
           | |- context [nth ?i (map (Rmult c) H) 0] =>
               change (nth i (map (Rmult c) H) 0) with (rd (map (Rmult c) H) i)
           end.
    rewrite !rd_map_scal. unfold rd. ring. }
  assert (Ep : Curvature.Hprod (map (Rmult c) g) (map (Rmult c) H) =
               c * c * c * Curvature.Hprod g H)
    by (unfold Curvature.Hprod; rewrite !rd_map_scal; ring).
  assert (EG : Curvature.KG (map (Rmult c) g) (map (Rmult c) H) = Curvature.KG g H).
  { unfold Curvature.KG. rewrite Egn, Ef.
    destruct (Req_dec_T (Curvature.gn g) 0) as [E0|Hn];
      destruct (Req_dec_T (c * c * Curvature.gn g) 0) as [E1|Hn1]; try reflexivity.
    - rewrite E0 in Hn1. exfalso. apply Hn1. ring.
    - exfalso. apply Hn. assert (0 < c * c) by nra.
      apply Rmult_integral in E1. destruct E1; lra.
    - field. split; lra. }
  assert (EM : Curvature.KM (map (Rmult c) g) (map (Rmult c) H) = Curvature.KM g H).
  { unfold Curvature.KM. rewrite Egn, Esq, Ep, !rd_map_scal.
    destruct (Req_dec_T (Curvature.gn g) 0) as [E0|Hn];
      destruct (Req_dec_T (c * c * Curvature.gn g) 0) as [E1|Hn1]; try reflexivity.
    - rewrite E0 in Hn1. exfalso. apply Hn1. ring.
    - exfalso. apply Hn. assert (0 < c * c) by nra.
      apply Rmult_integral in E1. destruct E1; lra.
    - destruct (curvature_divisors_nonzero g Hn) as [_ Hd].
      assert (Curvature.sqrtgn g <> 0) by (intros E; apply Hd; rewrite E; ring).
      replace 0.5 with (/ 2) by lra. field. repeat split; lra. }
  split; [exact EG|]. split; [exact EM|].
  unfold Curvature.evalCurvature, Curvature.kmax_kdiff, Curvature.k1, Curvature.k2,
    Curvature.sqrtk.
  rewrite EG, EM. reflexivity.
Qed.

(** ** The tri-quadratic fit *)

Lemma perturb_away_from_zero (x : R) : 1e-6 <= Rabs (Poly.perturb x).
Proof.
  unfold Poly.perturb, Rabs.
  destruct (Rlt_dec x 0); destruct (Rcase_abs _); lra.
Qed.

(** X4.  The gradient that [estimateHessian] returns is never zero: each
    component is at least 1e-6 in absolute value, so the curvature
    evaluation that follows never takes its zero-gradient branch and its
    two curvatures are the quotients of the formulas. *)
Theorem estimateHessian_gradient_nonzero
    (lib : Lib) (elem_Xpts elem_vals elem_derivs : list R) :
  let g := snd (fst (Poly.estimateHessian lib elem_Xpts elem_vals elem_derivs)) in
  let H := snd (Poly.estimateHessian lib elem_Xpts elem_vals elem_derivs) in
  length g = 3%nat /\ length H = 6%nat /\
  (forall i, (i < 3)%nat -> 1e-6 <= Rabs (rd g i)) /\
  3e-12 <= Curvature.gn g /\
  Curvature.KG g H = Curvature.Hfact g H / (Curvature.gn g * Curvature.gn g) /\
  Curvature.KM g H =
    0.5 * (Curvature.Hprod g H - Curvature.gn g * (rd H 0 + rd H 3 + rd H 5)) /
    (Curvature.gn g * Curvature.sqrtgn g).
Proof.
  intros g H.
  assert (Hi : forall i, (i < 3)%nat -> 1e-6 <= Rabs (rd g i)).
  { intros i Hi. unfold g, Poly.estimateHessian. cbv zeta. cbn [fst snd].
    destruct i as [|[|[|i]]]; [| | |lia]; cbn [rd nth]; apply perturb_away_from_zero. }
  assert (Hsq : forall x, 1e-6 <= Rabs x -> 1e-12 <= x * x).
  { intros x Hx. unfold Rabs in Hx. destruct (Rcase_abs x); nra. }
  assert (Hg : 3e-12 <= Curvature.gn g).
  { unfold Curvature.gn.
    pose proof (Hsq _ (Hi 0%nat ltac:(lia))).
    pose proof (Hsq _ (Hi 1%nat ltac:(lia))).
    pose proof (Hsq _ (Hi 2%nat ltac:(lia))). lra. }
  split; [reflexivity|]. split; [reflexivity|].
  split; [exact Hi|]. split; [exact Hg|].
  unfold Curvature.KG, Curvature.KM.
  destruct (Req_dec_T (Curvature.gn g) 0) as [E|_]; [lra|].
  split; reflexivity.
Qed.

(** X5.  The arrays [Nx], [Ny], [Nz] of [evalPoly] are the partial derivatives
    of the entries of [N] (what [testPoly] compares with a difference
    quotient). *)
Theorem evalPoly_derivatives (x y z : R) (i : nat) :
  (i < 20)%nat ->
  derivable_pt_lim (fun t => rd (Poly.pN (Poly.evalPoly [t; y; z])) i) x
    (rd (Poly.pNx (Poly.evalPoly [x; y; z])) i) /\
  derivable_pt_lim (fun t => rd (Poly.pN (Poly.evalPoly [x; t; z])) i) y
    (rd (Poly.pNy (Poly.evalPoly [x; y; z])) i) /\
  derivable_pt_lim (fun t => rd (Poly.pN (Poly.evalPoly [x; y; t])) i) z
    (rd (Poly.pNz (Poly.evalPoly [x; y; z])) i).
Proof.
  intros Hi. unfold Poly.evalPoly. cbv zeta. cbn [Poly.pN Poly.pNx Poly.pNy Poly.pNz].
  do 20 (destruct i as [|i];
         [repeat split; cbv [rd nth];
          (eapply derivable_pt_lim_eq;
           [derive_poly
           |try replace 0.0 with 0 by lra; try replace 1.0 with 1 by lra; ring])
         |try lia]).
Qed.

Lemma evalCurvature_smooth_max_bounds_witness :
  0 < 1 /\ 0 <= 1 / 2 <= 1 /\
  Curvature.evalCurvature 1 [1; 0; 0] [0; 0; 0; 1; 0; 3] (1 / 2) <=
  Curvature.factor (1 / 2) *
  (Rmax (Curvature.k1 [1; 0; 0] [0; 0; 0; 1; 0; 3])
        (Curvature.k2 [1; 0; 0] [0; 0; 0; 1; 0; 3]) + ln 2 / 1).
Proof.
  assert (Hk : 0 < 1) by lra.
  assert (Hv : 0 <= 1 / 2 <= 1) by lra.
  split; [exact Hk|]. split; [exact Hv|].
  pose proof (evalCurvature_smooth_max_bounds 1 (1 / 2) [1; 0; 0] [0; 0; 0; 1; 0; 3]
                Hk Hv) as T.
  cbv zeta in T. exact (proj1 (proj2 T)).
Defined.

Lemma evalCurvature_scale_invariant_witness :
  0 < 2 /\
  Curvature.evalCurvature 1 (map (Rmult 2) [1; 0; 0])
    (map (Rmult 2) [0; 0; 0; 1; 0; 3]) (1 / 2) =
  Curvature.evalCurvature 1 [1; 0; 0] [0; 0; 0; 1; 0; 3] (1 / 2).
Proof.
  assert (Hc : 0 < 2) by lra.
  split; [exact Hc|].
  exact (proj2 (proj2 (evalCurvature_scale_invariant 1 (1 / 2) 2
                         [1; 0; 0] [0; 0; 0; 1; 0; 3] Hc))).
Defined.

Lemma evalPoly_derivatives_witness :
  (13 < 20)%nat /\
  derivable_pt_lim (fun t => rd (Poly.pN (Poly.evalPoly [t; 2; 3])) 13) 1
    (rd (Poly.pNx (Poly.evalPoly [1; 2; 3])) 13).
Proof.
  assert (Hi : (13 < 20)%nat) by lia.
  split; [exact Hi|].
  exact (proj1 (evalPoly_derivatives 1 2 3 13 Hi)).
Defined.

(** ** Bounds of the KS aggregate *)

Lemma Rsum_map_le {A} (f h : A -> R) (l : list A) :
  (forall a, In a l -> f a <= h a) -> Rsum (map f l) <= Rsum (map h l).
Proof.
  induction l as [|a l IH]; intros Hl; cbn; [lra|].
  pose proof (Hl a (or_introl eq_refl)).
  pose proof (IH (fun b Hb => Hl b (or_intror Hb))).
  unfold Rsum in *. lra.
Qed.

Lemma Rsum_ge_elem {A} (f : A -> R) (l : list A) (a : A) :
  (forall b, In b l -> 0 <= f b) -> In a l -> f a <= Rsum (map f l).
Proof.
  induction l as [|b l IH]; intros Hl Ha; [contradiction|].
  cbn. pose proof (Hl b (or_introl eq_refl)).
  pose proof (Rsum_nonneg f l (fun c Hc => Hl c (or_intror Hc))) as Hn.
  unfold Rsum in *.
  destruct Ha as [->|Ha]; [lra|].
  pose proof (IH (fun c Hc => Hl c (or_intror Hc)) Ha). lra.
Qed.

Lemma ks_max_fail_upper lib ks_weight procs uvec s :
  In s (KS.samples lib procs uvec) ->
  KS.s_fval s <= KS.ks_max_fail (KS.evalConstraint lib ks_weight procs uvec).
Proof.
  intros Hs.
  assert (Hp : procs <> []) by (intros ->; exact Hs).
  rewrite ks_max_fail_samples by assumption.
  apply foldmax_upper. now apply in_map.
Qed.

(** X6.  Subtracting [ks_max_fail] keeps every exponential of the second sweep
    in (0, 1].  With positive [detJ * weights] the sum lies between the
    weight of a Gauss point where the maximum is attained and the sum of
    all the weights, so the value lies between [ks_max_fail + log(w_m)/k]
    and [ks_max_fail + log(sum of weights)/k]. *)
Theorem ks_value_bounds
    (lib : Lib) (ks_weight : R) (procs : list KS.proc) (uvec : BVec.t) :
  0 < ks_weight ->
  (exists s, In s (KS.samples lib procs uvec) /\ -1e20 <= KS.s_fval s) ->
  (forall s, In s (KS.samples lib procs uvec) -> 0 < KS.s_detJ s * KS.s_weight s) ->
  let r := KS.evalConstraint lib ks_weight procs uvec in
  let sweep := KS.samples lib procs uvec in
  let volume := Rsum (map (fun s => KS.s_detJ s * KS.s_weight s) sweep) in
  (forall s, In s sweep ->
     0 < exp (ks_weight * (KS.s_fval s - KS.ks_max_fail r)) <= 1) /\
  (exists m, In m sweep /\ KS.s_fval m = KS.ks_max_fail r /\
     KS.s_detJ m * KS.s_weight m <= KS.ks_fail_sum r /\
     KS.ks_max_fail r + ln (KS.s_detJ m * KS.s_weight m) / ks_weight <=
     KS.ks_func_val r) /\
  KS.ks_fail_sum r <= volume /\
  KS.ks_func_val r <= KS.ks_max_fail r + ln volume / ks_weight.
Proof.
  intros Hk (s0 & Hs0 & Hf0) Hpos r sweep volume.
  assert (Hp : procs <> []) by (intros ->; exact Hs0).
  assert (Hexp : forall s, In s sweep ->
            0 < exp (ks_weight * (KS.s_fval s - KS.ks_max_fail r)) <= 1).
  { intros s Hs. split; [apply exp_pos|].
    pose proof (ks_max_fail_upper lib ks_weight procs uvec s Hs) as Hu. fold r in Hu.
    rewrite <- exp_0.
    destruct (Req_dec (ks_weight * (KS.s_fval s - KS.ks_max_fail r)) 0) as [->|Hne];
      [lra|].
    left. apply exp_increasing. nra. }
  assert (Esum : KS.ks_fail_sum r =
                 Rsum (map (KS.ks_term ks_weight (KS.ks_max_fail r)) sweep))
    by apply ks_fail_sum_samples.
  assert (Hterm : forall s, In s sweep ->
            0 < KS.ks_term ks_weight (KS.ks_max_fail r) s <=
            KS.s_detJ s * KS.s_weight s).
  { intros s Hs. unfold KS.ks_term.
    pose proof (Hpos s Hs). pose proof (Hexp s Hs). split; nra. }
  assert (Hmax : exists m, In m sweep /\ KS.s_fval m = KS.ks_max_fail r).
  { unfold r at 1. rewrite ks_max_fail_samples by assumption. fold sweep.
    destruct (foldmax_attained (map KS.s_fval sweep) (-1e20)) as [E|H].
    - pose proof (foldmax_upper (map KS.s_fval sweep) (-1e20) (KS.s_fval s0)
                    (in_map KS.s_fval _ _ Hs0)) as Hu.
      exists s0. split; [exact Hs0|]. rewrite E in *. lra.
    - apply in_map_iff in H as (m & Em & Hm). exists m. split; [exact Hm | exact Em]. }
  destruct Hmax as (m & Hm & Em).
  assert (Hlow : KS.s_detJ m * KS.s_weight m <= KS.ks_fail_sum r).
  { rewrite Esum.
    replace (KS.s_detJ m * KS.s_weight m)
      with (KS.ks_term ks_weight (KS.ks_max_fail r) m).
    - apply Rsum_ge_elem; [|exact Hm]. intros b Hb. left. apply (Hterm b Hb).
    - unfold KS.ks_term. rewrite Em.
      replace (ks_weight * (KS.ks_max_fail r - KS.ks_max_fail r)) with 0 by ring.
      rewrite exp_0. ring. }
  assert (Hup : KS.ks_fail_sum r <= volume).
  { rewrite Esum. apply Rsum_map_le. intros s Hs. apply (Hterm s Hs). }
  assert (Hval : KS.ks_func_val r =
                 KS.ks_max_fail r + ln (KS.ks_fail_sum r) / ks_weight) by reflexivity.
  assert (Hln : forall a b, 0 < a -> a <= b -> ln a / ks_weight <= ln b / ks_weight).
  { intros a b Ha Hab.
    assert (ln a <= ln b).
    { destruct (Req_dec a b) as [->|Hne]; [lra|]. left. apply ln_increasing; lra. }
    assert (0 < / ks_weight) by (now apply Rinv_0_lt_compat).
    unfold Rdiv. nra. }
  pose proof (Hpos m Hm) as Hpm.
  split; [exact Hexp|]. split.
  - exists m. split; [exact Hm|]. split; [exact Em|]. split; [exact Hlow|].
    rewrite Hval. pose proof (Hln _ _ Hpm Hlow). lra.
  - split; [exact Hup|]. rewrite Hval.
    pose proof (Hln (KS.ks_fail_sum r) volume ltac:(lra) Hup). lra.
Qed.

(** ** The weights count the references to a node *)

Lemma map_nth_seq {A} (d : A) (l : list A) :
  map (fun j => nth j l d) (seq 0 (length l)) = l.
Proof.
  induction l as [|a l IH]; [reflexivity|].
  cbn [length seq map nth]. f_equal.
  rewrite (map_seq_shift (fun j => nth j (a :: l) d) 1). exact IH.
Qed.

Lemma Rsum_count_occ (n : Z) (l : list Z) :
  Rsum (map (fun m => if Z.eqb m n then 1 else 0) l) =
  INR (count_occ Z.eq_dec l n).
Proof.
  induction l as [|m l IH]; [reflexivity|].
  cbn [map Rsum fold_right count_occ]. fold (Rsum (map (fun m => if Z.eqb m n then 1 else 0) l)).
  rewrite IH.
  destruct (Z.eq_dec m n) as [->|Hne].
  - rewrite Z.eqb_refl, S_INR. ring.
  - destruct (Z.eqb_spec m n); [contradiction|]. ring.
Qed.

Lemma INR_count_occ_flat_map {A} (f : A -> list Z) (l : list A) (n : Z) :
  INR (count_occ Z.eq_dec (flat_map f l) n) =
  Rsum (map (fun a => INR (count_occ Z.eq_dec (f a) n)) l).
Proof.
  induction l as [|a l IH]; [reflexivity|].
  cbn [flat_map map]. rewrite count_occ_app, plus_INR, IH. reflexivity.
Qed.

Lemma computeLocalWeights_local_count tacs nums n :
  (0 <= n)%Z ->
  Recon.computeLocalWeights_local tacs nums n 0%nat =
  Rsum (map (fun elem =>
               INR (count_occ Z.eq_dec (el_nodes (getElement tacs elem)) n))
            (elem_loop tacs nums)).
Proof.
  intros Hn. unfold Recon.computeLocalWeights_local.
  rewrite (fold_left_additive
             (fun weights elem =>
                BVec.setValues_ADD (depNodes tacs) 1 (el_nodes (getElement tacs elem))
                  (map (fun n => if (n <? 0)%Z then 0 else 1)
                       (el_nodes (getElement tacs elem))) weights)
             (fun elem n' k' =>
                Rsum (map (fun j =>
                  Rsum (map (fun k =>
                    Aux.contrib (depNodes tacs)
                      (nth j (el_nodes (getElement tacs elem)) 0%Z) k
                      (rd (map (fun n => if (n <? 0)%Z then 0 else 1)
                               (el_nodes (getElement tacs elem))) (1 * j + k)) n' k')
                    (seq 0 1)))
                  (seq 0 (length (el_nodes (getElement tacs elem)))))))
    by (intros; apply setValues_ADD_spec).
  unfold BVec.zeroEntries. rewrite Rplus_0_l.
  apply Rsum_map_ext_in. intros elem _.
  set (nodes := el_nodes (getElement tacs elem)).
  assert (Hw : forall j, (j < length nodes)%nat ->
             rd (map (fun n => if (n <? 0)%Z then 0 else 1) nodes) (1 * j + 0) =
             if (nth j nodes 0 <? 0)%Z then 0 else 1).
  { intros j Hj. unfold rd. rewrite Nat.mul_1_l, Nat.add_0_r.
    rewrite (nth_indep _ 0 ((fun n => if (n <? 0)%Z then 0 else 1) 0%Z))
      by (now rewrite length_map).
    now rewrite (map_nth (fun n => if (n <? 0)%Z then 0 else 1)). }
  rewrite setValues_slots; [|assumption|lia|].
  - rewrite <- Rsum_count_occ.
    transitivity (Rsum (map (fun m => if Z.eqb m n then 1 else 0)
                            (map (fun j => nth j nodes 0%Z) (seq 0 (length nodes)))));
      [|now rewrite map_nth_seq].
    rewrite Rsum_map_map.
    apply Rsum_map_ext_in. intros j Hj. apply in_seq in Hj.
    rewrite Hw by lia.
    destruct (Z.eqb_spec (nth j nodes 0%Z) n) as [E|_]; [|reflexivity].
    rewrite E. destruct (Z.ltb_spec n 0); [lia | reflexivity].
  - intros j c' Hj Hc' Hneg. assert (c' = 0%nat) as -> by lia.
    rewrite Hw by assumption.
    destruct (Z.ltb_spec (nth j nodes 0%Z) 0%Z); [reflexivity | lia].
Qed.

(** X7.  After [computeLocalWeights], the weight of an independent node is the
    number of element slots that hold it, over the visited elements of all
    the processes; it is positive exactly when some visited element
    references the node. *)
Theorem computeLocalWeights_counts_references
    (procs : list (TACSAssembler * option (list nat))) (n : Z) :
  (0 <= n)%Z ->
  let refs :=
    flat_map (fun p : TACSAssembler * option (list nat) =>
                flat_map (fun elem => el_nodes (getElement (fst p) elem))
                         (elem_loop (fst p) (snd p))) procs in
  Recon.computeLocalWeights procs n 0%nat = INR (count_occ Z.eq_dec refs n) /\
  (0 < Recon.computeLocalWeights procs n 0%nat <-> In n refs).
Proof.
  intros Hn refs.
  assert (E : Recon.computeLocalWeights procs n 0%nat = INR (count_occ Z.eq_dec refs n)).
  { unfold Recon.computeLocalWeights, BVec.finalize_distribute, refs.
    rewrite Rsum_map_map, INR_count_occ_flat_map.
    apply Rsum_map_ext_in. intros [tacs nums] _. cbn [fst snd].
    rewrite computeLocalWeights_local_count by assumption.
    symmetry. apply INR_count_occ_flat_map. }
  split; [exact E|]. rewrite E.
  rewrite (count_occ_In Z.eq_dec). split.
  - intros H. apply INR_lt. exact H.
  - intros H. apply (lt_INR 0). exact H.
Qed.

(** ** Curves: the finite-difference derivative and the arc-length table *)

Lemma Rleb_true (x y : R) : x <= y -> Curve.Rleb x y = true.
Proof. intros H. unfold Curve.Rleb. destruct (Rle_dec x y); [reflexivity | contradiction]. Qed.

Lemma Rleb_false (x y : R) : y < x -> Curve.Rleb x y = false.
Proof. intros H. unfold Curve.Rleb. destruct (Rle_dec x y); [lra | reflexivity]. Qed.

(** X8.  Outside the range of the curve [evalDeriv] fails with 1 and leaves
    [*Xt] alone.  At a parameter of the range from which neither a forward
    nor a backward step stays in the range, with the curve evaluation
    succeeding, it reports success and still leaves [*Xt] alone. *)
Theorem evalDeriv_edge_cases (h : R) (c : Curve.TMRCurve) (t : R) (Xt : TMRPoint) :
  let tmin := fst (Curve.getRange c) in
  let tmax := snd (Curve.getRange c) in
  (t < tmin \/ tmax < t -> Curve.evalDeriv h c t Xt = (1%Z, Xt)) /\
  (tmin <= t <= tmax -> tmax < t + h -> t < tmin + h ->
   fst (Curve.evalPoint c t) = 0%Z ->
   Curve.evalDeriv h c t Xt = (0%Z, Xt)).
Proof.
  intros tmin tmax. unfold Curve.evalDeriv.
  destruct (Curve.getRange c) as [a b] eqn:E. cbn [fst snd] in tmin, tmax.
  subst tmin tmax. split.
  - intros [H|H].
    + now rewrite (Rleb_false a t H).
    + rewrite (Rleb_false t b H). now rewrite andb_false_r.
  - intros [H1 H2] Hh Hh' Hf.
    rewrite (Rleb_true a t H1), (Rleb_true t b H2). cbn [andb].
    destruct (Curve.evalPoint c t) as [fail p]. cbn [fst] in Hf. subst fail.
    cbn [Z.eqb negb].
    rewrite (Rleb_false (t + h) b) by lra.
    rewrite (Rleb_false (a + h) t) by lra. reflexivity.
Qed.

(** X9.  On a curve that is affine in its parameter, [evalDeriv] with a
    positive step that fits twice in the range returns the exact derivative at
    every parameter of the range. *)
Theorem evalDeriv_affine_exact (h tmin tmax : R) (a b : TMRPoint) (t : R) (Xt : TMRPoint) :
  0 < h -> 2 * h <= tmax - tmin -> tmin <= t <= tmax ->
  let c := {| Curve.getRange := (tmin, tmax);
              Curve.evalPoint := fun s =>
                (0%Z, {| px := px a + s * px b;
                         py := py a + s * py b;
                         pz := pz a + s * pz b |}) |} in
  Curve.evalDeriv h c t Xt = (0%Z, {| px := px b; py := py b; pz := pz b |}).
Proof.
  intros Hh Hr [H1 H2] c. unfold Curve.evalDeriv, c.
  cbn [Curve.getRange Curve.evalPoint].
  rewrite (Rleb_true tmin t H1), (Rleb_true t tmax H2). cbn [andb Z.eqb negb px py pz].
  destruct (Rle_dec (t + h) tmax) as [Hf|Hf].
  - rewrite (Rleb_true _ _ Hf). f_equal. f_equal; field; lra.
  - apply Rnot_le_lt in Hf. rewrite (Rleb_false (t + h) tmax Hf).
    rewrite (Rleb_true (tmin + h) t) by lra. f_equal. f_equal; field; lra.
Qed.

Lemma last_cons_default {A} (a b : A) (l : list A) : last (b :: l) a = last l b.
Proof.
  revert a b; induction l as [|c l IH]; intros a b; [reflexivity|].
  change (last (b :: c :: l) a) with (last (c :: l) a).
  now rewrite (IH a c), (IH b c).
Qed.

Lemma last_app_default {A} (a : A) (l1 l2 : list A) :
  last (l1 ++ l2) a = last l2 (last l1 a).
Proof.
  revert a; induction l1 as [|b l1 IH]; intros a; [reflexivity|].
  rewrite <- app_comm_cons, !last_cons_default. apply IH.
Qed.

Lemma last_map_default {A B} (f : A -> B) (a : A) (l : list A) :
  last (map f l) (f a) = f (last l a).
Proof.
  revert a; induction l as [|b l IH]; intros a; [reflexivity|].
  cbn [map]. rewrite !last_cons_default. apply IH.
Qed.

Lemma Sorted_app_last {A} (Rel : A -> A -> Prop) (a : A) (l1 l2 : list A) :
  Sorted Rel (a :: l1) -> Sorted Rel (last l1 a :: l2) -> Sorted Rel (a :: l1 ++ l2).
Proof.
  revert a; induction l1 as [|b l1 IH]; intros a H1 H2; [exact H2|].
  rewrite last_cons_default in H2.
  apply Sorted_inv in H1 as [Hs Hh]. apply HdRel_inv in Hh.
  rewrite <- app_comm_cons. constructor; [now apply IH | now constructor].
Qed.

Lemma Sorted_le_last (a : R) (l : list R) :
  Sorted Rle (a :: l) -> a <= last l a.
Proof.
  revert a; induction l as [|b l IH]; intros a H; [cbn; lra|].
  apply Sorted_inv in H as [Hs Hh]. apply HdRel_inv in Hh.
  rewrite last_cons_default. pose proof (IH b Hs). lra.
Qed.

Lemma pointDist_nonneg (a b : TMRPoint) : 0 <= Curve.pointDist a b.
Proof. apply sqrt_pos. Qed.

Lemma pow2_split (n : nat) : (2 ^ (Datatypes.S n) = 2 ^ n + 2 ^ n)%nat.
Proof. rewrite Nat.pow_succ_r'. lia. Qed.

Lemma pow2_pos (n : nat) : (1 <= 2 ^ n)%nat.
Proof. pose proof (Nat.pow_nonzero 2 n). lia. Qed.

Lemma integrateEdge_spec (edge : Curve.TMRCurve) (tol : R) (fuel : nat) :
  forall ncalls t1 p1 t2 pts,
    (ncalls <= 21)%nat -> (22 <= ncalls + fuel)%nat ->
    exists new,
      Curve.integrateEdge fuel edge t1 p1 t2 tol ncalls pts = Some (pts ++ new) /\
      (exists L, length new = (2 * L)%nat /\
                 (2 ^ (6 - ncalls) <= L <= 2 ^ (21 - ncalls))%nat) /\
      last (map Curve.ip_t new) t1 = t2 /\
      (t1 <= t2 ->
       Sorted Rle (t1 :: map Curve.ip_t new) /\
       Sorted Rle (Curve.ip_dist (Curve.tail_pt pts) :: map Curve.ip_dist new)) /\
      (t1 < t2 -> Sorted Rlt (t1 :: map Curve.ip_t new)).
Proof.
  induction fuel as [|fuel IH]; intros ncalls t1 p1 t2 pts Hn Hf; [lia|].
  cbn [Curve.integrateEdge].
  set (tmid := 0.5 * (t1 + t2)).
  set (pmid := snd (Curve.evalPoint edge tmid)).
  set (p2 := snd (Curve.evalPoint edge t2)).
  set (int1 := (tmid - t1) * Curve.pointDist p1 pmid).
  set (int2 := (t2 - tmid) * Curve.pointDist pmid p2).
  set (stop := ((5 <? ncalls)%nat && Curve.Rltb _ tol) || (20 <? ncalls)%nat).
  destruct stop eqn:Estop.
  - (* the two entries of a leaf *)
    eexists. split; [reflexivity|].
    assert (H5 : (5 < ncalls)%nat).
    { unfold stop in Estop. apply orb_true_iff in Estop as [E|E].
      - apply andb_true_iff in E as [E _]. now apply Nat.ltb_lt in E.
      - apply Nat.ltb_lt in E. lia. }
    split; [|split; [|split]].
    + exists 1%nat. split; [reflexivity|].
      replace (6 - ncalls)%nat with 0%nat by lia.
      split; [reflexivity | apply pow2_pos].
    + reflexivity.
    + intros Ht. cbn [map Curve.ip_t Curve.ip_dist].
      assert (t1 <= tmid <= t2) by (unfold tmid; lra).
      pose proof (pointDist_nonneg p1 pmid). pose proof (pointDist_nonneg pmid p2).
      assert (0 <= int1) by (unfold int1; apply Rmult_le_pos; lra).
      assert (0 <= int2) by (unfold int2; apply Rmult_le_pos; lra).
      split;
        repeat (apply Sorted_cons || apply Sorted_nil ||
                apply HdRel_cons || apply HdRel_nil); lra.
    + intros Ht. cbn [map Curve.ip_t].
      assert (t1 < tmid < t2) by (unfold tmid; lra).
      repeat constructor; lra.
  - (* the two recursive calls *)
    assert (H20 : (ncalls <= 20)%nat).
    { unfold stop in Estop. apply orb_false_iff in Estop as [_ E].
      apply Nat.ltb_ge in E. exact E. }
    destruct (IH (ncalls + 1)%nat t1 p1 tmid pts ltac:(lia) ltac:(lia))
      as (new1 & E1 & (L1 & Hl1 & Hb1) & Ht1 & Hs1 & Hst1).
    rewrite E1.
    destruct (IH (ncalls + 1)%nat tmid pmid t2 (pts ++ new1) ltac:(lia) ltac:(lia))
      as (new2 & E2 & (L2 & Hl2 & Hb2) & Ht2 & Hs2 & Hst2).
    rewrite E2. exists (new1 ++ new2).
    split; [now rewrite app_assoc|].
    split; [|split; [|split]].
    + exists (L1 + L2)%nat. split; [rewrite length_app; lia|].
      replace (21 - ncalls)%nat with (Datatypes.S (21 - (ncalls + 1))) by lia.
      rewrite pow2_split.
      destruct (Nat.le_gt_cases ncalls 5) as [H5|H5].
      * replace (6 - ncalls)%nat with (Datatypes.S (6 - (ncalls + 1))) by lia.
        rewrite pow2_split. lia.
      * replace (6 - ncalls)%nat with 0%nat by lia.
        pose proof (pow2_pos (6 - (ncalls + 1))).
        change (2 ^ 0)%nat with 1%nat. lia.
    + rewrite map_app, last_app_default, Ht1. exact Ht2.
    + intros Ht.
      assert (Hm : t1 <= tmid <= t2) by (unfold tmid; lra).
      destruct (Hs1 (proj1 Hm)) as [St1 Sd1].
      destruct (Hs2 (proj2 Hm)) as [St2 Sd2].
      rewrite !map_app. split.
      * apply Sorted_app_last; [exact St1 | now rewrite Ht1].
      * apply Sorted_app_last; [exact Sd1|].
        unfold Curve.tail_pt in Sd2 |- *.
        rewrite last_app_default, <- last_map_default in Sd2. exact Sd2.
    + intros Ht.
      assert (Hm : t1 < tmid < t2) by (unfold tmid; lra).
      rewrite map_app.
      apply Sorted_app_last; [exact (Hst1 (proj1 Hm))|].
      rewrite Ht1. exact (Hst2 (proj2 Hm)).
Qed.

(** X10.  [integrate] returns (the recursion stops at depth 21 at the latest).
    The table holds an odd number of entries, between 129 and 2^22 + 1; the
    parameters start at [t1] and end at [t2], the distances start at 0 and
    end at the returned length; for [t1 <= t2] both arrays are sorted and
    the length is not negative, and for [t1 < t2] the parameters increase
    strictly. *)
Theorem integrate_table (fuel : nat) (edge : Curve.TMRCurve) (t1 t2 tol : R) :
  (22 <= fuel)%nat ->
  exists tvals dist nvals len,
    Curve.integrate fuel edge t1 t2 tol = Some (tvals, dist, nvals, len) /\
    length tvals = nvals /\ length dist = nvals /\
    (exists L, nvals = (2 * L + 1)%nat /\ (2 ^ 6 <= L <= 2 ^ 21)%nat) /\
    hd 0 tvals = t1 /\ last tvals 0 = t2 /\
    hd 1 dist = 0 /\ last dist 0 = len /\
    (t1 <= t2 -> Sorted Rle tvals /\ Sorted Rle dist /\ 0 <= len) /\
    (t1 < t2 -> Sorted Rlt tvals).
Proof.
  intros Hf. unfold Curve.integrate.
  set (root := {| Curve.ip_t := t1; Curve.ip_dist := 0.0 |}).
  destruct (integrateEdge_spec edge tol fuel 0 t1 (snd (Curve.evalPoint edge t1)) t2
              [root] ltac:(lia) ltac:(lia))
    as (new & E & (L & Hl & Hb) & Ht & Hs & Hst).
  rewrite E. do 4 eexists. split; [reflexivity|].
  assert (Z0 : 0.0 = 0) by lra.
  assert (Elast : forall f : Curve.IntegralPt -> R,
             last (map f ([root] ++ new)) 0 = last (map f new) (f root)).
  { intros f. cbn [app map]. apply last_cons_default. }
  split; [apply length_map|]. split; [apply length_map|].
  split; [|split; [|split; [|split; [|split; [|split]]]]].
  - exists L. rewrite length_app, Hl. cbn [length]. split; [lia|].
    rewrite !Nat.sub_0_r in Hb. exact Hb.
  - reflexivity.
  - rewrite Elast. exact Ht.
  - cbn [app map hd Curve.ip_dist root]. exact Z0.
  - rewrite Elast. unfold Curve.tail_pt.
    change ([root] ++ new) with (root :: new). rewrite last_cons_default.
    apply last_map_default.
  - intros H12. destruct (Hs H12) as [St Sd]. cbn [app map].
    split; [exact St|]. split; [exact Sd|].
    unfold Curve.tail_pt. change ([root] ++ new) with (root :: new).
    rewrite last_cons_default, <- last_map_default.
    change (Curve.tail_pt [root]) with root in Sd.
    pose proof (Sorted_le_last _ _ Sd) as Hle.
    cbn [Curve.ip_dist root] in Hle |- *. lra.
  - intros H12. cbn [app map]. exact (Hst H12).
Qed.

(** ** Error statistics: every element falls in one bin *)

Lemma Zsum_fold_left (l : list Z) (a : Z) :
  fold_left Z.add l a = (a + fold_right Z.add 0 l)%Z.
Proof.
  revert a; induction l as [|x l IH]; intros a; cbn; [lia|]. rewrite IH. lia.
Qed.

Lemma Zsum_app (l1 l2 : list Z) :
  fold_right Z.add 0%Z (l1 ++ l2) =
  (fold_right Z.add 0 l1 + fold_right Z.add 0 l2)%Z.
Proof. induction l1 as [|x l1 IH]; cbn; [reflexivity|]. rewrite IH. lia. Qed.

Lemma incr_spec (i : nat) (bins : list Z) :
  (i < length bins)%nat ->
  length (Bins.incr i bins) = length bins /\
  fold_right Z.add 0%Z (Bins.incr i bins) = (fold_right Z.add 0 bins + 1)%Z.
Proof.
  intros Hi. unfold Bins.incr. split.
  - rewrite length_app, length_firstn. cbn [length]. rewrite length_skipn. lia.
  - rewrite <- (firstn_skipn i bins) at 4.
    rewrite !Zsum_app.
    replace (skipn i bins) with (nth i bins 0%Z :: skipn (Datatypes.S i) bins).
    + cbn [fold_right]. lia.
    + clear -Hi. revert i Hi. induction bins as [|b bins IH]; intros i Hi; [cbn in Hi; lia|].
      destruct i as [|i]; [reflexivity|]. cbn [nth]. rewrite !skipn_cons.
      apply IH. cbn in Hi. lia.
Qed.

Lemma bin_bounds_increasing (k : nat) : Bins.bin_bounds k < Bins.bin_bounds (Datatypes.S k).
Proof.
  unfold Bins.bin_bounds. apply Rpower_lt; [lra|].
  rewrite S_INR. unfold Bins.low, Bins.high, Bins.NUM_BINS.
  assert (E : INR 30 = 30) by (cbn; lra). rewrite E. lra.
Qed.

Lemma inner_loop_spec (e : R) (bins : list Z) (n : nat) :
  length bins = 32%nat -> (n <= 30)%nat -> Bins.bin_bounds 0 <= e ->
  let out :=
    fold_left (fun b j =>
      if Curve.Rleb (Bins.bin_bounds j) e && Curve.Rltb e (Bins.bin_bounds (j + 1))
      then Bins.incr (j + 1) b else b) (seq 0 n) bins in
  length out = 32%nat /\
  (e < Bins.bin_bounds n ->
   fold_right Z.add 0%Z out = (fold_right Z.add 0 bins + 1)%Z) /\
  (Bins.bin_bounds n <= e -> fold_right Z.add 0%Z out = fold_right Z.add 0%Z bins).
Proof.
  intros Hl Hn H0. induction n as [|n IH].
  - cbn. split; [exact Hl|]. split; [lra | reflexivity].
  - destruct (IH ltac:(lia)) as (IHl & IH1 & IH2).
    cbv zeta. rewrite seq_S, fold_left_app. cbn [fold_left Nat.add].
    set (out := fold_left _ (seq 0 n) bins) in *.
    pose proof (bin_bounds_increasing n) as Hinc.
    replace (n + 1)%nat with (Datatypes.S n) by lia.
    unfold Curve.Rleb, Curve.Rltb.
    destruct (Rle_dec (Bins.bin_bounds n) e) as [Hle|Hgt];
      destruct (Rlt_dec e (Bins.bin_bounds (Datatypes.S n))) as [Hlt|Hge]; cbn [andb].
    + destruct (incr_spec (Datatypes.S n) out ltac:(lia)) as [El Es].
      split; [lia|]. split; [intros _; rewrite Es, IH2 by assumption; reflexivity|].
      intros H. lra.
    + split; [exact IHl|]. split; [intros H; lra|]. intros _. now apply IH2.
    + split; [exact IHl|]. split; [|intros H; lra]. intros _. apply IH1. lra.
    + split; [exact IHl|]. split; [intros H; lra | intros H; lra].
Qed.

Lemma count_one_spec (bins : list Z) (e : R) :
  length bins = 32%nat ->
  length (Bins.count_one bins e) = 32%nat /\
  fold_right Z.add 0%Z (Bins.count_one bins e) = (fold_right Z.add 0 bins + 1)%Z.
Proof.
  intros Hl. unfold Bins.count_one, Curve.Rleb.
  destruct (Rle_dec e (Bins.bin_bounds 0)) as [H0|H0].
  - destruct (incr_spec 0 bins ltac:(lia)) as [El Es]. split; [lia | exact Es].
  - destruct (Rle_dec (Bins.bin_bounds Bins.NUM_BINS) e) as [H1|H1].
    + destruct (incr_spec (Bins.NUM_BINS + 1) bins) as [El Es];
        [unfold Bins.NUM_BINS; lia|]. split; [lia | exact Es].
    + destruct (inner_loop_spec e bins 30 Hl ltac:(lia) ltac:(lra)) as (El & E1 & _).
      split; [exact El|]. apply E1. unfold Bins.NUM_BINS in H1. lra.
Qed.

Lemma local_bins_spec (error : list R) :
  length (Bins.local_bins error) = 32%nat /\
  fold_right Z.add 0%Z (Bins.local_bins error) = Z.of_nat (length error).
Proof.
  unfold Bins.local_bins.
  assert (G : forall bins, length bins = 32%nat ->
            length (fold_left Bins.count_one error bins) = 32%nat /\
            fold_right Z.add 0%Z (fold_left Bins.count_one error bins) =
            (fold_right Z.add 0 bins + Z.of_nat (length error))%Z).
  { induction error as [|e error IH]; intros bins Hl; cbn [fold_left length].
    - split; [exact Hl | lia].
    - destruct (count_one_spec bins e Hl) as [El Es].
      destruct (IH _ El) as [El' Es']. split; [exact El'|]. rewrite Es', Es. lia. }
  destruct (G (repeat 0%Z (Bins.NUM_BINS + 2)) (repeat_length _ _)) as [El Es].
  split; [exact El|]. rewrite Es. reflexivity.
Qed.

Lemma Zsum_nth_seq (b : list Z) :
  fold_right Z.add 0%Z (map (fun i => nth i b 0%Z) (seq 0 (length b))) =
  fold_right Z.add 0%Z b.
Proof. now rewrite map_nth_seq. Qed.

Lemma allreduce_bins_sum (locals : list (list Z)) :
  (forall b, In b locals -> length b = 32%nat) ->
  length (Bins.allreduce_bins locals) = 32%nat /\
  fold_right Z.add 0%Z (Bins.allreduce_bins locals) =
  fold_right Z.add 0%Z (map (fold_right Z.add 0%Z) locals).
Proof.
  intros Hl. unfold Bins.allreduce_bins. split.
  - now rewrite length_map, length_seq.
  - change (Bins.NUM_BINS + 2)%nat with 32%nat.
    induction locals as [|b locals IH].
    + cbn [map fold_right].
      generalize (seq 0 32). intros l. induction l; cbn; auto.
    + cbn [map fold_right]. rewrite <- IH by (intros; apply Hl; now right).
      rewrite <- (Zsum_nth_seq b), (Hl b (or_introl eq_refl)).
      generalize (seq 0 32). intros l.
      induction l as [|i l IHl]; cbn [map fold_right]; [reflexivity|].
      rewrite IHl. lia.
Qed.

(** X11.  Every element error is counted in exactly one of the 32 bins: on each
    process the bins sum to [nelems], and after the reduction [total] is
    the number of elements of all the processes. *)
Theorem error_bins_partition (errors : list (list R)) :
  let st := Bins.TMR_PrintErrorBins errors in
  length (Bins.st_bins st) = 32%nat /\
  Forall (fun e => fold_right Z.add 0%Z (Bins.local_bins e) = Z.of_nat (length e))
         errors /\
  Bins.st_total st =
  fold_right Z.add 0%Z (map (fun e => Z.of_nat (length e)) errors).
Proof.
  intros st. unfold st, Bins.TMR_PrintErrorBins. cbv zeta.
  cbn [Bins.st_bins Bins.st_total].
  destruct (allreduce_bins_sum (map Bins.local_bins errors)) as [El Es].
  { intros b Hb. apply in_map_iff in Hb as (e & <- & _). apply local_bins_spec. }
  split; [exact El|].
  split; [apply Forall_forall; intros e _; apply local_bins_spec|].
  rewrite Zsum_fold_left, Es, map_map. cbn [Z.add].
  f_equal. apply map_ext. intros e. apply local_bins_spec.
Qed.

(** The first bin takes the errors up to 1e-15 and the last one those from
    1 on. *)
Lemma bin_bounds_ends : Bins.bin_bounds 0 = Rpower 10 (-15) /\ Bins.bin_bounds 30 = 1.
Proof.
  unfold Bins.bin_bounds, Bins.low, Bins.high, Bins.NUM_BINS.
  assert (E : INR 30 = 30) by (cbn; lra). rewrite E.
  assert (T : 10.0 = 10) by lra. rewrite T. split.
  - f_equal. cbn [INR]. lra.
  - replace (-15 + 1.0 * 30 * (0 - -15) / 30) with 0 by lra.
    apply Rpower_O. lra.
Qed.

(** ** The quad refined-field builder stays inside its buffer *)

Lemma for_seq_invariant {S : Type} (P : nat -> S -> Prop)
    (body : nat -> S -> option S) (n : nat) (s : S) :
  P 0%nat s ->
  (forall i s, (i < n)%nat -> P i s ->
     exists s', body i s = Some s' /\ P (Datatypes.S i) s') ->
  exists s', Mem.for_ (seq 0 n) body s = Some s' /\ P n s'.
Proof.
  induction n as [|n IH]; intros H0 Hstep.
  - exists s. split; [reflexivity | exact H0].
  - destruct IH as (s1 & E1 & P1); [exact H0 | intros; apply Hstep; [lia | assumption] |].
    destruct (Hstep n s1 ltac:(lia) P1) as (s2 & E2 & P2).
    exists s2. rewrite seq_S, for_app, E1. cbn [Mem.bind Nat.add].
    rewrite for_cons, E2. cbn [Mem.bind]. split; [apply for_nil | exact P2].
Qed.

Lemma add_to_length (buf : list R) (i : nat) (v : R) :
  (i < length buf)%nat ->
  exists buf', Mem.add_to buf i v = Some buf' /\ length buf' = length buf.
Proof.
  intros Hi. destruct (add_to_accumulate buf i v Hi) as (b & E & L & _).
  exists b. split; assumption.
Qed.

(** Two nested loops of [+=] on cells inside the buffer keep its size. *)
Lemma add_loops_length (len a b : nat) (idx : nat -> nat) (v : nat -> nat -> R)
    (buf : list R) :
  length buf = len -> (forall i, (i < a)%nat -> (idx i < len)%nat) ->
  exists buf',
    Mem.for_ (seq 0 a) (fun i =>
      Mem.for_ (seq 0 b) (fun k u => Mem.add_to u (idx i) (v i k))) buf = Some buf' /\
    length buf' = len.
Proof.
  intros Hl Hidx.
  apply (for_seq_invariant (fun _ u => length u = len)); [exact Hl|].
  intros i u Hi Hu.
  apply (for_seq_invariant (fun _ u => length u = len)); [exact Hu|].
  intros k u' _ Hu'. rewrite <- Hu'. apply add_to_length. rewrite Hu'. now apply Hidx.
Qed.

Lemma slot_in_range (vpn num s j : nat) :
  (s < num)%nat -> (j < vpn)%nat -> (vpn * s + j < vpn * num)%nat.
Proof.
  intros Hs Hj.
  assert (vpn * (s + 1) <= vpn * num)%nat by (apply Nat.mul_le_mono_l; lia). lia.
Qed.

Lemma fill_uref2D_spec forest refined_forest vpn diff uelem ubar refined_nodes uref :
  length uref = (vpn * (quad_order refined_forest * quad_order refined_forest))%nat ->
  exists uref',
    Refine2D.fill_uref2D forest refined_forest vpn diff uelem ubar refined_nodes uref
      = Some uref' /\
    length uref' = length uref /\
    forall s j, (s < quad_order refined_forest * quad_order refined_forest)%nat ->
                (j < vpn)%nat -> (nth s refined_nodes 0 < 0)%Z ->
                rd uref' (vpn * s + j) = 0.
Proof.
  intros Hlen. unfold Refine2D.fill_uref2D. cbv zeta.
  set (ro := quad_order refined_forest) in *.
  set (len := (vpn * (ro * ro))%nat) in *.
  rewrite memset0_ok by lia. rewrite <- Hlen, skipn_all, app_nil_r, Hlen.
  cbn [Mem.bind].
  (* the knot loops *)
  destruct (for_seq_invariant (fun _ u => length u = len)
              (fun m => Mem.for_ (seq 0 ro) (fun n uref0 =>
                 let pt := [rd (quad_knots refined_forest) n;
                            rd (quad_knots refined_forest) m] in
                 let offset := (n + ro * m)%nat in
                 let Nr := Enrich.evalEnrichmentFuncs2D_N (quad_order forest) pt
                             (quad_knots refined_forest) [] in
                 let add_enrich :=
                   Mem.for_ (seq 0 vpn) (fun i =>
                   Mem.for_ (seq 0 (Enrich.getNum2dEnrich (quad_order forest))) (fun k u =>
                     Mem.add_to u (vpn * offset + i) (rd Nr k * rd ubar (i + vpn * k)))) in
                 if diff then add_enrich uref0
                 else
                   Mem.bind
                     (Mem.for_ (seq 0 vpn) (fun i =>
                      Mem.for_ (seq 0 (quad_order forest * quad_order forest)) (fun k u =>
                        Mem.add_to u (vpn * offset + i)
                          (rd (Enrich.N2 (quad_evalInterp forest pt)) k *
                           rd uelem (i + vpn * k)))) uref0)
                     add_enrich))
              ro (repeat 0 len)) as (u1 & E1 & L1).
  { apply repeat_length. }
  { intros m u Hm Hu.
    apply (for_seq_invariant (fun _ u => length u = len)); [exact Hu|].
    intros n u' Hn Hu'. cbv zeta.
    assert (Hidx : forall i, (i < vpn)%nat -> (vpn * (n + ro * m) + i < len)%nat).
    { intros i Hi. unfold len. apply slot_in_range; [|exact Hi].
      assert (ro * (m + 1) <= ro * ro)%nat by (apply Nat.mul_le_mono_l; lia). lia. }
    destruct diff.
    - now apply add_loops_length.
    - destruct (add_loops_length len vpn (quad_order forest * quad_order forest)
                  (fun i => (vpn * (n + ro * m) + i)%nat)
                  (fun i k => rd (Enrich.N2 (quad_evalInterp forest
                                    [rd (quad_knots refined_forest) n;
                                     rd (quad_knots refined_forest) m])) k *
                              rd uelem (i + vpn * k)) u' Hu' Hidx) as (u2 & E2 & L2).
      rewrite E2. cbn [Mem.bind]. now apply add_loops_length. }
  cbv zeta in E1. rewrite E1. cbn [Mem.bind].
  (* the zeroing of the dependent slots *)
  destruct (for_seq_invariant
              (fun i u => length u = len /\
                 forall s j, (s < i)%nat -> (j < vpn)%nat ->
                             (nth s refined_nodes 0 < 0)%Z -> rd u (vpn * s + j) = 0)
              (fun i uref0 =>
                 if (nth i refined_nodes 0 <? 0)%Z then
                   Mem.for_ (seq 0 vpn) (fun j u => Mem.store u (vpn * i + j) 0) uref0
                 else Some uref0)
              (ro * ro)%nat u1) as (u3 & E3 & L3 & Z3).
  { split; [exact L1|]. intros s j Hs. lia. }
  { intros i u Hi [Hu Hz].
    destruct (Z.ltb_spec (nth i refined_nodes 0%Z) 0%Z) as [Hneg|Hpos].
    - destruct (for_seq_invariant
                  (fun j' u => length u = len /\
                     (forall s j, (s < i)%nat -> (j < vpn)%nat ->
                        (nth s refined_nodes 0 < 0)%Z -> rd u (vpn * s + j) = 0) /\
                     forall j, (j < j')%nat -> rd u (vpn * i + j) = 0)
                  (fun j u => Mem.store u (vpn * i + j) 0) vpn u)
        as (u' & E' & L' & Z' & Zi).
      + split; [exact Hu|]. split; [exact Hz|]. intros j Hj. lia.
      + intros j0 w Hj0 (Lw & Zw & Zj).
        assert (Hin : (vpn * i + j0 < length w)%nat)
          by (rewrite Lw; unfold len; now apply slot_in_range).
        pose proof (store_Some w (vpn * i + j0) 0 Hin) as Es.
        eexists. split; [exact Es|].
        split; [rewrite (store_length _ _ _ _ Es); exact Lw|]. split.
        * intros s j Hs Hj Hd. rewrite (rd_store _ _ _ _ _ Es).
          destruct (Nat.eqb_spec (vpn * s + j) (vpn * i + j0)) as [E|_]; [reflexivity|].
          now apply Zw.
        * intros j Hj. rewrite (rd_store _ _ _ _ _ Es).
          destruct (Nat.eqb_spec (vpn * i + j) (vpn * i + j0)) as [E|Hne]; [reflexivity|].
          apply Zj. lia.
      + exists u'. split; [exact E'|]. split; [exact L'|].
        intros s j Hs Hj Hd.
        destruct (Nat.eq_dec s i) as [->|Hne]; [now apply Zi | apply Z'; [lia|assumption..]].
    - exists u. split; [reflexivity|]. split; [exact Hu|].
      intros s j Hs Hj Hd.
      destruct (Nat.eq_dec s i) as [->|Hne]; [lia | apply Hz; [lia|assumption..]]. }
  exists u3. split; [exact E3|]. split; [lia|].
  intros s j Hs Hj Hd. now apply Z3.
Qed.

(** X12.  [addRefinedSolution2D] never writes outside [uref], whatever the two
    orders and the element list are, and the entries that it hands to
    [setValues] for a dependent refined node are zero. *)
Theorem addRefinedSolution2D_in_bounds
    (lib : Lib) (forest : QuadForest) (tacs : TACSAssembler)
    (refined_forest : QuadForest) (refined_tacs : TACSAssembler)
    (vec vecDeriv vec_refined : BVec.t) (compute_difference : bool)
    (element_nums : option (list nat)) :
  let vpn := getVarsPerNode tacs in
  let num_refined_nodes := (quad_order refined_forest * quad_order refined_forest)%nat in
  (exists uref out,
     Refine2D.addRefinedSolution2D lib forest tacs refined_forest refined_tacs
       vec vecDeriv vec_refined compute_difference element_nums = Some (uref, out) /\
     length uref = (vpn * num_refined_nodes)%nat) /\
  (forall uelem ubar refined_nodes,
   exists uref,
     Refine2D.fill_uref2D forest refined_forest vpn compute_difference uelem ubar
       refined_nodes (Mem.alloc (vpn * num_refined_nodes)) = Some uref /\
     Forall (fun s => if (nth s refined_nodes 0 <? 0)%Z
                      then Forall (fun j => rd uref (vpn * s + j) = 0) (seq 0 vpn)
                      else True)
            (seq 0 num_refined_nodes)).
Proof.
  intros vpn num. split.
  - unfold Refine2D.addRefinedSolution2D. cbv zeta. fold vpn. fold num.
    generalize (elem_loop tacs element_nums) as l.
    assert (G : forall l uref v, length uref = (vpn * num)%nat ->
              exists uref' out,
                Mem.for_ l (fun elem '(uref, vec_refined) =>
                  Mem.bind
                    (Refine2D.fill_uref2D forest refined_forest vpn compute_difference
                       (BVec.getValues (depNodes tacs) vpn
                          (el_nodes (getElement tacs elem)) vec)
                       (Recon.computeElemRecon2D lib vpn forest refined_forest
                          (el_Xpts (getElement refined_tacs elem))
                          (BVec.getValues (depNodes tacs) vpn
                             (el_nodes (getElement tacs elem)) vec)
                          (BVec.getValues (depNodes tacs) (3 * vpn)
                             (el_nodes (getElement tacs elem)) vecDeriv))
                       (el_nodes (getElement refined_tacs elem)) uref)
                    (fun uref =>
                       Some (uref, BVec.setValues_ADD (depNodes refined_tacs) vpn
                                     (el_nodes (getElement refined_tacs elem)) uref
                                     vec_refined)))
                  (uref, v) = Some (uref', out) /\
                length uref' = (vpn * num)%nat).
    { induction l as [|elem l IH]; intros uref v Hl.
      - exists uref, v. split; [reflexivity | exact Hl].
      - rewrite for_cons.
        destruct (fill_uref2D_spec forest refined_forest vpn compute_difference
                    (BVec.getValues (depNodes tacs) vpn
                       (el_nodes (getElement tacs elem)) vec)
                    (Recon.computeElemRecon2D lib vpn forest refined_forest
                       (el_Xpts (getElement refined_tacs elem))
                       (BVec.getValues (depNodes tacs) vpn
                          (el_nodes (getElement tacs elem)) vec)
                       (BVec.getValues (depNodes tacs) (3 * vpn)
                          (el_nodes (getElement tacs elem)) vecDeriv))
                    (el_nodes (getElement refined_tacs elem)) uref Hl)
          as (u' & E & L & _).
        rewrite E. cbn [Mem.bind]. apply IH. now rewrite L. }
    intros l. apply G. apply repeat_length.
  - intros uelem ubar refined_nodes.
    destruct (fill_uref2D_spec forest refined_forest vpn compute_difference
                uelem ubar refined_nodes (Mem.alloc (vpn * num))
                (repeat_length _ _)) as (u' & E & L & Z).
    exists u'. split; [exact E|].
    apply Forall_forall. intros s Hs. apply in_seq in Hs.
    destruct (Z.ltb_spec (nth s refined_nodes 0%Z) 0%Z) as [Hd|_]; [|exact I].
    apply Forall_forall. intros j Hj. apply in_seq in Hj.
    apply Z; [lia | lia | exact Hd].
Qed.

(** ** The enrichment functions at the nodes, and the two overloads *)



(** X14.  For the orders 2, 3, 4 the two overloads of [evalEnrichmentFuncs2D]
    write the same [N], of [getNum2dEnrich(order)] entries.  For another
    order [getNum2dEnrich] answers 9, the overload with derivatives
    computes the functions of order 4, and the values-only overload
    writes nothing. *)
Theorem enrichment2D_overloads (order : nat) (pt knots N0 : list R) :
  ((order = 2 \/ order = 3 \/ order = 4)%nat ->
   let f := Enrich.evalEnrichmentFuncs2D order pt knots in
   Enrich.evalEnrichmentFuncs2D_N order pt knots N0 = Enrich.N2 f /\
   length (Enrich.N2 f) = Enrich.getNum2dEnrich order /\
   length (Enrich.Na2 f) = Enrich.getNum2dEnrich order /\
   length (Enrich.Nb2 f) = Enrich.getNum2dEnrich order) /\
  (order <> 2%nat -> order <> 3%nat -> order <> 4%nat ->
   Enrich.getNum2dEnrich order = 9%nat /\
   Enrich.evalEnrichmentFuncs2D order pt knots =
   Enrich.evalEnrichmentFuncs2D 4 pt knots /\
   Enrich.evalEnrichmentFuncs2D_N order pt knots N0 = N0).
Proof.
  split.
  - intros [-> | [-> | ->]]; repeat split; reflexivity.
  - intros H2 H3 H4.
    unfold Enrich.getNum2dEnrich, Enrich.evalEnrichmentFuncs2D,
      Enrich.evalEnrichmentFuncs2D_N.
    destruct (Nat.eqb_spec order 2); [contradiction|].
    destruct (Nat.eqb_spec order 3); [contradiction|].
    destruct (Nat.eqb_spec order 4); [contradiction|].
    repeat split; reflexivity.
Qed.

(** ** The induced aggregate of the curvature constraint *)

Lemma Rsum_pos {A} (f : A -> R) (l : list A) :
  l <> [] -> (forall a, In a l -> 0 < f a) -> 0 < Rsum (map f l).
Proof.
  intros Hne H. destruct l as [|a l]; [contradiction|].
  cbn [map Rsum fold_right].
  pose proof (H a (or_introl eq_refl)).
  pose proof (Rsum_nonneg f l (fun b Hb => Rlt_le _ _ (H b (or_intror Hb)))) as Hn.
  unfold Rsum in Hn. lra.
Qed.

Lemma curvcon_sums lib k procs xvec xderiv (h : R -> R) :
  MPI_Allreduce_SUM
    (map (fun p =>
            fold_left (fun a elem =>
                         a + h (CurvCon.elem_result lib k xvec xderiv p elem))
                      (seq 0 (CurvCon.cp_num_elements p)) 0.0) procs) =
  Rsum (map h (CurvCon.results lib k procs xvec xderiv)).
Proof.
  unfold MPI_Allreduce_SUM, CurvCon.results.
  rewrite map_flat_map_comm, Rsum_flat_map.
  apply Rsum_map_ext_in. intros p _.
  rewrite fold_left_Rplus_acc, map_map. lra.
Qed.

Lemma curvcon_max lib k procs xvec xderiv :
  procs <> [] ->
  CurvCon.max_curvature (CurvCon.evalConstraint lib k procs xvec xderiv) =
  fold_left Rmax (CurvCon.results lib k procs xvec xderiv) 0.
Proof.
  intros Hp. unfold CurvCon.evalConstraint. cbv zeta. cbn [CurvCon.max_curvature].
  unfold CurvCon.results.
  rewrite <- (allreduce_max_flat
                (fun p => map (CurvCon.elem_result lib k xvec xderiv p)
                              (seq 0 (CurvCon.cp_num_elements p))) procs 0 Hp).
  f_equal. apply map_ext. intros p.
  rewrite fold_left_map. replace 0.0 with 0 by lra.
  apply fold_left_ext_in. intros m elem _. apply max_update.
Qed.

(** X15.  [max_curvature] is the largest of 0 and the element values.  With at
    least one element the denominator is positive, and the returned value
    is an average of the element values with positive weights: it lies
    between every lower bound of the element values and [max_curvature]. *)
Theorem induced_curvature_bounds
    (lib : Lib) (aggregate_weight : R) (procs : list CurvCon.proc)
    (xvec xderiv : BVec.t) :
  CurvCon.results lib aggregate_weight procs xvec xderiv <> [] ->
  let r := CurvCon.evalConstraint lib aggregate_weight procs xvec xderiv in
  let rs := CurvCon.results lib aggregate_weight procs xvec xderiv in
  CurvCon.max_curvature r = fold_left Rmax rs 0 /\
  0 <= CurvCon.max_curvature r /\
  Forall (fun x => x <= CurvCon.max_curvature r) rs /\
  0 < CurvCon.aggregate_denom r /\
  CurvCon.func_val r <= CurvCon.max_curvature r /\
  (forall a, Forall (fun x => a <= x) rs -> a <= CurvCon.func_val r).
Proof.
  intros Hne r rs.
  assert (Hp : procs <> []) by (intros ->; now apply Hne).
  assert (Emax : CurvCon.max_curvature r = fold_left Rmax rs 0)
    by (now apply curvcon_max).
  set (mx := CurvCon.max_curvature r) in *.
  set (w := fun x => exp (aggregate_weight * (x - mx))).
  assert (Ed : CurvCon.aggregate_denom r = Rsum (map w rs))
    by (apply (curvcon_sums lib aggregate_weight procs xvec xderiv w)).
  assert (En : CurvCon.aggregate_numer r = Rsum (map (fun x => x * w x) rs))
    by (apply (curvcon_sums lib aggregate_weight procs xvec xderiv (fun x => x * w x))).
  assert (Ef : CurvCon.func_val r =
               CurvCon.aggregate_numer r / CurvCon.aggregate_denom r) by reflexivity.
  assert (Hw : forall x, 0 < w x) by (intros x; apply exp_pos).
  assert (Hd : 0 < CurvCon.aggregate_denom r)
    by (rewrite Ed; apply Rsum_pos; [exact Hne | intros; apply Hw]).
  assert (Hup : forall x, In x rs -> x <= mx)
    by (intros x Hx; rewrite Emax; now apply foldmax_upper).
  split; [exact Emax|].
  split; [rewrite Emax; apply foldmax_ge_init|].
  split; [now apply Forall_forall|].
  split; [exact Hd|]. split.
  - rewrite Ef. apply (Rmult_le_reg_r (CurvCon.aggregate_denom r)); [exact Hd|].
    unfold Rdiv. rewrite Rmult_assoc, Rinv_l, Rmult_1_r by lra.
    rewrite En, Ed, <- Rsum_map_scal.
    apply Rsum_map_le. intros x Hx.
    pose proof (Hup x Hx). pose proof (Hw x). nra.
  - intros a Ha. rewrite Forall_forall in Ha.
    rewrite Ef. apply (Rmult_le_reg_r (CurvCon.aggregate_denom r)); [exact Hd|].
    unfold Rdiv. rewrite Rmult_assoc, Rinv_l, Rmult_1_r by lra.
    rewrite En, Ed, <- Rsum_map_scal.
    apply Rsum_map_le. intros x Hx.
    pose proof (Ha x Hx). pose proof (Hw x). nra.
Qed.

(** ** When the oct refined-field builder leaves its buffer *)

Lemma slot3_in_range (ro n m p : nat) :
  (n < ro)%nat -> (m < ro)%nat -> (p < ro)%nat ->
  (n + ro * m + ro * ro * p < ro * ro * ro)%nat.
Proof.
  intros Hn Hm Hp.
  assert (H1 : (ro * (m + 1) <= ro * ro)%nat) by (apply Nat.mul_le_mono_l; lia).
  assert (H2 : (ro * ro * (p + 1) <= ro * ro * ro)%nat) by (apply Nat.mul_le_mono_l; lia).
  lia.
Qed.

Lemma add_loops_in_bounds (len bound a b : nat) (idx : nat -> nat)
    (v : nat -> nat -> R) (buf : list R) :
  length buf = len -> (bound <= len)%nat ->
  (forall i, (i < a)%nat -> (idx i < bound)%nat) ->
  exists buf',
    Mem.for_ (seq 0 a) (fun i =>
      Mem.for_ (seq 0 b) (fun k u => Mem.add_to u (idx i) (v i k))) buf = Some buf' /\
    length buf' = len.
Proof.
  intros Hl Hb Hidx. apply add_loops_length; [exact Hl|].
  intros i Hi. specialize (Hidx i Hi). lia.
Qed.

Lemma fill_uref3D_ok forest refined_forest vpn diff uelem ubar refined_nodes uref :
  (vpn * (oct_order refined_forest * oct_order refined_forest *
          oct_order refined_forest) <= length uref)%nat ->
  exists uref',
    Refine.fill_uref3D forest refined_forest vpn diff uelem ubar refined_nodes uref
      = Some uref' /\
    length uref' = length uref.
Proof.
  intros Hlen. unfold Refine.fill_uref3D. cbv zeta.
  set (ro := oct_order refined_forest) in *.
  set (bound := (vpn * (ro * ro * ro))%nat) in *.
  set (len := length uref).
  rewrite memset0_ok by exact Hlen. cbn [Mem.bind].
  assert (L0 : length (repeat 0 bound ++ skipn bound uref) = len).
  { rewrite length_app, repeat_length, length_skipn. unfold len. lia. }
  destruct (for_seq_invariant (fun _ u => length u = len)
              (fun p => Mem.for_ (seq 0 ro) (fun m =>
               Mem.for_ (seq 0 ro) (fun n uref0 =>
                 let pt := [rd (oct_knots refined_forest) n;
                            rd (oct_knots refined_forest) m;
                            rd (oct_knots refined_forest) p] in
                 let offset := (n + ro * m + ro * ro * p)%nat in
                 let Nr := Enrich.N3 (Enrich.evalEnrichmentFuncs3D (oct_order forest) pt
                                        (Enrich.mk3D [] [] [] [])) in
                 let add_enrich :=
                   Mem.for_ (seq 0 vpn) (fun i =>
                   Mem.for_ (seq 0 (Enrich.getNum3dEnrich (oct_order forest))) (fun k u =>
                     Mem.add_to u (vpn * offset + i) (rd Nr k * rd ubar (i + vpn * k)))) in
                 if diff then add_enrich uref0
                 else
                   Mem.bind
                     (Mem.for_ (seq 0 vpn) (fun i =>
                      Mem.for_ (seq 0 (oct_order forest * oct_order forest *
                                       oct_order forest)) (fun k u =>
                        Mem.add_to u (vpn * offset + i)
                          (rd (Enrich.N3 (oct_evalInterp forest pt)) k *
                           rd uelem (i + vpn * k)))) uref0)
                     add_enrich)))
              ro (repeat 0 bound ++ skipn bound uref)) as (u1 & E1 & L1).
  { exact L0. }
  { intros p u Hp Hu.
    apply (for_seq_invariant (fun _ u => length u = len)); [exact Hu|].
    intros m u' Hm Hu'.
    apply (for_seq_invariant (fun _ u => length u = len)); [exact Hu'|].
    intros n u'' Hn Hu''. cbv zeta.
    assert (Hidx : forall i, (i < vpn)%nat ->
               (vpn * (n + ro * m + ro * ro * p) + i < bound)%nat).
    { intros i Hi. unfold bound. apply slot_in_range; [|exact Hi].
      now apply slot3_in_range. }
    destruct diff.
    - now apply (add_loops_in_bounds len bound).
    - destruct (add_loops_in_bounds len bound vpn
                  (oct_order forest * oct_order forest * oct_order forest)
                  (fun i => (vpn * (n + ro * m + ro * ro * p) + i)%nat)
                  (fun i k => rd (Enrich.N3 (oct_evalInterp forest
                                    [rd (oct_knots refined_forest) n;
                                     rd (oct_knots refined_forest) m;
                                     rd (oct_knots refined_forest) p])) k *
                              rd uelem (i + vpn * k)) u'' Hu'' Hlen Hidx)
        as (u2 & E2 & L2).
      rewrite E2. cbn [Mem.bind]. now apply (add_loops_in_bounds len bound). }
  cbv zeta in E1. rewrite E1. cbn [Mem.bind].
  destruct (for_seq_invariant (fun _ u => length u = len)
              (fun i uref0 =>
                 if (nth i refined_nodes 0 <? 0)%Z then
                   Mem.for_ (seq 0 vpn) (fun j u => Mem.store u (vpn * i + j) 0) uref0
                 else Some uref0)
              (ro * ro * ro)%nat u1 L1) as (u3 & E3 & L3).
  { intros i u Hi Hu.
    destruct (nth i refined_nodes 0 <? 0)%Z; [|exists u; split; [reflexivity | exact Hu]].
    apply (for_seq_invariant (fun _ u => length u = len)); [exact Hu|].
    intros j w Hj Hw.
    assert (Hin : (vpn * i + j < length w)%nat).
    { rewrite Hw. pose proof (slot_in_range vpn (ro * ro * ro) i j Hi Hj).
      unfold bound in Hlen. unfold len. lia. }
    pose proof (store_Some w (vpn * i + j) 0 Hin) as Es.
    eexists. split; [exact Es|]. rewrite (store_length _ _ _ _ Es). exact Hw. }
  exists u3. split; [exact E3 | exact L3].
Qed.

(** X16.  [addRefinedSolution3D] writes outside [uref] exactly when there is an
    element to visit, at least one variable per node, and the refined order
    is above the order. *)
Theorem addRefinedSolution3D_overflow_iff
    (lib : Lib) (forest : OctForest) (tacs : TACSAssembler)
    (refined_forest : OctForest) (refined_tacs : TACSAssembler)
    (vec vecDeriv vec_refined : BVec.t) (compute_difference : bool)
    (element_nums : option (list nat)) :
  Refine.addRefinedSolution3D lib forest tacs refined_forest refined_tacs
    vec vecDeriv vec_refined compute_difference element_nums = None <->
  elem_loop tacs element_nums <> [] /\
  (0 < getVarsPerNode tacs)%nat /\
  (oct_order forest < oct_order refined_forest)%nat.
Proof.
  split.
  - intros HN.
    set (vpn := getVarsPerNode tacs). set (o := oct_order forest).
    set (ro := oct_order refined_forest).
    assert (Hsafe : (vpn * (ro * ro * ro) <= vpn * o * o * o)%nat ->
              exists r, Refine.addRefinedSolution3D lib forest tacs refined_forest
                          refined_tacs vec vecDeriv vec_refined compute_difference
                          element_nums = Some r).
    { intros Hle. unfold Refine.addRefinedSolution3D. cbv zeta.
      fold vpn. fold o. fold ro.
      assert (G : forall l uref v, length uref = (vpn * o * o * o)%nat ->
                exists r,
                  Mem.for_ l (fun elem '(uref, vec_refined) =>
                    Mem.bind
                      (Refine.fill_uref3D forest refined_forest vpn compute_difference
                         (BVec.getValues (depNodes tacs) vpn
                            (el_nodes (getElement tacs elem)) vec)
                         (Recon.computeElemRecon3D lib vpn forest refined_forest
                            (el_Xpts (getElement refined_tacs elem))
                            (BVec.getValues (depNodes tacs) vpn
                               (el_nodes (getElement tacs elem)) vec)
                            (BVec.getValues (depNodes tacs) (3 * vpn)
                               (el_nodes (getElement tacs elem)) vecDeriv))
                         (el_nodes (getElement refined_tacs elem)) uref)
                      (fun uref =>
                         Some (uref, BVec.setValues_ADD (depNodes refined_tacs) vpn
                                       (el_nodes (getElement refined_tacs elem)) uref
                                       vec_refined)))
                    (uref, v) = Some r).
      { induction l as [|elem l IH]; intros uref v Hl.
        - eexists. reflexivity.
        - rewrite for_cons.
          destruct (fill_uref3D_ok forest refined_forest vpn compute_difference
                      (BVec.getValues (depNodes tacs) vpn
                         (el_nodes (getElement tacs elem)) vec)
                      (Recon.computeElemRecon3D lib vpn forest refined_forest
                         (el_Xpts (getElement refined_tacs elem))
                         (BVec.getValues (depNodes tacs) vpn
                            (el_nodes (getElement tacs elem)) vec)
                         (BVec.getValues (depNodes tacs) (3 * vpn)
                            (el_nodes (getElement tacs elem)) vecDeriv))
                      (el_nodes (getElement refined_tacs elem)) uref)
            as (u' & E & L).
          + fold ro. lia.
          + rewrite E. cbn [Mem.bind]. apply IH. now rewrite L. }
      apply G. apply repeat_length. }
    assert (Hnot : ~ (vpn * (ro * ro * ro) <= vpn * o * o * o)%nat).
    { intros Hle. destruct (Hsafe Hle) as (r & E). congruence. }
    assert (Hv : (0 < vpn)%nat).
    { destruct vpn; [|lia]. exfalso. apply Hnot. lia. }
    assert (Ho : (o < ro)%nat).
    { destruct (Nat.lt_ge_cases o ro) as [H|H]; [exact H|]. exfalso. apply Hnot.
      assert (ro * ro <= o * o)%nat by (apply Nat.mul_le_mono; lia).
      assert (ro * ro * ro <= o * o * o)%nat by (apply Nat.mul_le_mono; lia).
      rewrite <- !Nat.mul_assoc. apply Nat.mul_le_mono_l. lia. }
    split; [|split; assumption].
    intros Hnil. unfold Refine.addRefinedSolution3D in HN. cbv zeta in HN.
    rewrite Hnil in HN. discriminate.
  - intros (Hl & Hv & Ho). now apply addRefinedSolution3D_overflow.
Qed.

(** ** The reverse sweep of evalCurvDeriv *)

Lemma Rabs_deriv (x : R) : x <> 0 -> derivable_pt_lim Rabs x (Rabs x / x).
Proof.
  intros Hx. destruct (Rtotal_order x 0) as [Hneg|[E|Hpos]]; [|contradiction|].
  - replace (Rabs x / x) with (-1).
    + now apply Rabs_derive_2.
    + rewrite Rabs_left by assumption. field. assumption.
  - replace (Rabs x / x) with 1.
    + now apply Rabs_derive_1.
    + rewrite Rabs_right by lra. field. assumption.
Qed.

Lemma dcomp (f h : R -> R) (x l1 l2 : R) :
  derivable_pt_lim f x l1 -> derivable_pt_lim h (f x) l2 ->
  derivable_pt_lim (fun t => h (f t)) x (l2 * l1).
Proof. intros H1 H2. exact (derivable_pt_lim_comp f h x l1 l2 H1 H2). Qed.

Lemma dplus (f h : R -> R) (x l1 l2 : R) :
  derivable_pt_lim f x l1 -> derivable_pt_lim h x l2 ->
  derivable_pt_lim (fun t => f t + h t) x (l1 + l2).
Proof. intros H1 H2. exact (derivable_pt_lim_plus f h x l1 l2 H1 H2). Qed.

Lemma dminus (f h : R -> R) (x l1 l2 : R) :
  derivable_pt_lim f x l1 -> derivable_pt_lim h x l2 ->
  derivable_pt_lim (fun t => f t - h t) x (l1 - l2).
Proof. intros H1 H2. exact (derivable_pt_lim_minus f h x l1 l2 H1 H2). Qed.

Lemma dmult (f h : R -> R) (x l1 l2 : R) :
  derivable_pt_lim f x l1 -> derivable_pt_lim h x l2 ->
  derivable_pt_lim (fun t => f t * h t) x (l1 * h x + f x * l2).
Proof. intros H1 H2. exact (derivable_pt_lim_mult f h x l1 l2 H1 H2). Qed.

Lemma dscal (c : R) (f : R -> R) (x l : R) :
  derivable_pt_lim f x l -> derivable_pt_lim (fun t => c * f t) x (c * l).
Proof. intros H. exact (derivable_pt_lim_scal f c x l H). Qed.

Lemma ddiv (f h : R -> R) (x l1 l2 : R) :
  derivable_pt_lim f x l1 -> derivable_pt_lim h x l2 -> h x <> 0 ->
  derivable_pt_lim (fun t => f t / h t) x ((l1 * h x - l2 * f x) / (h x * h x)).
Proof. intros H1 H2 Hn. exact (derivable_pt_lim_div f h x l1 l2 H1 H2 Hn). Qed.

(** The derivative of the smooth maximum along a curve of curvatures. *)
Lemma smooth_max_deriv (k val : R) (km kg : R -> R) (t0 km' kg' : R) :
  derivable_pt_lim km t0 km' -> derivable_pt_lim kg t0 kg' ->
  km t0 <> 0 -> kg t0 <> 0 -> 0 < km t0 * km t0 - kg t0 ->
  let a0 := km t0 in
  let s0 := sqrt (a0 * a0 - kg t0) in
  let A' := Rabs a0 / a0 * km' in
  let s' := / (2 * s0) * (km' * a0 + a0 * km' - kg') in
  let B' := Rabs (Rabs a0 - s0) / (Rabs a0 - s0) * (A' - s') in
  let E0 := exp (k * (Rabs (Rabs a0 - s0) - (Rabs a0 + s0))) in
  derivable_pt_lim (fun t => CurvDeriv.smooth_max k val (km t) (kg t)) t0
    (Curvature.factor val *
     (A' + s' + / (1 + E0) * (E0 * (k * (B' - (A' + s')))) / k)).
Proof.
  intros Dkm Dkg Ha Hg Hs a0 s0 A' s' B' E0.
  assert (Hs0 : 0 < s0) by (apply sqrt_lt_R0; exact Hs).
  assert (Hss : s0 * s0 = a0 * a0 - kg t0) by (apply sqrt_sqrt; unfold a0; lra).
  assert (Hd : Rabs a0 - s0 <> 0).
  { intros E. apply Hg.
    assert (Ea : Rabs a0 * Rabs a0 = a0 * a0)
      by (unfold Rabs; destruct (Rcase_abs a0); ring).
    assert (Rabs a0 = s0) by lra. nra. }
  assert (DA : derivable_pt_lim (fun t => Rabs (km t)) t0 A').
  { apply dcomp; [exact Dkm | now apply Rabs_deriv]. }
  assert (Dq : derivable_pt_lim (fun t => km t * km t - kg t) t0
                 (km' * a0 + a0 * km' - kg')).
  { apply dminus; [|exact Dkg]. apply dmult; exact Dkm. }
  assert (Dsq : derivable_pt_lim (fun t => sqrt (km t * km t - kg t)) t0 s').
  { apply (dcomp (fun t => km t * km t - kg t) sqrt); [exact Dq|].
    apply derivable_pt_lim_sqrt. exact Hs. }
  assert (DB : derivable_pt_lim
                 (fun t => Rabs (Rabs (km t) - sqrt (km t * km t - kg t))) t0 B').
  { apply (dcomp (fun t => Rabs (km t) - sqrt (km t * km t - kg t)) Rabs).
    - apply dminus; assumption.
    - apply Rabs_deriv. exact Hd. }
  assert (Du : derivable_pt_lim
                 (fun t => k * (Rabs (Rabs (km t) - sqrt (km t * km t - kg t)) -
                                (Rabs (km t) + sqrt (km t * km t - kg t)))) t0
                 (k * (B' - (A' + s')))).
  { apply dscal. apply dminus; [exact DB|]. apply dplus; assumption. }
  assert (DE : derivable_pt_lim
                 (fun t => exp (k * (Rabs (Rabs (km t) - sqrt (km t * km t - kg t)) -
                                     (Rabs (km t) + sqrt (km t * km t - kg t))))) t0
                 (E0 * (k * (B' - (A' + s'))))).
  { apply (dcomp _ exp _ _ _ Du). apply derivable_pt_lim_exp. }
  assert (DL : derivable_pt_lim
                 (fun t => ln (1 + exp (k * (Rabs (Rabs (km t) - sqrt (km t * km t - kg t)) -
                                     (Rabs (km t) + sqrt (km t * km t - kg t)))))) t0
                 (/ (1 + E0) * (E0 * (k * (B' - (A' + s')))))).
  { apply (dcomp (fun t => 1 + exp (k * (Rabs (Rabs (km t) - sqrt (km t * km t - kg t)) -
                                     (Rabs (km t) + sqrt (km t * km t - kg t))))) ln).
    - replace (E0 * (k * (B' - (A' + s')))) with (0 + E0 * (k * (B' - (A' + s')))) by ring.
      apply dplus; [apply derivable_pt_lim_const | exact DE].
    - apply derivable_pt_lim_ln. cbv beta. fold a0 s0 E0.
      pose proof (exp_pos (k * (Rabs (Rabs a0 - s0) - (Rabs a0 + s0)))) as He.
      fold E0 in He. lra. }
  unfold CurvDeriv.smooth_max. cbv zeta.
  apply dscal. apply dplus; [apply dplus; assumption|].
  apply derivable_pt_lim_div_scal. exact DL.
Qed.

(** The seeds [dKM] and [dKG] of the reverse sweep are the partial
    derivatives of the smooth maximum. *)
Lemma seeds_match (k val : R) (g H : list R) (km' kg' : R) :
  k <> 0 -> Curvature.KM g H <> 0 -> Curvature.KG g H <> 0 ->
  0 < Curvature.KM g H * Curvature.KM g H - Curvature.KG g H ->
  let a0 := Curvature.KM g H in
  let s0 := sqrt (a0 * a0 - Curvature.KG g H) in
  let A' := Rabs a0 / a0 * km' in
  let s' := / (2 * s0) * (km' * a0 + a0 * km' - kg') in
  let B' := Rabs (Rabs a0 - s0) / (Rabs a0 - s0) * (A' - s') in
  let E0 := exp (k * (Rabs (Rabs a0 - s0) - (Rabs a0 + s0))) in
  Curvature.factor val *
  (A' + s' + / (1 + E0) * (E0 * (k * (B' - (A' + s')))) / k) =
  CurvDeriv.dKM k val g H * km' + CurvDeriv.dKG k val g H * kg'.
Proof.
  intros Hk Ha Hg Hs a0 s0 A' s' B' E0.
  assert (Hs0 : 0 < s0) by (apply sqrt_lt_R0; exact Hs).
  assert (Hss : s0 * s0 = a0 * a0 - Curvature.KG g H)
    by (apply sqrt_sqrt; unfold a0; lra).
  assert (Hd : Rabs a0 <> s0).
  { intros E. apply Hg.
    assert (Ea : Rabs a0 * Rabs a0 = a0 * a0)
      by (unfold Rabs; destruct (Rcase_abs a0); ring).
    nra. }
  assert (Eexp : CurvDeriv.expdiff k g H = E0).
  { unfold CurvDeriv.expdiff, Curvature.kmax_kdiff, Curvature.k1, Curvature.k2,
      Curvature.sqrtk. fold a0. fold s0.
    rewrite abs_pair_max by lra. reflexivity. }
  unfold CurvDeriv.dKM, CurvDeriv.dKG, CurvDeriv.dsqrtk, CurvDeriv.seed2,
    CurvDeriv.seed1, CurvDeriv.dk12, CurvDeriv.dkdiff, CurvDeriv.dkmax.
  rewrite Eexp.
  unfold Curvature.k1, Curvature.k2, Curvature.sqrtk. fold a0. fold s0.
  assert (HE : 0 < E0) by apply exp_pos.
  unfold B', A', s'. clear B' A' s'. clearbody E0. clear Eexp.
  set (F := Curvature.factor val).
  fold a0 in Ha. clearbody s0 a0 F.
  replace (-0.5) with (- / 2) by lra.
  unfold Rabs in *.
  repeat match goal with
         | |- context [Rcase_abs ?x] => destruct (Rcase_abs x)
         | H : context [Rcase_abs ?x] |- _ => destruct (Rcase_abs x)
         end;
    repeat match goal with
           | |- context [Rgt_dec ?x ?y] => destruct (Rgt_dec x y)
           end;
    cbn [fst snd]; try lra; field; repeat split; lra.
Qed.

Lemma KG_unguarded (g H : list R) :
  Curvature.KG g H = Curvature.Hfact g H / (Curvature.gn g * Curvature.gn g).
Proof.
  unfold Curvature.KG. destruct (Req_dec_T (Curvature.gn g) 0) as [E|_]; [|reflexivity].
  rewrite E. unfold Rdiv. replace (0 * 0) with 0 by ring. rewrite Rinv_0. ring.
Qed.

Lemma KM_unguarded (g H : list R) :
  Curvature.KM g H =
  0.5 * (Curvature.Hprod g H - Curvature.gn g * (rd H 0 + rd H 3 + rd H 5)) /
  (Curvature.gn g * Curvature.sqrtgn g).
Proof.
  unfold Curvature.KM. destruct (Req_dec_T (Curvature.gn g) 0) as [E|_]; [|reflexivity].
  rewrite E. unfold Rdiv. rewrite (Rmult_0_l (Curvature.sqrtgn g)), Rinv_0. ring.
Qed.

Lemma evalCurvature_smooth_max (k val : R) (g H : list R) :
  Curvature.evalCurvature k g H val =
  CurvDeriv.smooth_max k val (Curvature.KM g H) (Curvature.KG g H).
Proof. rewrite evalCurvature_as_coded. reflexivity. Qed.

(** The mean curvature along a curve of [Hprod], [gn] and the trace. *)
Lemma KM_curve_deriv (hp n tr : R -> R) (t0 hp' n' tr' : R) :
  derivable_pt_lim hp t0 hp' -> derivable_pt_lim n t0 n' ->
  derivable_pt_lim tr t0 tr' -> 0 < n t0 ->
  derivable_pt_lim (fun t => 0.5 * (hp t - n t * tr t) / (n t * sqrt (n t))) t0
    (/ 2 * hp' / (n t0 * sqrt (n t0)) - / 2 * tr' / sqrt (n t0)
     - / 2 * n' * ((3 / 2 * hp t0 - / 2 * n t0 * tr t0) /
                   (n t0 * n t0 * sqrt (n t0)))).
Proof.
  intros Dhp Dn Dtr Hn.
  assert (Hs : 0 < sqrt (n t0)) by (now apply sqrt_lt_R0).
  assert (Hss : sqrt (n t0) * sqrt (n t0) = n t0) by (apply sqrt_sqrt; lra).
  assert (Dnum : derivable_pt_lim (fun t => 0.5 * (hp t - n t * tr t)) t0
                   (0.5 * (hp' - (n' * tr t0 + n t0 * tr'))))
    by (apply (dscal 0.5 (fun t => hp t - n t * tr t)), (dminus hp (fun t => n t * tr t));
        [exact Dhp | now apply (dmult n tr)]).
  assert (Dden : derivable_pt_lim (fun t => n t * sqrt (n t)) t0
                   (n' * sqrt (n t0) + n t0 * (/ (2 * sqrt (n t0)) * n'))).
  { apply (dmult n (fun t => sqrt (n t))); [exact Dn|].
    apply (dcomp n sqrt); [exact Dn|].
    now apply derivable_pt_lim_sqrt. }
  eapply derivable_pt_lim_eq.
  - apply (ddiv _ _ _ _ _ Dnum Dden). cbv beta. nra.
  - cbv beta. replace 0.5 with (/ 2) by lra.
    set (s := sqrt (n t0)) in *. rewrite <- Hss. clearbody s.
    field. lra.
Qed.

Lemma KG_curve_deriv (hf n : R -> R) (t0 hf' n' : R) :
  derivable_pt_lim hf t0 hf' -> derivable_pt_lim n t0 n' -> n t0 <> 0 ->
  derivable_pt_lim (fun t => hf t / (n t * n t)) t0
    (hf' / (n t0 * n t0) - 2 * hf t0 * n' / (n t0 * n t0 * n t0)).
Proof.
  intros Dhf Dn Hn.
  eapply derivable_pt_lim_eq.
  - apply (ddiv hf (fun t => n t * n t) t0 hf' (n' * n t0 + n t0 * n')).
    + exact Dhf.
    + now apply (dmult n n).
    + cbv beta. nra.
  - cbv beta. field. exact Hn.
Qed.

(** The chain rule through [evalCurvature]: along curves of gradients and
    Hessians the derivative is assembled from [dHprod], [dKM], [dHfact]
    and [dgn] as the code does. *)
Lemma curvature_chain (k val : R) (G HH : R -> list R) (t0 hp' n' tr' hf' : R) :
  derivable_pt_lim (fun t => Curvature.Hprod (G t) (HH t)) t0 hp' ->
  derivable_pt_lim (fun t => Curvature.gn (G t)) t0 n' ->
  derivable_pt_lim (fun t => rd (HH t) 0 + rd (HH t) 3 + rd (HH t) 5) t0 tr' ->
  derivable_pt_lim (fun t => Curvature.Hfact (G t) (HH t)) t0 hf' ->
  k <> 0 -> Curvature.gn (G t0) <> 0 ->
  Curvature.KM (G t0) (HH t0) <> 0 -> Curvature.KG (G t0) (HH t0) <> 0 ->
  0 < Curvature.KM (G t0) (HH t0) * Curvature.KM (G t0) (HH t0) -
      Curvature.KG (G t0) (HH t0) ->
  derivable_pt_lim (fun t => Curvature.evalCurvature k (G t) (HH t) val) t0
    (CurvDeriv.dHprod k val (G t0) (HH t0) * hp'
     - 0.5 * CurvDeriv.dKM k val (G t0) (HH t0) / Curvature.sqrtgn (G t0) * tr'
     + CurvDeriv.dHfact k val (G t0) (HH t0) * hf'
     + CurvDeriv.dgn k val (G t0) (HH t0) * n').
Proof.
  intros Dhp Dn Dtr Dhf Hk Hgn HKM HKG Hpos.
  pose proof (gn_nonneg (G t0)) as Hnn.
  assert (Hn : 0 < Curvature.gn (G t0)) by lra.
  set (KMc := fun t => 0.5 * (Curvature.Hprod (G t) (HH t) -
                              Curvature.gn (G t) * (rd (HH t) 0 + rd (HH t) 3 + rd (HH t) 5)) /
                       (Curvature.gn (G t) * sqrt (Curvature.gn (G t)))).
  set (KGc := fun t => Curvature.Hfact (G t) (HH t) /
                       (Curvature.gn (G t) * Curvature.gn (G t))).
  assert (EM : forall t, KMc t = Curvature.KM (G t) (HH t))
    by (intros t; unfold KMc; now rewrite KM_unguarded).
  assert (EG : forall t, KGc t = Curvature.KG (G t) (HH t))
    by (intros t; unfold KGc; now rewrite KG_unguarded).
  apply (derivable_pt_lim_ext (fun t => CurvDeriv.smooth_max k val (KMc t) (KGc t))).
  { intros t. now rewrite evalCurvature_smooth_max, EM, EG. }
  pose proof (KM_curve_deriv _ _ _ t0 hp' n' tr' Dhp Dn Dtr Hn) as DKM.
  pose proof (KG_curve_deriv _ _ t0 hf' n' Dhf Dn Hgn) as DKG.
  fold KMc in DKM. fold KGc in DKG.
  pose proof (smooth_max_deriv k val KMc KGc t0 _ _ DKM DKG) as D.
  rewrite !EM, !EG in D. specialize (D HKM HKG Hpos). cbv zeta in D.
  pose proof (seeds_match k val (G t0) (HH t0)
                (/ 2 * hp' / (Curvature.gn (G t0) * sqrt (Curvature.gn (G t0))) -
                 / 2 * tr' / sqrt (Curvature.gn (G t0)) -
                 / 2 * n' *
                 ((3 / 2 * Curvature.Hprod (G t0) (HH t0) -
                   / 2 * Curvature.gn (G t0) *
                   (rd (HH t0) 0 + rd (HH t0) 3 + rd (HH t0) 5)) /
                  (Curvature.gn (G t0) * Curvature.gn (G t0) *
                   sqrt (Curvature.gn (G t0)))))
                (hf' / (Curvature.gn (G t0) * Curvature.gn (G t0)) -
                 2 * Curvature.Hfact (G t0) (HH t0) * n' /
                 (Curvature.gn (G t0) * Curvature.gn (G t0) * Curvature.gn (G t0)))
                Hk HKM HKG Hpos) as S.
  cbv zeta in S. rewrite S in D. clear S.
  eapply derivable_pt_lim_eq; [exact D|].
  unfold CurvDeriv.dHprod, CurvDeriv.dHfact, CurvDeriv.dgn, Curvature.sqrtgn.
  assert (Hs : 0 < sqrt (Curvature.gn (G t0))) by (now apply sqrt_lt_R0).
  replace (-0.5) with (- / 2) by lra.
  replace 0.5 with (/ 2) by lra. replace 1.5 with (3 / 2) by lra.
  replace 2.0 with 2 by lra.
  field. split; lra.
Qed.

(** One partial derivative: the four polynomials are differentiated
    syntactically and the result is compared with the entry of the code. *)
Ltac partial_derivative G HH :=
  eapply derivable_pt_lim_eq;
  [ apply (curvature_chain _ _ G HH);
    [ unfold Curvature.Hprod; cbn [rd nth]; derive_poly
    | unfold Curvature.gn; cbn [rd nth]; derive_poly
    | cbn [rd nth]; derive_poly
    | unfold Curvature.Hfact, Curvature.Hf; cbn [rd nth]; derive_poly
    | assumption .. ]
  | cbv beta;
    unfold CurvDeriv.evalCurvDeriv, CurvDeriv.dH, CurvDeriv.dH0, CurvDeriv.dHf,
      CurvDeriv.dg, Curvature.Hf;
    cbn [CurvDeriv.cd_dH CurvDeriv.cd_dg rd nth];
    try replace 2.0 with 2 by lra; try replace (-0.5) with (- / 2) by lra;
    try replace 0.5 with (/ 2) by lra; unfold Rdiv; ring ].

(** X17.  Where the two principal curvatures are distinct and not zero (gradient
    not zero, KM <> 0, KG <> 0, KM^2 > KG) and the aggregate weight is not
    zero, the arrays [dH] and [dg] that [evalCurvDeriv] writes hold the
    partial derivatives of the value of [evalCurvature] with respect to the
    six packed entries of the Hessian and the three entries of the
    gradient. *)
Theorem evalCurvDeriv_gradient (k val g0 g1 g2 h0 h1 h2 h3 h4 h5 : R) :
  let g := [g0; g1; g2] in
  let H := [h0; h1; h2; h3; h4; h5] in
  let d := CurvDeriv.evalCurvDeriv k val g H in
  k <> 0 -> Curvature.gn g <> 0 ->
  Curvature.KM g H <> 0 -> Curvature.KG g H <> 0 ->
  0 < Curvature.KM g H * Curvature.KM g H - Curvature.KG g H ->
  (derivable_pt_lim
     (fun t => Curvature.evalCurvature k g [t; h1; h2; h3; h4; h5] val) h0
     (rd (CurvDeriv.cd_dH d) 0) /\
   derivable_pt_lim
     (fun t => Curvature.evalCurvature k g [h0; t; h2; h3; h4; h5] val) h1
     (rd (CurvDeriv.cd_dH d) 1) /\
   derivable_pt_lim
     (fun t => Curvature.evalCurvature k g [h0; h1; t; h3; h4; h5] val) h2
     (rd (CurvDeriv.cd_dH d) 2) /\
   derivable_pt_lim
     (fun t => Curvature.evalCurvature k g [h0; h1; h2; t; h4; h5] val) h3
     (rd (CurvDeriv.cd_dH d) 3) /\
   derivable_pt_lim
     (fun t => Curvature.evalCurvature k g [h0; h1; h2; h3; t; h5] val) h4
     (rd (CurvDeriv.cd_dH d) 4) /\
   derivable_pt_lim
     (fun t => Curvature.evalCurvature k g [h0; h1; h2; h3; h4; t] val) h5
     (rd (CurvDeriv.cd_dH d) 5)) /\
  (derivable_pt_lim
     (fun t => Curvature.evalCurvature k [t; g1; g2] H val) g0
     (rd (CurvDeriv.cd_dg d) 0) /\
   derivable_pt_lim
     (fun t => Curvature.evalCurvature k [g0; t; g2] H val) g1
     (rd (CurvDeriv.cd_dg d) 1) /\
   derivable_pt_lim
     (fun t => Curvature.evalCurvature k [g0; g1; t] H val) g2
     (rd (CurvDeriv.cd_dg d) 2)).
Proof.
  cbv zeta; intros Hk Hgn HKM HKG Hpos.
  split; [split; [|split; [|split; [|split; [|split]]]] | split; [|split]].
  - partial_derivative (fun _ : R => [g0; g1; g2]) (fun t => [t; h1; h2; h3; h4; h5]).
  - partial_derivative (fun _ : R => [g0; g1; g2]) (fun t => [h0; t; h2; h3; h4; h5]).
  - partial_derivative (fun _ : R => [g0; g1; g2]) (fun t => [h0; h1; t; h3; h4; h5]).
  - partial_derivative (fun _ : R => [g0; g1; g2]) (fun t => [h0; h1; h2; t; h4; h5]).
  - partial_derivative (fun _ : R => [g0; g1; g2]) (fun t => [h0; h1; h2; h3; t; h5]).
  - partial_derivative (fun _ : R => [g0; g1; g2]) (fun t => [h0; h1; h2; h3; h4; t]).
  - partial_derivative (fun t => [t; g1; g2]) (fun _ : R => [h0; h1; h2; h3; h4; h5]).
  - partial_derivative (fun t => [g0; t; g2]) (fun _ : R => [h0; h1; h2; h3; h4; h5]).
  - partial_derivative (fun t => [g0; g1; t]) (fun _ : R => [h0; h1; h2; h3; h4; h5]).
Qed.

(** The curvatures of the level set of [x + (y^2 + 3 z^2)/2] at the
    origin: gradient [(1, 0, 0)], Hessian [diag (0, 1, 3)]. *)
Lemma paraboloid_curvatures :
  Curvature.gn [1; 0; 0] = 1 /\
  Curvature.KM [1; 0; 0] [0; 0; 0; 1; 0; 3] = -2 /\
  Curvature.KG [1; 0; 0] [0; 0; 0; 1; 0; 3] = 3.
Proof.
  assert (Hg : Curvature.gn [1; 0; 0] = 1)
    by (unfold Curvature.gn; cbn [rd nth]; ring).
  split; [exact Hg|]. split.
  - rewrite KM_unguarded. unfold Curvature.sqrtgn. rewrite Hg, sqrt_1.
    unfold Curvature.Hprod. cbn [rd nth]. lra.
  - rewrite KG_unguarded, Hg. unfold Curvature.Hfact, Curvature.Hf.
    cbn [rd nth]. lra.
Qed.

Lemma evalCurvDeriv_gradient_witness :
  (1 <> 0 /\ Curvature.gn [1; 0; 0] <> 0 /\
   Curvature.KM [1; 0; 0] [0; 0; 0; 1; 0; 3] <> 0 /\
   Curvature.KG [1; 0; 0] [0; 0; 0; 1; 0; 3] <> 0 /\
   0 < Curvature.KM [1; 0; 0] [0; 0; 0; 1; 0; 3] *
       Curvature.KM [1; 0; 0] [0; 0; 0; 1; 0; 3] -
       Curvature.KG [1; 0; 0] [0; 0; 0; 1; 0; 3]) /\
  derivable_pt_lim
    (fun t => Curvature.evalCurvature 1 [1; 0; 0] [t; 0; 0; 1; 0; 3] (1 / 2)) 0
    (rd (CurvDeriv.cd_dH
           (CurvDeriv.evalCurvDeriv 1 (1 / 2) [1; 0; 0] [0; 0; 0; 1; 0; 3])) 0).
Proof.
  destruct paraboloid_curvatures as [Hg [Hm Hs]].
  assert (Hk : 1 <> 0) by lra.
  assert (Hgn : Curvature.gn [1; 0; 0] <> 0) by (rewrite Hg; lra).
  assert (HKM : Curvature.KM [1; 0; 0] [0; 0; 0; 1; 0; 3] <> 0)
    by (rewrite Hm; lra).
  assert (HKG : Curvature.KG [1; 0; 0] [0; 0; 0; 1; 0; 3] <> 0)
    by (rewrite Hs; lra).
  assert (Hpos : 0 < Curvature.KM [1; 0; 0] [0; 0; 0; 1; 0; 3] *
                     Curvature.KM [1; 0; 0] [0; 0; 0; 1; 0; 3] -
                     Curvature.KG [1; 0; 0] [0; 0; 0; 1; 0; 3])
    by (rewrite Hm, Hs; lra).
  split; [repeat split; assumption|].
  exact (proj1 (proj1 (evalCurvDeriv_gradient 1 (1 / 2) 1 0 0 0 0 0 1 0 3
                         Hk Hgn HKM HKG Hpos))).
Defined.

(** ** The additional statements at the example meshes *)

Lemma example2_Xpts :
  KS.interp_Xpts Example2.oct3 2 0 =
  flat_map (fun p => [px p; py p; pz p]) Example2.cube_points.
Proof. reflexivity. Qed.

Lemma example2_detJ x y z vars ubar :
  snd (KS.evalStrain Example.lib Example.oct2 Example2.oct3 [x; y; z]
         (KS.interp_Xpts Example2.oct3 2 0) vars ubar) = 1.
Proof.
  rewrite example2_Xpts.
  lazy beta iota zeta delta [KS.evalStrain snd fst].
  cbn [jacobian3d Example.lib snd].
  lazy -[Rplus Rmult Ropp Rminus Rdiv Rinv IZR].
  field.
Qed.

Lemma example2_samples (s : KS.sample) :
  In s (KS.samples Example.lib
          [(Example.oct2, Example2.oct3, Example.assembler 8)] Example.ones) ->
  KS.s_detJ s = 1 /\ 0 < KS.s_weight s /\ KS.s_fval s = 1.
Proof.
  unfold KS.samples. cbn [flat_map]. rewrite app_nil_r.
  lazy beta iota zeta delta [KS.proc_samples KS.elem_data getGaussPtsWts Example.lib].
  intros Hs.
  apply in_flat_map in Hs as (i & Hi & Hs).
  apply in_flat_map in Hs as (kk & Hkk & Hs).
  apply in_flat_map in Hs as (jj & Hjj & Hs).
  apply in_map_iff in Hs as (ii & <- & Hii).
  apply in_seq in Hkk, Hjj, Hii.
  cbn [KS.s_detJ KS.s_weight KS.s_fval].
  assert (i = 0%nat) as -> by (apply in_seq in Hi; cbn in Hi; lia).
  split; [|split].
  - apply example2_detJ.
  - repeat apply Rmult_lt_0_compat; apply example_gauss_weight_pos; lia.
  - reflexivity.
Qed.

Lemma example2_sample_exists :
  exists s, In s (KS.samples Example.lib
                    [(Example.oct2, Example2.oct3, Example.assembler 8)] Example.ones).
Proof.
  unfold KS.samples. cbn [flat_map]. rewrite app_nil_r.
  lazy beta iota zeta delta [KS.proc_samples KS.elem_data getGaussPtsWts Example.lib].
  eexists. apply in_flat_map. exists 0%nat. split; [now left|].
  apply in_flat_map. exists 0%nat. split; [now left|].
  apply in_flat_map. exists 0%nat. split; [now left|].
  apply in_map_iff. exists 0%nat. split; [reflexivity | now left].
Qed.

Lemma ks_value_bounds_witness :
  0 < 1 /\
  KS.ks_fail_sum
    (KS.evalConstraint Example.lib 1
       [(Example.oct2, Example2.oct3, Example.assembler 8)] Example.ones) <=
  Rsum (map (fun s => KS.s_detJ s * KS.s_weight s)
            (KS.samples Example.lib
               [(Example.oct2, Example2.oct3, Example.assembler 8)] Example.ones)).
Proof.
  assert (Hk : 0 < 1) by lra.
  assert (He : exists s,
     In s (KS.samples Example.lib
             [(Example.oct2, Example2.oct3, Example.assembler 8)] Example.ones) /\
     -1e20 <= KS.s_fval s).
  { destruct example2_sample_exists as (s & Hs). exists s. split; [exact Hs|].
    destruct (example2_samples s Hs) as (_ & _ & ->). lra. }
  assert (Hp : forall s,
     In s (KS.samples Example.lib
             [(Example.oct2, Example2.oct3, Example.assembler 8)] Example.ones) ->
     0 < KS.s_detJ s * KS.s_weight s).
  { intros s Hs. destruct (example2_samples s Hs) as (-> & Hw & _). lra. }
  split; [exact Hk|].
  pose proof (ks_value_bounds Example.lib 1 _ Example.ones Hk He Hp) as T.
  cbv zeta in T. exact (proj1 (proj2 (proj2 T))).
Defined.

Lemma computeLocalWeights_counts_references_witness :
  (0 <= 0)%Z /\
  Recon.computeLocalWeights [(Example.assembler 8, None)] 0%Z 0%nat =
  INR (count_occ Z.eq_dec
         (flat_map (fun p : TACSAssembler * option (list nat) =>
                      flat_map (fun elem => el_nodes (getElement (fst p) elem))
                               (elem_loop (fst p) (snd p)))
                   [(Example.assembler 8, None)]) 0%Z).
Proof.
  split; [exact (Z.le_refl 0)|].
  pose proof (computeLocalWeights_counts_references
                [(Example.assembler 8, None)] 0%Z (Z.le_refl 0)) as T.
  cbv zeta in T. exact (proj1 T).
Defined.

Lemma evalDeriv_affine_exact_witness :
  0 < 1 / 4 /\ 2 * (1 / 4) <= 1 - 0 /\ 0 <= 1 <= 1 /\
  Curve.evalDeriv (1 / 4)
    {| Curve.getRange := (0, 1);
       Curve.evalPoint := fun s =>
         (0%Z, {| px := 0 + s * 1; py := 0 + s * 2; pz := 0 + s * 2 |}) |}
    1 {| px := 0; py := 0; pz := 0 |} =
  (0%Z, {| px := 1; py := 2; pz := 2 |}).
Proof.
  assert (H1 : 0 < 1 / 4) by lra.
  assert (H2 : 2 * (1 / 4) <= 1 - 0) by lra.
  assert (H3 : 0 <= 1 <= 1) by lra.
  split; [exact H1|]. split; [exact H2|]. split; [exact H3|].
  exact (evalDeriv_affine_exact (1 / 4) 0 1
           {| px := 0; py := 0; pz := 0 |} {| px := 1; py := 2; pz := 2 |}
           1 {| px := 0; py := 0; pz := 0 |} H1 H2 H3).
Defined.

Lemma integrate_table_witness :
  (22 <= 22)%nat /\
  exists tvals dist nvals len,
    Curve.integrate 22 Example2.segment 0 1 (1 / 100) =
      Some (tvals, dist, nvals, len) /\
    hd 0 tvals = 0 /\ last tvals 0 = 1 /\ length tvals = nvals.
Proof.
  split; [exact (Nat.le_refl 22)|].
  destruct (integrate_table 22 Example2.segment 0 1 (1 / 100) (Nat.le_refl 22))
    as (tvals & dist & nvals & len & E & Lt & _ & _ & Hh & Hl & _).
  exists tvals, dist, nvals, len. auto.
Defined.


Lemma induced_curvature_bounds_witness :
  CurvCon.results Example.lib 1 [Example2.curv_proc] Example.ones Example.ones <> [] /\
  CurvCon.func_val
    (CurvCon.evalConstraint Example.lib 1 [Example2.curv_proc]
       Example.ones Example.ones) <=
  CurvCon.max_curvature
    (CurvCon.evalConstraint Example.lib 1 [Example2.curv_proc]
       Example.ones Example.ones).
Proof.
  assert (Hne : CurvCon.results Example.lib 1 [Example2.curv_proc]
                  Example.ones Example.ones <> [])
    by (unfold CurvCon.results; cbn [flat_map Example2.curv_proc
          CurvCon.cp_num_elements seq map app]; discriminate).
  split; [exact Hne|].
  pose proof (induced_curvature_bounds Example.lib 1 [Example2.curv_proc]
                Example.ones Example.ones Hne) as T.
  cbv zeta in T. exact (proj1 (proj2 (proj2 (proj2 (proj2 T))))).
Defined.

(** ** The reverse sweep of addCurvDeriv *)

Lemma rd_with_entry (a : list R) (i j : nat) (v : R) :
  (i < length a)%nat ->
  rd (with_entry a i v) j = if Nat.eqb j i then v else rd a j.
Proof.
  intros Hi. apply (rd_store a). now apply store_Some.
Qed.

(** A sum in which one term is changed. *)
Lemma accum_bump (f f' : nat -> R) (n j : nat) (c : R) :
  (j < n)%nat ->
  (forall i, f' i = f i + (if Nat.eqb j i then c else 0)) ->
  accum f' n = accum f n + c.
Proof.
  intros Hj E. rewrite !accum_Rsum.
  rewrite (Rsum_map_ext_in f' (fun i => f i + (if Nat.eqb j i then c else 0)))
    by (intros; apply E).
  rewrite Rsum_map_plus, (Rsum_pick (fun _ => c)).
  destruct (Nat.leb_spec 0 j); [|lia].
  destruct (Nat.ltb_spec j (0 + n)); [|lia]. reflexivity.
Qed.

Lemma accum_with_entry_val (es : nat) (ev Nx : list R) (j : nat) (t : R) :
  (j < es)%nat -> (es <= length ev)%nat ->
  accum (fun i => rd (with_entry ev j t) i * rd Nx i) es =
  accum (fun i => rd ev i * rd Nx i) es + (t - rd ev j) * rd Nx j.
Proof.
  intros Hj Hl. apply (accum_bump _ _ es j); [exact Hj|].
  intros i. rewrite rd_with_entry by lia.
  destruct (Nat.eqb_spec i j) as [->|Hne].
  - rewrite Nat.eqb_refl. ring.
  - destruct (Nat.eqb_spec j i); [congruence|]. ring.
Qed.

Lemma accum_with_entry_deriv (es : nat) (ed Nx : list R) (j c d : nat) (t : R) :
  (j < es)%nat -> (c < 3)%nat -> (d < 3)%nat -> (3 * es <= length ed)%nat ->
  accum (fun i => rd (with_entry ed (3 * j + c) t) (3 * i + d) * rd Nx i) es =
  accum (fun i => rd ed (3 * i + d) * rd Nx i) es +
  (if Nat.eqb d c then (t - rd ed (3 * j + c)) * rd Nx j else 0).
Proof.
  intros Hj Hc Hd Hl.
  destruct (Nat.eqb_spec d c) as [->|Hne].
  - apply (accum_bump _ _ es j); [exact Hj|].
    intros i. rewrite rd_with_entry by lia.
    destruct (Nat.eqb_spec (3 * i + c) (3 * j + c)) as [E|E].
    + assert (i = j) by lia. subst i. rewrite Nat.eqb_refl. ring.
    + destruct (Nat.eqb_spec j i); [subst; lia|]. ring.
  - rewrite Rplus_0_r, !accum_Rsum. apply Rsum_map_ext_in.
    intros i _. rewrite rd_with_entry by lia.
    destruct (Nat.eqb_spec (3 * i + d) (3 * j + c)); [lia|reflexivity].
Qed.

(** The derivative of the value of [evalCurvature] along a line of
    gradients and Hessians is the pairing of [dg] and [dH] with the
    direction of the line. *)
Lemma curvature_directional (k val g0 g1 g2 h0 h1 h2 h3 h4 h5 : R)
    (a0 a1 a2 b0 b1 b2 b3 b4 b5 t0 : R) :
  let g := [g0; g1; g2] in
  let H := [h0; h1; h2; h3; h4; h5] in
  let d := CurvDeriv.evalCurvDeriv k val g H in
  k <> 0 -> Curvature.gn g <> 0 ->
  Curvature.KM g H <> 0 -> Curvature.KG g H <> 0 ->
  0 < Curvature.KM g H * Curvature.KM g H - Curvature.KG g H ->
  derivable_pt_lim
    (fun t => Curvature.evalCurvature k
       [g0 + (t - t0) * a0; g1 + (t - t0) * a1; g2 + (t - t0) * a2]
       [h0 + (t - t0) * b0; h1 + (t - t0) * b1; h2 + (t - t0) * b2;
        h3 + (t - t0) * b3; h4 + (t - t0) * b4; h5 + (t - t0) * b5] val) t0
    (rd (CurvDeriv.cd_dg d) 0 * a0 + rd (CurvDeriv.cd_dg d) 1 * a1 +
     rd (CurvDeriv.cd_dg d) 2 * a2 +
     (rd (CurvDeriv.cd_dH d) 0 * b0 + rd (CurvDeriv.cd_dH d) 1 * b1 +
      rd (CurvDeriv.cd_dH d) 2 * b2 + rd (CurvDeriv.cd_dH d) 3 * b3 +
      rd (CurvDeriv.cd_dH d) 4 * b4 + rd (CurvDeriv.cd_dH d) 5 * b5)).
Proof.
  cbv zeta. intros Hk Hgn HKM HKG Hpos.
  pose (G := fun t : R =>
    [g0 + (t - t0) * a0; g1 + (t - t0) * a1; g2 + (t - t0) * a2]).
  pose (HH := fun t : R =>
    [h0 + (t - t0) * b0; h1 + (t - t0) * b1; h2 + (t - t0) * b2;
     h3 + (t - t0) * b3; h4 + (t - t0) * b4; h5 + (t - t0) * b5]).
  assert (EG : G t0 = [g0; g1; g2]) by (unfold G; repeat f_equal; ring).
  assert (EH : HH t0 = [h0; h1; h2; h3; h4; h5])
    by (unfold HH; repeat f_equal; ring).
  eapply derivable_pt_lim_eq.
  - apply (curvature_chain k val G HH t0).
    + unfold G, HH, Curvature.Hprod; cbn [rd nth]; derive_poly.
    + unfold G, Curvature.gn; cbn [rd nth]; derive_poly.
    + unfold HH; cbn [rd nth]; derive_poly.
    + unfold G, HH, Curvature.Hfact, Curvature.Hf; cbn [rd nth]; derive_poly.
    + exact Hk.
    + rewrite EG; exact Hgn.
    + rewrite EG, EH; exact HKM.
    + rewrite EG, EH; exact HKG.
    + rewrite EG, EH; exact Hpos.
  - rewrite EG, EH.
    unfold CurvDeriv.evalCurvDeriv, CurvDeriv.dH, CurvDeriv.dH0, CurvDeriv.dHf,
      CurvDeriv.dg, Curvature.Hf.
    cbn [CurvDeriv.cd_dH CurvDeriv.cd_dg rd nth].
    replace 2.0 with 2 by lra. replace (-0.5) with (- / 2) by lra.
    replace 0.5 with (/ 2) by lra. unfold Rdiv. ring.
Qed.

(** What the second loop of [addCurvDeriv] leaves in [dvals] and
    [dderiv]. *)
Lemma add_node_loop (alpha dval : R) (N Na Nb Nc dg dh : list R) (es : nat)
    (dvals dderiv : list R) :
  (es <= length dvals)%nat -> (3 * es <= length dderiv)%nat ->
  exists s,
    Mem.for_ (seq 0 es) (ElemCurv.add_node alpha dval N Na Nb Nc dg dh)
      (dvals, dderiv) = Some s /\
    (forall j, (j < es)%nat ->
       rd (fst s) j = rd dvals j + alpha * dval * rd N j) /\
    (forall j c, (j < es)%nat -> (c < 3)%nat ->
       rd (snd s) (3 * j + c) =
       rd dderiv (3 * j + c) +
       alpha * (rd N j * rd dg c + rd Na j * rd dh (3 * c) +
                rd Nb j * rd dh (3 * c + 1) + rd Nc j * rd dh (3 * c + 2))).
Proof.
  intros Lv Ld.
  pose (P := fun (i : nat) (s : list R * list R) =>
    length (fst s) = length dvals /\ length (snd s) = length dderiv /\
    (forall j, rd (fst s) j =
       rd dvals j + (if Nat.ltb j i then alpha * dval * rd N j else 0)) /\
    (forall j c, (c < 3)%nat ->
       rd (snd s) (3 * j + c) =
       rd dderiv (3 * j + c) +
       (if Nat.ltb j i
        then alpha * (rd N j * rd dg c + rd Na j * rd dh (3 * c) +
                      rd Nb j * rd dh (3 * c + 1) + rd Nc j * rd dh (3 * c + 2))
        else 0))).
  destruct (for_seq_invariant P
              (ElemCurv.add_node alpha dval N Na Nb Nc dg dh) es (dvals, dderiv))
    as (s & E & _ & _ & Pv & Pd).
  - unfold P; cbn [fst snd]. repeat split; intros; cbn [Nat.ltb Nat.leb]; ring.
  - intros i [dv dd] Hi (L1 & L2 & Pv & Pd). cbn [fst snd] in *.
    unfold ElemCurv.add_node.
    destruct (add_to_accumulate dv i (alpha * dval * rd N i)) as (dv1 & E1 & M1 & R1);
      [lia|].
    rewrite E1; cbn [Mem.bind].
    match goal with |- context [Mem.add_to dd (3 * i) ?v] =>
      destruct (add_to_accumulate dd (3 * i) v) as (dd1 & E2 & M2 & R2); [lia|]
    end.
    rewrite E2; cbn [Mem.bind].
    match goal with |- context [Mem.add_to dd1 (3 * i + 1) ?v] =>
      destruct (add_to_accumulate dd1 (3 * i + 1) v) as (dd2 & E3 & M3 & R3); [lia|]
    end.
    rewrite E3; cbn [Mem.bind].
    match goal with |- context [Mem.add_to dd2 (3 * i + 2) ?v] =>
      destruct (add_to_accumulate dd2 (3 * i + 2) v) as (dd3 & E4 & M4 & R4); [lia|]
    end.
    rewrite E4; cbn [Mem.bind].
    eexists; split; [reflexivity|].
    unfold P; cbn [fst snd]. split; [lia|]. split; [lia|]. split.
    + intros j. rewrite R1, Pv.
      destruct (Nat.ltb_spec j i), (Nat.ltb_spec j (S i)), (Nat.eqb_spec j i);
        try lia; subst; ring.
    + intros j c Hc. rewrite R4, R3, R2, Pd by exact Hc.
      destruct (Nat.ltb_spec j i), (Nat.ltb_spec j (S i));
        destruct (Nat.eqb_spec (3 * j + c) (3 * i)),
                 (Nat.eqb_spec (3 * j + c) (3 * i + 1)),
                 (Nat.eqb_spec (3 * j + c) (3 * i + 2));
        try lia;
        try (assert (j = i) by lia; subst j);
        try (assert (c = 0)%nat by lia; subst c);
        try (assert (c = 1)%nat by lia; subst c);
        try (assert (c = 2)%nat by lia; subst c);
        cbn [Nat.mul Nat.add]; ring.
  - exists s. split; [exact E|]. split.
    + intros j Hj. rewrite Pv. destruct (Nat.ltb_spec j es); [reflexivity|lia].
    + intros j c Hj Hc. rewrite Pd by exact Hc.
      destruct (Nat.ltb_spec j es); [reflexivity|lia].
Qed.

(** The value of [evalCurvature] along a line of values [val]. *)
Lemma curvature_val_line (k : R) (g H : list R) (v n t0 : R) :
  derivable_pt_lim (fun t => Curvature.evalCurvature k g H (v + (t - t0) * n)) t0
    (CurvDeriv.cd_dval (CurvDeriv.evalCurvDeriv k v g H) * n).
Proof.
  unfold CurvDeriv.evalCurvDeriv, CurvDeriv.dfactor, CurvDeriv.ksres,
    CurvDeriv.expdiff, Curvature.evalCurvature, Curvature.factor.
  cbv zeta. cbn [CurvDeriv.cd_dval].
  set (C := fst (Curvature.kmax_kdiff g H) +
            ln (1 + exp (k * snd (Curvature.kmax_kdiff g H))) / k).
  eapply derivable_pt_lim_eq; [derive_poly | ring].
Qed.

Ltac entries_eq :=
  repeat (apply (f_equal2 (@cons R));
          [try replace 0.5 with (/ 2) by lra; ring|]);
  reflexivity.

(** X18.  [addCurvDeriv] returns the value of [evalCurvature] at the point and
    adds to [dvals[j]] and [dderiv[3*j + c]] the number [alpha] times the
    partial derivative of that value with respect to [elem_vals[j]] and
    [elem_deriv[3*j + c]], where the interpolated gradient and Hessian give
    two distinct principal curvatures that are not zero. *)
Theorem addCurvDeriv_gradient (k alpha : R) (es : nat)
    (N Na Nb Nc J ev ed dvals dderiv : list R) :
  let vgH := Poly.interp_val_g_H es N Na Nb Nc J ev ed in
  let g := snd (fst vgH) in
  let H := snd vgH in
  (es <= length ev)%nat -> (3 * es <= length ed)%nat ->
  (es <= length dvals)%nat -> (3 * es <= length dderiv)%nat ->
  k <> 0 -> Curvature.gn g <> 0 ->
  Curvature.KM g H <> 0 -> Curvature.KG g H <> 0 ->
  0 < Curvature.KM g H * Curvature.KM g H - Curvature.KG g H ->
  exists dv dd,
    ElemCurv.addCurvDeriv k alpha es N Na Nb Nc J ev ed dvals dderiv =
      Some (Poly.evalCurvature_elem k es N Na Nb Nc J ev ed, dv, dd) /\
    (forall j, (j < es)%nat ->
       exists D,
         derivable_pt_lim
           (fun t => Poly.evalCurvature_elem k es N Na Nb Nc J
                       (with_entry ev j t) ed) (rd ev j) D /\
         rd dv j = rd dvals j + alpha * D) /\
    (forall j c, (j < es)%nat -> (c < 3)%nat ->
       exists D,
         derivable_pt_lim
           (fun t => Poly.evalCurvature_elem k es N Na Nb Nc J ev
                       (with_entry ed (3 * j + c) t))
           (rd ed (3 * j + c)) D /\
         rd dd (3 * j + c) = rd dderiv (3 * j + c) + alpha * D).
Proof.
  cbv zeta. unfold ElemCurv.addCurvDeriv, Poly.evalCurvature_elem,
    Poly.interp_val_g_H.
  cbv beta zeta iota. cbn [fst snd].
  intros Lev Led Ldv Ldd Hk Hgn HKM HKG Hpos.
  match goal with |- context [CurvDeriv.evalCurvDeriv k ?v ?g ?H] =>
    set (d := CurvDeriv.evalCurvDeriv k v g H) in *; set (V := v) in *
  end.
  destruct (add_node_loop alpha (CurvDeriv.cd_dval d) N Na Nb Nc
              (CurvDeriv.cd_dg d) (ElemCurv.dh J (CurvDeriv.cd_dH d))
              es dvals dderiv Ldv Ldd) as ([dv dd] & E & Pv & Pd).
  cbn [fst snd] in Pv, Pd.
  exists dv, dd. rewrite E. cbn [Mem.bind fst snd]. split; [reflexivity|]. split.
  - intros j Hj. exists (CurvDeriv.cd_dval d * rd N j). split.
    + eapply derivable_pt_lim_ext;
        [|apply (curvature_val_line k _ _ V (rd N j) (rd ev j))].
      intros t. cbv beta. rewrite accum_with_entry_val by assumption.
      reflexivity.
    + rewrite Pv by exact Hj. ring.
  - intros j c Hj Hc.
    pose (a := fun e : nat => if Nat.eqb e c then rd N j else 0).
    pose (q := fun (e : nat) (Nx : list R) =>
                 if Nat.eqb e c then rd Nx j else 0).
    match type of Hgn with
    | Curvature.gn [?g0; ?g1; ?g2] <> 0 =>
      match type of HKG with
      | Curvature.KG _ [?h0; ?h1; ?h2; ?h3; ?h4; ?h5] <> 0 =>
        pose proof (curvature_directional k V g0 g1 g2 h0 h1 h2 h3 h4 h5
          (a 0%nat) (a 1%nat) (a 2%nat)
          (rd J 0 * q 0%nat Na + rd J 3 * q 0%nat Nb + rd J 6 * q 0%nat Nc)
          (0.5 * ((rd J 1 * q 0%nat Na + rd J 4 * q 0%nat Nb + rd J 7 * q 0%nat Nc) +
                  (rd J 0 * q 1%nat Na + rd J 3 * q 1%nat Nb + rd J 6 * q 1%nat Nc)))
          (0.5 * ((rd J 2 * q 0%nat Na + rd J 5 * q 0%nat Nb + rd J 8 * q 0%nat Nc) +
                  (rd J 0 * q 2%nat Na + rd J 3 * q 2%nat Nb + rd J 6 * q 2%nat Nc)))
          (rd J 1 * q 1%nat Na + rd J 4 * q 1%nat Nb + rd J 7 * q 1%nat Nc)
          (0.5 * ((rd J 2 * q 1%nat Na + rd J 5 * q 1%nat Nb + rd J 8 * q 1%nat Nc) +
                  (rd J 1 * q 2%nat Na + rd J 4 * q 2%nat Nb + rd J 7 * q 2%nat Nc)))
          (rd J 2 * q 2%nat Na + rd J 5 * q 2%nat Nb + rd J 8 * q 2%nat Nc)
          (rd ed (3 * j + c)) Hk Hgn HKM HKG Hpos) as D
      end
    end.
    cbv zeta in D. fold d in D.
    eexists. split.
    + eapply derivable_pt_lim_ext; [|exact D].
      intros t. cbv beta.
      rewrite !accum_with_entry_deriv by (assumption || lia).
      unfold a, q.
      destruct c as [|[|[|c]]]; [| | |lia]; cbn [Nat.eqb];
        (f_equal; [entries_eq | entries_eq]).
    + rewrite Pd by assumption.
      unfold ElemCurv.dh, a, q.
      generalize (CurvDeriv.cd_dg d) (CurvDeriv.cd_dH d). intros dG dHl.
      destruct c as [|[|[|c]]]; [| | |lia];
        cbn [Nat.eqb Nat.mul Nat.add rd nth];
        replace 0.5 with (/ 2) by lra; ring.
Qed.

(** Three nodes whose values interpolate to the gradient [(1, 0, 0)] and
    the Hessian [diag (0, 1, 3)]. *)
Lemma three_node_interp :
  Poly.interp_val_g_H 3 [1; 0; 0] [0; 0; 0] [0; 1; 0] [0; 0; 3]
    [1; 0; 0; 0; 1; 0; 0; 0; 1] [1 / 2; 0; 0] [1; 0; 0; 0; 1; 0; 0; 0; 1] =
  (1 / 2, [1; 0; 0], [0; 0; 0; 1; 0; 3]).
Proof.
  unfold Poly.interp_val_g_H, accum, accum_from. cbv zeta.
  cbn [seq fold_left rd nth Nat.mul Nat.add].
  apply (f_equal2 pair); [apply (f_equal2 pair); [lra|]|];
    repeat (apply (f_equal2 (@cons R)); [lra|]); reflexivity.
Qed.

Lemma addCurvDeriv_gradient_witness :
  let N := [1; 0; 0] in
  let Na := [0; 0; 0] in
  let Nb := [0; 1; 0] in
  let Nc := [0; 0; 3] in
  let J := [1; 0; 0; 0; 1; 0; 0; 0; 1] in
  let ev := [1 / 2; 0; 0] in
  let ed := [1; 0; 0; 0; 1; 0; 0; 0; 1] in
  let dvals := [0; 0; 0] in
  let dderiv := [0; 0; 0; 0; 0; 0; 0; 0; 0] in
  let vgH := Poly.interp_val_g_H 3 N Na Nb Nc J ev ed in
  let g := snd (fst vgH) in
  let H := snd vgH in
  ((3 <= length ev)%nat /\ (3 * 3 <= length ed)%nat /\
   (3 <= length dvals)%nat /\ (3 * 3 <= length dderiv)%nat /\
   1 <> 0 /\ Curvature.gn g <> 0 /\
   Curvature.KM g H <> 0 /\ Curvature.KG g H <> 0 /\
   0 < Curvature.KM g H * Curvature.KM g H - Curvature.KG g H) /\
  exists dv dd,
    ElemCurv.addCurvDeriv 1 2 3 N Na Nb Nc J ev ed dvals dderiv =
      Some (Poly.evalCurvature_elem 1 3 N Na Nb Nc J ev ed, dv, dd).
Proof.
  intros N Na Nb Nc J ev ed dvals dderiv vgH g H.
  assert (Eg : g = [1; 0; 0])
    by (unfold g, vgH, N, Na, Nb, Nc, J, ev, ed;
        rewrite three_node_interp; reflexivity).
  assert (EH : H = [0; 0; 0; 1; 0; 3])
    by (unfold H, vgH, N, Na, Nb, Nc, J, ev, ed;
        rewrite three_node_interp; reflexivity).
  destruct paraboloid_curvatures as [Hg [Hm Hs]].
  assert (L1 : (3 <= length ev)%nat) by (cbn; lia).
  assert (L2 : (3 * 3 <= length ed)%nat) by (cbn; lia).
  assert (L3 : (3 <= length dvals)%nat) by (cbn; lia).
  assert (L4 : (3 * 3 <= length dderiv)%nat) by (cbn; lia).
  assert (Hk : 1 <> 0) by lra.
  assert (Hgn : Curvature.gn g <> 0) by (rewrite Eg, Hg; lra).
  assert (HKM : Curvature.KM g H <> 0) by (rewrite Eg, EH, Hm; lra).
  assert (HKG : Curvature.KG g H <> 0) by (rewrite Eg, EH, Hs; lra).
  assert (Hpos : 0 < Curvature.KM g H * Curvature.KM g H - Curvature.KG g H)
    by (rewrite Eg, EH, Hm, Hs; lra).
  split; [repeat split; assumption|].
  destruct (addCurvDeriv_gradient 1 2 3 N Na Nb Nc J ev ed dvals dderiv
              L1 L2 L3 L4 Hk Hgn HKM HKG Hpos) as (dv & dd & E & _).
  exists dv, dd. exact E.
Defined.

(** ** The reverse sweep of addStrainDeriv *)

Lemma accum_from_accum (init : R) (f : nat -> R) (n : nat) :
  accum_from init f n = init + accum f n.
Proof. rewrite accum_from_Rsum, accum_Rsum. reflexivity. Qed.

Lemma Ud_with_vars (ulen : nat) (vars Nx : list R) (j c v : nat) (t : R) :
  (j < ulen)%nat -> (c < 3)%nat -> (v < 3)%nat -> (3 * ulen <= length vars)%nat ->
  accum (fun i => rd Nx i * rd (with_entry vars (3 * j + c) t) (3 * i + v)) ulen =
  accum (fun i => rd Nx i * rd vars (3 * i + v)) ulen +
  (if Nat.eqb v c then (t - rd vars (3 * j + c)) * rd Nx j else 0).
Proof.
  intros Hj Hc Hv Hl. rewrite !accum_Rsum.
  rewrite <- (Rsum_map_ext_in (fun i => rd vars (3 * i + v) * rd Nx i)
                (fun i => rd Nx i * rd vars (3 * i + v)) (seq 0 ulen))
    by (intros; ring).
  rewrite <- !accum_Rsum.
  rewrite <- (accum_with_entry_deriv ulen vars Nx j c v t Hj Hc Hv Hl).
  rewrite !accum_Rsum. apply Rsum_map_ext_in. intros; ring.
Qed.

(** What a loop of [addStrainDeriv] leaves in its array. *)
Lemma add_row_loop (J : list R) (alpha : R) (dfde Nx Ny Nz : list R) (n : nat)
    (out : list R) :
  (3 * n <= length out)%nat ->
  exists out',
    Mem.for_ (seq 0 n) (StrainDeriv.add_row J alpha dfde Nx Ny Nz) out = Some out' /\
    (forall i c, (i < n)%nat -> (c < 3)%nat ->
       let Dx := rd Nx i * rd J 0 + rd Ny i * rd J 3 + rd Nz i * rd J 6 in
       let Dy := rd Nx i * rd J 1 + rd Ny i * rd J 4 + rd Nz i * rd J 7 in
       let Dz := rd Nx i * rd J 2 + rd Ny i * rd J 5 + rd Nz i * rd J 8 in
       rd out' (3 * i + c) =
       rd out (3 * i + c) +
       alpha * rd [ rd dfde 0 * Dx + rd dfde 4 * Dz + rd dfde 5 * Dy;
                    rd dfde 1 * Dy + rd dfde 3 * Dz + rd dfde 5 * Dx;
                    rd dfde 2 * Dz + rd dfde 3 * Dy + rd dfde 4 * Dx ] c).
Proof.
  intros L.
  pose (row := fun i : nat =>
    let Dx := rd Nx i * rd J 0 + rd Ny i * rd J 3 + rd Nz i * rd J 6 in
    let Dy := rd Nx i * rd J 1 + rd Ny i * rd J 4 + rd Nz i * rd J 7 in
    let Dz := rd Nx i * rd J 2 + rd Ny i * rd J 5 + rd Nz i * rd J 8 in
    [ rd dfde 0 * Dx + rd dfde 4 * Dz + rd dfde 5 * Dy;
      rd dfde 1 * Dy + rd dfde 3 * Dz + rd dfde 5 * Dx;
      rd dfde 2 * Dz + rd dfde 3 * Dy + rd dfde 4 * Dx ]).
  pose (P := fun (m : nat) (s : list R) =>
    length s = length out /\
    (forall i c, (c < 3)%nat ->
       rd s (3 * i + c) =
       rd out (3 * i + c) +
       (if Nat.ltb i m then alpha * rd (row i) c else 0))).
  destruct (for_seq_invariant P (StrainDeriv.add_row J alpha dfde Nx Ny Nz) n out)
    as (s & E & _ & Ps).
  - unfold P. split; [reflexivity|]. intros; cbn [Nat.ltb Nat.leb]; ring.
  - intros m s Hm (L1 & Ps). unfold StrainDeriv.add_row. cbv zeta.
    match goal with |- context [Mem.add_to s (3 * m) ?v] =>
      destruct (add_to_accumulate s (3 * m) v) as (s1 & E1 & M1 & R1); [lia|]
    end.
    rewrite E1; cbn [Mem.bind].
    match goal with |- context [Mem.add_to s1 (3 * m + 1) ?v] =>
      destruct (add_to_accumulate s1 (3 * m + 1) v) as (s2 & E2 & M2 & R2); [lia|]
    end.
    rewrite E2; cbn [Mem.bind].
    match goal with |- context [Mem.add_to s2 (3 * m + 2) ?v] =>
      destruct (add_to_accumulate s2 (3 * m + 2) v) as (s3 & E3 & M3 & R3); [lia|]
    end.
    exists s3. split; [exact E3|]. unfold P. split; [lia|].
    intros i c Hc. rewrite R3, R2, R1, Ps by exact Hc. unfold row. cbv zeta.
    destruct (Nat.ltb_spec i m), (Nat.ltb_spec i (S m));
      destruct (Nat.eqb_spec (3 * i + c) (3 * m)),
               (Nat.eqb_spec (3 * i + c) (3 * m + 1)),
               (Nat.eqb_spec (3 * i + c) (3 * m + 2));
      try lia;
      try (assert (i = m) by lia; subst i);
      try (assert (c = 0)%nat by lia; subst c);
      try (assert (c = 1)%nat by lia; subst c);
      try (assert (c = 2)%nat by lia; subst c);
      cbn [rd nth]; ring.
  - exists s. split; [exact E|]. intros i c Hi Hc. cbv zeta.
    rewrite Ps by exact Hc. destruct (Nat.ltb_spec i n); [reflexivity|lia].
Qed.

Lemma dfde_dot_six (dfde : list R) (e0 e1 e2 e3 e4 e5 : R) :
  StrainDeriv.dfde_dot dfde [e0; e1; e2; e3; e4; e5] =
  rd dfde 0 * e0 + rd dfde 1 * e1 + rd dfde 2 * e2 +
  rd dfde 3 * e3 + rd dfde 4 * e4 + rd dfde 5 * e5.
Proof.
  unfold StrainDeriv.dfde_dot, accum, accum_from.
  cbn [seq fold_left]. unfold rd at 2 4 6 8 10 12. cbn [nth]. ring.
Qed.

(** X19.  [addStrainDeriv], given the Jacobian that [evalStrain] returned, adds to
    [dfdu[3*i + c]] and [dfdubar[3*i + c]] the number [alpha] times the
    coefficient with which [vars[3*i + c]] and [ubar[3*i + c]] enter the
    product [dfde . e] of the strain that [evalStrain] computes: the routine
    is the transpose of the strain evaluation.  The orders are those for
    which both routines fill the enrichment arrays. *)
Theorem addStrainDeriv_adjoint (lib : Lib) (forest interp_forest : OctForest)
    (pt Xpts vars ubar : list R) (alpha : R) (dfde dfdu dfdubar : list R) :
  let order := oct_order forest in
  let len := (order * order * order)%nat in
  let nenrich := Enrich.getNum3dEnrich order in
  let strain u ub :=
    snd (fst (KS.evalStrain lib forest interp_forest pt Xpts u ub)) in
  let J := fst (fst (KS.evalStrain lib forest interp_forest pt Xpts vars ubar)) in
  (order = 2 \/ order = 3)%nat ->
  (3 * len <= length vars)%nat -> (3 * nenrich <= length ubar)%nat ->
  (3 * len <= length dfdu)%nat -> (3 * nenrich <= length dfdubar)%nat ->
  exists du dub,
    StrainDeriv.addStrainDeriv forest pt J alpha dfde dfdu dfdubar =
      Some (0, du, dub) /\
    (forall i c, (i < len)%nat -> (c < 3)%nat ->
       exists D,
         (forall t,
            StrainDeriv.dfde_dot dfde (strain (with_entry vars (3 * i + c) t) ubar) =
            StrainDeriv.dfde_dot dfde (strain vars ubar) +
            (t - rd vars (3 * i + c)) * D) /\
         rd du (3 * i + c) = rd dfdu (3 * i + c) + alpha * D) /\
    (forall i c, (i < nenrich)%nat -> (c < 3)%nat ->
       exists D,
         (forall t,
            StrainDeriv.dfde_dot dfde (strain vars (with_entry ubar (3 * i + c) t)) =
            StrainDeriv.dfde_dot dfde (strain vars ubar) +
            (t - rd ubar (3 * i + c)) * D) /\
         rd dub (3 * i + c) = rd dfdubar (3 * i + c) + alpha * D).
Proof.
  cbv zeta. intros _ Lv Lb Lu Lub.
  unfold StrainDeriv.addStrainDeriv, KS.evalStrain. cbv zeta. cbn [fst snd].
  set (order := oct_order forest) in *.
  set (f := oct_evalInterp forest pt).
  set (en := Enrich.evalEnrichmentFuncs3D order pt (Enrich.mk3D [] [] [] [])).
  match goal with |- context [fst (jacobian3d lib ?X)] =>
    set (J := fst (jacobian3d lib X))
  end.
  destruct (add_row_loop J alpha dfde (Enrich.Na3 f) (Enrich.Nb3 f) (Enrich.Nc3 f)
              (order * order * order) dfdu Lu) as (du & E1 & P1).
  destruct (add_row_loop J alpha dfde (Enrich.Na3 en) (Enrich.Nb3 en) (Enrich.Nc3 en)
              (Enrich.getNum3dEnrich order) dfdubar Lub) as (dub & E2 & P2).
  exists du, dub. rewrite E1. cbn [Mem.bind]. rewrite E2. cbn [Mem.bind].
  split; [reflexivity|]. split.
  - intros i c Hi Hc. eexists. split; [|apply P1; assumption].
    intros t. rewrite !dfde_dot_six.
    rewrite !accum_from_accum.
    rewrite !Ud_with_vars by (assumption || lia).
    destruct c as [|[|[|c]]]; [| | |lia]; cbn [Nat.eqb rd nth]; ring.
  - intros i c Hi Hc. eexists. split; [|apply P2; assumption].
    intros t. rewrite !dfde_dot_six.
    rewrite !accum_from_accum.
    rewrite !accum_with_entry_deriv by (assumption || lia).
    destruct c as [|[|[|c]]]; [| | |lia]; cbn [Nat.eqb rd nth]; ring.
Qed.

Lemma addStrainDeriv_adjoint_witness :
  let forest := Example.oct2 in
  let order := oct_order forest in
  let len := (order * order * order)%nat in
  let nenrich := Enrich.getNum3dEnrich order in
  let vars := repeat 1 24 in
  let ubar := repeat 1 27 in
  let dfdu := repeat 0 24 in
  let dfdubar := repeat 0 27 in
  let J := fst (fst (KS.evalStrain Example.lib forest Example.oct3 [0; 0; 0]
                       (repeat 0 81) vars ubar)) in
  ((order = 2 \/ order = 3)%nat /\
   (3 * len <= length vars)%nat /\ (3 * nenrich <= length ubar)%nat /\
   (3 * len <= length dfdu)%nat /\ (3 * nenrich <= length dfdubar)%nat) /\
  exists du dub,
    StrainDeriv.addStrainDeriv forest [0; 0; 0] J 2 [1; 1; 1; 1; 1; 1]
      dfdu dfdubar = Some (0, du, dub).
Proof.
  intros forest order len nenrich vars ubar dfdu dfdubar J.
  assert (L0 : (order = 2 \/ order = 3)%nat) by (left; reflexivity).
  assert (L1 : (3 * len <= length vars)%nat)
    by (unfold vars; rewrite repeat_length; cbn; lia).
  assert (L2 : (3 * nenrich <= length ubar)%nat)
    by (unfold ubar; rewrite repeat_length; cbn; lia).
  assert (L3 : (3 * len <= length dfdu)%nat)
    by (unfold dfdu; rewrite repeat_length; cbn; lia).
  assert (L4 : (3 * nenrich <= length dfdubar)%nat)
    by (unfold dfdubar; rewrite repeat_length; cbn; lia).
  split; [repeat split; assumption|].
  destruct (addStrainDeriv_adjoint Example.lib forest Example.oct3 [0; 0; 0]
              (repeat 0 81) vars ubar 2 [1; 1; 1; 1; 1; 1] dfdu dfdubar
              L0 L1 L2 L3 L4) as (du & dub & E & _).
  exists du, dub. exact E.
Defined.

